(** * Deterministic tick simulation engine: shallow embedding and checked properties

    The engine is TypeScript.  Its numbers are doubles; they are modelled
    as rationals ([Q]) where the source computes with fractions and as
    integers ([Z]) where the source only ever holds integers (tick
    counters, PRNG words, ammunition, bit flags).  Where the rounding of an
    operation decides what a function returns (the boxes of
    physics/aabb.ts, gravity and fall damage, the quantization of the
    checksum, the hits and the damage of a projectile) every operation is
    followed by [Js.fl], the rounding to the nearest double, and the
    decimal literals that reach such an operation are the doubles nearest
    to them; the other operations are written exact.  32-bit integer operators ([<<], [>>>],
    [^]) are written out with their wrap-around.  Optional properties of a
    JavaScript object are [option] fields; [undefined] is [None].

    Built-ins of the host that the source calls but does not define
    ([Math.sqrt], [Math.cos], [Math.sin], [String.prototype.localeCompare])
    are collected in the class [Host]; every definition that reaches one of
    them is parametric in it. *)

From Stdlib Require Import ZArith QArith Qround Qabs Qminmax Bool List String Ascii.
From Stdlib Require Import Lia Lqa Permutation Sorted DecimalString.
Import ListNotations.

Local Open Scope Z_scope.

(** ** Host built-ins *)

Class Host := {
  Math_sqrt : Q -> Q;
  Math_cos : Q -> Q;
  Math_sin : Q -> Q;
  (** [a.localeCompare(b)]: negative, zero or positive. *)
  localeCompare : string -> string -> comparison
}.

(** ** JavaScript number helpers *)

Module Js.

Definition two32 : Z := 4294967296.
Definition two31 : Z := 2147483648.

(** ToUint32 and ToInt32 of an integral number. *)
Definition toUint32 (z : Z) : Z := z mod two32.
Definition toInt32 (z : Z) : Z := (z + two31) mod two32 - two31.

(** [a << n], [a >>> n], [a ^ b] on 32-bit operands. *)
Definition shl (a n : Z) : Z := toInt32 (Z.shiftl (toInt32 a) n).
Definition ushr (a n : Z) : Z := Z.shiftr (toUint32 a) n.
Definition xor (a b : Z) : Z := toInt32 (Z.lxor (toInt32 a) (toInt32 b)).

(** Comparisons of numbers, as booleans. *)
Definition ltb (a b : Q) : bool := negb (Qle_bool b a).
Definition leb (a b : Q) : bool := Qle_bool a b.
Definition gtb (a b : Q) : bool := ltb b a.
Definition geb (a b : Q) : bool := leb b a.
Definition eqb (a b : Q) : bool := Qeq_bool a b.

(** [Math.floor], [Math.round] (half rounds up), [Math.abs], [Math.sign],
    [Math.min], [Math.max]. *)
Definition floor (a : Q) : Z := Qfloor a.
Definition round (a : Q) : Z := Qfloor (a + (1 # 2))%Q.
Definition abs (a : Q) : Q := Qabs a.
Definition sign (a : Q) : Q :=
  if ltb 0 a then 1%Q else if ltb a 0 then (-1)%Q else 0%Q.
Definition min (a b : Q) : Q := if ltb b a then b else a.
Definition max (a b : Q) : Q := if ltb a b then b else a.

(** *** Rounding to a double

    An arithmetic operation of the engine returns the double nearest to
    the exact result, a tie going to the even significand (IEEE 754
    binary64: 53 significant bits, exponents down to [-1074]).  [fl] is
    that rounding on the rationals.  A result beyond the largest double,
    which the engine holds as [Infinity], is not modelled.

    [roundHalfEven n d] is the integer nearest to [n / d], for [0 <= n]
    and [0 < d]. *)
Definition roundHalfEven (n d : Z) : Z :=
  let q := n / d in
  let r := n mod d in
  if 2 * r <? d then q
  else if d <? 2 * r then q + 1
  else if Z.even q then q else q + 1.

(** The double nearest to [n / d]: with [e] the exponent for which
    [2^52 <= (n / d) / 2^e < 2^53], or [-1074] when that is higher, it is
    [roundHalfEven ((n / d) / 2^e) * 2^e]. *)
Definition flPos (n d : positive) : Q :=
  let k := Z.log2 (Zpos n) - Z.log2 (Zpos d) in
  let above :=
    if 0 <=? k then Zpos d * 2 ^ k <=? Zpos n else Zpos d <=? Zpos n * 2 ^ (- k) in
  let e := Z.max (if above then k - 52 else k - 53) (-1074) in
  if 0 <=? e
  then inject_Z (roundHalfEven (Zpos n) (Zpos d * 2 ^ e) * 2 ^ e)
  else Qred (Qmake (roundHalfEven (Zpos n * 2 ^ (- e)) (Zpos d)) (Z.to_pos (2 ^ (- e)))).

Definition fl (q : Q) : Q :=
  match Qnum (Qred q) with
  | Z0 => 0%Q
  | Zpos n => flPos n (Qden (Qred q))
  | Zneg n => Qopp (flPos n (Qden (Qred q)))
  end.

(** The smallest positive double is 2^-1074; its denominator. *)
Definition ulp : positive := Z.to_pos (2 ^ 1074).

(** [v || d] for an optional number: [undefined] and [0] are falsy. *)
Definition orElse (v : option Q) (d : Q) : Q :=
  match v with
  | Some q => if eqb q 0 then d else q
  | None => d
  end.

Definition orElseZ (v : option Z) (d : Z) : Z :=
match v with
| Some z => if Z.eqb z 0 then d else z
| None => d
end.

(** Truthiness of an optional boolean. *)
Definition truthy (b : option bool) : bool :=
  match b with Some true => true | _ => false end.

End Js.

(** ** sim/prng.ts: Xorshift32 *)

Module PRNG.

(** The object has one private field, [state]. *)
Record t := mk { state : Z }.

Definition default_seed : Z := 0x12345678.

(** [constructor(seed) { this.state = seed || 0x12345678 }] *)
Definition new (seed : Z) : t :=
  mk (if Z.eqb seed 0 then default_seed else seed).

(** [next()]: three xor-shift steps, result converted to unsigned. *)
Definition next (p : t) : Z * t :=
  let s := state p in
  let s := Js.xor s (Js.shl s 13) in
  let s := Js.xor s (Js.ushr s 17) in
  let s := Js.xor s (Js.shl s 5) in
  (Js.ushr s 0, mk s).

(** [nextFloat() { return (this.next() >>> 0) / 0xffffffff }] *)
Definition nextFloat (p : t) : Q * t :=
  let '(n, p') := next p in
  (inject_Z (Js.ushr n 0) / inject_Z 0xffffffff, p')%Q.

(** [nextInt(min, max)] *)
Definition nextInt (min max : Z) (p : t) : Z * t :=
  let range := max - min + 1 in
  let '(f, p') := nextFloat p in
  (min + Js.floor (f * inject_Z range), p').

(** [nextBool(probability = 0.5)] *)
Definition nextBool (probability : Q) (p : t) : bool * t :=
  let '(f, p') := nextFloat p in
  (Js.ltb f probability, p').

Definition getState (p : t) : Z := state p.
Definition setState (s : Z) (_ : t) : t := mk s.

(** [createPRNG(seed?) { return new PRNG(seed || 0x12345678) }] *)
Definition createPRNG (seed : option Z) : t :=
  new (match seed with
       | Some s => if Z.eqb s 0 then default_seed else s
       | None => default_seed
       end).

End PRNG.

(** [randomInt(seed, min, max)] and [randomFloat(seed)]: one draw from a
    generator made for the occasion. *)
Definition randomInt (seed min max : Z) : Z :=
  fst (PRNG.nextInt min max (PRNG.new seed)).

Definition randomFloat (seed : Z) : Q :=
  fst (PRNG.nextFloat (PRNG.new seed)).

(** ** JavaScript objects used as string-keyed maps

    A [Record<string, A>] is kept as an association list in [Object.keys]
    order, which for keys that are not canonical array indices is insertion
    order; assigning to an existing key keeps its position.

    [get] reads the own properties.  The engine's [o[k]] also finds what
    [o] inherits from [Object.prototype]: for the names of
    [prototypeKeys] it gives a function or an object where [get] gives
    [None].  [inherited] tells these names. *)

Module Obj.

Definition t (A : Type) : Type := list (string * A).

Fixpoint get {A} (k : string) (o : t A) : option A :=
  match o with
  | [] => None
  | (k', v) :: r => if String.eqb k k' then Some v else get k r
  end.

Fixpoint set {A} (k : string) (v : A) (o : t A) : t A :=
  match o with
  | [] => [(k, v)]
  | (k', v') :: r =>
      if String.eqb k k' then (k, v) :: r else (k', v') :: set k v r
  end.

Definition keys {A} (o : t A) : list string := map fst o.

Definition prototypeKeys : list string :=
  [ "constructor"; "hasOwnProperty"; "isPrototypeOf"; "propertyIsEnumerable";
    "toLocaleString"; "toString"; "valueOf"; "__proto__";
    "__defineGetter__"; "__defineSetter__"; "__lookupGetter__";
    "__lookupSetter__" ]%string.

Definition inherited (k : string) : bool :=
  existsb (String.eqb k) prototypeKeys.

End Obj.

(** ** Arrays: first match, update of the first match *)

Module Arr.

Fixpoint find {A} (p : A -> bool) (l : list A) : option A :=
  match l with
  | [] => None
  | a :: r => if p a then Some a else find p r
  end.

(** [const e = arr.find(p); if (e) mutate(e)]: the array holds references,
    so the mutation shows in place. *)
Fixpoint update_first {A} (p : A -> bool) (f : A -> A) (l : list A) : list A :=
  match l with
  | [] => []
  | a :: r => if p a then f a :: r else a :: update_first p f r
  end.

(** [arr[i]] and [arr[i] = v] for an index inside the array. *)
Definition get {A} (i : nat) (l : list A) : option A := nth_error l i.

Fixpoint set {A} (i : nat) (v : A) (l : list A) : list A :=
  match l, i with
  | [], _ => []
  | _ :: r, O => v :: r
  | a :: r, S i' => a :: set i' v r
  end.

(** [Array.prototype.sort(cmp)] is stable; a stable insertion sort gives
    its result whenever [cmp] is a consistent ordering. *)
Fixpoint insert {A} (cmp : A -> A -> comparison) (a : A) (l : list A) : list A :=
  match l with
  | [] => [a]
  | b :: r =>
      match cmp a b with
      | Gt => b :: insert cmp a r
      | _ => a :: b :: r
      end
  end.

Fixpoint sort {A} (cmp : A -> A -> comparison) (l : list A) : list A :=
  match l with
  | [] => []
  | a :: r => insert cmp a (sort cmp r)
  end.

End Arr.

(** ** weapon/types.ts *)

Inductive WeaponType := AR | Shotgun | Sniper | SMG | Pickaxe.

Definition WeaponType_eqb (a b : WeaponType) : bool :=
  match a, b with
  | AR, AR | Shotgun, Shotgun | Sniper, Sniper | SMG, SMG | Pickaxe, Pickaxe => true
  | _, _ => false
  end.

Record WeaponStat := {
  damage : Q;
  rpm : Q;
  spread : Q;
  projectileSpeed : Q;
  pellets : Z;
  range : Q;
  headshotMultiplier : Q;
  ammoPerShot : Z;
  magazineSize : Z;
  reloadTime : Z
}.

Record WeaponConfig := {
  wc_id : string;
  wc_type : WeaponType;
  stats : WeaponStat
}.

Record WeaponState := {
  weaponId : string;
  currentAmmo : Z;
  isReloading : bool;
  reloadTicksRemaining : Z
}.

Definition WEAPON_CONFIGS : Obj.t WeaponConfig := [
  ("ar_standard"%string,
   {| wc_id := "ar_standard"; wc_type := AR;
      stats := {| damage := 25; rpm := 600; spread := 5 # 100;
                  projectileSpeed := 50; pellets := 1; range := 100;
                  headshotMultiplier := 15 # 10; ammoPerShot := 1;
                  magazineSize := 30; reloadTime := 60 |} |});
  ("shotgun_pump"%string,
   {| wc_id := "shotgun_pump"; wc_type := Shotgun;
      stats := {| damage := 20; rpm := 70; spread := 15 # 100;
                  projectileSpeed := 40; pellets := 8; range := 20;
                  headshotMultiplier := 125 # 100; ammoPerShot := 1;
                  magazineSize := 6; reloadTime := 80 |} |});
  ("sniper_bolt"%string,
   {| wc_id := "sniper_bolt"; wc_type := Sniper;
      stats := {| damage := 100; rpm := 40; spread := 1 # 100;
                  projectileSpeed := 80; pellets := 1; range := 200;
                  headshotMultiplier := 2; ammoPerShot := 1;
                  magazineSize := 5; reloadTime := 100 |} |});
  ("smg_compact"%string,
   {| wc_id := "smg_compact"; wc_type := SMG;
      stats := {| damage := 15; rpm := 900; spread := 8 # 100;
                  projectileSpeed := 45; pellets := 1; range := 50;
                  headshotMultiplier := Js.fl (13 # 10); ammoPerShot := 1;
                  magazineSize := 25; reloadTime := 50 |} |});
  ("pickaxe_standard"%string,
   {| wc_id := "pickaxe_standard"; wc_type := Pickaxe;
      stats := {| damage := 75; rpm := 60; spread := 2 # 10;
                  projectileSpeed := 0; pellets := 1; range := 2;
                  headshotMultiplier := 1; ammoPerShot := 0;
                  magazineSize := 0; reloadTime := 0 |} |})
].

(** [getWeaponConfig] throws on an unknown id: [None].  For an id that
    names a member of [Object.prototype] the engine returns that member,
    and its caller throws at [config.stats]; here the lookup fails. *)
Definition getWeaponConfig (weaponId : string) : option WeaponConfig :=
  Obj.get weaponId WEAPON_CONFIGS.

(** ** player/inventory.ts: the inventory record *)

Module Inventory.

Record t := mk {
  weapons : list WeaponState;
  activeWeaponSlot : Z;
  reserveAmmo : Obj.t Z
}.

End Inventory.

(** ** state.ts: data model *)

Inductive EntityType := player | bullet | build_piece | item.

Definition EntityType_eqb (a b : EntityType) : bool :=
  match a, b with
  | player, player | bullet, bullet | build_piece, build_piece | item, item => true
  | _, _ => false
  end.

Record JumpState := {
  jumpStartTick : option Z;
  jumpVel : option Q
}.

Module Entity.

Record t := mk {
  id : string;
  type : EntityType;
  x : Q;
  y : Q;
  w : Q;
  h : Q;
  vx : Q;
  vy : Q;
  hp : Q;
  lifetime : option Q;
  owner : option string;
  inventory : option Inventory.t;
  material : option string;
  buildType : option string;
  rot : option Q;
  editState : option Z;
  itemType : option string;
  respawnTime : option Q;
  team : option Z;
  isCrouching : option bool;
  isSprinting : option bool;
  onGround : option bool;
  jumpState : option JumpState;
  fallStartY : option Q;
  movementMomentum : option Q;
  maxWalkSpeed : option Q;
  walkAccel : option Q;
  airControlFactor : option Q;
  crouchSpeedMultiplier : option Q;
  sprintSpeedMultiplier : option Q
}.

Definition set_x (v : Q) (e : t) : t :=
  {| id := id e; type := type e; x := v; y := y e; w := w e; h := h e; vx
     := vx e; vy := vy e; hp := hp e; lifetime := lifetime e; owner :=
     owner e; inventory := inventory e; material := material e; buildType
     := buildType e; rot := rot e; editState := editState e; itemType :=
     itemType e; respawnTime := respawnTime e; team := team e; isCrouching
     := isCrouching e; isSprinting := isSprinting e; onGround := onGround
     e; jumpState := jumpState e; fallStartY := fallStartY e;
     movementMomentum := movementMomentum e; maxWalkSpeed := maxWalkSpeed
     e; walkAccel := walkAccel e; airControlFactor := airControlFactor e;
     crouchSpeedMultiplier := crouchSpeedMultiplier e;
     sprintSpeedMultiplier := sprintSpeedMultiplier e |}.

Definition set_y (v : Q) (e : t) : t :=
  {| id := id e; type := type e; x := x e; y := v; w := w e; h := h e; vx
     := vx e; vy := vy e; hp := hp e; lifetime := lifetime e; owner :=
     owner e; inventory := inventory e; material := material e; buildType
     := buildType e; rot := rot e; editState := editState e; itemType :=
     itemType e; respawnTime := respawnTime e; team := team e; isCrouching
     := isCrouching e; isSprinting := isSprinting e; onGround := onGround
     e; jumpState := jumpState e; fallStartY := fallStartY e;
     movementMomentum := movementMomentum e; maxWalkSpeed := maxWalkSpeed
     e; walkAccel := walkAccel e; airControlFactor := airControlFactor e;
     crouchSpeedMultiplier := crouchSpeedMultiplier e;
     sprintSpeedMultiplier := sprintSpeedMultiplier e |}.

Definition set_vx (v : Q) (e : t) : t :=
  {| id := id e; type := type e; x := x e; y := y e; w := w e; h := h e;
     vx := v; vy := vy e; hp := hp e; lifetime := lifetime e; owner :=
     owner e; inventory := inventory e; material := material e; buildType
     := buildType e; rot := rot e; editState := editState e; itemType :=
     itemType e; respawnTime := respawnTime e; team := team e; isCrouching
     := isCrouching e; isSprinting := isSprinting e; onGround := onGround
     e; jumpState := jumpState e; fallStartY := fallStartY e;
     movementMomentum := movementMomentum e; maxWalkSpeed := maxWalkSpeed
     e; walkAccel := walkAccel e; airControlFactor := airControlFactor e;
     crouchSpeedMultiplier := crouchSpeedMultiplier e;
     sprintSpeedMultiplier := sprintSpeedMultiplier e |}.

Definition set_vy (v : Q) (e : t) : t :=
  {| id := id e; type := type e; x := x e; y := y e; w := w e; h := h e;
     vx := vx e; vy := v; hp := hp e; lifetime := lifetime e; owner :=
     owner e; inventory := inventory e; material := material e; buildType
     := buildType e; rot := rot e; editState := editState e; itemType :=
     itemType e; respawnTime := respawnTime e; team := team e; isCrouching
     := isCrouching e; isSprinting := isSprinting e; onGround := onGround
     e; jumpState := jumpState e; fallStartY := fallStartY e;
     movementMomentum := movementMomentum e; maxWalkSpeed := maxWalkSpeed
     e; walkAccel := walkAccel e; airControlFactor := airControlFactor e;
     crouchSpeedMultiplier := crouchSpeedMultiplier e;
     sprintSpeedMultiplier := sprintSpeedMultiplier e |}.

Definition set_hp (v : Q) (e : t) : t :=
  {| id := id e; type := type e; x := x e; y := y e; w := w e; h := h e;
     vx := vx e; vy := vy e; hp := v; lifetime := lifetime e; owner :=
     owner e; inventory := inventory e; material := material e; buildType
     := buildType e; rot := rot e; editState := editState e; itemType :=
     itemType e; respawnTime := respawnTime e; team := team e; isCrouching
     := isCrouching e; isSprinting := isSprinting e; onGround := onGround
     e; jumpState := jumpState e; fallStartY := fallStartY e;
     movementMomentum := movementMomentum e; maxWalkSpeed := maxWalkSpeed
     e; walkAccel := walkAccel e; airControlFactor := airControlFactor e;
     crouchSpeedMultiplier := crouchSpeedMultiplier e;
     sprintSpeedMultiplier := sprintSpeedMultiplier e |}.

Definition set_lifetime (v : option Q) (e : t) : t :=
  {| id := id e; type := type e; x := x e; y := y e; w := w e; h := h e;
     vx := vx e; vy := vy e; hp := hp e; lifetime := v; owner := owner e;
     inventory := inventory e; material := material e; buildType :=
     buildType e; rot := rot e; editState := editState e; itemType :=
     itemType e; respawnTime := respawnTime e; team := team e; isCrouching
     := isCrouching e; isSprinting := isSprinting e; onGround := onGround
     e; jumpState := jumpState e; fallStartY := fallStartY e;
     movementMomentum := movementMomentum e; maxWalkSpeed := maxWalkSpeed
     e; walkAccel := walkAccel e; airControlFactor := airControlFactor e;
     crouchSpeedMultiplier := crouchSpeedMultiplier e;
     sprintSpeedMultiplier := sprintSpeedMultiplier e |}.

Definition set_inventory (v : option Inventory.t) (e : t) : t :=
  {| id := id e; type := type e; x := x e; y := y e; w := w e; h := h e;
     vx := vx e; vy := vy e; hp := hp e; lifetime := lifetime e; owner :=
     owner e; inventory := v; material := material e; buildType :=
     buildType e; rot := rot e; editState := editState e; itemType :=
     itemType e; respawnTime := respawnTime e; team := team e; isCrouching
     := isCrouching e; isSprinting := isSprinting e; onGround := onGround
     e; jumpState := jumpState e; fallStartY := fallStartY e;
     movementMomentum := movementMomentum e; maxWalkSpeed := maxWalkSpeed
     e; walkAccel := walkAccel e; airControlFactor := airControlFactor e;
     crouchSpeedMultiplier := crouchSpeedMultiplier e;
     sprintSpeedMultiplier := sprintSpeedMultiplier e |}.

Definition set_isCrouching (v : option bool) (e : t) : t :=
  {| id := id e; type := type e; x := x e; y := y e; w := w e; h := h e;
     vx := vx e; vy := vy e; hp := hp e; lifetime := lifetime e; owner :=
     owner e; inventory := inventory e; material := material e; buildType
     := buildType e; rot := rot e; editState := editState e; itemType :=
     itemType e; respawnTime := respawnTime e; team := team e; isCrouching
     := v; isSprinting := isSprinting e; onGround := onGround e; jumpState
     := jumpState e; fallStartY := fallStartY e; movementMomentum :=
     movementMomentum e; maxWalkSpeed := maxWalkSpeed e; walkAccel :=
     walkAccel e; airControlFactor := airControlFactor e;
     crouchSpeedMultiplier := crouchSpeedMultiplier e;
     sprintSpeedMultiplier := sprintSpeedMultiplier e |}.

Definition set_isSprinting (v : option bool) (e : t) : t :=
  {| id := id e; type := type e; x := x e; y := y e; w := w e; h := h e;
     vx := vx e; vy := vy e; hp := hp e; lifetime := lifetime e; owner :=
     owner e; inventory := inventory e; material := material e; buildType
     := buildType e; rot := rot e; editState := editState e; itemType :=
     itemType e; respawnTime := respawnTime e; team := team e; isCrouching
     := isCrouching e; isSprinting := v; onGround := onGround e; jumpState
     := jumpState e; fallStartY := fallStartY e; movementMomentum :=
     movementMomentum e; maxWalkSpeed := maxWalkSpeed e; walkAccel :=
     walkAccel e; airControlFactor := airControlFactor e;
     crouchSpeedMultiplier := crouchSpeedMultiplier e;
     sprintSpeedMultiplier := sprintSpeedMultiplier e |}.

Definition set_onGround (v : option bool) (e : t) : t :=
  {| id := id e; type := type e; x := x e; y := y e; w := w e; h := h e;
     vx := vx e; vy := vy e; hp := hp e; lifetime := lifetime e; owner :=
     owner e; inventory := inventory e; material := material e; buildType
     := buildType e; rot := rot e; editState := editState e; itemType :=
     itemType e; respawnTime := respawnTime e; team := team e; isCrouching
     := isCrouching e; isSprinting := isSprinting e; onGround := v;
     jumpState := jumpState e; fallStartY := fallStartY e;
     movementMomentum := movementMomentum e; maxWalkSpeed := maxWalkSpeed
     e; walkAccel := walkAccel e; airControlFactor := airControlFactor e;
     crouchSpeedMultiplier := crouchSpeedMultiplier e;
     sprintSpeedMultiplier := sprintSpeedMultiplier e |}.

Definition set_jumpState (v : option JumpState) (e : t) : t :=
  {| id := id e; type := type e; x := x e; y := y e; w := w e; h := h e;
     vx := vx e; vy := vy e; hp := hp e; lifetime := lifetime e; owner :=
     owner e; inventory := inventory e; material := material e; buildType
     := buildType e; rot := rot e; editState := editState e; itemType :=
     itemType e; respawnTime := respawnTime e; team := team e; isCrouching
     := isCrouching e; isSprinting := isSprinting e; onGround := onGround
     e; jumpState := v; fallStartY := fallStartY e; movementMomentum :=
     movementMomentum e; maxWalkSpeed := maxWalkSpeed e; walkAccel :=
     walkAccel e; airControlFactor := airControlFactor e;
     crouchSpeedMultiplier := crouchSpeedMultiplier e;
     sprintSpeedMultiplier := sprintSpeedMultiplier e |}.

Definition set_fallStartY (v : option Q) (e : t) : t :=
  {| id := id e; type := type e; x := x e; y := y e; w := w e; h := h e;
     vx := vx e; vy := vy e; hp := hp e; lifetime := lifetime e; owner :=
     owner e; inventory := inventory e; material := material e; buildType
     := buildType e; rot := rot e; editState := editState e; itemType :=
     itemType e; respawnTime := respawnTime e; team := team e; isCrouching
     := isCrouching e; isSprinting := isSprinting e; onGround := onGround
     e; jumpState := jumpState e; fallStartY := v; movementMomentum :=
     movementMomentum e; maxWalkSpeed := maxWalkSpeed e; walkAccel :=
     walkAccel e; airControlFactor := airControlFactor e;
     crouchSpeedMultiplier := crouchSpeedMultiplier e;
     sprintSpeedMultiplier := sprintSpeedMultiplier e |}.

Definition set_movementMomentum (v : option Q) (e : t) : t :=
  {| id := id e; type := type e; x := x e; y := y e; w := w e; h := h e;
     vx := vx e; vy := vy e; hp := hp e; lifetime := lifetime e; owner :=
     owner e; inventory := inventory e; material := material e; buildType
     := buildType e; rot := rot e; editState := editState e; itemType :=
     itemType e; respawnTime := respawnTime e; team := team e; isCrouching
     := isCrouching e; isSprinting := isSprinting e; onGround := onGround
     e; jumpState := jumpState e; fallStartY := fallStartY e;
     movementMomentum := v; maxWalkSpeed := maxWalkSpeed e; walkAccel :=
     walkAccel e; airControlFactor := airControlFactor e;
     crouchSpeedMultiplier := crouchSpeedMultiplier e;
     sprintSpeedMultiplier := sprintSpeedMultiplier e |}.


End Entity.

Module Input.

Record t := mk {
  seq : Z;
  clientId : string;
  dx : Q;
  dy : Q;
  shoot : option bool;
  jump : option bool;
  crouch : option bool;
  sprint : option bool
}.

End Input.

Module State.

Record t := mk {
  tick : Z;
  entities : list Entity.t;
  rng : option Z;
  lastChecksum : option string
}.

End State.

(** ** player/inventory.ts: default loadout *)

Definition createDefaultInventory : Inventory.t :=
  {| Inventory.weapons :=
       [ {| weaponId := "pickaxe_standard"; currentAmmo := 0;
            isReloading := false; reloadTicksRemaining := 0 |};
         {| weaponId := "ar_standard"; currentAmmo := 30;
            isReloading := false; reloadTicksRemaining := 0 |} ];
     Inventory.activeWeaponSlot := 0;
     Inventory.reserveAmmo := [("ar_standard"%string, 90)] |}.

(** ** state.ts: constructors *)

Definition createState (startTick : Z) (seed : option Z) : State.t :=
  {| State.tick := startTick;
     State.entities := [];
     State.rng := seed;
     State.lastChecksum := None |}.

Definition createPlayer (id : string) (x y : Q) : Entity.t :=
  {| Entity.id := id;
     Entity.type := player;
     Entity.x := x; Entity.y := y; Entity.w := 1; Entity.h := Js.fl (18 # 10);
     Entity.vx := 0; Entity.vy := 0; Entity.hp := 100;
     Entity.lifetime := None;
     Entity.owner := None;
     Entity.inventory := Some createDefaultInventory;
     Entity.material := None;
     Entity.buildType := None;
     Entity.rot := None;
     Entity.editState := None;
     Entity.itemType := None;
     Entity.respawnTime := None;
     Entity.team := None;
     Entity.isCrouching := Some false;
     Entity.isSprinting := Some false;
     Entity.onGround := Some true;
     Entity.jumpState := Some {| jumpStartTick := None; jumpVel := None |};
     Entity.fallStartY := None;
     Entity.movementMomentum := Some 0%Q;
     Entity.maxWalkSpeed := Some 5%Q;
     Entity.walkAccel := Some 20%Q;
     Entity.airControlFactor := Some (3 # 10)%Q;
     Entity.crouchSpeedMultiplier := Some (5 # 10)%Q;
     Entity.sprintSpeedMultiplier := Some (18 # 10)%Q |}.

Definition createBullet (id owner : string) (x y vx vy : Q) (lifetime : Q) : Entity.t :=
  {| Entity.id := id;
     Entity.type := bullet;
     Entity.x := x; Entity.y := y; Entity.w := 2 # 10; Entity.h := 2 # 10;
     Entity.vx := vx; Entity.vy := vy; Entity.hp := 1;
     Entity.lifetime := Some lifetime;
     Entity.owner := Some owner;
     Entity.inventory := None;
     Entity.material := None;
     Entity.buildType := None;
     Entity.rot := None;
     Entity.editState := None;
     Entity.itemType := None;
     Entity.respawnTime := None;
     Entity.team := None;
     Entity.isCrouching := None;
     Entity.isSprinting := None;
     Entity.onGround := None;
     Entity.jumpState := None;
     Entity.fallStartY := None;
     Entity.movementMomentum := None;
     Entity.maxWalkSpeed := None;
     Entity.walkAccel := None;
     Entity.airControlFactor := None;
     Entity.crouchSpeedMultiplier := None;
     Entity.sprintSpeedMultiplier := None |}.

Definition createBuildPiece (id owner buildType material : string)
    (x y w h rot hp : Q) : Entity.t :=
  {| Entity.id := id;
     Entity.type := build_piece;
     Entity.x := x; Entity.y := y; Entity.w := w; Entity.h := h;
     Entity.vx := 0; Entity.vy := 0; Entity.hp := hp;
     Entity.lifetime := None;
     Entity.owner := Some owner;
     Entity.inventory := None;
     Entity.material := Some material;
     Entity.buildType := Some buildType;
     Entity.rot := Some rot;
     Entity.editState := Some 0;
     Entity.itemType := None;
     Entity.respawnTime := None;
     Entity.team := None;
     Entity.isCrouching := None;
     Entity.isSprinting := None;
     Entity.onGround := None;
     Entity.jumpState := None;
     Entity.fallStartY := None;
     Entity.movementMomentum := None;
     Entity.maxWalkSpeed := None;
     Entity.walkAccel := None;
     Entity.airControlFactor := None;
     Entity.crouchSpeedMultiplier := None;
     Entity.sprintSpeedMultiplier := None |}.

(** ** state.ts: snapshots *)

Module Snapshot.

(** One element of [Snapshot.entities]: the properties [serializeSnapshot]
    writes, in its order. *)
Record entity := mkEntity {
  id : string;
  type : EntityType;
  x : Q;
  y : Q;
  w : Q;
  h : Q;
  vx : Q;
  vy : Q;
  hp : Q;
  lifetime : option Q;
  owner : option string;
  inventory : option Inventory.t;
  material : option string;
  buildType : option string;
  rot : option Q;
  editState : option Z;
  isCrouching : option bool;
  isSprinting : option bool;
  onGround : option bool;
  jumpState : option JumpState;
  fallStartY : option Q;
  movementMomentum : option Q;
  maxWalkSpeed : option Q;
  walkAccel : option Q;
  airControlFactor : option Q;
  crouchSpeedMultiplier : option Q;
  sprintSpeedMultiplier : option Q
}.

Record t := mk {
  tick : Z;
  entities : list entity
}.

End Snapshot.

(** [serializeSnapshot]: the object handed to [JSON.stringify].  The JSON text
    is represented by this document: [JSON.parse (JSON.stringify d)] gives [d]
    back for a document of strings, booleans, rationals and omitted
    ([undefined]) members. *)
Definition serializeEntity (e : Entity.t) : Snapshot.entity :=
  {| Snapshot.id := Entity.id e;
     Snapshot.type := Entity.type e;
     Snapshot.x := Entity.x e;
     Snapshot.y := Entity.y e;
     Snapshot.w := Entity.w e;
     Snapshot.h := Entity.h e;
     Snapshot.vx := Entity.vx e;
     Snapshot.vy := Entity.vy e;
     Snapshot.hp := Entity.hp e;
     Snapshot.lifetime := Entity.lifetime e;
     Snapshot.owner := Entity.owner e;
     Snapshot.inventory := Entity.inventory e;
     Snapshot.material := Entity.material e;
     Snapshot.buildType := Entity.buildType e;
     Snapshot.rot := Entity.rot e;
     Snapshot.editState := Entity.editState e;
     Snapshot.isCrouching := Entity.isCrouching e;
     Snapshot.isSprinting := Entity.isSprinting e;
     Snapshot.onGround := Entity.onGround e;
     Snapshot.jumpState := Entity.jumpState e;
     Snapshot.fallStartY := Entity.fallStartY e;
     Snapshot.movementMomentum := Entity.movementMomentum e;
     Snapshot.maxWalkSpeed := Entity.maxWalkSpeed e;
     Snapshot.walkAccel := Entity.walkAccel e;
     Snapshot.airControlFactor := Entity.airControlFactor e;
     Snapshot.crouchSpeedMultiplier := Entity.crouchSpeedMultiplier e;
     Snapshot.sprintSpeedMultiplier := Entity.sprintSpeedMultiplier e |}.

Definition serializeSnapshot (state : State.t) : Snapshot.t :=
  {| Snapshot.tick := State.tick state;
     Snapshot.entities := map serializeEntity (State.entities state) |}.

(** [deserializeSnapshot]: the mapping over [snap.entities]. *)
Definition deserializeEntity (e : Snapshot.entity) : Entity.t :=
  match Snapshot.type e with
  | bullet =>
    {| Entity.id := Snapshot.id e;
       Entity.type := bullet;
       Entity.x := Snapshot.x e;
       Entity.y := Snapshot.y e;
       Entity.w := Snapshot.w e;
       Entity.h := Snapshot.h e;
       Entity.vx := Snapshot.vx e;
       Entity.vy := Snapshot.vy e;
       Entity.hp := Snapshot.hp e;
       Entity.lifetime := Snapshot.lifetime e;
       Entity.owner := Snapshot.owner e;
       Entity.inventory := None;
       Entity.material := None;
       Entity.buildType := None;
       Entity.rot := None;
       Entity.editState := None;
       Entity.itemType := None;
       Entity.respawnTime := None;
       Entity.team := None;
       Entity.isCrouching := None;
       Entity.isSprinting := None;
       Entity.onGround := None;
       Entity.jumpState := None;
       Entity.fallStartY := None;
       Entity.movementMomentum := None;
       Entity.maxWalkSpeed := None;
       Entity.walkAccel := None;
       Entity.airControlFactor := None;
       Entity.crouchSpeedMultiplier := None;
       Entity.sprintSpeedMultiplier := None |}
  | build_piece =>
    {| Entity.id := Snapshot.id e;
       Entity.type := build_piece;
       Entity.x := Snapshot.x e;
       Entity.y := Snapshot.y e;
       Entity.w := Snapshot.w e;
       Entity.h := Snapshot.h e;
       Entity.vx := Snapshot.vx e;
       Entity.vy := Snapshot.vy e;
       Entity.hp := Snapshot.hp e;
       Entity.lifetime := None;
       Entity.owner := Snapshot.owner e;
       Entity.inventory := None;
       Entity.material := Snapshot.material e;
       Entity.buildType := Snapshot.buildType e;
       Entity.rot := Some (Js.orElse (Snapshot.rot e) 0);
       Entity.editState := Some (Js.orElseZ (Snapshot.editState e) 0);
       Entity.itemType := None;
       Entity.respawnTime := None;
       Entity.team := None;
       Entity.isCrouching := None;
       Entity.isSprinting := None;
       Entity.onGround := None;
       Entity.jumpState := None;
       Entity.fallStartY := None;
       Entity.movementMomentum := None;
       Entity.maxWalkSpeed := None;
       Entity.walkAccel := None;
       Entity.airControlFactor := None;
       Entity.crouchSpeedMultiplier := None;
       Entity.sprintSpeedMultiplier := None |}
  | _ =>
    (* Default to player *)
    {| Entity.id := Snapshot.id e;
       Entity.type := player;
       Entity.x := Snapshot.x e;
       Entity.y := Snapshot.y e;
       Entity.w := Snapshot.w e;
       Entity.h := Snapshot.h e;
       Entity.vx := Snapshot.vx e;
       Entity.vy := Snapshot.vy e;
       Entity.hp := Snapshot.hp e;
       Entity.lifetime := None;
       Entity.owner := None;
       Entity.inventory := Snapshot.inventory e;
       Entity.material := None;
       Entity.buildType := None;
       Entity.rot := None;
       Entity.editState := None;
       Entity.itemType := None;
       Entity.respawnTime := None;
       Entity.team := None;
       Entity.isCrouching := Snapshot.isCrouching e;
       Entity.isSprinting := Snapshot.isSprinting e;
       Entity.onGround := Snapshot.onGround e;
       Entity.jumpState := Snapshot.jumpState e;
       Entity.fallStartY := Snapshot.fallStartY e;
       Entity.movementMomentum := Snapshot.movementMomentum e;
       Entity.maxWalkSpeed := Snapshot.maxWalkSpeed e;
       Entity.walkAccel := Snapshot.walkAccel e;
       Entity.airControlFactor := Snapshot.airControlFactor e;
       Entity.crouchSpeedMultiplier := Snapshot.crouchSpeedMultiplier e;
       Entity.sprintSpeedMultiplier := Snapshot.sprintSpeedMultiplier e |}
  end.

Definition deserializeSnapshot (json : Snapshot.t) : State.t :=
  {| State.tick := Snapshot.tick json;
     State.entities := map deserializeEntity (Snapshot.entities json);
     State.rng := None;
     State.lastChecksum := None |}.


(** ** state.ts: clone, shallow input application, reconcile *)

(** [{ ...e }] copies every own property of the entity. *)
Definition cloneState (state : State.t) : State.t :=
  {| State.tick := State.tick state;
     State.entities := map (fun e => e) (State.entities state);
     State.rng := State.rng state;
     State.lastChecksum := State.lastChecksum state |}.

Definition isPlayerWithId (clientId : string) (x : Entity.t) : bool :=
  String.eqb (Entity.id x) clientId && EntityType_eqb (Entity.type x) player.

(** Body of the first loop of [applyInputsShallow] for one client. *)
Definition applyInput (input : Input.t) (dt : Q) (ent : Entity.t) : Entity.t :=
  let ent := Entity.set_vx (Input.dx input) ent in
  let ent := Entity.set_vy (Input.dy input) ent in
  let ent := Entity.set_x (Entity.x ent + Entity.vx ent * dt) ent in
  let ent := Entity.set_y (Entity.y ent + Entity.vy ent * dt) ent in
  ent.

(** Second loop of [applyInputsShallow].  It walks the array from the last
    index down and splices expired bullets out; every element is visited
    once and the survivors keep their order. *)
Fixpoint advanceBullets (dt : Q) (l : list Entity.t) : list Entity.t :=
  match l with
  | [] => []
  | e :: r =>
      let r' := advanceBullets dt r in
      if EntityType_eqb (Entity.type e) bullet then
        let e := Entity.set_x (Entity.x e + Entity.vx e * dt) e in
        let e := Entity.set_y (Entity.y e + Entity.vy e * dt) e in
        match Entity.lifetime e with
        | Some lt =>
            let e := Entity.set_lifetime (Some (lt - 1)%Q) e in
            if Js.leb (lt - 1) 0 then r' else e :: r'
        | None => e :: r'
        end
      else e :: r'
  end.

Definition applyInputsShallow (state : State.t) (inputs : Obj.t Input.t) (dt : Q)
  : State.t :=
  let next := cloneState state in
  let ents :=
    fold_left
      (fun ents (kv : string * Input.t) =>
         let '(clientId, input) := kv in
         Arr.update_first (isPlayerWithId clientId) (applyInput input dt) ents)
      inputs (State.entities next) in
  {| State.tick := State.tick state + 1;
     State.entities := advanceBullets dt ents;
     State.rng := State.rng next;
     State.lastChecksum := State.lastChecksum next |}.

(** [reconcile(snapshotJson, bufferedInputs, tickRate)].  At [tickRate] 0
    the engine's [dt] is [Infinity], which the rationals do not have, and
    the division below gives 0: the facts about [reconcile] are stated for
    the other rates. *)
Definition reconcile (snapshotJson : Snapshot.t) (bufferedInputs : list (Obj.t Input.t))
    (tickRate : Q) : State.t :=
  let state := deserializeSnapshot snapshotJson in
  let dt := (1 / tickRate)%Q in
  fold_left (fun state inputs => applyInputsShallow state inputs dt)
    bufferedInputs state.

(** ** physics/aabb.ts *)

Module AABB.

Local Open Scope Q_scope.

Record t := mk { x : Q; y : Q; w : Q; h : Q }.

Definition intersects (a b : t) : bool :=
  negb (Js.leb (Js.fl (x a + w a)) (x b) || Js.leb (Js.fl (x b + w b)) (x a)
        || Js.leb (Js.fl (y a + h a)) (y b) || Js.leb (Js.fl (y b + h b)) (y a)).

Definition resolve (a b : t) : Q * Q :=
  let ax := Js.fl (x a + Js.fl (w a / 2)) in
  let ay := Js.fl (y a + Js.fl (h a / 2)) in
  let bx := Js.fl (x b + Js.fl (w b / 2)) in
  let byy := Js.fl (y b + Js.fl (h b / 2)) in
  let dx := Js.fl (ax - bx) in
  let dy := Js.fl (ay - byy) in
  let px := Js.fl (Js.fl (Js.fl (w a + w b) / 2) - Js.abs dx) in
  let py := Js.fl (Js.fl (Js.fl (h a + h b) / 2) - Js.abs dy) in
  if Js.leb px 0 || Js.leb py 0 then (0, 0)
  else
    let eps := Js.fl (1 # 1000000) in
    if Js.ltb px py then
      let val := if Js.gtb dx 0 then px else - px in
      (Js.fl (val + (if Js.gtb val 0 then eps else - eps)), 0)
    else
      let val := if Js.gtb dy 0 then py else - py in
      (0, Js.fl (val + (if Js.gtb val 0 then eps else - eps))).

End AABB.

(** The box [{ x: e.x, y: e.y, w: e.w, h: e.h }] of an entity. *)
Definition boxOf (e : Entity.t) : AABB.t :=
  AABB.mk (Entity.x e) (Entity.y e) (Entity.w e) (Entity.h e).

(** ** player/movement.ts *)

Definition GRAVITY : Q := 20.
Definition JUMP_IMPULSE : Q := 8.
Definition FRICTION : Q := 15.
Definition AIR_RESISTANCE : Q := 2.
Definition SLIDE_IMPULSE : Q := 3.
Definition FALL_DAMAGE_THRESHOLD : Q := 10.
Definition FALL_DAMAGE_RATE : Q := 5.

Section Movement.

Context {host : Host}.

Local Open Scope Q_scope.

(** Shared by ground and air movement: step the velocity towards the
    desired one by at most [step] on each axis.  Both differences are taken
    before either component is written. *)
Definition accelerateTowards (desiredVx desiredVy step : Q) (entity : Entity.t)
  : Entity.t :=
  let dvx := desiredVx - Entity.vx entity in
  let dvy := desiredVy - Entity.vy entity in
  let entity :=
    Entity.set_vx (Entity.vx entity + Js.sign dvx * Js.min (Js.abs dvx) step) entity in
  let entity :=
    Entity.set_vy (Entity.vy entity + Js.sign dvy * Js.min (Js.abs dvy) step) entity in
  entity.

Definition applyFriction (frictionForce : Q) (entity : Entity.t) : Entity.t :=
  let entity :=
    if Js.ltb (Js.abs (Entity.vx entity)) frictionForce
    then Entity.set_vx 0 entity
    else Entity.set_vx (Entity.vx entity - Js.sign (Entity.vx entity) * frictionForce) entity in
  let entity :=
    if Js.ltb (Js.abs (Entity.vy entity)) frictionForce
    then Entity.set_vy 0 entity
    else Entity.set_vy (Entity.vy entity - Js.sign (Entity.vy entity) * frictionForce) entity in
  entity.

Definition applyGroundMovement (entity : Entity.t) (input : Input.t) (dt : Q)
  : Entity.t :=
  if negb (Js.truthy (Entity.onGround entity)) then entity
  else
    let maxSpeed := Js.orElse (Entity.maxWalkSpeed entity) 5 in
    let accel := Js.orElse (Entity.walkAccel entity) 20 in
    let speedMultiplier := 1 in
    let speedMultiplier :=
      if Js.truthy (Entity.isCrouching entity)
      then speedMultiplier * Js.orElse (Entity.crouchSpeedMultiplier entity) (5 # 10)
      else speedMultiplier in
    let speedMultiplier :=
      if Js.truthy (Entity.isSprinting entity) && negb (Js.truthy (Entity.isCrouching entity))
      then speedMultiplier * Js.orElse (Entity.sprintSpeedMultiplier entity) (18 # 10)
      else speedMultiplier in
    let targetSpeed := maxSpeed * speedMultiplier in
    let inputMagnitude :=
      Math_sqrt (Input.dx input * Input.dx input + Input.dy input * Input.dy input) in
    let '(desiredVx, desiredVy) :=
      if Js.gtb inputMagnitude 0
      then ((Input.dx input / inputMagnitude) * targetSpeed,
            (Input.dy input / inputMagnitude) * targetSpeed)
      else (0, 0) in
    let entity := accelerateTowards desiredVx desiredVy (accel * dt) entity in
    let entity :=
      if Js.eqb inputMagnitude 0 then applyFriction (FRICTION * dt) entity else entity in
    let currentSpeed :=
      Math_sqrt (Entity.vx entity * Entity.vx entity + Entity.vy entity * Entity.vy entity) in
    Entity.set_movementMomentum (Some currentSpeed) entity.

Definition applyAirMovement (entity : Entity.t) (input : Input.t) (dt : Q)
  : Entity.t :=
  if Js.truthy (Entity.onGround entity) then entity
  else
    let maxSpeed := Js.orElse (Entity.maxWalkSpeed entity) 5 in
    let airControl := Js.orElse (Entity.airControlFactor entity) (3 # 10) in
    let accel := Js.orElse (Entity.walkAccel entity) 20 * airControl in
    let inputMagnitude :=
      Math_sqrt (Input.dx input * Input.dx input + Input.dy input * Input.dy input) in
    let '(desiredVx, desiredVy) :=
      if Js.gtb inputMagnitude 0
      then ((Input.dx input / inputMagnitude) * maxSpeed,
            (Input.dy input / inputMagnitude) * maxSpeed)
      else (0, 0) in
    let entity := accelerateTowards desiredVx desiredVy (accel * dt) entity in
    let resistance := AIR_RESISTANCE * dt in
    let entity := Entity.set_vx (Entity.vx entity * Js.max 0 (1 - resistance)) entity in
    let entity := Entity.set_vy (Entity.vy entity * Js.max 0 (1 - resistance)) entity in
    entity.

(** [entity.jumpState?.jumpStartTick === worldTick] *)
Definition jumpedAt (entity : Entity.t) (worldTick : Z) : bool :=
  match Entity.jumpState entity with
  | Some js =>
      match jumpStartTick js with
      | Some t => Z.eqb t worldTick
      | None => false
      end
  | None => false
  end.

Definition jump (entity : Entity.t) (input : Input.t) (worldTick : Z) : Entity.t :=
  if negb (Js.truthy (Entity.onGround entity)) || negb (Js.truthy (Input.jump input))
  then entity
  else if jumpedAt entity worldTick then entity
  else
    let entity := Entity.set_vy JUMP_IMPULSE entity in
    let entity := Entity.set_onGround (Some false) entity in
    let entity :=
      Entity.set_jumpState
        (Some {| jumpStartTick := Some worldTick; jumpVel := Some JUMP_IMPULSE |}) entity in
    Entity.set_fallStartY (Some (Entity.y entity)) entity.

(** The loop of [applyGravity] over the ground entities: the first one
    (other than the entity itself) that the entity's box intersects and
    that lay below the previous position. *)
Fixpoint landingOn (selfId : string) (playerAABB : AABB.t) (prevY : Q)
    (groundEntities : list Entity.t) : option Q :=
  match groundEntities with
  | [] => None
  | ground :: rest =>
      if String.eqb (Entity.id ground) selfId then landingOn selfId playerAABB prevY rest
      else if AABB.intersects playerAABB (boxOf ground)
              && Js.geb prevY (Js.fl (Entity.y ground + Entity.h ground))
      then Some (Js.fl (Entity.y ground + Entity.h ground))
      else landingOn selfId playerAABB prevY rest
  end.

Definition applyGravity (entity : Entity.t) (dt : Q) (groundEntities : list Entity.t)
  : Entity.t :=
  if Js.truthy (Entity.onGround entity) then entity
  else
    let entity :=
      Entity.set_vy (Js.fl (Entity.vy entity - Js.fl (GRAVITY * dt))) entity in
    let prevY := Entity.y entity in
    let entity :=
      Entity.set_y (Js.fl (Entity.y entity + Js.fl (Entity.vy entity * dt))) entity in
    let playerAABB := boxOf entity in
    let '(entity, hitGround) :=
      if Js.leb (Entity.y entity) 0
      then (Entity.set_vy 0 (Entity.set_y 0 entity), true)
      else (entity, false) in
    let '(entity, hitGround) :=
      match landingOn (Entity.id entity) playerAABB prevY groundEntities with
      | Some top => (Entity.set_vy 0 (Entity.set_y top entity), true)
      | None => (entity, hitGround)
      end in
    if hitGround && negb (Js.truthy (Entity.onGround entity))
    then
      Entity.set_jumpState (Some {| jumpStartTick := None; jumpVel := None |})
        (Entity.set_onGround (Some true) entity)
    else entity.

Definition applyCrouchSlide (entity : Entity.t) (input : Input.t) (dt : Q)
  : Entity.t :=
  let entity :=
    if Js.truthy (Input.crouch input) then
      if negb (Js.truthy (Entity.isCrouching entity)) then
        let entity := Entity.set_isCrouching (Some true) entity in
        if Js.truthy (Entity.isSprinting entity) && Js.truthy (Entity.onGround entity)
           && Js.gtb (Js.orElse (Entity.movementMomentum entity) 0) 3
        then
          let currentSpeed :=
            Math_sqrt (Entity.vx entity * Entity.vx entity
                       + Entity.vy entity * Entity.vy entity) in
          if Js.gtb currentSpeed 0 then
            let sx := Entity.vx entity / currentSpeed in
            let sy := Entity.vy entity / currentSpeed in
            let entity := Entity.set_vx (Entity.vx entity + sx * SLIDE_IMPULSE) entity in
            let entity := Entity.set_vy (Entity.vy entity + sy * SLIDE_IMPULSE) entity in
            entity
          else entity
        else entity
      else entity
    else Entity.set_isCrouching (Some false) entity in
  if Js.truthy (Input.sprint input) && negb (Js.truthy (Entity.isCrouching entity))
  then Entity.set_isSprinting (Some true) entity
  else Entity.set_isSprinting (Some false) entity.

(** [computeFallDamage] returns the damage and mutates the entity.  The
    damage is an integer that is not negative; taking it from [hp] gives a
    negative number, which [Math.max] replaces by 0, or a number between 0
    and [hp], which is a double when [hp] is one: that difference is
    written without [Js.fl]. *)
Definition computeFallDamage (entity : Entity.t) : Z * Entity.t :=
  match Entity.fallStartY entity with
  | None => (0%Z, entity)
  | Some fallStartY =>
      if negb (Js.truthy (Entity.onGround entity)) then (0%Z, entity)
      else
        let fallDistance := Js.fl (fallStartY - Entity.y entity) in
        let entity := Entity.set_fallStartY None entity in
        if Js.leb fallDistance FALL_DAMAGE_THRESHOLD then (0%Z, entity)
        else
          let excessDistance := Js.fl (fallDistance - FALL_DAMAGE_THRESHOLD) in
          let damage := Js.floor (Js.fl (excessDistance * FALL_DAMAGE_RATE)) in
          let entity :=
            Entity.set_hp (Js.max 0 (Entity.hp entity - inject_Z damage)) entity in
          (damage, entity)
  end.

Definition processEntityMovement (entity : Entity.t) (input : Input.t) (dt : Q)
    (worldTick : Z) (groundEntities : list Entity.t) : Entity.t :=
  if negb (EntityType_eqb (Entity.type entity) player) then entity
  else
    let entity := applyCrouchSlide entity input dt in
    let entity := jump entity input worldTick in
    let entity :=
      if Js.truthy (Entity.onGround entity)
      then applyGroundMovement entity input dt
      else applyAirMovement entity input dt in
    let entity := applyGravity entity dt groundEntities in
    snd (computeFallDamage entity).

End Movement.

(** ** JSON values that reach [hashState]

    The state handed to [hashState] holds strings, integral numbers (every
    fractional field has been quantized), arrays and objects.  A member
    whose value is [undefined] is left out by [JSON.stringify], so it is
    left out of [Obj] when the object is built. *)

Module Json.

#[local] Unset Elimination Schemes.
Inductive value :=
| Num (n : Z)
| Str (s : string)
| Arr (l : list value)
| Obj (members : list (string * value)).
#[local] Set Elimination Schemes.

(** Member with an optional value. *)
Definition opt {A} (k : string) (f : A -> value) (v : option A)
  : list (string * value) :=
  match v with
  | Some a => [(k, f a)]
  | None => []
  end.

Definition dquote : string := String (ascii_of_N 34) EmptyString.

Definition hexDigit (d : Z) : ascii :=
  ascii_of_N (Z.to_N (if d <? 10 then 48 + d else 87 + d)).

(** JSON string literal: quotes, backslash and control characters escaped. *)
Definition escapeChar (c : ascii) : string :=
  let n := Z.of_N (N_of_ascii c) in
  if n =? 34 then ("\" ++ dquote)%string
  else if n =? 92 then "\\"%string
  else if n =? 8 then "\b"%string
  else if n =? 12 then "\f"%string
  else if n =? 10 then "\n"%string
  else if n =? 13 then "\r"%string
  else if n =? 9 then "\t"%string
  else if n <? 32 then
    ("\u00" ++ String (hexDigit (n / 16)) (String (hexDigit (n mod 16)) EmptyString))%string
  else String c EmptyString.

Fixpoint escape (s : string) : string :=
  match s with
  | EmptyString => EmptyString
  | String c r => (escapeChar c ++ escape r)%string
  end.

Definition quote (s : string) : string := (dquote ++ escape s ++ dquote)%string.

Fixpoint join (sep : string) (l : list string) : string :=
  match l with
  | [] => EmptyString
  | [a] => a
  | a :: r => (a ++ sep ++ join sep r)%string
  end.

(** Decimal rendering of an integral number. *)
Definition decimal (n : Z) : string :=
  DecimalString.NilZero.string_of_int (Z.to_int n).

Fixpoint stringify (v : value) : string :=
  match v with
  | Num n => decimal n
  | Str s => quote s
  | Arr l => ("[" ++ join "," (map stringify l) ++ "]")%string
  | Obj m =>
      ("{" ++ join "," (map (fun kv : string * value =>
                              let '(k, x) := kv in
                              quote k ++ ":" ++ stringify x) m) ++ "}")%string
  end.

(** The replacer of [hashState]: every object is rebuilt with its keys in
    [Array.prototype.sort] default order (code units). *)
Definition keyCompare (a b : string * value) : comparison :=
  String.compare (fst a) (fst b).

Fixpoint sortKeys (v : value) : value :=
  match v with
  | Arr l => Arr (map sortKeys l)
  | Obj m =>
      Obj (Arr.sort keyCompare
             (map (fun kv : string * value =>
                     let '(k, x) := kv in (k, sortKeys x)) m))
  | _ => v
  end.

End Json.

(** ** sim/hash.ts *)

Definition charCodeAt (c : ascii) : Z := Z.of_N (N_of_ascii c).

(** Loop of [fnv1aHash]: [hash ^= c; hash += (hash << 1) + ... + (hash << 24)]. *)
Fixpoint fnv1aLoop (str : string) (hash : Z) : Z :=
  match str with
  | EmptyString => hash
  | String c r =>
      let hash := Js.xor hash (charCodeAt c) in
      let hash := hash + (Js.shl hash 1 + Js.shl hash 4 + Js.shl hash 7
                          + Js.shl hash 8 + Js.shl hash 24) in
      fnv1aLoop r hash
  end.

Definition fnv1aHash (str : string) : Z :=
  Js.ushr (fnv1aLoop str 0x811c9dc5) 0.

(** [n.toString(16)] for a non-negative integer. *)
Fixpoint hexLoop (fuel : nat) (n : Z) (acc : string) : string :=
  match fuel with
  | O => acc
  | S fuel' =>
      let acc := String (Json.hexDigit (n mod 16)) acc in
      if n / 16 =? 0 then acc else hexLoop fuel' (n / 16) acc
  end.

Definition toString16 (n : Z) : string :=
  hexLoop (S (Z.to_nat (Z.log2 n))) n EmptyString.

Definition hashState (state : Json.value) : string :=
  let canonicalJson := Json.stringify (Json.sortKeys state) in
  toString16 (fnv1aHash canonicalJson).

(** [quantizeValue(value, precision = 1000)] *)
Definition quantizeValue (value : Q) : Z := Js.round (Js.fl (value * 1000)).

Definition EntityType_name (t : EntityType) : string :=
  match t with
  | player => "player"
  | bullet => "bullet"
  | build_piece => "build_piece"
  | item => "item"
  end.

(** The object literal built by [createQuantizedSnapshot] for one entity. *)
Module Quantized.

Record t := mk {
  id : string;
  type : EntityType;
  x : Z; y : Z; vx : Z; vy : Z; hp : Z; w : Z; h : Z;
  lifetime : option Z;
  owner : option string;
  material : option string;
  buildType : option string;
  rot : option Z;
  editState : option Z
}.

Definition toJson (q : t) : Json.value :=
  Json.Obj (
    [ ("id"%string, Json.Str (id q));
      ("type"%string, Json.Str (EntityType_name (type q)));
      ("x"%string, Json.Num (x q));
      ("y"%string, Json.Num (y q));
      ("vx"%string, Json.Num (vx q));
      ("vy"%string, Json.Num (vy q));
      ("hp"%string, Json.Num (hp q));
      ("w"%string, Json.Num (w q));
      ("h"%string, Json.Num (h q)) ]
    ++ Json.opt "lifetime" Json.Num (lifetime q)
    ++ Json.opt "owner" Json.Str (owner q)
    ++ Json.opt "material" Json.Str (material q)
    ++ Json.opt "buildType" Json.Str (buildType q)
    ++ Json.opt "rot" Json.Num (rot q)
    ++ Json.opt "editState" Json.Num (editState q)).

End Quantized.

Definition quantizeEntity (entity : Entity.t) : Quantized.t :=
  {| Quantized.id := Entity.id entity;
     Quantized.type := Entity.type entity;
     Quantized.x := quantizeValue (Entity.x entity);
     Quantized.y := quantizeValue (Entity.y entity);
     Quantized.vx := quantizeValue (Entity.vx entity);
     Quantized.vy := quantizeValue (Entity.vy entity);
     Quantized.hp := quantizeValue (Entity.hp entity);
     Quantized.w := quantizeValue (Entity.w entity);
     Quantized.h := quantizeValue (Entity.h entity);
     Quantized.lifetime :=
       match Entity.lifetime entity with
       | Some l => if Js.eqb l 0 then None else Some (quantizeValue l)
       | None => None
       end;
     Quantized.owner := Entity.owner entity;
     Quantized.material := Entity.material entity;
     Quantized.buildType := Entity.buildType entity;
     Quantized.rot := option_map quantizeValue (Entity.rot entity);
     Quantized.editState := Entity.editState entity |}.

Section WithHost.

Context {host : Host}.

Definition compareById (a b : Quantized.t) : comparison :=
  localeCompare (Quantized.id a) (Quantized.id b).

Definition createQuantizedSnapshot (entities : list Entity.t) : list Quantized.t :=
  Arr.sort compareById (map quantizeEntity entities).

Definition computeStateChecksum (state : State.t) : string :=
  let quantizedState :=
    Json.Obj (
      [ ("tick"%string, Json.Num (State.tick state));
        ("entities"%string,
         Json.Arr (map Quantized.toJson (createQuantizedSnapshot (State.entities state)))) ]
      ++ Json.opt "rng" Json.Num (State.rng state)) in
  hashState quantizedState.

End WithHost.

(** A host whose collation is code-unit order, used to run examples. *)
Definition codeUnitHost : Host :=
  {| Math_sqrt := fun q => q;
     Math_cos := fun _ => 1%Q;
     Math_sin := fun _ => 0%Q;
     localeCompare := String.compare |}.


(** ** Exceptions

    A call that throws has no result: [None].  [getWeaponConfig] throws on
    an unknown weapon id, and reading a property of the [undefined] that
    [inventory.weapons[slot]] gives for a slot outside the array throws. *)

Definition bind {A B} (o : option A) (k : A -> option B) : option B :=
  match o with
  | Some a => k a
  | None => None
  end.

Notation "x <- e ;; k" := (bind e (fun x => k))
  (at level 61, e at next level, right associativity).

(** [l[i]] for an integral index. *)
Definition indexZ {A} (l : list A) (i : Z) : option A :=
  if i <? 0 then None else nth_error l (Z.to_nat i).

(** ** player/inventory.ts *)

Definition getActiveWeapon (inventory : Inventory.t) : option WeaponState :=
  indexZ (Inventory.weapons inventory) (Inventory.activeWeaponSlot inventory).

Definition getWeaponConfigForSlot (inventory : Inventory.t) (slot : Z)
  : option WeaponConfig :=
  weaponState <- indexZ (Inventory.weapons inventory) slot ;;
  getWeaponConfig (weaponId weaponState).

Definition canFireWeapon (inventory : Inventory.t) : option bool :=
  weapon <- getActiveWeapon inventory ;;
  config <- getWeaponConfig (weaponId weapon) ;;
  if isReloading weapon then Some false
  else if ammoPerShot (stats config) =? 0 then Some true
  else Some (currentAmmo weapon >=? ammoPerShot (stats config)).

(** [newWeapons[inventory.activeWeaponSlot] = v] on the copied array. *)
Definition setActiveWeapon (v : WeaponState) (inventory : Inventory.t)
  : list WeaponState :=
  Arr.set (Z.to_nat (Inventory.activeWeaponSlot inventory)) v
    (Inventory.weapons inventory).

Definition fireWeapon (inventory : Inventory.t) : option Inventory.t :=
  weapon <- getActiveWeapon inventory ;;
  config <- getWeaponConfig (weaponId weapon) ;;
  can <- canFireWeapon inventory ;;
  if negb can then Some inventory
  else
    Some {| Inventory.weapons :=
              setActiveWeapon
                {| weaponId := weaponId weapon;
                   currentAmmo := currentAmmo weapon - ammoPerShot (stats config);
                   isReloading := isReloading weapon;
                   reloadTicksRemaining := reloadTicksRemaining weapon |}
                inventory;
            Inventory.activeWeaponSlot := Inventory.activeWeaponSlot inventory;
            Inventory.reserveAmmo := Inventory.reserveAmmo inventory |}.

Definition updateReload (inventory : Inventory.t) : option Inventory.t :=
  weapon <- getActiveWeapon inventory ;;
  if negb (isReloading weapon) then Some inventory
  else
    let newReloadTicks := reloadTicksRemaining weapon - 1 in
    if newReloadTicks <=? 0 then
      config <- getWeaponConfig (weaponId weapon) ;;
      let reserveAmmo :=
        Js.orElseZ (Obj.get (weaponId weapon) (Inventory.reserveAmmo inventory)) 0 in
      let ammoNeeded := magazineSize (stats config) - currentAmmo weapon in
      let ammoToAdd := Z.min ammoNeeded reserveAmmo in
      Some {| Inventory.weapons :=
                setActiveWeapon
                  {| weaponId := weaponId weapon;
                     currentAmmo := currentAmmo weapon + ammoToAdd;
                     isReloading := false;
                     reloadTicksRemaining := 0 |}
                  inventory;
              Inventory.activeWeaponSlot := Inventory.activeWeaponSlot inventory;
              Inventory.reserveAmmo :=
                Obj.set (weaponId weapon) (reserveAmmo - ammoToAdd)
                  (Inventory.reserveAmmo inventory) |}
    else
      Some {| Inventory.weapons :=
                setActiveWeapon
                  {| weaponId := weaponId weapon;
                     currentAmmo := currentAmmo weapon;
                     isReloading := isReloading weapon;
                     reloadTicksRemaining := newReloadTicks |}
                  inventory;
              Inventory.activeWeaponSlot := Inventory.activeWeaponSlot inventory;
              Inventory.reserveAmmo := Inventory.reserveAmmo inventory |}.

(** [switchWeapon(inventory, slot)]: a slot outside the array changes
    nothing. *)
Definition switchWeapon (inventory : Inventory.t) (slot : Z) : Inventory.t :=
  if (slot <? 0) || (slot >=? Z.of_nat (List.length (Inventory.weapons inventory)))
  then inventory
  else
    {| Inventory.weapons := Inventory.weapons inventory;
       Inventory.activeWeaponSlot := slot;
       Inventory.reserveAmmo := Inventory.reserveAmmo inventory |}.

Definition startReload (inventory : Inventory.t) : option Inventory.t :=
  weapon <- getActiveWeapon inventory ;;
  config <- getWeaponConfig (weaponId weapon) ;;
  if isReloading weapon || (currentAmmo weapon =? magazineSize (stats config))
  then Some inventory
  else
    let reserveAmmo :=
      Js.orElseZ (Obj.get (weaponId weapon) (Inventory.reserveAmmo inventory)) 0 in
    if reserveAmmo <=? 0 then Some inventory
    else
      Some {| Inventory.weapons :=
                setActiveWeapon
                  {| weaponId := weaponId weapon;
                     currentAmmo := currentAmmo weapon;
                     isReloading := true;
                     reloadTicksRemaining := reloadTime (stats config) |}
                  inventory;
              Inventory.activeWeaponSlot := Inventory.activeWeaponSlot inventory;
              Inventory.reserveAmmo := Inventory.reserveAmmo inventory |}.

Definition addAmmo (inventory : Inventory.t) (id : string) (amount : Z)
  : Inventory.t :=
  {| Inventory.weapons := Inventory.weapons inventory;
     Inventory.activeWeaponSlot := Inventory.activeWeaponSlot inventory;
     Inventory.reserveAmmo :=
       Obj.set id
         (Js.orElseZ (Obj.get id (Inventory.reserveAmmo inventory)) 0 + amount)
         (Inventory.reserveAmmo inventory) |}.

(** [addWeapon(inventory, weaponId)].  [findIndex(...) !== -1] holds when
    some weapon of the array has the id, which [Arr.find] tells.  For an
    id that [Obj.inherited] tells, [WEAPON_CONFIGS[weaponId]] is an
    inherited member without [stats] and the engine throws at
    [config.stats]: such an id is outside this definition. *)
Definition addWeapon (inventory : Inventory.t) (id : string) : Inventory.t :=
  match Obj.get id WEAPON_CONFIGS with
  | None => inventory
  | Some config =>
      match Arr.find (fun w => String.eqb (weaponId w) id)
              (Inventory.weapons inventory) with
      | Some _ => inventory
      | None =>
          let newWeapon :=
            {| weaponId := id;
               currentAmmo := magazineSize (stats config);
               isReloading := false;
               reloadTicksRemaining := 0 |} in
          {| Inventory.weapons := Inventory.weapons inventory ++ [newWeapon];
             Inventory.activeWeaponSlot := Inventory.activeWeaponSlot inventory;
             Inventory.reserveAmmo :=
               Obj.set id
                 (Js.orElseZ (Obj.get id (Inventory.reserveAmmo inventory)) 0
                  + magazineSize (stats config) * 2)
                 (Inventory.reserveAmmo inventory) |}
      end
  end.

(** ** weapon/weapon.ts *)

Module ProjectileData.

Record t := mk {
  id : string;
  weaponId : string;
  ownerId : string;
  position : Q * Q;
  direction : Q * Q;
  speed : Q;
  damage : Q;
  isHitscan : bool;
  spread : Q;
  pellets : Z;
  range : Q;
  headshotMultiplier : Q
}.

End ProjectileData.

Record FireResult := {
  success : bool;
  projectiles : list ProjectileData.t;
  ammoConsumed : Z
}.

Definition canFire (weaponState : WeaponState) (weaponConfig : WeaponConfig) : bool :=
  if isReloading weaponState then false
  else if ammoPerShot (stats weaponConfig) =? 0 then true
  else currentAmmo weaponState >=? ammoPerShot (stats weaponConfig).

Section Weapon.

Context {host : Host}.

Local Open Scope Q_scope.

(** One projectile of [fire]: a spread angle from [nextFloat], the
    direction rotated by it and normalised, then an id from [nextInt]. *)
Definition fireOne (weaponConfig : WeaponConfig) (ownerId : string)
    (position aimDirection : Q * Q) (shotgun : bool) (prng : PRNG.t)
  : ProjectileData.t * PRNG.t :=
  let stats := stats weaponConfig in
  let baseDirX := fst aimDirection in
  let baseDirY := snd aimDirection in
  let '(f, prng) := PRNG.nextFloat prng in
  let spreadAngle := (f - (1 # 2)) * spread stats in
  let dirX := baseDirX * Math_cos spreadAngle - baseDirY * Math_sin spreadAngle in
  let dirY := baseDirX * Math_sin spreadAngle + baseDirY * Math_cos spreadAngle in
  let mag := Js.orElse (Some (Math_sqrt (dirX * dirX + dirY * dirY))) 1 in
  let '(n, prng) := PRNG.nextInt 0 1000000 prng in
  ({| ProjectileData.id := ("proj_" ++ ownerId ++ "_" ++ Json.decimal n)%string;
      ProjectileData.weaponId := wc_id weaponConfig;
      ProjectileData.ownerId := ownerId;
      ProjectileData.position := position;
      ProjectileData.direction := (dirX / mag, dirY / mag);
      ProjectileData.speed := projectileSpeed stats;
      ProjectileData.damage := damage stats;
      ProjectileData.isHitscan :=
        if shotgun then false
        else negb (WeaponType_eqb (wc_type weaponConfig) Pickaxe)
             && Js.eqb (projectileSpeed stats) 0;
      ProjectileData.spread := if shotgun then 0 else spread stats;
      ProjectileData.pellets := 1;
      ProjectileData.range := range stats;
      ProjectileData.headshotMultiplier := headshotMultiplier stats |},
   prng).

(** The pellet loop [for (let i = 0; i < stats.pellets; i++)]. *)
Fixpoint firePellets (n : nat) (weaponConfig : WeaponConfig) (ownerId : string)
    (position aimDirection : Q * Q) (acc : list ProjectileData.t) (prng : PRNG.t)
  : list ProjectileData.t * PRNG.t :=
  match n with
  | O => (acc, prng)
  | S n' =>
      let '(p, prng) := fireOne weaponConfig ownerId position aimDirection true prng in
      firePellets n' weaponConfig ownerId position aimDirection (acc ++ [p]) prng
  end.

Definition fire (weaponState : WeaponState) (weaponConfig : WeaponConfig)
    (ownerId : string) (position aimDirection : Q * Q) (prng : PRNG.t)
  : FireResult * PRNG.t :=
  if negb (canFire weaponState weaponConfig)
  then ({| success := false; projectiles := []; ammoConsumed := 0 |}, prng)
  else
    let '(projectiles, prng) :=
      if WeaponType_eqb (wc_type weaponConfig) Shotgun then
        firePellets (Z.to_nat (pellets (stats weaponConfig))) weaponConfig ownerId
          position aimDirection [] prng
      else
        let '(p, prng) :=
          fireOne weaponConfig ownerId position aimDirection false prng in
        ([p], prng) in
    ({| success := true;
        projectiles := projectiles;
        ammoConsumed := ammoPerShot (stats weaponConfig) |}, prng).

End Weapon.

(** [updateWeaponState(weaponState, dt)]: the reload countdown of one
    weapon, without the ammunition. *)
Definition updateWeaponState (weaponState : WeaponState) : WeaponState :=
  if isReloading weaponState then
    let newReloadTicks := reloadTicksRemaining weaponState - 1 in
    if newReloadTicks <=? 0 then
      {| weaponId := weaponId weaponState;
         currentAmmo := currentAmmo weaponState;
         isReloading := false;
         reloadTicksRemaining := 0 |}
    else
      {| weaponId := weaponId weaponState;
         currentAmmo := currentAmmo weaponState;
         isReloading := isReloading weaponState;
         reloadTicksRemaining := newReloadTicks |}
  else weaponState.

Definition shouldAutoReload (weaponState : WeaponState) (weaponConfig : WeaponConfig)
  : bool :=
  if isReloading weaponState then false
  else if ammoPerShot (stats weaponConfig) =? 0 then false
  else currentAmmo weaponState =? 0.

(** ** Numbers that may leave the rationals

    [raycastVsEntity] divides by the components of the ray direction, which
    may be zero; the quotient is then infinite or [NaN].  (The sign of a
    zero divisor is not modelled.) *)

Module Ext.

Local Open Scope Q_scope.

Inductive t := Fin (q : Q) | PosInf | NegInf | NaN.

Definition div (a b : Q) : t :=
  if Js.eqb b 0 then
    if Js.eqb a 0 then NaN else if Js.gtb a 0 then PosInf else NegInf
  else Fin (a / b).

Definition ltb (a b : t) : bool :=
  match a, b with
  | NaN, _ | _, NaN => false
  | Fin p, Fin q => Js.ltb p q
  | NegInf, NegInf => false
  | NegInf, _ => true
  | _, PosInf => match a with PosInf => false | _ => true end
  | _, _ => false
  end.

Definition gtb (a b : t) : bool := ltb b a.

Definition min (a b : t) : t :=
  match a, b with
  | NaN, _ | _, NaN => NaN
  | _, _ => if ltb b a then b else a
  end.

Definition max (a b : t) : t :=
  match a, b with
  | NaN, _ | _, NaN => NaN
  | _, _ => if ltb a b then b else a
  end.

(** [d * e] and [o + e] for rational [d], [o]. *)
Definition mulQ (d : Q) (e : t) : t :=
  match e with
  | Fin q => Fin (d * q)
  | NaN => NaN
  | PosInf => if Js.eqb d 0 then NaN else if Js.gtb d 0 then PosInf else NegInf
  | NegInf => if Js.eqb d 0 then NaN else if Js.gtb d 0 then NegInf else PosInf
  end.

Definition addQ (o : Q) (e : t) : t :=
  match e with
  | Fin q => Fin (o + q)
  | _ => e
  end.

End Ext.

(** ** sim/projectiles.ts *)

Module Projectile.

Record t := mk {
  id : string;
  weaponId : string;
  ownerId : string;
  position : Q * Q;
  direction : Q * Q;
  speed : Q;
  damage : Q;
  isHitscan : bool;
  spread : Q;
  pellets : Z;
  range : Q;
  headshotMultiplier : Q;
  lifetime : Z;
  distanceTraveled : Q
}.

(** [{ ...projectile, position, distanceTraveled, lifetime }] *)
Definition update (position : Q * Q) (distanceTraveled : Q) (lifetime : Z) (p : t) : t :=
  {| id := id p; weaponId := weaponId p; ownerId := ownerId p;
     position := position; direction := direction p; speed := speed p;
     damage := damage p; isHitscan := isHitscan p; spread := spread p;
     pellets := pellets p; range := range p;
     headshotMultiplier := headshotMultiplier p;
     lifetime := lifetime; distanceTraveled := distanceTraveled |}.

End Projectile.

Record HitResult := {
  hit : bool;
  entityId : option string;
  hitDamage : option Z;
  hitPosition : option (Ext.t * Ext.t);
  isHeadshotFlag : option bool;
  distance : option Ext.t
}.

Definition createProjectile (projectileData : ProjectileData.t) : Projectile.t :=
  {| Projectile.id := ProjectileData.id projectileData;
     Projectile.weaponId := ProjectileData.weaponId projectileData;
     Projectile.ownerId := ProjectileData.ownerId projectileData;
     Projectile.position := ProjectileData.position projectileData;
     Projectile.direction := ProjectileData.direction projectileData;
     Projectile.speed := ProjectileData.speed projectileData;
     Projectile.damage := ProjectileData.damage projectileData;
     Projectile.isHitscan := ProjectileData.isHitscan projectileData;
     Projectile.spread := ProjectileData.spread projectileData;
     Projectile.pellets := ProjectileData.pellets projectileData;
     Projectile.range := ProjectileData.range projectileData;
     Projectile.headshotMultiplier := ProjectileData.headshotMultiplier projectileData;
     Projectile.lifetime := if ProjectileData.isHitscan projectileData then 1 else 120;
     Projectile.distanceTraveled := 0 |}.

(** The box the projectile module gives an entity: [(x, y)] is its centre. *)
Definition entityAABB (entity : Entity.t) : AABB.t :=
  AABB.mk (Js.fl (Entity.x entity - Js.fl (Entity.w entity / 2)))
          (Js.fl (Entity.y entity - Js.fl (Entity.h entity / 2)))
          (Entity.w entity) (Entity.h entity).

Definition isHeadshot (hitPosition : Q * Q) (entity : Entity.t) : bool :=
  let headHeight := Js.fl (Entity.h entity / 3) in
  let headTop := Js.fl (Entity.y entity - Js.fl (Entity.h entity / 2)) in
  let headBottom := Js.fl (headTop + headHeight) in
  Js.geb (snd hitPosition) headTop && Js.leb (snd hitPosition) headBottom.

(** [isHeadshot] at a ray hit.  Only the ordinate is read, and both
    comparisons fail when it is infinite or [NaN]. *)
Definition isHeadshotAt (hitPosition : Ext.t * Ext.t) (entity : Entity.t) : bool :=
  match snd hitPosition with
  | Ext.Fin py => isHeadshot (0%Q, py) entity
  | _ => false
  end.

(** [1 - Math.min(1, a / b)] where [a > 0]: a zero [b] makes the quotient
    [Infinity]. *)
Definition falloffFactor (a b : Q) : Q :=
  if Js.eqb b 0 then (1 - 1)%Q else Js.fl (1 - Js.min 1 (Js.fl (a / b))).

(** The quotient of [nextFloat] reaches the arithmetic as a double. *)
Definition calculateDamage (projectile : Projectile.t) (entity : Entity.t)
    (prng : PRNG.t) : Z * PRNG.t :=
  let damage := Projectile.damage projectile in
  let half := Js.fl (Projectile.range projectile * (5 # 10)) in
  let damage :=
    if Js.gtb (Projectile.distanceTraveled projectile) half
    then Js.fl (damage *
                falloffFactor
                  (Js.fl (Projectile.distanceTraveled projectile - half)) half)
    else damage in
  let damage :=
    if isHeadshot (Projectile.position projectile) entity
    then Js.fl (damage * Projectile.headshotMultiplier projectile)
    else damage in
  let '(f, prng) := PRNG.nextFloat prng in
  let variation :=
    Js.fl (1 + Js.fl (Js.fl (Js.fl f - (5 # 10)) * Js.fl (1 # 10))) in
  let damage := Js.fl (damage * variation) in
  (Z.max 1 (Js.round damage), prng).

Definition raycastVsEntity (origin direction : Q * Q) (entity : Entity.t)
    (maxDistance : Q) : HitResult :=
  let box := entityAABB entity in
  let t1 := Ext.div (AABB.x box - fst origin) (fst direction) in
  let t2 := Ext.div (AABB.x box + AABB.w box - fst origin) (fst direction) in
  let t3 := Ext.div (AABB.y box - snd origin) (snd direction) in
  let t4 := Ext.div (AABB.y box + AABB.h box - snd origin) (snd direction) in
  let tmin := Ext.max (Ext.min t1 t2) (Ext.min t3 t4) in
  let tmax := Ext.min (Ext.max t1 t2) (Ext.max t3 t4) in
  if Ext.ltb tmax (Ext.Fin 0) || Ext.gtb tmin tmax || Ext.gtb tmin (Ext.Fin maxDistance)
  then {| hit := false; entityId := None; hitDamage := None; hitPosition := None;
          isHeadshotFlag := None; distance := None |}
  else
    let pos := (Ext.addQ (fst origin) (Ext.mulQ (fst direction) tmin),
                Ext.addQ (snd origin) (Ext.mulQ (snd direction) tmin)) in
    {| hit := true;
       entityId := Some (Entity.id entity);
       hitDamage := None;
       hitPosition := Some pos;
       isHeadshotFlag := Some (isHeadshotAt pos entity);
       distance := Some tmin |}.

(** Loop of [detectHitscanHit], carrying [closestHit] and [closestDistance]. *)
Fixpoint detectHitscanLoop (projectile : Projectile.t) (entities : list Entity.t)
    (closestHit : option HitResult) (closestDistance : Ext.t) : option HitResult :=
  match entities with
  | [] => closestHit
  | entity :: rest =>
      if String.eqb (Entity.id entity) (Projectile.ownerId projectile)
      then detectHitscanLoop projectile rest closestHit closestDistance
      else
        let hitResult :=
          raycastVsEntity (Projectile.position projectile)
            (Projectile.direction projectile) entity (Projectile.range projectile) in
        match distance hitResult with
        | Some d =>
            if hit hitResult && Ext.ltb d closestDistance
            then detectHitscanLoop projectile rest (Some hitResult) d
            else detectHitscanLoop projectile rest closestHit closestDistance
        | None => detectHitscanLoop projectile rest closestHit closestDistance
        end
  end.

Definition detectHitscanHit (projectile : Projectile.t) (entities : list Entity.t)
  : option HitResult :=
  detectHitscanLoop projectile entities None Ext.PosInf.

(** [detectProjectileHit]: the first entity, other than the owner, whose
    box the projectile's box overlaps.  The damage is computed there, so
    the PRNG advances only on a hit. *)
Fixpoint detectProjectileHit (projectile : Projectile.t) (entities : list Entity.t)
    (prng : PRNG.t) : option HitResult * PRNG.t :=
  match entities with
  | [] => (None, prng)
  | entity :: rest =>
      let px := fst (Projectile.position projectile) in
      let py := snd (Projectile.position projectile) in
      let size := inject_Z (Projectile.pellets projectile) in
      let projectileAABB :=
        AABB.mk (Js.fl (px - Js.fl (size * Js.fl (1 # 10))))
                (Js.fl (py - Js.fl (size * Js.fl (1 # 10))))
                (Js.fl (size * Js.fl (2 # 10))) (Js.fl (size * Js.fl (2 # 10))) in
      if String.eqb (Entity.id entity) (Projectile.ownerId projectile)
      then detectProjectileHit projectile rest prng
      else if AABB.intersects projectileAABB (entityAABB entity) then
        let '(damage, prng) := calculateDamage projectile entity prng in
        (Some {| hit := true;
                 entityId := Some (Entity.id entity);
                 hitDamage := Some damage;
                 hitPosition := Some (Ext.Fin px, Ext.Fin py);
                 isHeadshotFlag :=
                   Some (isHeadshot (Projectile.position projectile) entity);
                 distance := None |}, prng)
      else detectProjectileHit projectile rest prng
  end.

Section Projectiles.

Context {host : Host}.

Local Open Scope Q_scope.

Definition simulateHitscan (projectile : Projectile.t) (entities : list Entity.t)
  : Projectile.t * option HitResult :=
  let hitResult := detectHitscanHit projectile entities in
  (Projectile.update (Projectile.position projectile)
     (Projectile.distanceTraveled projectile) 0%Z projectile,
   hitResult).

Definition simulateProjectileMovement (projectile : Projectile.t)
    (entities : list Entity.t) (dt : Q) (prng : PRNG.t)
  : (Projectile.t * option HitResult) * PRNG.t :=
  let px := fst (Projectile.position projectile) in
  let py := snd (Projectile.position projectile) in
  let newX := px + fst (Projectile.direction projectile) * Projectile.speed projectile * dt in
  let newY := py + snd (Projectile.direction projectile) * Projectile.speed projectile * dt in
  let distanceMoved :=
    Math_sqrt ((newX - px) * (newX - px) + (newY - py) * (newY - py)) in
  let updatedProjectile :=
    Projectile.update (newX, newY)
      (Projectile.distanceTraveled projectile + distanceMoved)
      (Projectile.lifetime projectile - 1)%Z projectile in
  let '(hitResult, prng) := detectProjectileHit updatedProjectile entities prng in
  ((updatedProjectile, hitResult), prng).

Definition simulateProjectile (projectile : Projectile.t) (entities : list Entity.t)
    (dt : Q) (prng : PRNG.t) : (Projectile.t * option HitResult) * PRNG.t :=
  if Projectile.isHitscan projectile
  then (simulateHitscan projectile entities, prng)
  else simulateProjectileMovement projectile entities dt prng.

Record ProjectileSimulationResult := {
  sim_projectiles : list Projectile.t;
  sim_hits : list HitResult
}.

Definition isLive (p : Projectile.t) : bool :=
  (0 <? Projectile.lifetime p)%Z
  && Js.ltb (Projectile.distanceTraveled p) (Projectile.range p).

Fixpoint simulateLoop (projectiles : list Projectile.t) (entities : list Entity.t)
    (dt : Q) (results : ProjectileSimulationResult) (prng : PRNG.t)
  : ProjectileSimulationResult * PRNG.t :=
  match projectiles with
  | [] => (results, prng)
  | projectile :: rest =>
      if negb (isLive projectile) then simulateLoop rest entities dt results prng
      else
        let '((projectile', hitResult), prng) :=
          simulateProjectile projectile entities dt prng in
        let hits :=
          match hitResult with
          | Some hr => sim_hits results ++ [hr]
          | None => sim_hits results
          end in
        let kept :=
          if isLive projectile'
          then sim_projectiles results ++ [projectile']
          else sim_projectiles results in
        simulateLoop rest entities dt
          {| sim_projectiles := kept; sim_hits := hits |} prng
  end.

Definition simulateProjectiles (projectiles : list Projectile.t)
    (entities : list Entity.t) (dt : Q) (prng : PRNG.t)
  : ProjectileSimulationResult * PRNG.t :=
  simulateLoop projectiles entities dt {| sim_projectiles := []; sim_hits := [] |} prng.

End Projectiles.

(** ** sim/movement.ts *)

(** Positions of the array elements, to stand for object references: an
    array obtained by [filter] and [sort] holds the same objects, and a
    write through it shows in [state.entities]. *)
Definition indexed {A} (l : list A) : list (nat * A) :=
  combine (seq 0 (List.length l)) l.

Definition isPlayer (e : Entity.t) : bool := EntityType_eqb (Entity.type e) player.

Definition isGroundEntity (e : Entity.t) : bool :=
  EntityType_eqb (Entity.type e) build_piece
  || (EntityType_eqb (Entity.type e) player
      && negb (String.eqb (Entity.id e) "current_player")).

Definition defaultInput (clientId : string) : Input.t :=
  {| Input.seq := 0; Input.clientId := clientId; Input.dx := 0; Input.dy := 0;
     Input.shoot := Some false; Input.jump := Some false;
     Input.crouch := Some false; Input.sprint := Some false |}.

Section SimMovement.

Context {host : Host}.

(** [state.entities.filter(e => e.type === "player").sort(by id)], as the
    positions of the selected objects. *)
Definition sortedPlayers (entities : list Entity.t) : list nat :=
  map fst
    (Arr.sort (fun a b : nat * Entity.t =>
                 localeCompare (Entity.id (snd a)) (Entity.id (snd b)))
       (filter (fun ie : nat * Entity.t => isPlayer (snd ie)) (indexed entities))).

(** What the loop of [processMovement] does to one player object: the
    movement steps, then [player.x += player.vx * dt] and the same for y. *)
Definition stepPlayer (thePlayer : Entity.t) (playerInput : Input.t) (dt : Q)
    (worldTick : Z) (groundEntities : list Entity.t) : Entity.t :=
  let thePlayer :=
    processEntityMovement thePlayer playerInput dt worldTick groundEntities in
  let thePlayer :=
    Entity.set_x (Entity.x thePlayer + Entity.vx thePlayer * dt) thePlayer in
  let thePlayer :=
    Entity.set_y (Entity.y thePlayer + Entity.vy thePlayer * dt) thePlayer in
  thePlayer.

(** Body of the loop of [processMovement] for the player at position [i].
    [groundEntities] was filtered before the loop by type and id, which no
    step changes, so it holds the current objects at those positions. *)
Definition movePlayer (inputs : Obj.t Input.t) (dt : Q) (worldTick : Z)
    (entities : list Entity.t) (i : nat) : list Entity.t :=
  match Arr.get i entities with
  | None => entities
  | Some thePlayer =>
      let groundEntities := filter isGroundEntity entities in
      let playerInput :=
        match Obj.get (Entity.id thePlayer) inputs with
        | Some input => input
        | None => defaultInput (Entity.id thePlayer)
        end in
      Arr.set i (stepPlayer thePlayer playerInput dt worldTick groundEntities) entities
  end.

Definition processMovement (entities : list Entity.t) (inputs : Obj.t Input.t)
    (dt : Q) (worldTick : Z) : list Entity.t :=
  fold_left (movePlayer inputs dt worldTick) (sortedPlayers entities) entities.

End SimMovement.

(** ** sim/tick.ts *)

Module World.

Record t := mk {
  state : State.t;
  tickRate : Q;
  dt : Q;
  prng : PRNG.t;
  activeProjectiles : list Projectile.t
}.

Definition set_rng (r : option Z) (s : State.t) : State.t :=
  {| State.tick := State.tick s; State.entities := State.entities s;
     State.rng := r; State.lastChecksum := State.lastChecksum s |}.

(** [constructor(state?, tickRate = 20, seed?)] *)
Definition new (state : option State.t) (tickRate : Q) (seed : option Z) : t :=
  let state :=
    match state with
    | Some s => s
    | None => createState 0 seed
    end in
  let prng := PRNG.createPRNG seed in
  match State.rng state with
  | None =>
      {| state := set_rng (Some (PRNG.getState prng)) state;
         tickRate := tickRate; dt := (1 / tickRate)%Q; prng := prng;
         activeProjectiles := [] |}
  | Some r =>
      {| state := state;
         tickRate := tickRate; dt := (1 / tickRate)%Q;
         prng := PRNG.setState r prng;
         activeProjectiles := [] |}
  end.

Definition mergeInputs (inputs : list (Obj.t Input.t)) : Obj.t Input.t :=
  fold_left
    (fun out map => fold_left (fun out kv => Obj.set (fst kv) (snd kv) out) map out)
    inputs [].

Section Tick.

Context {host : Host}.

(** First loop of [handleWeaponCombat]. *)
Fixpoint updateReloads (entities : list Entity.t) : option (list Entity.t) :=
  match entities with
  | [] => Some []
  | entity :: rest =>
      entity' <-
        (if isPlayer entity then
           match Entity.inventory entity with
           | Some inv =>
               inv' <- updateReload inv ;;
               Some (Entity.set_inventory (Some inv') entity)
           | None => Some entity
           end
         else Some entity) ;;
      rest' <- updateReloads rest ;;
      Some (entity' :: rest')
  end.

(** [handlePlayerShooting]: the shooter after the shot, the PRNG and the
    projectile list. *)
Definition handlePlayerShooting (shooter : Entity.t) (input : Input.t)
    (prng : PRNG.t) (active : list Projectile.t)
  : option (Entity.t * PRNG.t * list Projectile.t) :=
  match Entity.inventory shooter with
  | None => Some (shooter, prng, active)
  | Some inv =>
      weaponState <- getActiveWeapon inv ;;
      weaponConfig <- getWeaponConfigForSlot inv (Inventory.activeWeaponSlot inv) ;;
      can <- canFireWeapon inv ;;
      if can then
        let aimDir :=
          if negb (Js.eqb (Input.dx input) 0) || negb (Js.eqb (Input.dy input) 0)
          then (Input.dx input, Input.dy input)
          else (0%Q, (-1)%Q) in
        let mag :=
          Js.orElse
            (Some (Math_sqrt (fst aimDir * fst aimDir + snd aimDir * snd aimDir)%Q)) 1 in
        let aimDir := (fst aimDir / mag, snd aimDir / mag)%Q in
        let '(fireResult, prng) :=
          fire weaponState weaponConfig (Entity.id shooter)
            (Entity.x shooter, Entity.y shooter) aimDir prng in
        if success fireResult then
          inv' <- fireWeapon inv ;;
          Some (Entity.set_inventory (Some inv') shooter, prng,
                active ++ map createProjectile (projectiles fireResult))
        else Some (shooter, prng, active)
      else Some (shooter, prng, active)
  end.

(** Position of the first element that satisfies [p]. *)
Fixpoint findIndex {A} (p : A -> bool) (l : list A) : option nat :=
  match l with
  | [] => None
  | a :: r => if p a then Some O else option_map S (findIndex p r)
  end.

(** Second loop of [handleWeaponCombat], over [Object.keys(inputs)]. *)
Fixpoint shootAll (inputs : Obj.t Input.t) (entities : list Entity.t)
    (prng : PRNG.t) (active : list Projectile.t)
  : option (list Entity.t * PRNG.t * list Projectile.t) :=
  match inputs with
  | [] => Some (entities, prng, active)
  | (cid, inp) :: rest =>
      if Js.truthy (Input.shoot inp) then
        match findIndex (isPlayerWithId cid) entities with
        | Some i =>
            match Arr.get i entities with
            | Some shooter =>
                match Entity.inventory shooter with
                | Some _ =>
                    r <- handlePlayerShooting shooter inp prng active ;;
                    let '(shooter', prng, active) := r in
                    shootAll rest (Arr.set i shooter' entities) prng active
                | None => shootAll rest entities prng active
                end
            | None => shootAll rest entities prng active
            end
        | None => shootAll rest entities prng active
        end
      else shootAll rest entities prng active
  end.

Definition handleWeaponCombat (entities : list Entity.t) (inputs : Obj.t Input.t)
    (prng : PRNG.t) (active : list Projectile.t)
  : option (list Entity.t * PRNG.t * list Projectile.t) :=
  entities <- updateReloads entities ;;
  shootAll inputs entities prng active.

(** The loop over [simulationResult.hits]. *)
Definition applyHit (entities : list Entity.t) (h : HitResult) : list Entity.t :=
  match entityId h, hitDamage h with
  | Some eid, Some dmg =>
      if negb (String.eqb eid EmptyString) && negb (dmg =? 0) then
        Arr.update_first (fun e => String.eqb (Entity.id e) eid)
          (fun target =>
             Entity.set_hp (Js.max 0 (Entity.hp target - inject_Z dmg)) target)
          entities
      else entities
  | _, _ => entities
  end.

Definition handleProjectiles (entities : list Entity.t) (dt : Q) (prng : PRNG.t)
    (active : list Projectile.t)
  : list Entity.t * PRNG.t * list Projectile.t :=
  let '(simulationResult, prng) := simulateProjectiles active entities dt prng in
  let entities := fold_left applyHit (sim_hits simulationResult) entities in
  let active := sim_projectiles simulationResult in
  let active := filter isLive active in
  (entities, prng, active).

(** Body of the pairwise collision loop for [players[i]], [players[j]]. *)
Definition separate (entities : list Entity.t) (ij : nat * nat) : list Entity.t :=
  match Arr.get (fst ij) entities, Arr.get (snd ij) entities with
  | Some p1, Some p2 =>
      let a := boxOf p1 in
      let b := boxOf p2 in
      if AABB.intersects a b then
        let mtv := AABB.resolve a b in
        let p1 := Entity.set_x (Entity.x p1 + fst mtv / 2) p1 in
        let p1 := Entity.set_y (Entity.y p1 + snd mtv / 2) p1 in
        let p2 := Entity.set_x (Entity.x p2 - fst mtv / 2) p2 in
        let p2 := Entity.set_y (Entity.y p2 - snd mtv / 2) p2 in
        Arr.set (snd ij) p2 (Arr.set (fst ij) p1 entities)
      else entities
  | _, _ => entities
  end.

(** The index pairs [(players[i], players[j])], [i < j], in loop order. *)
Fixpoint pairs (players : list nat) : list (nat * nat) :=
  match players with
  | [] => []
  | p :: rest => map (fun q => (p, q)) rest ++ pairs rest
  end.

Definition resolveCollisions (entities : list Entity.t) : list Entity.t :=
  let players :=
    map fst (filter (fun ie : nat * Entity.t => isPlayer (snd ie)) (indexed entities)) in
  fold_left separate (pairs players) entities.

(** [tick(inputs)].  The result is the state object that was current when
    the call began, as the call leaves it, and the world afterwards. *)
Definition tick (w : t) (inputs : list (Obj.t Input.t)) : option (State.t * t) :=
  let merged := mergeInputs inputs in
  let next := applyInputsShallow (state w) merged (dt w) in
  let entities :=
    processMovement (State.entities next) merged (dt w) (State.tick next) in
  r <- handleWeaponCombat entities merged (prng w) (activeProjectiles w) ;;
  let '(entities, prng, active) := r in
  let '(entities, prng, active) := handleProjectiles entities (dt w) prng active in
  let entities := resolveCollisions entities in
  (* this.state.rng = this.prng.getState(); this.prng.next(); *)
  let previous := set_rng (Some (PRNG.getState prng)) (state w) in
  let prng := snd (PRNG.next prng) in
  let next :=
    {| State.tick := State.tick next; State.entities := entities;
       State.rng := State.rng next; State.lastChecksum := State.lastChecksum next |} in
  let next :=
    {| State.tick := State.tick next; State.entities := State.entities next;
       State.rng := State.rng next;
       State.lastChecksum := Some (computeStateChecksum next) |} in
  Some (previous,
        {| state := next; tickRate := tickRate w; dt := dt w; prng := prng;
           activeProjectiles := active |}).

End Tick.

Definition setState (s : State.t) (w : t) : t :=
  {| state := cloneState s; tickRate := tickRate w; dt := dt w; prng := prng w;
     activeProjectiles := activeProjectiles w |}.

Definition serialize (w : t) : Snapshot.t := serializeSnapshot (state w).

Definition deserialize (serialized : Snapshot.t) : State.t :=
  deserializeSnapshot serialized.

(** [createWorld(seed?, opts?)] with [opts?.tickRate ?? 20]. *)
Definition createWorld (seed : option Z) (tickRate : option Q) : t :=
  let tickRate := match tickRate with Some r => r | None => 20%Q end in
  let startState := createState 0 seed in
  new (Some startState) tickRate seed.

End World.

(** ** sim/tick.ts: the state objects of the worlds

    A world of the engine holds a reference to its state object, and the
    constructor takes the object it is given: two worlds can hold the same
    one.  Both the constructor and [tick] write [rng] into the object the
    world holds; [tick] then makes the world hold the new object that
    [applyInputsShallow] built.  [Store] keeps the state objects by
    reference, and [WorldRef] is the world that holds a reference; what a
    call computes from the object it reads is [World.new] and [World.tick]
    above.  The objects inside a state (entities, inventories, jump
    states) are not written through a reference that another state holds:
    [cloneState] copies each entity, and an inventory or a jump state is
    replaced, not changed.  So a store of states is enough. *)

Module Store.

(** A reference is the position of the object in the store; [read] and
    [write] are used on the references that [alloc] has given. *)
Definition ref : Type := nat.

Definition t : Type := list State.t.

(** A new object: its reference and the store that has it. *)
Definition alloc (s : State.t) (h : t) : ref * t := (List.length h, (h ++ [s])%list).

Definition read (r : ref) (h : t) : option State.t := nth_error h r.

Definition write (r : ref) (s : State.t) (h : t) : t := Arr.set r s h.

End Store.

Module WorldRef.

Record t := mk {
  state : Store.ref;
  tickRate : Q;
  dt : Q;
  prng : PRNG.t;
  activeProjectiles : list Projectile.t
}.

(** The world [w] with the object [s] for its state, and the world
    object that holds [r] and is [w] otherwise. *)
Definition over (w : t) (s : State.t) : World.t :=
  {| World.state := s; World.tickRate := tickRate w; World.dt := dt w;
     World.prng := prng w; World.activeProjectiles := activeProjectiles w |}.

Definition holding (r : Store.ref) (w : World.t) : t :=
  {| state := r; tickRate := World.tickRate w; dt := World.dt w;
     prng := World.prng w; activeProjectiles := World.activeProjectiles w |}.

(** [constructor(state?, tickRate = 20, seed?)]: the world holds the
    object it is given, or a new one, and [rng] is written into it when it
    has none. *)
Definition new (state : option Store.ref) (tickRate : Q) (seed : option Z)
    (h : Store.t) : option (t * Store.t) :=
  let '(r, h) :=
    match state with
    | Some r => (r, h)
    | None => Store.alloc (createState 0 seed) h
    end in
  s <- Store.read r h ;;
  let w := World.new (Some s) tickRate seed in
  Some (holding r w, Store.write r (World.state w) h).

Section Tick.

Context {host : Host}.

(** [tick(inputs)]: [this.state.rng = ...] writes into the object held
    when the call began, and [this.state = next] makes the world hold a
    new object. *)
Definition tick (w : t) (inputs : list (Obj.t Input.t)) (h : Store.t)
  : option (t * Store.t) :=
  s <- Store.read (state w) h ;;
  r <- World.tick (over w s) inputs ;;
  let '(previous, w') := r in
  let h := Store.write (state w) previous h in
  let '(next, h) := Store.alloc (World.state w') h in
  Some (holding next w', h).

End Tick.

(** [createWorld(seed?, opts?)]: [createState] makes a new object. *)
Definition createWorld (seed : option Z) (tickRate : option Q) (h : Store.t)
  : option (t * Store.t) :=
  let tickRate := match tickRate with Some r => r | None => 20%Q end in
  let '(startState, h) := Store.alloc (createState 0 seed) h in
  new (Some startState) tickRate seed h.

End WorldRef.

(** ** match/match_types.ts, sim/spawn.ts *)

Inductive SpawnType := spawn_team | spawn_random | spawn_safe.

Record SpawnPoint := {
  sp_id : string;
  sp_x : Q;
  sp_y : Q;
  sp_type : SpawnType;
  sp_team : option Z;
  sp_radius : option Q
}.

Module SpawnSystem.

Section WithHost.

Context {host : Host}.

Local Open Scope Q_scope.

(** [canSpawnAt(x, y, radius)] over [world.state.entities]. *)
Fixpoint canSpawnAt (entities : list Entity.t) (x y radius : Q) : bool :=
  match entities with
  | [] => true
  | entity :: rest =>
      if EntityType_eqb (Entity.type entity) player
         || EntityType_eqb (Entity.type entity) item
      then
        let distance :=
          Math_sqrt ((Entity.x entity - x) * (Entity.x entity - x)
                     + (Entity.y entity - y) * (Entity.y entity - y)) in
        if Js.ltb distance radius then false else canSpawnAt rest x y radius
      else canSpawnAt rest x y radius
  end.

(** [spawnPlayer(playerId, spawnPoint)]: success flag and the entities
    afterwards.  (The registration in [activeSpawns] is not part of the
    state.) *)
Definition spawnPlayer (entities : list Entity.t) (playerId : string)
    (spawnPoint : SpawnPoint) : bool * list Entity.t :=
  if negb (canSpawnAt entities (sp_x spawnPoint) (sp_y spawnPoint) 1) then
    (false, entities)
  else
    let playerEntity :=
      {| Entity.id := playerId;
         Entity.type := player;
         Entity.x := sp_x spawnPoint; Entity.y := sp_y spawnPoint;
         Entity.w := 1; Entity.h := Js.fl (18 # 10);
         Entity.vx := 0; Entity.vy := 0; Entity.hp := 100;
         Entity.lifetime := None;
         Entity.owner := None;
         Entity.inventory := None;
         Entity.material := None;
         Entity.buildType := None;
         Entity.rot := None;
         Entity.editState := None;
         Entity.itemType := None;
         Entity.respawnTime := None;
         Entity.team :=
           match sp_type spawnPoint with
           | spawn_team => sp_team spawnPoint
           | _ => None
           end;
         Entity.isCrouching := None;
         Entity.isSprinting := None;
         Entity.onGround := None;
         Entity.jumpState := None;
         Entity.fallStartY := None;
         Entity.movementMomentum := None;
         Entity.maxWalkSpeed := None;
         Entity.walkAccel := None;
         Entity.airControlFactor := None;
         Entity.crouchSpeedMultiplier := None;
         Entity.sprintSpeedMultiplier := None |} in
    (true, (entities ++ [playerEntity])%list).

End WithHost.

End SpawnSystem.

(** ** match/modes/arena.ts *)

(** [players.indexOf(playerId)] *)
Fixpoint indexOf (playerId : string) (players : list string) : option nat :=
  match players with
  | [] => None
  | p :: rest =>
      if String.eqb p playerId then Some O else option_map S (indexOf playerId rest)
  end.

(** [getSpawnPoint] of both mode modules. *)
Definition getSpawnPoint (spawnPoints : list SpawnPoint) (players : list string)
    (playerId : string) : option SpawnPoint :=
  match indexOf playerId players with
  | Some playerIndex => nth_error spawnPoints playerIndex
  | None => None
  end.

Module ArenaMode.

Definition generateSpawnPoints : list SpawnPoint := [
  {| sp_id := "team_0_spawn"; sp_x := 0; sp_y := 0; sp_type := spawn_team;
     sp_team := Some 0; sp_radius := Some 2%Q |};
  {| sp_id := "team_1_spawn"; sp_x := 100; sp_y := 100; sp_type := spawn_team;
     sp_team := Some 1; sp_radius := Some 2%Q |}
].

Section WithHost.

Context {host : Host}.

(** [initialize]: sets [config.spawnPoints] and spawns the first two
    players when there are at least two. *)
Definition initialize (players : list string) (entities : list Entity.t)
  : list SpawnPoint * list Entity.t :=
  let spawnPoints := generateSpawnPoints in
  match players, spawnPoints with
  | p0 :: p1 :: _, s0 :: s1 :: _ =>
      let entities := snd (SpawnSystem.spawnPlayer entities p0 s0) in
      let entities := snd (SpawnSystem.spawnPlayer entities p1 s1) in
      (spawnPoints, entities)
  | _, _ => (spawnPoints, entities)
  end.

(** Loop of [onRoundStart]: [spawnPlayer(players[i], spawnPoints[i % n])].
    With no spawn point the argument is [undefined] and the call throws. *)
Fixpoint onRoundStartFrom (i : nat) (players : list string)
    (spawnPoints : list SpawnPoint) (entities : list Entity.t)
  : option (list Entity.t) :=
  match players with
  | [] => Some entities
  | p :: rest =>
      sp <- nth_error spawnPoints (i mod List.length spawnPoints)%nat ;;
      onRoundStartFrom (S i) rest spawnPoints
        (snd (SpawnSystem.spawnPlayer entities p sp))
  end.

Definition onRoundStart (players : list string) (spawnPoints : list SpawnPoint)
    (entities : list Entity.t) : option (list Entity.t) :=
  onRoundStartFrom 0 players spawnPoints entities.

(** [handleRespawn] *)
Definition handleRespawn (players : list string) (spawnPoints : list SpawnPoint)
    (playerId : string) (entities : list Entity.t) : list Entity.t :=
  match getSpawnPoint spawnPoints players playerId with
  | Some spawnPoint => snd (SpawnSystem.spawnPlayer entities playerId spawnPoint)
  | None => entities
  end.

End WithHost.

End ArenaMode.

(** ** match/match_types.ts: the score sheet of a player *)

Module PlayerMatchState.

Record t := mk {
  playerId : string;
  kills : Z;
  deaths : Z;
  damageDealt : Q;
  damageTaken : Q;
  shotsFired : Z;
  shotsHit : Z;
  timeAlive : Z;
  score : Z;
  respawnTick : option Z;
  spawnPointId : option string
}.

Definition set_kills (v : Z) (s : t) : t :=
  {| playerId := playerId s; kills := v; deaths := deaths s;
     damageDealt := damageDealt s; damageTaken := damageTaken s;
     shotsFired := shotsFired s; shotsHit := shotsHit s; timeAlive := timeAlive s;
     score := score s; respawnTick := respawnTick s; spawnPointId := spawnPointId s |}.

Definition set_deaths (v : Z) (s : t) : t :=
  {| playerId := playerId s; kills := kills s; deaths := v;
     damageDealt := damageDealt s; damageTaken := damageTaken s;
     shotsFired := shotsFired s; shotsHit := shotsHit s; timeAlive := timeAlive s;
     score := score s; respawnTick := respawnTick s; spawnPointId := spawnPointId s |}.

Definition set_timeAlive (v : Z) (s : t) : t :=
  {| playerId := playerId s; kills := kills s; deaths := deaths s;
     damageDealt := damageDealt s; damageTaken := damageTaken s;
     shotsFired := shotsFired s; shotsHit := shotsHit s; timeAlive := v;
     score := score s; respawnTick := respawnTick s; spawnPointId := spawnPointId s |}.

Definition set_score (v : Z) (s : t) : t :=
  {| playerId := playerId s; kills := kills s; deaths := deaths s;
     damageDealt := damageDealt s; damageTaken := damageTaken s;
     shotsFired := shotsFired s; shotsHit := shotsHit s; timeAlive := timeAlive s;
     score := v; respawnTick := respawnTick s; spawnPointId := spawnPointId s |}.

End PlayerMatchState.

(** ** match/match.ts *)

Module MatchRunner.

(** [spawnPlayers]: one [createPlayer] pushed per configured player that
    has a spawn point. *)
Fixpoint spawnPlayersLoop (todo players : list string) (spawnPoints : list SpawnPoint)
    (entities : list Entity.t) : list Entity.t :=
  match todo with
  | [] => entities
  | playerId :: rest =>
      match getSpawnPoint spawnPoints players playerId with
      | None => spawnPlayersLoop rest players spawnPoints entities
      | Some spawnPoint =>
          spawnPlayersLoop rest players spawnPoints
            (entities ++ [createPlayer playerId (sp_x spawnPoint) (sp_y spawnPoint)])%list
      end
  end.

Definition spawnPlayers (players : list string) (spawnPoints : list SpawnPoint)
    (entities : list Entity.t) : list Entity.t :=
  spawnPlayersLoop players players spawnPoints entities.

Section WithHost.

Context {host : Host}.

(** Start of a round in [runMatchLoop], arena mode:
    [this.modeModule.onRoundStart(ctx); await this.spawnPlayers()]. *)
Definition roundStart (players : list string) (spawnPoints : list SpawnPoint)
    (entities : list Entity.t) : option (list Entity.t) :=
  entities <- ArenaMode.onRoundStart players spawnPoints entities ;;
  Some (spawnPlayers players spawnPoints entities).

(** [start()] up to the first round's tick loop, arena mode, on the world
    made by the constructor: the entities of that world's state. *)
Definition start (seed : option Z) (players : list string) : option (list Entity.t) :=
  let world := World.createWorld seed (Some 20%Q) in
  let '(spawnPoints, entities) :=
    ArenaMode.initialize players (State.entities (World.state world)) in
  roundStart players spawnPoints entities.

End WithHost.

(** [initializePlayerStates(playerIds)] *)
Definition initializePlayerStates (playerIds : list string)
  : Obj.t PlayerMatchState.t :=
  fold_left
    (fun states playerId =>
       Obj.set playerId
         {| PlayerMatchState.playerId := playerId;
            PlayerMatchState.kills := 0;
            PlayerMatchState.deaths := 0;
            PlayerMatchState.damageDealt := 0;
            PlayerMatchState.damageTaken := 0;
            PlayerMatchState.shotsFired := 0;
            PlayerMatchState.shotsHit := 0;
            PlayerMatchState.timeAlive := 0;
            PlayerMatchState.score := 0;
            PlayerMatchState.respawnTick := None;
            PlayerMatchState.spawnPointId := None |}
         states)
    playerIds [].

(** A write through [playerStates[playerId]]: to the score sheet when the
    player has one; to a member inherited from [Object.prototype] when the
    id names one, which leaves the score sheets as they are; and otherwise
    to [undefined], which throws. *)
Definition updateSheet (playerId : string)
    (f : PlayerMatchState.t -> PlayerMatchState.t)
    (playerStates : Obj.t PlayerMatchState.t) : option (Obj.t PlayerMatchState.t) :=
  match Obj.get playerId playerStates with
  | Some sheet => Some (Obj.set playerId (f sheet) playerStates)
  | None => if Obj.inherited playerId then Some playerStates else None
  end.

(** [handlePlayerKill(killerId, victimId)].  [killerState] and
    [victimState] are references into [playerStates], the same object when
    the two ids are equal. *)
Definition handlePlayerKill (playerStates : Obj.t PlayerMatchState.t)
    (killerId victimId : string) : option (Obj.t PlayerMatchState.t) :=
  playerStates <-
    updateSheet killerId
      (fun killerState =>
         let killerState :=
           PlayerMatchState.set_kills (PlayerMatchState.kills killerState + 1)
             killerState in
         PlayerMatchState.set_score (PlayerMatchState.score killerState + 100)
           killerState)
      playerStates ;;
  updateSheet victimId
    (fun victimState =>
       let victimState :=
         PlayerMatchState.set_deaths (PlayerMatchState.deaths victimState + 1)
           victimState in
       PlayerMatchState.set_score (PlayerMatchState.score victimState - 50)
         victimState)
    playerStates.

(** The fields of the runner that [processTick] reads and writes. *)
Record t := mk {
  world : World.t;
  players : list string;
  playerStates : Obj.t PlayerMatchState.t;
  prng : PRNG.t
}.

(** The constructor: the world and the runner's own generator are made
    from the same seed. *)
Definition new (seed : Z) (players : list string) : t :=
  {| world := World.createWorld (Some seed) (Some 20%Q);
     players := players;
     playerStates := initializePlayerStates players;
     prng := PRNG.createPRNG (Some seed) |}.

(** [updatePlayerStates()] over the configured players. *)
Fixpoint updatePlayerStates (players : list string) (entities : list Entity.t)
    (playerStates : Obj.t PlayerMatchState.t) : option (Obj.t PlayerMatchState.t) :=
  match players with
  | [] => Some playerStates
  | playerId :: rest =>
      match Arr.find (fun e => String.eqb (Entity.id e) playerId) entities with
      | Some playerEntity =>
          if Js.gtb (Entity.hp playerEntity) 0 then
            playerStates <-
              updateSheet playerId
                (fun playerState =>
                   PlayerMatchState.set_timeAlive
                     (PlayerMatchState.timeAlive playerState + 1) playerState)
                playerStates ;;
            updatePlayerStates rest entities playerStates
          else updatePlayerStates rest entities playerStates
      | None => updatePlayerStates rest entities playerStates
      end
  end.

Section ProcessTick.

Context {host : Host}.

(** [processTick(inputs)]: the world's tick, the score sheets, then
    [this.world.state.rng = this.prng.getState(); this.prng.next()] with
    the runner's generator. *)
Definition processTick (r : t) (inputs : list (Obj.t Input.t)) : option t :=
  ticked <- World.tick (world r) inputs ;;
  let w := snd ticked in
  playerStates <-
    updatePlayerStates (players r) (State.entities (World.state w)) (playerStates r) ;;
  let w :=
    {| World.state := World.set_rng (Some (PRNG.getState (prng r))) (World.state w);
       World.tickRate := World.tickRate w;
       World.dt := World.dt w;
       World.prng := World.prng w;
       World.activeProjectiles := World.activeProjectiles w |} in
  Some {| world := w; players := players r; playerStates := playerStates;
          prng := snd (PRNG.next (prng r)) |}.

End ProcessTick.

End MatchRunner.

(** ** A host to run examples on

    Square roots are rounded down to a multiple of [2^-32 / den], cosine
    and sine are Taylor polynomials, and the collation is code-unit order
    (which is how every collation orders ids such as ["p1"], ["p2"]). *)

Definition sqrtApprox (q : Q) : Q :=
  if Qle_bool q 0 then 0%Q
  else Qmake (Z.sqrt (Qnum q * Zpos (Qden q) * 2 ^ 64)) (Qden q * 2 ^ 32).

Definition cosApprox (a : Q) : Q :=
  (1 - a * a / 2 + a * a * a * a / 24 - a * a * a * a * a * a / 720)%Q.

Definition sinApprox (a : Q) : Q :=
  (a - a * a * a / 6 + a * a * a * a * a / 120)%Q.

Definition referenceHost : Host :=
  {| Math_sqrt := sqrtApprox;
     Math_cos := cosApprox;
     Math_sin := sinApprox;
     localeCompare := String.compare |}.

(** * Vocabulary of the claims, and the data of the examples *)

(** The ids of an entities array, in its order. *)
Definition ids (entities : list Entity.t) : list string := map Entity.id entities.

(** [e'] is the same body as [e]: identity, health and the recorded
    fall-start height are untouched. *)
Definition sameBody (e e' : Entity.t) : Prop :=
  Entity.id e' = Entity.id e
  /\ Entity.type e' = Entity.type e
  /\ Entity.hp e' = Entity.hp e
  /\ Entity.fallStartY e' = Entity.fallStartY e.

Section FallSteps.

Context {host : Host}.

(** One step of [processMovement] for one player, given as the input, the
    time step, the tick number and the ground entities of that tick. *)
Definition fallStep (e : Entity.t) (s : Input.t * Q * Z * list Entity.t) : Entity.t :=
  let '(input, dt, worldTick, grounds) := s in
  stepPlayer e input dt worldTick grounds.

End FallSteps.

(** The input of the step does not ask for a jump. *)
Definition noJump (s : Input.t * Q * Z * list Entity.t) : Prop :=
  let '(input, _, _, _) := s in Js.truthy (Input.jump input) = false.

(** A player on the ground whose recorded fall-start height is 30. *)
Definition landed30 : Entity.t :=
  Entity.set_fallStartY (Some 30%Q) (createPlayer "p1" 0 0).

(** A player spawned in the air: [onGround] and [fallStartY] are absent. *)
Definition faller : Entity.t :=
  Entity.set_onGround None (Entity.set_y (1 # 10) (createPlayer "p1" 0 0)).

(** Two ticks without input, after which [faller] has landed. *)
Definition fallerSteps : list (Input.t * Q * Z * list Entity.t) :=
  [ (defaultInput "p1", (1 # 20)%Q, 1, []); (defaultInput "p1", (1 # 20)%Q, 2, []) ].

(** The upper and the lower third of a box.  Up is the direction of
    growing [y]: a jump sets [vy] to [JUMP_IMPULSE], gravity takes from
    [vy], and the ground is at [y = 0]. *)
Definition upperThird (box : AABB.t) (p : Q * Q) : Prop :=
  (AABB.y box + 2 * AABB.h box / 3 <= snd p <= AABB.y box + AABB.h box)%Q.

Definition lowerThird (box : AABB.t) (p : Q * Q) : Prop :=
  (AABB.y box <= snd p <= AABB.y box + AABB.h box / 3)%Q.

(** The target of the test "validates damage falloff and headshot
    multipliers": [{ id: "target", type: "player", x: 5, y: 0, w: 1,
    h: 1.8, vx: 0, vy: 0, hp: 100 }]. *)
Definition testTarget : Entity.t :=
  {| Entity.id := "target";
     Entity.type := player;
     Entity.x := 5; Entity.y := 0; Entity.w := 1; Entity.h := Js.fl (18 # 10);
     Entity.vx := 0; Entity.vy := 0; Entity.hp := 100;
     Entity.lifetime := None;
     Entity.owner := None;
     Entity.inventory := None;
     Entity.material := None;
     Entity.buildType := None;
     Entity.rot := None;
     Entity.editState := None;
     Entity.itemType := None;
     Entity.respawnTime := None;
     Entity.team := None;
     Entity.isCrouching := None;
     Entity.isSprinting := None;
     Entity.onGround := None;
     Entity.jumpState := None;
     Entity.fallStartY := None;
     Entity.movementMomentum := None;
     Entity.maxWalkSpeed := None;
     Entity.walkAccel := None;
     Entity.airControlFactor := None;
     Entity.crouchSpeedMultiplier := None;
     Entity.sprintSpeedMultiplier := None |}.

(** A round of the bolt-action rifle of ["p1"], not yet slowed by the
    distance, at a given position. *)
Definition sniperRound (position : Q * Q) : Projectile.t :=
  {| Projectile.id := "proj_p1_1"; Projectile.weaponId := "sniper_bolt";
     Projectile.ownerId := "p1"; Projectile.position := position;
     Projectile.direction := (1, 0)%Q; Projectile.speed := 80;
     Projectile.damage := 100; Projectile.isHitscan := false;
     Projectile.spread := Js.fl (1 # 100); Projectile.pellets := 1;
     Projectile.range := 200; Projectile.headshotMultiplier := 2;
     Projectile.lifetime := 119; Projectile.distanceTraveled := 0 |}.

(** A player as [DefaultSpawnSystem.spawnPlayer] makes it at a team spawn
    point, and an item as [spawnItem] makes it. *)
Definition teamPlayer : Entity.t :=
  {| Entity.id := "p1";
     Entity.type := player;
     Entity.x := 100; Entity.y := 100; Entity.w := 1; Entity.h := Js.fl (18 # 10);
     Entity.vx := 0; Entity.vy := 0; Entity.hp := 100;
     Entity.lifetime := None;
     Entity.owner := None;
     Entity.inventory := None;
     Entity.material := None;
     Entity.buildType := None;
     Entity.rot := None;
     Entity.editState := None;
     Entity.itemType := None;
     Entity.respawnTime := None;
     Entity.team := Some 1;
     Entity.isCrouching := None;
     Entity.isSprinting := None;
     Entity.onGround := None;
     Entity.jumpState := None;
     Entity.fallStartY := None;
     Entity.movementMomentum := None;
     Entity.maxWalkSpeed := None;
     Entity.walkAccel := None;
     Entity.airControlFactor := None;
     Entity.crouchSpeedMultiplier := None;
     Entity.sprintSpeedMultiplier := None |}.

Definition lootItem : Entity.t :=
  {| Entity.id := "item_1_42";
     Entity.type := item;
     Entity.x := 50; Entity.y := 50; Entity.w := 5 # 10; Entity.h := 5 # 10;
     Entity.vx := 0; Entity.vy := 0; Entity.hp := 1;
     Entity.lifetime := None;
     Entity.owner := None;
     Entity.inventory := None;
     Entity.material := None;
     Entity.buildType := None;
     Entity.rot := None;
     Entity.editState := None;
     Entity.itemType := Some "ammo"%string;
     Entity.respawnTime := Some 600%Q;
     Entity.team := None;
     Entity.isCrouching := None;
     Entity.isSprinting := None;
     Entity.onGround := None;
     Entity.jumpState := None;
     Entity.fallStartY := None;
     Entity.movementMomentum := None;
     Entity.maxWalkSpeed := None;
     Entity.walkAccel := None;
     Entity.airControlFactor := None;
     Entity.crouchSpeedMultiplier := None;
     Entity.sprintSpeedMultiplier := None |}.

Definition lootState : State.t :=
  {| State.tick := 7; State.entities := [teamPlayer; lootItem];
     State.rng := None; State.lastChecksum := None |}.

(** What a round trip keeps of an entity [e], read off [e']. *)
Definition roundTripKeeps (e e' : Entity.t) : Prop :=
  Entity.id e' = Entity.id e
  /\ Entity.x e' = Entity.x e /\ Entity.y e' = Entity.y e
  /\ Entity.w e' = Entity.w e /\ Entity.h e' = Entity.h e
  /\ Entity.vx e' = Entity.vx e /\ Entity.vy e' = Entity.vy e
  /\ Entity.hp e' = Entity.hp e
  /\ match Entity.type e with
     | bullet =>
         Entity.type e' = bullet
         /\ Entity.owner e' = Entity.owner e
         /\ Entity.lifetime e' = Entity.lifetime e
     | build_piece =>
         Entity.type e' = build_piece
         /\ Entity.owner e' = Entity.owner e
         /\ Entity.buildType e' = Entity.buildType e
         /\ Entity.material e' = Entity.material e
         /\ Entity.rot e' = Some (Js.orElse (Entity.rot e) 0)
         /\ Entity.editState e' = Some (Js.orElseZ (Entity.editState e) 0)
     | player =>
         Entity.type e' = player
         /\ Entity.inventory e' = Entity.inventory e
         /\ Entity.isCrouching e' = Entity.isCrouching e
         /\ Entity.isSprinting e' = Entity.isSprinting e
         /\ Entity.onGround e' = Entity.onGround e
         /\ Entity.jumpState e' = Entity.jumpState e
         /\ Entity.fallStartY e' = Entity.fallStartY e
         /\ Entity.movementMomentum e' = Entity.movementMomentum e
         /\ Entity.maxWalkSpeed e' = Entity.maxWalkSpeed e
         /\ Entity.walkAccel e' = Entity.walkAccel e
         /\ Entity.airControlFactor e' = Entity.airControlFactor e
         /\ Entity.crouchSpeedMultiplier e' = Entity.crouchSpeedMultiplier e
         /\ Entity.sprintSpeedMultiplier e' = Entity.sprintSpeedMultiplier e
     | item => True
     end.

(** [a] does not have to come after [b] in the order of [cmp]. *)
Definition notAfter {A : Type} (cmp : A -> A -> comparison) (a b : A) : Prop :=
  cmp a b <> Gt.

(** What the checksum needs of the host's collation: it is a total
    preorder.  (That it tells two given ids apart is asked of the ids at
    hand, see [distinguishes].) *)
Class Collation (host : Host) : Prop := {
  collation_antisym :
    forall a b, localeCompare a b = CompOpp (localeCompare b a);
  collation_trans :
    forall a b c,
      localeCompare a b <> Gt -> localeCompare b c <> Gt -> localeCompare a c <> Gt
}.

Definition distinguishes (host : Host) (ids : list string) : Prop :=
  forall a b, In a ids -> In b ids -> localeCompare a b = Eq -> a = b.

(** Two players listed in either order, the second one with a position
    that differs below the quantization step and quantizes to the same
    integer: 0.5 in one state and the double 0.50001 in the other. *)
Definition orderA : State.t :=
  {| State.tick := 3;
     State.entities := [createPlayer "p2" 5 0; createPlayer "p1" (5 # 10) 0];
     State.rng := Some 12345; State.lastChecksum := None |}.

Definition orderB : State.t :=
  {| State.tick := 3;
     State.entities := [createPlayer "p1" (Js.fl (50001 # 100000)) 0; createPlayer "p2" 5 0];
     State.rng := Some 12345; State.lastChecksum := Some "stale"%string |}.

(** Two entities with the same id in either order, and one entity whose
    position differs by a ten-millionth across a rounding boundary: the
    doubles 0.0004999 and 0.0005. *)
Definition twinsA : State.t :=
  {| State.tick := 3;
     State.entities := [createPlayer "p1" 0 0; createPlayer "p1" 1 0];
     State.rng := Some 12345; State.lastChecksum := None |}.

Definition twinsB : State.t :=
  {| State.tick := 3;
     State.entities := [createPlayer "p1" 1 0; createPlayer "p1" 0 0];
     State.rng := Some 12345; State.lastChecksum := None |}.

Definition noiseA : State.t :=
  {| State.tick := 3;
     State.entities := [createPlayer "p1" (Js.fl (4999 # 10000000)) 0];
     State.rng := Some 12345; State.lastChecksum := None |}.

Definition noiseB : State.t :=
  {| State.tick := 3;
     State.entities := [createPlayer "p1" (Js.fl (5 # 10000)) 0];
     State.rng := Some 12345; State.lastChecksum := None |}.

(** What a test reads off a world after a tick. *)
Definition observation : Type := option string * option Z * Snapshot.t.

Definition observe (w : World.t) : observation :=
  (State.lastChecksum (World.state w), State.rng (World.state w), World.serialize w).

Section Runs.

Context {host : Host}.

(** The observations after each tick of a run; a tick that throws ends the
    run with [None]. *)
Fixpoint run (w : World.t) (inputs : list (list (Obj.t Input.t)))
  : list (option observation) :=
  match inputs with
  | [] => []
  | i :: rest =>
      match World.tick w i with
      | Some (_, w') => Some (observe w') :: run w' rest
      | None => [None]
      end
  end.

End Runs.

(** What a test reads off a world that holds a state object. *)
Definition observeHeld (w : WorldRef.t) (h : Store.t) : option observation :=
  option_map (fun s => observe (WorldRef.over w s)) (Store.read (WorldRef.state w) h).

Section Both.

Context {host : Host}.

(** Two worlds in one store, each stepped through its own list of input
    arrays and observed after each of its ticks.  [schedule] says whose
    turn it is, [true] for the first world; a world that has no input
    left passes.  A tick that throws ends everything. *)
Fixpoint runBoth (schedule : list bool) (a b : WorldRef.t)
    (ia ib : list (list (Obj.t Input.t))) (h : Store.t)
  : option (list observation * list observation) :=
  match schedule with
  | [] => Some ([], [])
  | true :: rest =>
      match ia with
      | [] => runBoth rest a b ia ib h
      | i :: ia =>
          r <- WorldRef.tick a i h ;;
          let '(a, h) := r in
          o <- observeHeld a h ;;
          r <- runBoth rest a b ia ib h ;;
          Some (o :: fst r, snd r)
      end
  | false :: rest =>
      match ib with
      | [] => runBoth rest a b ia ib h
      | i :: ib =>
          r <- WorldRef.tick b i h ;;
          let '(b, h) := r in
          o <- observeHeld b h ;;
          r <- runBoth rest a b ia ib h ;;
          Some (fst r, o :: snd r)
      end
  end.

(** Two calls of [createWorld(seed, { tickRate })], and the two worlds
    stepped through the same inputs. *)
Definition createWorldRuns (seed : option Z) (tickRate : option Q)
    (inputs : list (list (Obj.t Input.t))) (schedule : list bool) (h : Store.t)
  : option (list observation * list observation) :=
  x <- WorldRef.createWorld seed tickRate h ;;
  let '(a, h) := x in
  x <- WorldRef.createWorld seed tickRate h ;;
  let '(b, h) := x in
  runBoth schedule a b inputs inputs h.

(** Two calls of [new World(state, tickRate, seed)], each on a state
    object of its own with the content [start]. *)
Definition independentRuns (start : State.t) (tickRate : Q) (seed : option Z)
    (inputs : list (list (Obj.t Input.t))) (schedule : list bool) (h : Store.t)
  : option (list observation * list observation) :=
  let '(ra, h) := Store.alloc start h in
  x <- WorldRef.new (Some ra) tickRate seed h ;;
  let '(a, h) := x in
  let '(rb, h) := Store.alloc start h in
  x <- WorldRef.new (Some rb) tickRate seed h ;;
  let '(b, h) := x in
  runBoth schedule a b inputs inputs h.

(** Two calls of [new World(state, tickRate, seed)] on one state object. *)
Definition sharedRuns (start : State.t) (tickRate : Q) (seed : option Z)
    (inputs : list (list (Obj.t Input.t))) (schedule : list bool) (h : Store.t)
  : option (list observation * list observation) :=
  let '(r, h) := Store.alloc start h in
  x <- WorldRef.new (Some r) tickRate seed h ;;
  let '(a, h) := x in
  x <- WorldRef.new (Some r) tickRate seed h ;;
  let '(b, h) := x in
  runBoth schedule a b inputs inputs h.

End Both.

(** The number of turns of a world in a schedule. *)
Definition steps (turn : bool) (schedule : list bool) : nat :=
  List.length (filter (Bool.eqb turn) schedule).

(** The observations of two worlds that started at tick [t0] are the same
    after every tick that both have made; and the observation after the
    tick of index [n] has the tick number [t0 + n + 1] and a checksum. *)
Definition sameAfterEveryTick (t0 : Z) (oa ob : list observation) : Prop :=
  (forall (n : nat) (o1 o2 : observation),
      nth_error oa n = Some o1 -> nth_error ob n = Some o2 -> o1 = o2)
  /\ (forall (n : nat) (o : observation),
         nth_error oa n = Some o \/ nth_error ob n = Some o ->
         Snapshot.tick (snd o) = t0 + Z.of_nat n + 1 /\ fst (fst o) <> None).

(** [result] is the outcome of two runs on the inputs, with the turns of
    [schedule], that are determined by the world [start]: no tick has
    thrown; each world has been observed after each of its ticks; the
    observations are the same after every tick; and they are the ones of
    the run of [start] alone. *)
Definition determined {host : Host} (start : World.t)
    (inputs : list (list (Obj.t Input.t))) (schedule : list bool)
    (result : option (list observation * list observation)) : Prop :=
  exists oa ob : list observation,
    result = Some (oa, ob)
    /\ List.length oa = Nat.min (steps true schedule) (List.length inputs)
    /\ List.length ob = Nat.min (steps false schedule) (List.length inputs)
    /\ sameAfterEveryTick (State.tick (World.state start)) oa ob
    /\ map Some oa = firstn (steps true schedule) (run start inputs)
    /\ map Some ob = firstn (steps false schedule) (run start inputs).

(** The world object [a] holds, in the store [h], the state of the world
    [w], and is [w] otherwise. *)
Definition holds (a : WorldRef.t) (w : World.t) (h : Store.t) : Prop :=
  Store.read (WorldRef.state a) h = Some (World.state w)
  /\ WorldRef.over a (World.state w) = w.

(** A state with two players of the default loadout and no [rng]. *)
Definition armedStart : State.t :=
  {| State.tick := 0;
     State.entities := [createPlayer "p1" 0 0; createPlayer "p2" 10 0];
     State.rng := None; State.lastChecksum := None |}.

(** One input map: the client ["p1"] moves right. *)
Definition moveRight : Obj.t Input.t :=
  [ ("p1"%string,
     {| Input.seq := 1; Input.clientId := "p1"; Input.dx := 1; Input.dy := 0;
        Input.shoot := None; Input.jump := None; Input.crouch := None;
        Input.sprint := None |}) ].

(** The snapshot of a state with one player at the origin. *)
Definition snapP1 : Snapshot.t :=
  serializeSnapshot
    {| State.tick := 1; State.entities := [createPlayer "p1" 0 0];
       State.rng := None; State.lastChecksum := None |}.

(** [e'] has the type, inventory and crouch flag of [e]. *)
Definition sameKit (e e' : Entity.t) : Prop :=
  Entity.type e' = Entity.type e
  /\ Entity.inventory e' = Entity.inventory e
  /\ Entity.isCrouching e' = Entity.isCrouching e.

(** One input map: the client ["p1"] moves right and crouches. *)
Definition crouchRightInput : Input.t :=
  {| Input.seq := 1; Input.clientId := "p1"; Input.dx := 1; Input.dy := 0;
     Input.shoot := None; Input.jump := None; Input.crouch := Some true;
     Input.sprint := None |}.

Definition crouchRight : Obj.t Input.t := [ ("p1"%string, crouchRightInput) ].

(** The live world started from [snapP1], and its player after the shallow
    pass of the first tick. *)
Definition liveStart : World.t := World.new (Some (World.deserialize snapP1)) 20 None.

Definition shallowP1 : Entity.t :=
  applyInput crouchRightInput (1 / 20) (createPlayer "p1" 0 0).

(** Two players spawned into the constructed world, then one tick in which
    the first one moves. *)
Definition twoPlayers : list Entity.t :=
  MatchRunner.spawnPlayers ["p1"; "p2"]%string ArenaMode.generateSpawnPoints [].

Definition twoPlayerWorld : World.t :=
  World.setState
    {| State.tick := 0; State.entities := twoPlayers;
       State.rng := Some 12345; State.lastChecksum := None |}
    (World.createWorld (Some 12345) None).

(** * Vocabulary of the further properties, and their examples *)

(** The generator after [n] calls of [next]. *)
Definition afterDraws (n : nat) (p : PRNG.t) : PRNG.t :=
  Nat.iter n (fun q => snd (PRNG.next q)) p.

(** FNV-1a on 32 bits as it is published: offset basis 2166136261 and
    prime 16777619, one octet at a time. *)
Fixpoint fnv1aReference (str : string) (hash : Z) : Z :=
  match str with
  | EmptyString => hash
  | String c r =>
      fnv1aReference r ((Z.lxor hash (charCodeAt c) * 16777619) mod 2 ^ 32)
  end.

(** An entity that a round trip through a snapshot gives back unchanged. *)
Definition roundTripStable (e : Entity.t) : Prop :=
  deserializeEntity (serializeEntity e) = e.

(** A state that a round trip gives back unchanged. *)
Definition stableState (s : State.t) : Prop :=
  State.rng s = None /\ State.lastChecksum s = None
  /\ Forall roundTripStable (State.entities s).

(** What [applyInputsShallow] keeps of the array: everything but the
    bullets whose lifetime, once decremented, is not positive. *)
Definition outlivesStep (e : Entity.t) : bool :=
  negb (EntityType_eqb (Entity.type e) bullet
        && match Entity.lifetime e with
           | Some lt => Js.leb (lt - 1) 0
           | None => false
           end).

(** The id and type of an entity. *)
Definition tagOf (e : Entity.t) : string * EntityType := (Entity.id e, Entity.type e).

(** [e'] has the id, type and lifetime of [e]. *)
Definition sameTag (e e' : Entity.t) : Prop :=
  Entity.id e' = Entity.id e /\ Entity.type e' = Entity.type e
  /\ Entity.lifetime e' = Entity.lifetime e.

(** An inventory on which no operation throws: the active slot is inside
    the weapon array and every weapon has a configuration. *)
Definition wellFormedInventory (inv : Inventory.t) : Prop :=
  0 <= Inventory.activeWeaponSlot inv < Z.of_nat (List.length (Inventory.weapons inv))
  /\ Forall (fun w => exists c, getWeaponConfig (weaponId w) = Some c)
       (Inventory.weapons inv).

(** The rounds held in reserve for a weapon id: [reserveAmmo[id] || 0]. *)
Definition reserveOf (inv : Inventory.t) (id : string) : Z :=
  Js.orElseZ (Obj.get id (Inventory.reserveAmmo inv)) 0.

(** [n] calls of [updateReload] in a row. *)
Fixpoint updateReloadTimes (n : nat) (inv : Inventory.t) : option Inventory.t :=
  match n with
  | O => Some inv
  | S n' => inv' <- updateReload inv ;; updateReloadTimes n' inv'
  end.

(** The inventory while its active weapon, [w], reloads with [r] ticks to
    go. *)
Definition whileReloading (inv : Inventory.t) (w : WeaponState) (r : Z) : Inventory.t :=
  {| Inventory.weapons :=
       setActiveWeapon
         {| weaponId := weaponId w; currentAmmo := currentAmmo w;
            isReloading := true; reloadTicksRemaining := r |} inv;
     Inventory.activeWeaponSlot := Inventory.activeWeaponSlot inv;
     Inventory.reserveAmmo := Inventory.reserveAmmo inv |}.

(** What every projectile of one shot shares. *)
Definition firedBy (c : WeaponConfig) (ownerId : string) (position : Q * Q)
    (p : ProjectileData.t) : Prop :=
  ProjectileData.ownerId p = ownerId
  /\ ProjectileData.weaponId p = wc_id c
  /\ ProjectileData.position p = position
  /\ ProjectileData.damage p = damage (stats c)
  /\ ProjectileData.speed p = projectileSpeed (stats c)
  /\ ProjectileData.range p = range (stats c)
  /\ ProjectileData.pellets p = 1.

(** The projectile after one step when nothing is there to be hit. *)
Definition flown {host : Host} (dt : Q) (p : Projectile.t) : Projectile.t :=
  fst (fst (simulateProjectile p [] dt (PRNG.new 0))).

(** A player's inventory, when it has one, is well formed. *)
Definition soundLoadout (e : Entity.t) : Prop :=
  isPlayer e = true ->
  forall inv, Entity.inventory e = Some inv -> wellFormedInventory inv.

(** What a tick may do to an entity: it keeps the id and the type, it
    neither heals nor leaves a negative health, and it keeps a sound
    loadout sound. *)
Definition tickRel (e e' : Entity.t) : Prop :=
  Entity.id e' = Entity.id e
  /\ Entity.type e' = Entity.type e
  /\ ((0 <= Entity.hp e)%Q -> (0 <= Entity.hp e' <= Entity.hp e)%Q)
  /\ (soundLoadout e -> soundLoadout e').

(** What holds of every projectile in flight between two ticks. *)
Definition inFlight (p : Projectile.t) : Prop :=
  Projectile.isHitscan p = false /\ Projectile.lifetime p <= 120.

(** The damage of a hit, when it has one, is at least 1. *)
Definition hurts (h : HitResult) : Prop :=
  match hitDamage h with
  | Some d => 1 <= d
  | None => True
  end.

(** The same id, type, health and inventory. *)
Definition sameCore (e e' : Entity.t) : Prop :=
  Entity.id e' = Entity.id e /\ Entity.type e' = Entity.type e
  /\ Entity.hp e' = Entity.hp e /\ Entity.inventory e' = Entity.inventory e.

(** What a tick does to an entity that it keeps. *)
Definition afterTick (e e' : Entity.t) : Prop :=
  Entity.id e' = Entity.id e
  /\ Entity.type e' = Entity.type e
  /\ ((0 <= Entity.hp e)%Q -> (0 <= Entity.hp e' <= Entity.hp e)%Q).

(** What [processMovement] leaves of the array: the types everywhere, and
    every entity that is not a player as it was. *)
Definition onlyPlayersMoved (e e' : Entity.t) : Prop :=
  Entity.type e' = Entity.type e /\ (isPlayer e = false -> e' = e).

(** The centre of a box as [resolve] computes it, in doubles. *)
Definition centre (a : AABB.t) : Q * Q :=
  (Js.fl (AABB.x a + Js.fl (AABB.w a / 2)),
   Js.fl (AABB.y a + Js.fl (AABB.h a / 2)))%Q.

(** The move of [resolve] along one axis: [p] is the penetration, [d] the
    offset of the centres. *)
Definition push (d p : Q) : Q :=
  let val := if Js.gtb d 0 then p else (- p)%Q in
  Js.fl (val + (if Js.gtb val 0 then Js.fl (1 # 1000000) else - Js.fl (1 # 1000000)))%Q.

(** The number of score sheets a player has: one or none. *)
Definition sheetCount (playerId : string) (playerStates : Obj.t PlayerMatchState.t) : Z :=
  match Obj.get playerId playerStates with Some _ => 1 | None => 0 end.

(** The sum of one column of the score sheets. *)
Definition columnTotal (f : PlayerMatchState.t -> Z) (playerStates : Obj.t PlayerMatchState.t)
  : Z :=
  fold_right (fun kv acc => f (snd kv) + acc) 0 playerStates.

(** The characters that [toString(16)] writes. *)
Definition isHexDigit (c : ascii) : bool :=
  let n := Z.of_N (N_of_ascii c) in
  ((48 <=? n) && (n <=? 57)) || ((97 <=? n) && (n <=? 102)).

(** Every character of the string is a lowercase hexadecimal digit. *)
Fixpoint allHex (s : string) : bool :=
  match s with
  | EmptyString => true
  | String c r => isHexDigit c && allHex r
  end.

(** The rifle of the default loadout with ten rounds left. *)
Definition rifle10 : WeaponState :=
  {| weaponId := "ar_standard"; currentAmmo := 10;
     isReloading := false; reloadTicksRemaining := 0 |}.

(** The default loadout with that rifle in hand. *)
Definition rifleInHand : Inventory.t :=
  {| Inventory.weapons :=
       [ {| weaponId := "pickaxe_standard"; currentAmmo := 0;
            isReloading := false; reloadTicksRemaining := 0 |};
         rifle10 ];
     Inventory.activeWeaponSlot := 1;
     Inventory.reserveAmmo := [("ar_standard"%string, 90)] |}.

(** The configuration of the rifle. *)
Definition rifleConfig : WeaponConfig :=
  {| wc_id := "ar_standard"; wc_type := AR;
     stats := {| damage := 25; rpm := 600; spread := 5 # 100;
                 projectileSpeed := 50; pellets := 1; range := 100;
                 headshotMultiplier := 15 # 10; ammoPerShot := 1;
                 magazineSize := 30; reloadTime := 60 |} |}.

(** An input of a client that has no entity. *)
Definition ghostInputs : Obj.t Input.t :=
  [ ("ghost"%string,
     {| Input.seq := 1; Input.clientId := "ghost"; Input.dx := 1; Input.dy := 0;
        Input.shoot := Some true; Input.jump := None; Input.crouch := None;
        Input.sprint := None |}) ].

(** A projectile of ["p1"] at the origin, one step short of [x = 5/2]. *)
Definition nearMiss : Projectile.t :=
  {| Projectile.id := "proj_p1_1"; Projectile.weaponId := "ar_standard";
     Projectile.ownerId := "p1"; Projectile.position := (0, 0)%Q;
     Projectile.direction := (1, 0)%Q; Projectile.speed := 50;
     Projectile.damage := 25; Projectile.isHitscan := false;
     Projectile.spread := 5 # 100; Projectile.pellets := 1; Projectile.range := 100;
     Projectile.headshotMultiplier := 15 # 10;
     Projectile.lifetime := 120; Projectile.distanceTraveled := 0 |}.

(** A world with two players of the default loadout, standing apart. *)
Definition armedWorld : World.t :=
  World.setState
    {| State.tick := 0;
       State.entities := [createPlayer "p1" 0 0; createPlayer "p2" 10 0];
       State.rng := Some 12345; State.lastChecksum := None |}
    (World.createWorld (Some 12345) None).

(** One input map: the client ["p1"] shoots. *)
Definition shootRight : Obj.t Input.t :=
  [ ("p1"%string,
     {| Input.seq := 1; Input.clientId := "p1"; Input.dx := 1; Input.dy := 0;
        Input.shoot := Some true; Input.jump := None; Input.crouch := None;
        Input.sprint := None |}) ].

(** A spawn point. *)
Definition homePoint : SpawnPoint :=
  {| sp_id := "home"; sp_x := 10; sp_y := 10; sp_type := spawn_random;
     sp_team := None; sp_radius := Some 1%Q |}.

(** * Properties *)

(** ** Rounding to a double *)

Lemma fl_comp (a b : Q) : (a == b)%Q -> Js.fl a = Js.fl b.
Proof. intros H. unfold Js.fl. rewrite (Qred_complete a b H). reflexivity. Qed.

Lemma roundHalfEven_nonneg (n d : Z) : 0 <= n -> 0 < d -> 0 <= Js.roundHalfEven n d.
Proof.
  intros Hn Hd. unfold Js.roundHalfEven.
  assert (0 <= n / d) by (apply Z.div_pos; lia).
  destruct (2 * (n mod d) <? d); [assumption |].
  destruct (d <? 2 * (n mod d)); [lia |].
  destruct (Z.even (n / d)); lia.
Qed.

Lemma flPos_nonneg (n d : positive) : (0 <= Js.flPos n d)%Q.
Proof.
  unfold Js.flPos.
  set (e := Z.max _ _).
  destruct (0 <=? e) eqn:E.
  - apply Z.leb_le in E. change 0%Q with (inject_Z 0). rewrite <- Zle_Qle.
    apply Z.mul_nonneg_nonneg; [| apply Z.pow_nonneg; lia].
    apply roundHalfEven_nonneg; [lia |].
    apply Z.mul_pos_pos; [lia | apply Z.pow_pos_nonneg; lia].
  - rewrite Qred_correct. unfold Qle. cbn [Qnum Qden]. rewrite Z.mul_0_l, Z.mul_1_r.
    apply roundHalfEven_nonneg; [| lia].
    apply Z.mul_nonneg_nonneg; [lia | apply Z.pow_nonneg; lia].
Qed.

Lemma fl_nonneg (q : Q) : (0 <= q)%Q -> (0 <= Js.fl q)%Q.
Proof.
  intros H. unfold Js.fl.
  destruct (Qnum (Qred q)) as [| n | n] eqn:E.
  - apply Qle_refl.
  - apply flPos_nonneg.
  - exfalso. rewrite <- (Qred_correct q) in H. unfold Qle in H. cbn in H.
    rewrite E in H. lia.
Qed.

Lemma fl_zero : Js.fl 0 = 0%Q.
Proof. reflexivity. Qed.

Lemma fl_opp (q : Q) : Js.fl (- q) = (- Js.fl q)%Q.
Proof.
  unfold Js.fl. rewrite Qred_opp.
  destruct (Qred q) as [n d]. cbn [Qopp Qnum Qden].
  destruct n as [| n | n]; cbn [Z.opp]; try reflexivity.
  destruct (Js.flPos n d) as [a b]. unfold Qopp. cbn [Qnum Qden].
  rewrite Z.opp_involutive. reflexivity.
Qed.

Lemma fl_nonpos (q : Q) : (q <= 0)%Q -> (Js.fl q <= 0)%Q.
Proof.
  intros H. assert (H' : (0 <= - q)%Q) by lra.
  apply fl_nonneg in H'. rewrite fl_opp in H'. lra.
Qed.

Lemma roundHalfEven_ge_one (n d : Z) : 0 < d -> d <= n -> 1 <= Js.roundHalfEven n d.
Proof.
  intros Hd Hn. unfold Js.roundHalfEven.
  assert (1 <= n / d).
  { apply Z.div_le_lower_bound; lia. }
  destruct (2 * (n mod d) <? d); [assumption |].
  destruct (d <? 2 * (n mod d)); [lia |].
  destruct (Z.even (n / d)); lia.
Qed.

Lemma log2_bounds (n : positive) :
  2 ^ Z.log2 (Zpos n) <= Zpos n < 2 ^ (Z.log2 (Zpos n) + 1).
Proof.
  pose proof (Z.log2_spec (Zpos n) ltac:(lia)) as H.
  rewrite <- Z.add_1_r in H. exact H.
Qed.

(** A rational of at least 2^-1074 does not round to 0. *)
Lemma flPos_pos (n d : positive) :
  Zpos d <= Zpos n * 2 ^ 1074 -> (0 < Js.flPos n d)%Q.
Proof.
  intros Hq. unfold Js.flPos.
  pose proof (log2_bounds n) as [Ln Un]. pose proof (log2_bounds d) as [Ld Ud].
  pose proof (Z.log2_nonneg (Zpos n)) as Nn. pose proof (Z.log2_nonneg (Zpos d)) as Nd.
  set (ln := Z.log2 (Zpos n)) in *. set (ld := Z.log2 (Zpos d)) in *.
  set (k := ln - ld).
  set (above := if 0 <=? k then _ else _).
  set (e0 := if above then k - 52 else k - 53).
  assert (He0 : e0 <= k - 52) by (unfold e0; destruct above; lia).
  set (e := Z.max e0 (-1074)).
  destruct (0 <=? e) eqn:E.
  - apply Z.leb_le in E.
    assert (e = e0) by (unfold e in *; lia).
    assert (Hle : Zpos d * 2 ^ e <= Zpos n).
    { assert (2 ^ e <= 2 ^ (k - 52)) by (apply Z.pow_le_mono_r; lia).
      assert (Zpos d * 2 ^ e <= 2 ^ (ld + 1) * 2 ^ (k - 52)).
      { apply Z.mul_le_mono_nonneg; try lia; apply Z.pow_nonneg; lia. }
      rewrite <- Z.pow_add_r in H1 by lia.
      assert (2 ^ (ld + 1 + (k - 52)) <= 2 ^ ln) by (apply Z.pow_le_mono_r; lia).
      lia. }
    assert (Hpos : 0 < Zpos d * 2 ^ e).
    { apply Z.mul_pos_pos; [lia | apply Z.pow_pos_nonneg; lia]. }
    pose proof (roundHalfEven_ge_one _ _ Hpos Hle) as R.
    change 0%Q with (inject_Z 0). rewrite <- Zlt_Qlt.
    apply Z.mul_pos_pos; [lia | apply Z.pow_pos_nonneg; lia].
  - apply Z.leb_gt in E. rewrite Qred_correct.
    assert (Hle : Zpos d <= Zpos n * 2 ^ (- e)).
    { destruct (Z.eq_dec e (-1074)) as [-> | Hne]; [exact Hq |].
      assert (e = e0) by (unfold e in *; lia).
      destruct (Z_le_gt_dec k 52) as [Hk | Hk].
      - assert (2 ^ (52 - k) <= 2 ^ (- e)) by (apply Z.pow_le_mono_r; lia).
        assert (2 ^ ln * 2 ^ (52 - k) <= Zpos n * 2 ^ (- e)).
        { apply Z.mul_le_mono_nonneg; try lia; apply Z.pow_nonneg; lia. }
        rewrite <- Z.pow_add_r in H1 by lia.
        assert (2 ^ (ld + 1) <= 2 ^ (ln + (52 - k))) by (apply Z.pow_le_mono_r; lia).
        lia.
      - assert (0 < 2 ^ (- e)) by (apply Z.pow_pos_nonneg; lia).
        assert (2 ^ (ld + 1) <= 2 ^ ln) by (apply Z.pow_le_mono_r; lia).
        nia. }
    pose proof (roundHalfEven_ge_one _ _ (Pos2Z.is_pos d) Hle) as R.
    unfold Qlt. cbn [Qnum Qden]. lia.
Qed.

Lemma ulp_pos : Zpos Js.ulp = 2 ^ 1074.
Proof. apply Z2Pos.id. apply Z.pow_pos_nonneg; lia. Qed.

Lemma fl_pos (q : Q) : (1 # Js.ulp <= q)%Q -> (0 < Js.fl q)%Q.
Proof.
  intros H. unfold Js.fl. rewrite <- (Qred_correct q) in H.
  destruct (Qred q) as [n d]. cbn [Qnum Qden].
  unfold Qle in H. cbn [Qnum Qden] in H.
  rewrite ulp_pos in H.
  assert (P0 : 0 < 2 ^ 1074) by (apply Z.pow_pos_nonneg; lia).
  pose proof (Pos2Z.is_pos d) as Hd.
  destruct n as [| n | n].
  - exfalso. lia.
  - apply flPos_pos. lia.
  - exfalso. pose proof (Pos2Z.neg_is_neg n). nia.
Qed.

(** The doubles are multiples of 2^-1074. *)
Lemma flPos_grid (n d : positive) : exists k : Z, (Js.flPos n d == k # Js.ulp)%Q.
Proof.
  unfold Js.flPos.
  set (e := Z.max _ (-1074)).
  assert (He : -1074 <= e) by (unfold e; lia).
  set (m1 := Js.roundHalfEven (Zpos n) _). set (m2 := Js.roundHalfEven _ (Zpos d)).
  destruct (0 <=? e) eqn:E.
  - exists (m1 * 2 ^ e * 2 ^ 1074). unfold Qeq, inject_Z. cbn [Qnum Qden].
    rewrite ulp_pos. lia.
  - apply Z.leb_gt in E. exists (m2 * 2 ^ (1074 + e)). rewrite Qred_correct.
    unfold Qeq. cbn [Qnum Qden]. rewrite ulp_pos.
    rewrite Z2Pos.id by (apply Z.pow_pos_nonneg; lia).
    rewrite <- Z.mul_assoc, <- Z.pow_add_r by lia.
    replace (1074 + e + - e) with 1074 by lia. reflexivity.
Qed.

Lemma fl_grid (q : Q) : exists k : Z, (Js.fl q == k # Js.ulp)%Q.
Proof.
  unfold Js.fl. destruct (Qnum (Qred q)) as [| n | n].
  - exists 0. reflexivity.
  - apply flPos_grid.
  - destruct (flPos_grid n (Qden (Qred q))) as [k H]. exists (- k).
    rewrite H. reflexivity.
Qed.

(** The difference of two doubles does not round to 0 unless it is 0. *)
Lemma fl_sub_pos (x y : Q) :
  (Js.fl y < Js.fl x)%Q -> (0 < Js.fl (Js.fl x - Js.fl y))%Q.
Proof.
  intros H. destruct (fl_grid x) as [kx Hx]. destruct (fl_grid y) as [ky Hy].
  apply fl_pos. rewrite Hx, Hy in *.
  unfold Qlt in H. cbn [Qnum Qden] in H.
  unfold Qle, Qminus, Qplus, Qopp. cbn [Qnum Qden].
  pose proof (Pos2Z.is_pos Js.ulp) as P. rewrite Pos2Z.inj_mul.
  set (U := Zpos Js.ulp) in *.
  assert (Hk : 1 <= kx - ky) by nia.
  replace ((kx * U + - ky * U) * U) with ((kx - ky) * (U * U)) by ring.
  apply Z.mul_le_mono_nonneg_r; [nia | exact Hk].
Qed.

(** ** PRNG *)

Lemma toUint32_range (z : Z) : 0 <= Js.toUint32 z < Js.two32.
Proof. unfold Js.toUint32, Js.two32. apply Z.mod_pos_bound. lia. Qed.

Lemma ushr0_range (z : Z) : 0 <= Js.ushr z 0 <= 4294967295.
Proof.
  unfold Js.ushr. rewrite Z.shiftr_0_r.
  pose proof (toUint32_range z) as H. unfold Js.two32 in H. lia.
Qed.

Lemma inject_div_bounds (z : Z) :
  0 <= z <= 4294967295 ->
  (0 <= inject_Z z / inject_Z 4294967295 <= 1)%Q.
Proof.
  intros H. split.
  - apply Qle_shift_div_l; [reflexivity|].
    rewrite Qmult_0_l. change (inject_Z 0 <= inject_Z z)%Q.
    rewrite <- Zle_Qle. lia.
  - apply Qle_shift_div_r; [reflexivity|].
    rewrite Qmult_1_l. rewrite <- Zle_Qle. lia.
Qed.

(** [nextFloat] lies in the closed unit interval, whatever the state. *)
Lemma nextFloat_unit_interval (p : PRNG.t) :
  (0 <= fst (PRNG.nextFloat p) <= 1)%Q.
Proof.
  unfold PRNG.nextFloat. destruct (PRNG.next p) as [n p']. cbn [fst].
  apply inject_div_bounds. apply ushr0_range.
Qed.

Lemma next_value_range (p : PRNG.t) : 0 <= fst (PRNG.next p) <= 4294967295.
Proof. unfold PRNG.next. cbn [fst]. apply ushr0_range. Qed.

(** [nextFloat] is below 1 exactly when [next] is not [0xffffffff]. *)
Lemma nextFloat_lt_one_iff (p : PRNG.t) :
  (fst (PRNG.nextFloat p) < 1)%Q <-> fst (PRNG.next p) <> 4294967295.
Proof.
  pose proof (next_value_range p) as Hr.
  unfold PRNG.nextFloat. destruct (PRNG.next p) as [n p'] eqn:E. cbn [fst] in *.
  assert (Hn : Js.ushr n 0 = n).
  { unfold Js.ushr. rewrite Z.shiftr_0_r. unfold Js.toUint32, Js.two32.
    apply Z.mod_small. lia. }
  rewrite Hn. split.
  - intros H Heq. subst n. revert H. apply Qle_not_lt. vm_compute. discriminate.
  - intros H. apply Qlt_shift_div_r; [reflexivity|].
    rewrite Qmult_1_l. rewrite <- Zlt_Qlt. lia.
Qed.

(** C6.  The claim says that [nextFloat()] is strictly below 1 in every
    reachable state.  A generator constructed with seed 1584200935 is in a
    reachable state, its first [next()] is [0xffffffff], and [nextFloat()]
    divides by [0xffffffff]: the value returned is exactly 1. *)
Theorem C6_nextFloat_returns_one :
  (fst (PRNG.nextFloat (PRNG.new 1584200935)) == 1)%Q
  /\ ~ (fst (PRNG.nextFloat (PRNG.new 1584200935)) < 1)%Q.
Proof.
  split.
  - vm_compute. reflexivity.
  - intro H. apply nextFloat_lt_one_iff in H. apply H. vm_compute. reflexivity.
Qed.

(** ** Movement: what each step leaves alone *)

Ltac break_if :=
  match goal with
  | |- context [if ?c then _ else _] => destruct c
  end.

Ltac break_match :=
  match goal with
  | |- context [match ?c with _ => _ end] => destruct c eqn:?
  end.

Lemma sameBody_refl (e : Entity.t) : sameBody e e.
Proof. repeat split. Qed.

Lemma sameBody_trans (a b c : Entity.t) :
  sameBody a b -> sameBody b c -> sameBody a c.
Proof.
  unfold sameBody. intros (A1 & A2 & A3 & A4) (B1 & B2 & B3 & B4).
  repeat split; congruence.
Qed.

Ltac same_body := unfold sameBody; repeat break_if; repeat split; reflexivity.

Section MovementFacts.

Context {host : Host}.

Lemma accelerateTowards_sameBody (dvx dvy step : Q) (e : Entity.t) :
  sameBody e (accelerateTowards dvx dvy step e).
Proof. unfold accelerateTowards. same_body. Qed.

Lemma applyFriction_sameBody (f : Q) (e : Entity.t) :
  sameBody e (applyFriction f e).
Proof. unfold applyFriction. same_body. Qed.

Lemma applyCrouchSlide_sameBody (e : Entity.t) (input : Input.t) (dt : Q) :
  sameBody e (applyCrouchSlide e input dt).
Proof. unfold applyCrouchSlide. same_body. Qed.

Lemma applyGroundMovement_sameBody (e : Entity.t) (input : Input.t) (dt : Q) :
  sameBody e (applyGroundMovement e input dt).
Proof.
  unfold applyGroundMovement.
  destruct (negb (Js.truthy (Entity.onGround e))); [apply sameBody_refl|].
  match goal with
  | |- context [let '(a, b) := ?c in _] => destruct c as [dx dy]
  end.
  match goal with
  | |- context [accelerateTowards ?a ?b ?c ?d] =>
      pose proof (accelerateTowards_sameBody a b c d) as Ha;
      set (e1 := accelerateTowards a b c d) in *
  end.
  break_if.
  - pose proof (applyFriction_sameBody (FRICTION * dt) e1) as Hf.
    set (e2 := applyFriction (FRICTION * dt) e1) in *.
    eapply sameBody_trans; [exact Ha|]. eapply sameBody_trans; [exact Hf|].
    repeat split.
  - eapply sameBody_trans; [exact Ha|]. repeat split.
Qed.

Lemma applyAirMovement_sameBody (e : Entity.t) (input : Input.t) (dt : Q) :
  sameBody e (applyAirMovement e input dt).
Proof.
  unfold applyAirMovement.
  destruct (Js.truthy (Entity.onGround e)); [apply sameBody_refl|].
  match goal with
  | |- context [let '(a, b) := ?c in _] => destruct c as [dx dy]
  end.
  match goal with
  | |- context [accelerateTowards ?a ?b ?c ?d] =>
      pose proof (accelerateTowards_sameBody a b c d) as Ha;
      set (e1 := accelerateTowards a b c d) in *
  end.
  eapply sameBody_trans; [exact Ha|]. repeat split.
Qed.

Lemma applyGravity_sameBody (e : Entity.t) (dt : Q) (grounds : list Entity.t) :
  sameBody e (applyGravity e dt grounds).
Proof.
  unfold applyGravity.
  destruct (Js.truthy (Entity.onGround e)); [apply sameBody_refl|].
  break_if;
    match goal with
    | |- context [landingOn ?a ?b ?c ?d] => destruct (landingOn a b c d)
    end; cbn; repeat break_if; repeat split.
Qed.

(** [jump] keeps identity and health; it is the step that records the
    fall-start height. *)
Lemma jump_identity (e : Entity.t) (input : Input.t) (worldTick : Z) :
  Entity.id (jump e input worldTick) = Entity.id e
  /\ Entity.type (jump e input worldTick) = Entity.type e
  /\ Entity.hp (jump e input worldTick) = Entity.hp e.
Proof. unfold jump. repeat break_if; repeat split. Qed.

Lemma jump_not_taken (e : Entity.t) (input : Input.t) (worldTick : Z) :
  Js.truthy (Input.jump input) = false \/ Js.truthy (Entity.onGround e) = false ->
  jump e input worldTick = e.
Proof.
  intros [H | H]; unfold jump; rewrite H; cbn.
  - rewrite orb_true_r. reflexivity.
  - reflexivity.
Qed.

Lemma computeFallDamage_identity (e : Entity.t) :
  Entity.id (snd (computeFallDamage e)) = Entity.id e
  /\ Entity.type (snd (computeFallDamage e)) = Entity.type e.
Proof. unfold computeFallDamage. repeat break_match; repeat split. Qed.

Lemma computeFallDamage_unrecorded (e : Entity.t) :
  Entity.fallStartY e = None -> computeFallDamage e = (0, e).
Proof. intros H. unfold computeFallDamage. rewrite H. reflexivity. Qed.

Lemma processEntityMovement_identity (e : Entity.t) (input : Input.t) (dt : Q)
    (worldTick : Z) (grounds : list Entity.t) :
  Entity.id (processEntityMovement e input dt worldTick grounds) = Entity.id e
  /\ Entity.type (processEntityMovement e input dt worldTick grounds) = Entity.type e.
Proof.
  unfold processEntityMovement.
  destruct (negb (EntityType_eqb (Entity.type e) player)); [split; reflexivity|].
  pose proof (applyCrouchSlide_sameBody e input dt) as (A1 & A2 & _).
  set (e1 := applyCrouchSlide e input dt) in *.
  pose proof (jump_identity e1 input worldTick) as (B1 & B2 & _).
  set (e2 := jump e1 input worldTick) in *.
  assert (C : sameBody e2 (if Js.truthy (Entity.onGround e2)
                           then applyGroundMovement e2 input dt
                           else applyAirMovement e2 input dt)).
  { destruct (Js.truthy (Entity.onGround e2));
      [apply applyGroundMovement_sameBody | apply applyAirMovement_sameBody]. }
  destruct C as (C1 & C2 & _).
  set (e3 := if Js.truthy (Entity.onGround e2) then _ else _) in *.
  pose proof (applyGravity_sameBody e3 dt grounds) as (D1 & D2 & _).
  set (e4 := applyGravity e3 dt grounds) in *.
  pose proof (computeFallDamage_identity e4) as (E1 & E2).
  split; congruence.
Qed.

End MovementFacts.

(** ** Fall damage *)

Section FallDamage.

Context {host : Host}.

Local Open Scope Q_scope.

(** C7.  For a player that has landed ([onGround]) with a recorded
    fall-start height, [computeFallDamage] returns
    [floor((fallDistance - 10) * 5)] when [fallDistance > 10] and 0
    otherwise, where [fallDistance] is [fallStartY - y] and every
    operation gives a double, as in the engine; the damage is not
    negative; it is taken from [hp] with the result clamped at 0; the
    record is cleared, so a second call deals nothing; a fall of exactly
    10 deals 0 and a fall of 30 deals 100. *)
Theorem C7_fall_damage_formula (e : Entity.t) (fallStart : Q) :
  Js.truthy (Entity.onGround e) = true ->
  Entity.fallStartY e = Some fallStart ->
  let fallDistance := Js.fl (fallStart - Entity.y e) in
  let damage :=
    if Js.gtb fallDistance 10
    then Js.floor (Js.fl (Js.fl (fallDistance - 10) * 5))
    else 0%Z in
  let e' := snd (computeFallDamage e) in
  fst (computeFallDamage e) = damage
  /\ (0 <= damage)%Z
  /\ Entity.hp e' =
       (if Js.gtb fallDistance 10
        then Js.max 0 (Entity.hp e - inject_Z damage)
        else Entity.hp e)
  /\ computeFallDamage e' = (0%Z, e')
  /\ (fallDistance == 10 -> damage = 0%Z)
  /\ (fallDistance == 30 -> damage = 100%Z).
Proof.
  intros Hg Hf fallDistance damage e'.
  assert (Hgt : Js.gtb fallDistance 10 = negb (Js.leb fallDistance FALL_DAMAGE_THRESHOLD))
    by reflexivity.
  subst e' damage. unfold computeFallDamage. rewrite Hf, Hg. cbn [negb].
  fold fallDistance. rewrite Hgt.
  destruct (Js.leb fallDistance FALL_DAMAGE_THRESHOLD) eqn:Hle; cbn [negb fst snd].
  - split; [reflexivity |]. split; [lia |]. split; [reflexivity |].
    split; [reflexivity |]. split; [reflexivity |].
    intros H30. exfalso. unfold Js.leb, FALL_DAMAGE_THRESHOLD in Hle.
    apply Qle_bool_iff in Hle. rewrite H30 in Hle. revert Hle. vm_compute.
    intros C. apply C. reflexivity.
  - split; [reflexivity |]. split.
    { unfold Js.floor. change 0%Z with (Qfloor (inject_Z 0)).
      apply Qfloor_resp_le. change (inject_Z 0) with 0.
      apply fl_nonneg. apply Qmult_le_0_compat; [| discriminate].
      apply fl_nonneg. unfold Js.leb, FALL_DAMAGE_THRESHOLD in Hle.
      assert (Hlt : 10 < fallDistance).
      { apply Qnot_le_lt. intros C. apply Qle_bool_iff in C. congruence. }
      lra. }
    split; [reflexivity |]. split; [reflexivity |]. split.
    + intros H10. exfalso. unfold Js.leb, FALL_DAMAGE_THRESHOLD in Hle.
      assert (Qle_bool fallDistance 10 = true) as C.
      { apply Qle_bool_iff. rewrite H10. apply Qle_refl. }
      congruence.
    + intros H30. unfold FALL_DAMAGE_THRESHOLD, FALL_DAMAGE_RATE.
      assert (E : fallDistance - 10 == 20) by (rewrite H30; reflexivity).
      rewrite (fl_comp _ _ E). reflexivity.
Qed.

(** The doubles decide the damage at the edges.  From the double 13.6 the
    engine deals 18: the excess is a double below 3.6 and its product
    with 5 is the double 18.  From the double 10.2 it deals 0: the excess
    is a double below 0.2. *)
Lemma computeFallDamage_in_doubles :
  fst (computeFallDamage (Entity.set_fallStartY (Some (Js.fl (136 # 10))) landed30)) = 18%Z
  /\ (Js.fl (Js.fl (136 # 10) - 10) < 36 # 10)
  /\ fst (computeFallDamage (Entity.set_fallStartY (Some (Js.fl (102 # 10))) landed30)) = 0%Z
  /\ (Js.fl (Js.fl (102 # 10) - 10) < 2 # 10).
Proof. vm_compute. repeat split. Qed.

Lemma stepPlayer_unrecorded (e : Entity.t) (input : Input.t) (dt : Q)
    (worldTick : Z) (grounds : list Entity.t) :
  Entity.fallStartY e = None ->
  Js.truthy (Input.jump input) = false ->
  Entity.fallStartY (stepPlayer e input dt worldTick grounds) = None
  /\ Entity.hp (stepPlayer e input dt worldTick grounds) = Entity.hp e.
Proof.
  intros Hf Hj. unfold stepPlayer. cbn.
  unfold processEntityMovement.
  destruct (negb (EntityType_eqb (Entity.type e) player)); [split; assumption || reflexivity|].
  pose proof (applyCrouchSlide_sameBody e input dt) as (_ & _ & A3 & A4).
  set (e1 := applyCrouchSlide e input dt) in *.
  rewrite (jump_not_taken e1 input worldTick (or_introl Hj)).
  assert (C : sameBody e1 (if Js.truthy (Entity.onGround e1)
                           then applyGroundMovement e1 input dt
                           else applyAirMovement e1 input dt)).
  { destruct (Js.truthy (Entity.onGround e1));
      [apply applyGroundMovement_sameBody | apply applyAirMovement_sameBody]. }
  destruct C as (_ & _ & C3 & C4).
  set (e3 := if Js.truthy (Entity.onGround e1) then _ else _) in *.
  pose proof (applyGravity_sameBody e3 dt grounds) as (_ & _ & D3 & D4).
  set (e4 := applyGravity e3 dt grounds) in *.
  rewrite (computeFallDamage_unrecorded e4) by congruence.
  cbn [snd]. split; congruence.
Qed.

(** C10.  [jump] is the only movement step that records [fallStartY]: the
    other steps leave it as it is.  So a player whose [fallStartY] is
    undefined and who falls for any number of ticks without a jump input
    keeps [fallStartY] undefined and keeps its [hp], whatever the height:
    [computeFallDamage] returns 0 at every tick, the landing tick included,
    and changes nothing. *)
Theorem C10_no_fall_damage_without_jump (e : Entity.t)
    (steps : list (Input.t * Q * Z * list Entity.t)) :
  Entity.fallStartY e = None ->
  Forall noJump steps ->
  let e' := fold_left fallStep steps e in
  (forall (a : Entity.t) (input : Input.t) (dt : Q) (grounds : list Entity.t),
      Entity.fallStartY (applyCrouchSlide a input dt) = Entity.fallStartY a
      /\ Entity.fallStartY (applyGroundMovement a input dt) = Entity.fallStartY a
      /\ Entity.fallStartY (applyAirMovement a input dt) = Entity.fallStartY a
      /\ Entity.fallStartY (applyGravity a dt grounds) = Entity.fallStartY a)
  /\ Entity.fallStartY e' = None
  /\ Entity.hp e' = Entity.hp e
  /\ computeFallDamage e' = (0%Z, e').
Proof.
  intros Hf Hs e'. split.
  - intros a input dt grounds.
    pose proof (applyCrouchSlide_sameBody a input dt) as (_ & _ & _ & A).
    pose proof (applyGroundMovement_sameBody a input dt) as (_ & _ & _ & B).
    pose proof (applyAirMovement_sameBody a input dt) as (_ & _ & _ & C).
    pose proof (applyGravity_sameBody a dt grounds) as (_ & _ & _ & D).
    repeat split; assumption.
  - subst e'. revert e Hf.
    induction Hs as [| s steps Hs1 Hs IH]; intros e Hf.
    + cbn [fold_left]. split; [assumption|]. split; [reflexivity|].
      apply computeFallDamage_unrecorded. assumption.
    + cbn [fold_left]. destruct s as [[[input dt] worldTick] grounds].
      cbn in Hs1. unfold fallStep at 2 4 6.
      destruct (stepPlayer_unrecorded e input dt worldTick grounds Hf Hs1) as [F H].
      destruct (IH _ F) as (I1 & I2 & I3).
      repeat split; [exact I1 | congruence | exact I3].
Qed.

End FallDamage.

Lemma C7_fall_damage_formula_witness :
  Js.truthy (Entity.onGround landed30) = true
  /\ Entity.fallStartY landed30 = Some 30%Q
  /\ fst (computeFallDamage landed30) = 100
  /\ (Entity.hp (snd (computeFallDamage landed30)) == 0)%Q.
Proof.
  split; [reflexivity|]. split; [reflexivity|].
  destruct (C7_fall_damage_formula landed30 30 eq_refl eq_refl) as (H1 & _ & H2 & _).
  split; [exact H1|]. rewrite H2. reflexivity.
Defined.

Lemma C10_no_fall_damage_without_jump_witness :
  Entity.fallStartY faller = None
  /\ Forall noJump fallerSteps
  /\ Entity.onGround (fold_left (fallStep (host := referenceHost)) fallerSteps faller)
     = Some true
  /\ Entity.hp (fold_left (fallStep (host := referenceHost)) fallerSteps faller)
     = Entity.hp faller.
Proof.
  assert (H1 : Entity.fallStartY faller = None) by reflexivity.
  assert (H2 : Forall noJump fallerSteps) by (repeat constructor).
  split; [exact H1|]. split; [exact H2|]. split; [vm_compute; reflexivity|].
  destruct (C10_no_fall_damage_without_jump (host := referenceHost)
              faller fallerSteps H1 H2) as (_ & _ & H & _).
  exact H.
Defined.

(** ** Projectile damage *)

(** The zone of [isHeadshot] ends at a double: for an entity at
    [y = 10.5] of height 1, here a wall, the zone ends at
    10.333333333333334, above 10 + 1/3, and a hit at that height is a
    headshot. *)
Lemma isHeadshot_zone_ends_at_a_double :
  let e := createBuildPiece "wall" "p1" "wall" "wood" 5 (105 # 10) 1 1 0 100 in
  let top := Js.fl (10333333333333334 # 1000000000000000) in
  isHeadshot (5, top)%Q e = true /\ (10 + (1 # 3) < top)%Q.
Proof. vm_compute. split; reflexivity. Qed.

(** C8.  The claim says that the headshot multiplier is applied exactly
    when the hit point is in the upper third of the target's box, and the
    comment of [isHeadshot] that the upper third of the entity is the
    head.  The zone of [isHeadshot] starts at [y - h / 2] and is a third
    of the height long; with the ground at [y = 0] and jumps towards
    growing [y], that is the lower third of the box that the hit
    detection builds around the target.  For the target of the
    repository's test, which stands at [y = 0] and is 1.8 high: a round at
    [y = 0.8], in the upper third of that box, hits without the
    multiplier; a round at [y = -0.8], in the lower third, hits with it;
    and [y = 1.8], which the test calls head level, is no headshot. *)
Theorem C8_headshot_zone_is_the_lower_third :
  let high := (5, Js.fl (8 # 10))%Q in
  let low := (5, - Js.fl (8 # 10))%Q in
  let hitAt p := fst (detectProjectileHit (sniperRound p) [testTarget] (PRNG.new 123)) in
  upperThird (entityAABB testTarget) high
  /\ option_map isHeadshotFlag (hitAt high) = Some (Some false)
  /\ option_map hitDamage (hitAt high) = Some (Some 95)
  /\ lowerThird (entityAABB testTarget) low
  /\ option_map isHeadshotFlag (hitAt low) = Some (Some true)
  /\ option_map hitDamage (hitAt low) = Some (Some 190)
  /\ isHeadshot (5, Js.fl (18 # 10))%Q testTarget = false.
Proof.
  cbv zeta. split; [vm_compute; split; discriminate |].
  split; [vm_compute; reflexivity |]. split; [vm_compute; reflexivity |].
  split; [vm_compute; split; discriminate |].
  split; [vm_compute; reflexivity |]. split; [vm_compute; reflexivity |].
  vm_compute. reflexivity.
Qed.

(** On a hit, [detectProjectileHit] reports the damage of
    [calculateDamage] for the entity hit. *)
Lemma detectProjectileHit_reports_damage (projectile : Projectile.t)
    (entities : list Entity.t) (prng prng' : PRNG.t) (h : HitResult) :
  detectProjectileHit projectile entities prng = (Some h, prng') ->
  exists entity, In entity entities
    /\ entityId h = Some (Entity.id entity)
    /\ hitDamage h = Some (fst (calculateDamage projectile entity prng))
    /\ prng' = snd (calculateDamage projectile entity prng).
Proof.
  induction entities as [| e rest IH]; cbn [detectProjectileHit].
  - discriminate.
  - destruct (String.eqb (Entity.id e) (Projectile.ownerId projectile)).
    + intros H. destruct (IH H) as (x & Hin & Hx). exists x. split; [right|]; assumption.
    + match goal with |- context [AABB.intersects ?a ?b] => destruct (AABB.intersects a b) end.
      * destruct (calculateDamage projectile e prng) as [d q] eqn:E.
        intros H. inversion H; subst. exists e. rewrite E.
        cbn [entityId hitDamage fst snd].
        split; [left; reflexivity|]. repeat split.
      * intros H. destruct (IH H) as (x & Hin & Hx). exists x. split; [right|]; assumption.
Qed.

(** No weapon of [WEAPON_CONFIGS] fires a hitscan projectile, so every
    projectile a world holds is simulated by movement and box overlap. *)
Section FireFacts.

Context {host : Host}.

Lemma fireOne_isHitscan (weaponConfig : WeaponConfig) (ownerId : string)
    (position aimDirection : Q * Q) (shotgun : bool) (prng : PRNG.t) :
  ProjectileData.isHitscan
    (fst (fireOne weaponConfig ownerId position aimDirection shotgun prng))
  = (if shotgun then false
     else negb (WeaponType_eqb (wc_type weaponConfig) Pickaxe)
          && Js.eqb (projectileSpeed (stats weaponConfig)) 0).
Proof.
  unfold fireOne. destruct (PRNG.nextFloat prng) as [f p1].
  destruct (PRNG.nextInt 0 1000000 p1) as [n p2]. reflexivity.
Qed.

Lemma firePellets_not_hitscan (n : nat) (weaponConfig : WeaponConfig)
    (ownerId : string) (position aimDirection : Q * Q)
    (acc : list ProjectileData.t) (prng : PRNG.t) :
  Forall (fun p => ProjectileData.isHitscan p = false) acc ->
  Forall (fun p => ProjectileData.isHitscan p = false)
    (fst (firePellets n weaponConfig ownerId position aimDirection acc prng)).
Proof.
  revert acc prng. induction n as [| n IH]; intros acc prng Hacc; cbn [firePellets].
  - exact Hacc.
  - pose proof (fireOne_isHitscan weaponConfig ownerId position aimDirection true prng) as H.
    destruct (fireOne weaponConfig ownerId position aimDirection true prng) as [p prng'].
    apply IH. apply Forall_app. split; [exact Hacc|]. constructor; [exact H|constructor].
Qed.

Lemma fire_never_hitscan (wid : string) (weaponConfig : WeaponConfig)
    (weaponState : WeaponState) (ownerId : string) (position aimDirection : Q * Q)
    (prng : PRNG.t) :
  getWeaponConfig wid = Some weaponConfig ->
  Forall (fun p => ProjectileData.isHitscan p = false)
    (projectiles (fst (fire weaponState weaponConfig ownerId position aimDirection prng))).
Proof.
  intros Hc. unfold fire. destruct (negb (canFire weaponState weaponConfig));
    [constructor|].
  destruct (WeaponType_eqb (wc_type weaponConfig) Shotgun) eqn:Es.
  - pose proof (firePellets_not_hitscan
                  (Z.to_nat (pellets (stats weaponConfig))) weaponConfig ownerId
                  position aimDirection [] prng (Forall_nil _)) as H.
    destruct (firePellets _ _ _ _ _ _ _) as [ps prng']. exact H.
  - pose proof (fireOne_isHitscan weaponConfig ownerId position aimDirection false prng) as H.
    destruct (fireOne weaponConfig ownerId position aimDirection false prng) as [p prng'].
    cbn [fst projectiles] in *. constructor; [|constructor]. rewrite H.
    unfold getWeaponConfig, WEAPON_CONFIGS in Hc. cbn [Obj.get] in Hc.
    repeat match type of Hc with
           | (if ?c then _ else _) = _ => destruct c
           end; inversion Hc; subst; reflexivity.
Qed.

End FireFacts.

(** ** Snapshot round trip *)

(** C5, as stated, fails: after a round trip the player has lost its
    team, and the item has become a player without [itemType] and
    [respawnTime]. *)
Lemma C5_round_trip_counterexample :
  map Entity.team (State.entities (deserializeSnapshot (serializeSnapshot lootState)))
    = [None; None]
  /\ map Entity.team (State.entities lootState) = [Some 1; None]
  /\ map Entity.type (State.entities (deserializeSnapshot (serializeSnapshot lootState)))
    = [player; player]
  /\ map Entity.type (State.entities lootState) = [player; item]
  /\ map Entity.itemType (State.entities (deserializeSnapshot (serializeSnapshot lootState)))
    = [None; None]
  /\ map Entity.respawnTime (State.entities (deserializeSnapshot (serializeSnapshot lootState)))
    = [None; None]
  /\ deserializeSnapshot (serializeSnapshot lootState) <> lootState.
Proof.
  repeat split; try reflexivity.
  intros H. apply (f_equal (fun s => map Entity.team (State.entities s))) in H.
  vm_compute in H. discriminate.
Qed.

Lemma roundTripKeeps_entity (e : Entity.t) :
  roundTripKeeps e (deserializeEntity (serializeEntity e)).
Proof.
  unfold roundTripKeeps, deserializeEntity, serializeEntity.
  destruct e as [i ty]; cbn. destruct ty; cbn; repeat split.
Qed.

Lemma Forall2_map_r {A B : Type} (R : A -> B -> Prop) (f : A -> B) (l : list A) :
  (forall a, R a (f a)) -> Forall2 R l (map f l).
Proof. intros H. induction l; cbn; constructor; auto. Qed.

(** C5, amended.  A round trip keeps the tick and, entity by entity in
    order: id, position, size, velocity and hp; for a bullet its type,
    owner and lifetime; for a build piece its type, owner, buildType and
    material, with rot and editState read back as 0 when absent or zero;
    for a player its type, inventory and movement-state fields.  (team,
    itemType and respawnTime are not in the snapshot.) *)
Theorem C5_round_trip_keeps (state : State.t) :
  State.tick (deserializeSnapshot (serializeSnapshot state)) = State.tick state
  /\ Forall2 roundTripKeeps (State.entities state)
       (State.entities (deserializeSnapshot (serializeSnapshot state))).
Proof.
  split; [reflexivity|].
  unfold deserializeSnapshot, serializeSnapshot. cbn. rewrite map_map.
  apply Forall2_map_r. apply roundTripKeeps_entity.
Qed.

(** A player without a team, or a bullet or build piece that carries only
    its own variant's fields, comes back unchanged. *)
Lemma round_trip_created_entities (pid bid owner bt mat : string)
    (x y vx vy lifetime w h rot hp : Q) :
  deserializeEntity (serializeEntity (createPlayer pid x y)) = createPlayer pid x y
  /\ deserializeEntity (serializeEntity (createBullet bid owner x y vx vy lifetime))
     = createBullet bid owner x y vx vy lifetime
  /\ (Js.eqb rot 0 = false ->
      deserializeEntity (serializeEntity (createBuildPiece bid owner bt mat x y w h rot hp))
      = createBuildPiece bid owner bt mat x y w h rot hp).
Proof.
  repeat split.
  intros H. unfold deserializeEntity, serializeEntity, createBuildPiece. cbn.
  unfold Js.orElse. rewrite H. reflexivity.
Qed.

(** ** Sorting: the result does not depend on the order of the input *)

Section SortFacts.

Variable A : Type.
Variable cmp : A -> A -> comparison.

Hypothesis cmp_antisym : forall a b, cmp a b = CompOpp (cmp b a).
Hypothesis cmp_trans :
  forall a b c, cmp a b <> Gt -> cmp b c <> Gt -> cmp a c <> Gt.

Lemma insert_perm (a : A) (l : list A) : Permutation (a :: l) (Arr.insert cmp a l).
Proof.
  induction l as [| b r IH]; cbn.
  - apply Permutation_refl.
  - destruct (cmp a b); try apply Permutation_refl.
    eapply Permutation_trans; [apply perm_swap|]. apply perm_skip. exact IH.
Qed.

Lemma sort_perm (l : list A) : Permutation l (Arr.sort cmp l).
Proof.
  induction l as [| a r IH]; cbn.
  - apply Permutation_refl.
  - eapply Permutation_trans; [apply perm_skip; exact IH|]. apply insert_perm.
Qed.

Lemma insert_sorted (a : A) (l : list A) :
  StronglySorted (notAfter cmp) l -> StronglySorted (notAfter cmp) (Arr.insert cmp a l).
Proof.
  induction 1 as [| b r Hs IH Hb]; cbn.
  - constructor; constructor.
  - destruct (cmp a b) eqn:E.
    + constructor; [constructor; assumption|].
      constructor; [unfold notAfter; congruence|].
      eapply Forall_impl; [|exact Hb]. intros c Hc.
      apply (cmp_trans a b c); [congruence | exact Hc].
    + constructor; [constructor; assumption|].
      constructor; [unfold notAfter; congruence|].
      eapply Forall_impl; [|exact Hb]. intros c Hc.
      apply (cmp_trans a b c); [congruence | exact Hc].
    + constructor; [exact IH|].
      assert (Hba : notAfter cmp b a).
      { unfold notAfter. rewrite cmp_antisym, E. discriminate. }
      eapply Permutation_Forall; [apply insert_perm|].
      constructor; assumption.
Qed.

Lemma sort_sorted (l : list A) : StronglySorted (notAfter cmp) (Arr.sort cmp l).
Proof.
  induction l as [| a r IH]; cbn.
  - constructor.
  - apply insert_sorted. exact IH.
Qed.

(** Two sorted arrangements of the same elements are equal when the
    comparison tells the elements apart. *)
Lemma sorted_perm_unique (l1 l2 : list A) :
  (forall a b, In a l1 -> In b l1 -> cmp a b = Eq -> a = b) ->
  StronglySorted (notAfter cmp) l1 -> StronglySorted (notAfter cmp) l2 ->
  Permutation l1 l2 -> l1 = l2.
Proof.
  revert l2. induction l1 as [| a r1 IH]; intros l2 Hd H1 H2 Hp.
  - apply Permutation_nil in Hp. congruence.
  - destruct l2 as [| b r2].
    + apply Permutation_sym, Permutation_nil in Hp. discriminate.
    + inversion H1 as [| ? ? Hs1 Ha]; subst. inversion H2 as [| ? ? Hs2 Hb]; subst.
      assert (Hab : a = b).
      { assert (Ia : In a (b :: r2)) by (eapply Permutation_in; [exact Hp | left; reflexivity]).
        assert (Ib : In b (a :: r1))
          by (eapply Permutation_in; [apply Permutation_sym; exact Hp | left; reflexivity]).
        destruct Ia as [Ia | Ia]; [congruence|].
        destruct Ib as [Ib | Ib]; [congruence|].
        rewrite Forall_forall in Ha, Hb.
        specialize (Ha b Ib). specialize (Hb a Ia). unfold notAfter in Ha, Hb.
        apply Hd; [left; reflexivity | right; exact Ib |].
        rewrite cmp_antisym in Hb. destruct (cmp a b); cbn in *; congruence. }
      subst b. f_equal. apply IH.
      * intros x y Hx Hy. apply Hd; right; assumption.
      * exact Hs1.
      * exact Hs2.
      * eapply Permutation_cons_inv. exact Hp.
Qed.

Lemma sort_perm_invariant (l1 l2 : list A) :
  (forall a b, In a l1 -> In b l1 -> cmp a b = Eq -> a = b) ->
  Permutation l1 l2 -> Arr.sort cmp l1 = Arr.sort cmp l2.
Proof.
  intros Hd Hp. apply sorted_perm_unique.
  - intros a b Ha Hb. apply Hd; eapply Permutation_in;
      try eassumption; apply Permutation_sym, sort_perm.
  - apply sort_sorted.
  - apply sort_sorted.
  - eapply Permutation_trans; [apply Permutation_sym, sort_perm|].
    eapply Permutation_trans; [exact Hp|]. apply sort_perm.
Qed.

End SortFacts.

(** ** Checksum *)

Lemma NoDup_map_inj {A B : Type} (f : A -> B) (l : list A) (x y : A) :
  NoDup (map f l) -> In x l -> In y l -> f x = f y -> x = y.
Proof.
  induction l as [| a r IH]; cbn; intros Hn Hx Hy E; [contradiction|].
  inversion Hn as [| ? ? Hnotin Hn']; subst.
  destruct Hx as [Hx | Hx], Hy as [Hy | Hy]; subst.
  - reflexivity.
  - exfalso. apply Hnotin. rewrite E. apply in_map. exact Hy.
  - exfalso. apply Hnotin. rewrite <- E. apply in_map. exact Hx.
  - apply IH; assumption.
Qed.

Lemma string_compare_trans (a b c : string) :
  String.compare a b <> Gt -> String.compare b c <> Gt -> String.compare a c <> Gt.
Proof.
  revert b c. induction a as [| x a IH]; intros [| y b] [| z c]; cbn; try congruence.
  unfold Ascii.compare.
  destruct (N.compare_spec (N_of_ascii x) (N_of_ascii y)) as [Exy | Exy | Exy];
    destruct (N.compare_spec (N_of_ascii y) (N_of_ascii z)) as [Eyz | Eyz | Eyz];
    try congruence; intros H1 H2.
  - rewrite Exy, Eyz, N.compare_refl. apply (IH b c); assumption.
  - rewrite Exy. apply N.compare_lt_iff in Eyz. rewrite Eyz. discriminate.
  - rewrite <- Eyz. apply N.compare_lt_iff in Exy. rewrite Exy. discriminate.
  - assert (E : (N_of_ascii x < N_of_ascii z)%N) by lia.
    apply N.compare_lt_iff in E. rewrite E. discriminate.
Qed.

#[export] Instance referenceHost_collation : Collation referenceHost.
Proof.
  split.
  - intros a b. apply String.compare_antisym.
  - intros a b c. apply string_compare_trans.
Qed.

Lemma referenceHost_distinguishes (ids : list string) :
  distinguishes referenceHost ids.
Proof. intros a b _ _ H. apply String.compare_eq_iff. exact H. Qed.

(** [quantizeValue] rounds the double that the product with 1000 gives,
    not the product of the reals: the double 0.0045 lies below 45/10000 and
    goes to 5, its product with 1000 being the double 4.5; the double
    0.5005 goes to 500, its product being a double below 500.5. *)
Lemma quantizeValue_rounds_the_double :
  quantizeValue (Js.fl (45 # 10000)) = 5
  /\ Js.round (Js.fl (45 # 10000) * 1000) = 4
  /\ quantizeValue (Js.fl (5005 # 10000)) = 500
  /\ Js.round ((5005 # 10000) * 1000) = 501.
Proof. vm_compute. repeat split. Qed.

Section Checksum.

Context {host : Host} {collation : Collation host}.

(** C4, amended.  Two states with the same tick and rng, whose entities
    quantize to the same records up to the order of the array, have the
    same checksum, provided the ids of the entities are pairwise distinct
    and told apart by the collation.  In particular the checksum of such
    a state does not depend on the order of its entities array. *)
Theorem C4_checksum_order_insensitive (s s' : State.t) :
  State.tick s = State.tick s' ->
  State.rng s = State.rng s' ->
  NoDup (map Entity.id (State.entities s)) ->
  distinguishes host (map Entity.id (State.entities s)) ->
  Permutation (map quantizeEntity (State.entities s))
              (map quantizeEntity (State.entities s')) ->
  computeStateChecksum s = computeStateChecksum s'.
Proof.
  intros Ht Hr Hn Hd Hp.
  unfold computeStateChecksum, createQuantizedSnapshot. rewrite Ht, Hr.
  rewrite (sort_perm_invariant Quantized.t compareById) with (l2 := map quantizeEntity (State.entities s')).
  - reflexivity.
  - intros a b. unfold compareById. apply collation_antisym.
  - intros a b c. unfold compareById. apply collation_trans.
  - intros a b Ha Hb E. unfold compareById in E.
    apply in_map_iff in Ha. destruct Ha as (ea & <- & Ha).
    apply in_map_iff in Hb. destruct Hb as (eb & <- & Hb).
    f_equal. apply (NoDup_map_inj Entity.id (State.entities s)); try assumption.
    apply Hd; try (apply in_map; assumption). exact E.
  - exact Hp.
Qed.

End Checksum.

Lemma C4_checksum_order_insensitive_witness :
  State.tick orderA = State.tick orderB
  /\ State.rng orderA = State.rng orderB
  /\ NoDup (map Entity.id (State.entities orderA))
  /\ distinguishes referenceHost (map Entity.id (State.entities orderA))
  /\ Permutation (map quantizeEntity (State.entities orderA))
                 (map quantizeEntity (State.entities orderB))
  /\ computeStateChecksum (host := referenceHost) orderA
     = computeStateChecksum (host := referenceHost) orderB.
Proof.
  assert (H1 : State.tick orderA = State.tick orderB) by reflexivity.
  assert (H2 : State.rng orderA = State.rng orderB) by reflexivity.
  assert (H3 : NoDup (map Entity.id (State.entities orderA))).
  { cbn. constructor.
    - cbn. intros [H | []]. discriminate.
    - constructor; [intros [] | constructor]. }
  assert (H4 : distinguishes referenceHost (map Entity.id (State.entities orderA)))
    by apply referenceHost_distinguishes.
  assert (H5 : Permutation (map quantizeEntity (State.entities orderA))
                           (map quantizeEntity (State.entities orderB))).
  { vm_compute. apply perm_swap. }
  split; [exact H1|]. split; [exact H2|]. split; [exact H3|].
  split; [exact H4|]. split; [exact H5|].
  exact (C4_checksum_order_insensitive (host := referenceHost) orderA orderB
           H1 H2 H3 H4 H5).
Defined.

(** C4, as stated, fails on both counts: a permutation of an array
    with a repeated id changes the checksum, and so does a difference far
    below the quantization step when it straddles a rounding boundary. *)
Lemma C4_checksum_counterexample :
  (Permutation (State.entities twinsA) (State.entities twinsB)
   /\ computeStateChecksum (host := referenceHost) twinsA
      <> computeStateChecksum (host := referenceHost) twinsB)
  /\ ((Qabs (Js.fl (4999 # 10000000) - Js.fl (5 # 10000)) < 1 # 1000000)%Q
      /\ computeStateChecksum (host := referenceHost) noiseA
         <> computeStateChecksum (host := referenceHost) noiseB).
Proof.
  split; split.
  - apply perm_swap.
  - vm_compute. discriminate.
  - vm_compute. reflexivity.
  - vm_compute. discriminate.
Qed.

(** ** World.tick: what happens to the entity ids and to [rng] *)

Lemma update_first_ids (p : Entity.t -> bool) (f : Entity.t -> Entity.t)
    (l : list Entity.t) :
  (forall a, Entity.id (f a) = Entity.id a) ->
  ids (Arr.update_first p f l) = ids l.
Proof.
  intros Hf. induction l as [| a r IH]; cbn; [reflexivity|].
  destruct (p a); cbn; [rewrite Hf | fold (ids (Arr.update_first p f r)); rewrite IH];
    reflexivity.
Qed.

Lemma set_ids (i : nat) (v a : Entity.t) (l : list Entity.t) :
  Arr.get i l = Some a -> Entity.id v = Entity.id a ->
  ids (Arr.set i v l) = ids l.
Proof.
  revert i. induction l as [| b r IH]; intros [| i] Hg Hv; cbn in *; try discriminate.
  - inversion Hg; subst. rewrite Hv. reflexivity.
  - fold (ids (Arr.set i v r)). rewrite (IH i Hg Hv). reflexivity.
Qed.

Lemma set_length {A : Type} (i : nat) (v : A) (l : list A) :
  List.length (Arr.set i v l) = List.length l.
Proof.
  revert i. induction l as [| b r IH]; intros [| i]; cbn; try reflexivity.
  rewrite IH. reflexivity.
Qed.

Lemma applyInputs_ids (dt : Q) (inputs : Obj.t Input.t) (l : list Entity.t) :
  ids (fold_left
         (fun ents (kv : string * Input.t) =>
            let '(clientId, input) := kv in
            Arr.update_first (isPlayerWithId clientId) (applyInput input dt) ents)
         inputs l) = ids l.
Proof.
  revert l. induction inputs as [| [cid inp] rest IH]; intros l; cbn [fold_left].
  - reflexivity.
  - rewrite IH. apply update_first_ids. intros a. reflexivity.
Qed.

Lemma advanceBullets_ids_in (dt : Q) (l : list Entity.t) (x : string) :
  In x (ids (advanceBullets dt l)) -> In x (ids l).
Proof.
  induction l as [| e r IH]; cbn [advanceBullets]; [auto|].
  destruct (EntityType_eqb (Entity.type e) bullet).
  - cbn [Entity.lifetime Entity.set_y Entity.set_x].
    destruct (Entity.lifetime e) as [lt |].
    + destruct (Js.leb (lt - 1) 0); cbn; intros H; [right; auto|].
      destruct H as [H | H]; [left; exact H | right; auto].
    + cbn. intros [H | H]; [left; exact H | right; auto].
  - cbn. intros [H | H]; [left; exact H | right; auto].
Qed.

Lemma advanceBullets_NoDup (dt : Q) (l : list Entity.t) :
  NoDup (ids l) -> NoDup (ids (advanceBullets dt l)).
Proof.
  induction l as [| e r IH]; cbn [advanceBullets]; [auto|].
  intros Hn. inversion Hn as [| ? ? Hnotin Hn']; subst.
  assert (Hkeep : forall e', Entity.id e' = Entity.id e ->
                   NoDup (ids (e' :: advanceBullets dt r))).
  { intros e' He'. cbn. constructor; [|apply IH; exact Hn'].
    rewrite He'. intros C. apply Hnotin. eapply advanceBullets_ids_in. exact C. }
  destruct (EntityType_eqb (Entity.type e) bullet).
  - cbn [Entity.lifetime Entity.set_y Entity.set_x].
    destruct (Entity.lifetime e) as [lt |].
    + destruct (Js.leb (lt - 1) 0); [apply IH; exact Hn' | apply Hkeep; reflexivity].
    + apply Hkeep. reflexivity.
  - apply Hkeep. reflexivity.
Qed.

Lemma applyInputsShallow_NoDup (state : State.t) (inputs : Obj.t Input.t) (dt : Q) :
  NoDup (ids (State.entities state)) ->
  NoDup (ids (State.entities (applyInputsShallow state inputs dt))).
Proof.
  intros Hn. unfold applyInputsShallow. cbn [State.entities].
  apply advanceBullets_NoDup. rewrite applyInputs_ids.
  unfold cloneState. cbn [State.entities]. rewrite map_id. exact Hn.
Qed.

Lemma applyInputsShallow_rng (state : State.t) (inputs : Obj.t Input.t) (dt : Q) :
  State.rng (applyInputsShallow state inputs dt) = State.rng state.
Proof. reflexivity. Qed.

Section TickFacts.

Context {host : Host}.

Lemma stepPlayer_id (e : Entity.t) (input : Input.t) (dt : Q) (worldTick : Z)
    (grounds : list Entity.t) :
  Entity.id (stepPlayer e input dt worldTick grounds) = Entity.id e.
Proof.
  unfold stepPlayer. cbn [Entity.id Entity.set_x Entity.set_y].
  apply processEntityMovement_identity.
Qed.

Lemma movePlayer_ids (inputs : Obj.t Input.t) (dt : Q) (worldTick : Z)
    (l : list Entity.t) (i : nat) :
  ids (movePlayer inputs dt worldTick l i) = ids l.
Proof.
  unfold movePlayer. destruct (Arr.get i l) as [a |] eqn:E; [|reflexivity].
  eapply set_ids; [exact E|]. apply stepPlayer_id.
Qed.

Lemma processMovement_ids (l : list Entity.t) (inputs : Obj.t Input.t) (dt : Q)
    (worldTick : Z) :
  ids (processMovement l inputs dt worldTick) = ids l.
Proof.
  unfold processMovement. generalize (sortedPlayers l) as order.
  intros order. revert l. induction order as [| i rest IH]; intros l; cbn [fold_left].
  - reflexivity.
  - rewrite IH. apply movePlayer_ids.
Qed.

Lemma updateReloads_ids (l l' : list Entity.t) :
  World.updateReloads l = Some l' -> ids l' = ids l.
Proof.
  revert l'. induction l as [| e r IH]; intros l'; cbn [World.updateReloads].
  - intros H. inversion H. reflexivity.
  - unfold bind at 1.
    destruct (if isPlayer e then _ else _) as [e' |] eqn:E; [|discriminate].
    unfold bind. destruct (World.updateReloads r) as [r' |]; [|discriminate].
    intros H. inversion H; subst. cbn. fold (ids r'). rewrite (IH r' eq_refl).
    f_equal. destruct (isPlayer e).
    + destruct (Entity.inventory e) as [inv |].
      * unfold bind in E. destruct (updateReload inv); inversion E. reflexivity.
      * inversion E. reflexivity.
    + inversion E. reflexivity.
Qed.

Lemma handlePlayerShooting_id (shooter shooter' : Entity.t) (input : Input.t)
    (prng prng' : PRNG.t) (active active' : list Projectile.t) :
  World.handlePlayerShooting shooter input prng active = Some (shooter', prng', active') ->
  Entity.id shooter' = Entity.id shooter.
Proof.
  unfold World.handlePlayerShooting.
  destruct (Entity.inventory shooter) as [inv |]; [|intros H; inversion H; reflexivity].
  unfold bind.
  destruct (getActiveWeapon inv); [|discriminate].
  destruct (getWeaponConfigForSlot inv (Inventory.activeWeaponSlot inv)); [|discriminate].
  destruct (canFireWeapon inv) as [[|] |]; try discriminate.
  - destruct (fire _ _ _ _ _ _) as [fr p].
    destruct (success fr).
    + destruct (fireWeapon inv); [|discriminate].
      intros H. inversion H. reflexivity.
    + intros H. inversion H. reflexivity.
  - intros H. inversion H. reflexivity.
Qed.

Lemma shootAll_ids (inputs : Obj.t Input.t) (l l' : list Entity.t)
    (prng prng' : PRNG.t) (active active' : list Projectile.t) :
  World.shootAll inputs l prng active = Some (l', prng', active') -> ids l' = ids l.
Proof.
  revert l prng active.
  induction inputs as [| [cid inp] rest IH]; intros l prng active; cbn [World.shootAll].
  - intros H. inversion H. reflexivity.
  - destruct (Js.truthy (Input.shoot inp)); [|apply IH].
    destruct (World.findIndex (isPlayerWithId cid) l) as [i |]; [|apply IH].
    destruct (Arr.get i l) as [shooter |] eqn:G; [|apply IH].
    destruct (Entity.inventory shooter); [|apply IH].
    unfold bind.
    destruct (World.handlePlayerShooting shooter inp prng active)
      as [[[shooter' p] a] |] eqn:S; [|discriminate].
    intros H. rewrite (IH _ _ _ H).
    eapply set_ids; [exact G|]. eapply handlePlayerShooting_id. exact S.
Qed.

Lemma applyHit_ids (l : list Entity.t) (h : HitResult) :
  ids (World.applyHit l h) = ids l.
Proof.
  unfold World.applyHit. destruct (entityId h), (hitDamage h); try reflexivity.
  break_if; [|reflexivity]. apply update_first_ids. reflexivity.
Qed.

Lemma applyHits_ids (hits : list HitResult) (l : list Entity.t) :
  ids (fold_left World.applyHit hits l) = ids l.
Proof.
  revert l. induction hits as [| h rest IH]; intros l; cbn [fold_left].
  - reflexivity.
  - rewrite IH. apply applyHit_ids.
Qed.

Lemma handleProjectiles_ids (l : list Entity.t) (dt : Q) (prng : PRNG.t)
    (active : list Projectile.t) :
  ids (fst (fst (World.handleProjectiles l dt prng active))) = ids l.
Proof.
  unfold World.handleProjectiles.
  destruct (simulateProjectiles active l dt prng) as [res p]. cbn [fst].
  apply applyHits_ids.
Qed.

Lemma separate_ids (l : list Entity.t) (ij : nat * nat) :
  ids (World.separate l ij) = ids l.
Proof.
  unfold World.separate.
  destruct (Arr.get (fst ij) l) as [p1 |] eqn:G1; [|reflexivity].
  destruct (Arr.get (snd ij) l) as [p2 |] eqn:G2; [|reflexivity].
  break_if; [|reflexivity].
  match goal with
  | |- ids (Arr.set _ ?v2 (Arr.set _ ?v1 l)) = _ =>
      assert (H1 : ids (Arr.set (fst ij) v1 l) = ids l)
        by (eapply set_ids; [exact G1 | reflexivity]);
      set (l1 := Arr.set (fst ij) v1 l) in *
  end.
  destruct (Arr.get (snd ij) l1) as [q |] eqn:G3.
  - rewrite <- H1. eapply set_ids; [exact G3|]. cbn.
    assert (E : nth_error (ids l1) (snd ij) = nth_error (ids l) (snd ij))
      by (rewrite H1; reflexivity).
    unfold ids in E. rewrite !nth_error_map in E.
    unfold Arr.get in G2, G3. rewrite G2, G3 in E. cbn in E. congruence.
  - exfalso. unfold Arr.get in G3, G2. apply nth_error_None in G3.
    subst l1. rewrite set_length in G3.
    assert (nth_error l (snd ij) <> None) by congruence.
    apply nth_error_Some in H. lia.
Qed.

Lemma resolveCollisions_ids (l : list Entity.t) :
  ids (World.resolveCollisions l) = ids l.
Proof.
  unfold World.resolveCollisions.
  generalize (World.pairs
                (map fst (filter (fun ie : nat * Entity.t => isPlayer (snd ie)) (indexed l)))).
  intros ps. revert l. induction ps as [| ij rest IH]; intros l; cbn [fold_left].
  - reflexivity.
  - rewrite IH. apply separate_ids.
Qed.

(** A tick keeps the ids of the entities apart: no step adds an entity or
    changes an id, and only expired bullets leave. *)
Lemma tick_NoDup (w w' : World.t) (old : State.t) (inputs : list (Obj.t Input.t)) :
  World.tick w inputs = Some (old, w') ->
  NoDup (ids (State.entities (World.state w))) ->
  NoDup (ids (State.entities (World.state w'))).
Proof.
  unfold World.tick, World.handleWeaponCombat. unfold bind.
  set (next := applyInputsShallow (World.state w) (World.mergeInputs inputs) (World.dt w)).
  destruct (World.updateReloads _) as [l1 |] eqn:U; [|discriminate].
  destruct (World.shootAll _ l1 _ _) as [[[l2 p2] a2] |] eqn:S; [|discriminate].
  destruct (World.handleProjectiles l2 (World.dt w) p2 a2) as [[l3 p3] a3] eqn:P.
  intros H Hn. inversion H; subst. cbn [World.state State.entities].
  rewrite resolveCollisions_ids.
  replace l3 with (fst (fst (World.handleProjectiles l2 (World.dt w) p2 a2)))
    by (rewrite P; reflexivity).
  rewrite handleProjectiles_ids.
  rewrite (shootAll_ids _ _ _ _ _ _ _ S).
  rewrite (updateReloads_ids _ _ U).
  rewrite processMovement_ids.
  apply applyInputsShallow_NoDup. exact Hn.
Qed.

(** The state committed by a tick carries the [rng] of the state before
    it; the PRNG state is written into the superseded state object, and
    the PRNG is advanced after that. *)
Lemma tick_rng (w w' : World.t) (old : State.t) (inputs : list (Obj.t Input.t)) :
  World.tick w inputs = Some (old, w') ->
  State.rng (World.state w') = State.rng (World.state w)
  /\ exists p, State.rng old = Some (PRNG.getState p)
               /\ World.prng w' = snd (PRNG.next p).
Proof.
  unfold World.tick. unfold bind.
  destruct (World.handleWeaponCombat _ _ _ _) as [[[l2 p2] a2] |]; [|discriminate].
  destruct (World.handleProjectiles l2 (World.dt w) p2 a2) as [[l3 p3] a3].
  intros H. inversion H; subst. cbn [World.state State.rng World.prng].
  split; [reflexivity|]. exists p3. split; reflexivity.
Qed.

End TickFacts.

(** ** World.tick and the PRNG state *)

(** C3.  The claim says that the state committed by a tick holds the PRNG
    state reached by that tick's advance.  On a world made by
    [createWorld(12345)] and ticked twice with no inputs, the committed
    state keeps [rng = 12345] both times, while the PRNG has moved on to
    -958040966 and then 1697253807; what the second tick stores,
    -958040966, is the PRNG state before its advance, and it is stored in
    the state object that the tick supersedes. *)
Theorem C3_committed_rng_is_stale (host : Host) :
  match World.tick (World.createWorld (Some 12345) None) [] with
  | Some (_, w1) =>
      State.rng (World.state w1) = Some 12345
      /\ PRNG.getState (World.prng w1) = -958040966
      /\ match World.tick w1 [] with
         | Some (superseded, w2) =>
             State.rng (World.state w2) = Some 12345
             /\ PRNG.getState (World.prng w2) = 1697253807
             /\ State.rng superseded = Some (-958040966)
         | None => False
         end
  | None => False
  end.
Proof. vm_compute. repeat split. Qed.

(** ** Reconciliation against the live tick *)

Ltac same_kit := unfold sameKit; repeat break_if; repeat split; reflexivity.

Section KitFacts.

Context {host : Host}.

Lemma sameKit_refl (e : Entity.t) : sameKit e e.
Proof. repeat split. Qed.

Lemma sameKit_trans (a b c : Entity.t) : sameKit a b -> sameKit b c -> sameKit a c.
Proof. unfold sameKit. intros (A1 & A2 & A3) (B1 & B2 & B3). repeat split; congruence. Qed.

Lemma accelerateTowards_sameKit (dvx dvy step : Q) (e : Entity.t) :
  sameKit e (accelerateTowards dvx dvy step e).
Proof. unfold accelerateTowards. same_kit. Qed.

Lemma applyFriction_sameKit (f : Q) (e : Entity.t) : sameKit e (applyFriction f e).
Proof. unfold applyFriction. same_kit. Qed.

Lemma applyGroundMovement_sameKit (e : Entity.t) (input : Input.t) (dt : Q) :
  sameKit e (applyGroundMovement e input dt).
Proof.
  unfold applyGroundMovement.
  destruct (negb (Js.truthy (Entity.onGround e))); [apply sameKit_refl|].
  match goal with
  | |- context [let '(a, b) := ?c in _] => destruct c as [dx dy]
  end.
  match goal with
  | |- context [accelerateTowards ?a ?b ?c ?d] =>
      pose proof (accelerateTowards_sameKit a b c d) as Ha;
      set (e1 := accelerateTowards a b c d) in *
  end.
  break_if.
  - pose proof (applyFriction_sameKit (FRICTION * dt) e1) as Hf.
    set (e2 := applyFriction (FRICTION * dt) e1) in *.
    eapply sameKit_trans; [exact Ha|]. eapply sameKit_trans; [exact Hf|].
    repeat split.
  - eapply sameKit_trans; [exact Ha|]. repeat split.
Qed.

Lemma applyAirMovement_sameKit (e : Entity.t) (input : Input.t) (dt : Q) :
  sameKit e (applyAirMovement e input dt).
Proof.
  unfold applyAirMovement.
  destruct (Js.truthy (Entity.onGround e)); [apply sameKit_refl|].
  match goal with
  | |- context [let '(a, b) := ?c in _] => destruct c as [dx dy]
  end.
  match goal with
  | |- context [accelerateTowards ?a ?b ?c ?d] =>
      pose proof (accelerateTowards_sameKit a b c d) as Ha;
      set (e1 := accelerateTowards a b c d) in *
  end.
  eapply sameKit_trans; [exact Ha|]. repeat split.
Qed.

Lemma applyGravity_sameKit (e : Entity.t) (dt : Q) (grounds : list Entity.t) :
  sameKit e (applyGravity e dt grounds).
Proof.
  unfold applyGravity.
  destruct (Js.truthy (Entity.onGround e)); [apply sameKit_refl|].
  break_if;
    match goal with
    | |- context [landingOn ?a ?b ?c ?d] => destruct (landingOn a b c d)
    end; cbn; repeat break_if; repeat split.
Qed.

Lemma jump_sameKit (e : Entity.t) (input : Input.t) (worldTick : Z) :
  sameKit e (jump e input worldTick).
Proof. unfold jump. same_kit. Qed.

Lemma computeFallDamage_sameKit (e : Entity.t) : sameKit e (snd (computeFallDamage e)).
Proof. unfold computeFallDamage, sameKit. repeat break_match; repeat split. Qed.

Lemma applyCrouchSlide_crouching (e : Entity.t) (input : Input.t) (dt : Q) :
  Js.truthy (Input.crouch input) = true ->
  Entity.type (applyCrouchSlide e input dt) = Entity.type e
  /\ Entity.inventory (applyCrouchSlide e input dt) = Entity.inventory e
  /\ Entity.isCrouching (applyCrouchSlide e input dt) = Some true.
Proof.
  intros H. unfold applyCrouchSlide. rewrite H.
  destruct (Entity.isCrouching e) as [[|] |] eqn:E; cbn [Js.truthy negb];
    repeat break_if; cbn; repeat split; try assumption.
Qed.

Lemma stepPlayer_crouching (e : Entity.t) (input : Input.t) (dt : Q)
    (worldTick : Z) (grounds : list Entity.t) :
  Entity.type e = player ->
  Js.truthy (Input.crouch input) = true ->
  Entity.type (stepPlayer e input dt worldTick grounds) = player
  /\ Entity.inventory (stepPlayer e input dt worldTick grounds) = Entity.inventory e
  /\ Entity.isCrouching (stepPlayer e input dt worldTick grounds) = Some true.
Proof.
  intros Ht Hc. unfold stepPlayer.
  cbn [Entity.type Entity.inventory Entity.isCrouching Entity.set_x Entity.set_y].
  unfold processEntityMovement. rewrite Ht. cbn [EntityType_eqb negb].
  destruct (applyCrouchSlide_crouching e input dt Hc) as (A1 & A2 & A3).
  set (e1 := applyCrouchSlide e input dt) in *.
  pose proof (jump_sameKit e1 input worldTick) as (B1 & B2 & B3).
  set (e2 := jump e1 input worldTick) in *.
  assert (C : sameKit e2 (if Js.truthy (Entity.onGround e2)
                          then applyGroundMovement e2 input dt
                          else applyAirMovement e2 input dt)).
  { destruct (Js.truthy (Entity.onGround e2));
      [apply applyGroundMovement_sameKit | apply applyAirMovement_sameKit]. }
  destruct C as (C1 & C2 & C3).
  set (e3 := if Js.truthy (Entity.onGround e2) then _ else _) in *.
  pose proof (applyGravity_sameKit e3 dt grounds) as (D1 & D2 & D3).
  set (e4 := applyGravity e3 dt grounds) in *.
  pose proof (computeFallDamage_sameKit e4) as (E1 & E2 & E3).
  repeat split; congruence.
Qed.


(** A tick of a world whose state, after the shallow pass, holds one player
    that crouches and does not shoot: the tick completes and the committed
    player is crouching. *)
Lemma tick_one_crouching_player (w : World.t) (inputs : list (Obj.t Input.t))
    (p : Entity.t) (inp : Input.t) (inv : Inventory.t) :
  World.mergeInputs inputs = [(Entity.id p, inp)] ->
  State.entities
    (applyInputsShallow (World.state w) [(Entity.id p, inp)] (World.dt w)) = [p] ->
  Entity.type p = player ->
  Entity.inventory p = Some inv ->
  updateReload inv = Some inv ->
  Js.truthy (Input.shoot inp) = false ->
  Js.truthy (Input.crouch inp) = true ->
  World.activeProjectiles w = [] ->
  match World.tick w inputs with
  | Some (_, live) =>
      map Entity.isCrouching (State.entities (World.state live)) = [Some true]
  | None => False
  end.
Proof.
  intros Hm Hn Ht Hi Hu Hs Hc Ha.
  unfold World.tick. rewrite Hm, Hn, Ha.
  set (next := applyInputsShallow (World.state w) [(Entity.id p, inp)] (World.dt w)).
  set (e1 := stepPlayer p inp (World.dt w) (State.tick next) (filter isGroundEntity [p])).
  assert (Hp : processMovement [p] [(Entity.id p, inp)] (World.dt w) (State.tick next)
               = [e1]).
  { unfold processMovement, sortedPlayers.
    cbn [indexed List.length seq combine filter snd]. unfold isPlayer at 1.
    rewrite Ht. cbn [EntityType_eqb Arr.sort Arr.insert map fst fold_left].
    unfold movePlayer. cbn [Arr.get nth_error Arr.set Obj.get].
    rewrite String.eqb_refl. reflexivity. }
  rewrite Hp.
  destruct (stepPlayer_crouching p inp (World.dt w) (State.tick next)
              (filter isGroundEntity [p]) Ht Hc) as (T1 & I1 & C1).
  fold e1 in T1, I1, C1.
  set (e2 := Entity.set_inventory (Some inv) e1).
  assert (Hw : World.handleWeaponCombat [e1] [(Entity.id p, inp)] (World.prng w) []
               = Some ([e2], World.prng w, [])).
  { unfold World.handleWeaponCombat. cbn [World.updateReloads].
    unfold isPlayer at 1. rewrite T1. cbn [EntityType_eqb]. rewrite I1, Hi.
    cbv beta iota. rewrite Hu. cbn [bind World.shootAll]. rewrite Hs. reflexivity. }
  rewrite Hw. cbn [bind].
  assert (Hh : World.handleProjectiles [e2] (World.dt w) (World.prng w) []
               = ([e2], World.prng w, [])) by reflexivity.
  rewrite Hh.
  assert (Hr : World.resolveCollisions [e2] = [e2]).
  { unfold World.resolveCollisions. cbn [indexed List.length seq combine filter snd].
    unfold isPlayer. subst e2. cbn [Entity.type Entity.set_inventory]. rewrite T1.
    reflexivity. }
  rewrite Hr. cbn [World.state State.entities map].
  subst e2. cbn [Entity.isCrouching Entity.set_inventory]. rewrite C1. reflexivity.
Qed.


(** C2.  The claim says that [reconcile] gives the state that a live
    world started from the same snapshot reaches by [World.tick].  From
    the snapshot of one player at the origin and one input map with which
    it moves right and crouches, [reconcile] runs the shallow pass alone:
    the player is not crouching, and is at x = 1/20 with vx = 1.  The
    live tick runs the movement pass after the shallow pass: the player is
    crouching (on every host) and, with square roots as on the reference
    host, at x = 3/20 with vx = 2.  The serialized states differ. *)
Theorem C2_reconcile_differs_from_live_tick :
  match World.tick liveStart [crouchRight] with
  | Some (_, live) =>
      map Snapshot.isCrouching (Snapshot.entities (World.serialize live)) = [Some true]
      /\ map Snapshot.isCrouching
           (Snapshot.entities (serializeSnapshot (reconcile snapP1 [crouchRight] 20)))
         = [Some false]
      /\ World.serialize live <> serializeSnapshot (reconcile snapP1 [crouchRight] 20)
  | None => False
  end.
Proof.
  pose proof (tick_one_crouching_player liveStart [crouchRight] shallowP1
                crouchRightInput createDefaultInventory) as H.
  assert (H1 : World.mergeInputs [crouchRight] = [(Entity.id shallowP1, crouchRightInput)])
    by (vm_compute; reflexivity).
  assert (H2 : State.entities
                 (applyInputsShallow (World.state liveStart)
                    [(Entity.id shallowP1, crouchRightInput)] (World.dt liveStart))
               = [shallowP1]) by (vm_compute; reflexivity).
  assert (H3 : updateReload createDefaultInventory = Some createDefaultInventory)
    by (vm_compute; reflexivity).
  specialize (H H1 H2 eq_refl eq_refl H3 eq_refl eq_refl eq_refl).
  destruct (World.tick liveStart [crouchRight]) as [[superseded live] |]; [|exact H].
  assert (L : map Snapshot.isCrouching (Snapshot.entities (World.serialize live))
              = [Some true]).
  { unfold World.serialize, serializeSnapshot. cbn [Snapshot.entities].
    rewrite map_map. exact H. }
  split; [exact L|]. split; [vm_compute; reflexivity|].
  intros C. rewrite C in L. vm_compute in L. discriminate.
Qed.

End KitFacts.

(** With square roots as on the reference host, the same tick also leaves
    the player elsewhere than [reconcile] does. *)
Lemma reconcile_position_differs_on_reference_host :
  match World.tick (host := referenceHost) liveStart [crouchRight] with
  | Some (_, live) =>
      match Snapshot.entities (World.serialize live),
            Snapshot.entities (serializeSnapshot (reconcile snapP1 [crouchRight] 20)) with
      | [l], [r] =>
          (Snapshot.x l == 3 # 20)%Q /\ (Snapshot.vx l == 2)%Q
          /\ (Snapshot.x r == 1 # 20)%Q /\ (Snapshot.vx r == 1)%Q
      | _, _ => False
      end
  | None => False
  end.
Proof. vm_compute. repeat split. Qed.

(** ** Entity ids *)

Lemma NoDup_snoc (l : list string) (x : string) :
  NoDup l -> ~ In x l -> NoDup (l ++ [x]).
Proof.
  intros Hn Hx. induction Hn as [| a r Ha Hn IH]; cbn.
  - constructor; [intros [] | constructor].
  - constructor.
    + rewrite in_app_iff. intros [C | [C | []]]; [apply Ha; exact C|].
      subst. apply Hx. left. reflexivity.
    + apply IH. intros C. apply Hx. right. exact C.
Qed.

Section SpawnFacts.

Context {host : Host}.

Lemma spawnPlayer_ids (l : list Entity.t) (playerId : string) (sp : SpawnPoint) :
  ids (snd (SpawnSystem.spawnPlayer l playerId sp)) = ids l
  \/ ids (snd (SpawnSystem.spawnPlayer l playerId sp)) = ids l ++ [playerId].
Proof.
  unfold SpawnSystem.spawnPlayer. break_if; cbn [snd].
  - left. reflexivity.
  - right. unfold ids. rewrite map_app. reflexivity.
Qed.

Lemma spawnPlayer_NoDup (l : list Entity.t) (playerId : string) (sp : SpawnPoint) :
  NoDup (ids l) -> ~ In playerId (ids l) ->
  NoDup (ids (snd (SpawnSystem.spawnPlayer l playerId sp))).
Proof.
  intros Hn Hx. destruct (spawnPlayer_ids l playerId sp) as [E | E]; rewrite E.
  - exact Hn.
  - apply NoDup_snoc; assumption.
Qed.

Lemma spawnPlayersLoop_NoDup (todo players : list string) (sps : list SpawnPoint)
    (l : list Entity.t) :
  NoDup todo -> (forall p, In p todo -> ~ In p (ids l)) -> NoDup (ids l) ->
  NoDup (ids (MatchRunner.spawnPlayersLoop todo players sps l)).
Proof.
  revert l. induction todo as [| p rest IH]; intros l Ht Hfresh Hn;
    cbn [MatchRunner.spawnPlayersLoop]; [exact Hn|].
  inversion Ht as [| ? ? Hp Ht']; subst.
  destruct (getSpawnPoint sps players p) as [sp |].
  - apply IH; [exact Ht' | |].
    + intros q Hq. unfold ids. rewrite map_app, in_app_iff. cbn.
      intros [C | [C | []]].
      * apply (Hfresh q); [right; exact Hq | exact C].
      * subst. apply Hp. exact Hq.
    + unfold ids. rewrite map_app. apply NoDup_snoc; [exact Hn|].
      apply Hfresh. left. reflexivity.
  - apply IH; [exact Ht' | | exact Hn].
    intros q Hq. apply Hfresh. right. exact Hq.
Qed.

(** Where the ids do stay distinct.  A freshly constructed world has no
    two entities with the same id; [World.tick] keeps the ids pairwise
    distinct; so do [DefaultSpawnSystem.spawnPlayer] and
    [MatchRunner.spawnPlayers] when the ids they spawn are distinct and not
    yet present. *)
Lemma ids_stay_distinct :
  (forall (seed : option Z) (tickRate : option Q),
      NoDup (ids (State.entities (World.state (World.createWorld seed tickRate)))))
  /\ (forall (w w' : World.t) (superseded : State.t) (inputs : list (Obj.t Input.t)),
         World.tick w inputs = Some (superseded, w') ->
         NoDup (ids (State.entities (World.state w))) ->
         NoDup (ids (State.entities (World.state w'))))
  /\ (forall (entities : list Entity.t) (playerId : string) (sp : SpawnPoint),
         NoDup (ids entities) -> ~ In playerId (ids entities) ->
         NoDup (ids (snd (SpawnSystem.spawnPlayer entities playerId sp))))
  /\ (forall (players : list string) (sps : list SpawnPoint) (entities : list Entity.t),
         NoDup players -> (forall p, In p players -> ~ In p (ids entities)) ->
         NoDup (ids entities) ->
         NoDup (ids (MatchRunner.spawnPlayers players sps entities))).
Proof.
  split; [|split; [|split]].
  - intros seed tickRate. unfold World.createWorld, World.new, createState.
    cbn [State.rng]. destruct seed; cbn; constructor.
  - intros w w' superseded inputs. apply tick_NoDup.
  - apply spawnPlayer_NoDup.
  - intros players sps entities. apply spawnPlayersLoop_NoDup.
Qed.

End SpawnFacts.

Lemma ids_stay_distinct_example :
  NoDup (ids twoPlayers)
  /\ match World.tick (host := referenceHost) twoPlayerWorld [moveRight] with
     | Some (_, w') =>
         ids (State.entities (World.state w')) = ["p1"; "p2"]%string
         /\ NoDup (ids (State.entities (World.state w')))
     | None => False
     end.
Proof.
  destruct (ids_stay_distinct (host := referenceHost)) as (_ & Htick & _ & Hspawn).
  assert (H0 : NoDup (ids twoPlayers)).
  { apply Hspawn.
    - constructor; [intros [C | []]; discriminate|]. constructor; [intros []|constructor].
    - intros p _ [].
    - constructor. }
  split; [exact H0|].
  destruct (World.tick (host := referenceHost) twoPlayerWorld [moveRight])
    as [[superseded w'] |] eqn:E; [|vm_compute in E; discriminate].
  split.
  - vm_compute in E. inversion E; subst. reflexivity.
  - apply (Htick twoPlayerWorld w' superseded [moveRight] E). exact H0.
Defined.

(** C9.  The claim is that no two entities of a state share an id, and
    the engine relies on it: it finds an entity by its id, and
    [handlePlayerDeath] removes a dead player before the respawn.  The
    start of a match breaks it: starting an arena match for ["p1"] and
    ["p2"] on the world made by the constructor leaves two entities with id
    ["p1"] and two with ["p2"], one each from the mode module's
    [initialize], through [spawnPlayer], which asks [canSpawnAt] whether
    the spawn point is free, and one each from [MatchRunner.spawnPlayers],
    which pushes a new player onto the point without asking. *)
Theorem C9_match_start_duplicates_ids :
  option_map ids (MatchRunner.start (host := referenceHost) (Some 12345) ["p1"; "p2"]%string)
    = Some ["p1"; "p2"; "p1"; "p2"]%string
  /\ ~ NoDup ["p1"; "p2"; "p1"; "p2"]%string.
Proof.
  split; [vm_compute; reflexivity|].
  intros C. inversion C as [| ? ? Hnotin _]; subst.
  apply Hnotin. right. left. reflexivity.
Qed.

(** ** The counterexamples do not depend on the host *)

Section OnEveryHost.

Context {host : Host}.

Lemma spawnPlayer_extends (l : list Entity.t) (playerId : string) (sp : SpawnPoint) :
  exists suffix, snd (SpawnSystem.spawnPlayer l playerId sp) = (l ++ suffix)%list.
Proof.
  unfold SpawnSystem.spawnPlayer. break_if; cbn [snd].
  - exists []. rewrite app_nil_r. reflexivity.
  - eexists. reflexivity.
Qed.

Lemma onRoundStartFrom_extends (i : nat) (players : list string)
    (sps : list SpawnPoint) (l l' : list Entity.t) :
  ArenaMode.onRoundStartFrom i players sps l = Some l' ->
  exists suffix, l' = (l ++ suffix)%list.
Proof.
  revert i l. induction players as [| p rest IH]; intros i l;
    cbn [ArenaMode.onRoundStartFrom].
  - intros H. inversion H. exists []. rewrite app_nil_r. reflexivity.
  - unfold bind. destruct (nth_error sps (i mod List.length sps)%nat) as [sp |];
      [|discriminate].
    intros H. destruct (IH _ _ H) as [s2 E2].
    destruct (spawnPlayer_extends l p sp) as [s1 E1].
    exists (s1 ++ s2)%list. rewrite E2, E1, app_assoc. reflexivity.
Qed.

Lemma onRoundStartFrom_completes (i : nat) (players : list string)
    (l : list Entity.t) :
  exists l', ArenaMode.onRoundStartFrom i players ArenaMode.generateSpawnPoints l = Some l'.
Proof.
  revert i l. induction players as [| p rest IH]; intros i l;
    cbn [ArenaMode.onRoundStartFrom].
  - eexists. reflexivity.
  - change (List.length ArenaMode.generateSpawnPoints) with 2%nat.
    assert (Hlt : (i mod 2 < 2)%nat) by (apply Nat.mod_upper_bound; discriminate).
    destruct (i mod 2)%nat as [| [| k]] eqn:E; [| | lia]; cbn [nth_error bind];
      apply IH.
Qed.

(** Whatever the host's square root says about the spawn points being
    free, an arena match for ["p1"] and ["p2"] starts its first round with
    two entities of id ["p1"]. *)
Lemma arena_start_duplicates (seed : option Z) :
  match MatchRunner.start seed ["p1"; "p2"]%string with
  | Some l => ~ NoDup (ids l)
  | None => False
  end.
Proof.
  unfold MatchRunner.start.
  assert (E0 : State.entities (World.state (World.createWorld seed (Some 20%Q))) = [])
    by (destruct seed; reflexivity).
  rewrite E0. unfold ArenaMode.initialize.
  cbn [ArenaMode.generateSpawnPoints].
  fold ArenaMode.generateSpawnPoints.
  match goal with
  | |- context [SpawnSystem.spawnPlayer [] "p1" ?s] =>
      destruct (SpawnSystem.spawnPlayer [] "p1" s) as [ok l1] eqn:S1
  end.
  assert (H1 : exists e, l1 = [e] /\ Entity.id e = "p1"%string).
  { unfold SpawnSystem.spawnPlayer in S1. cbn [SpawnSystem.canSpawnAt negb] in S1.
    inversion S1. eexists. split; reflexivity. }
  destruct H1 as (e & -> & He). cbn [snd].
  match goal with
  | |- context [SpawnSystem.spawnPlayer [e] "p2" ?s] =>
      destruct (spawnPlayer_extends [e] "p2"%string s) as [s1 E1]
  end.
  rewrite E1. unfold MatchRunner.roundStart, ArenaMode.onRoundStart, bind.
  destruct (onRoundStartFrom_completes 0 ["p1"; "p2"]%string ([e] ++ s1)%list) as [l2 R].
  rewrite R. destruct (onRoundStartFrom_extends _ _ _ _ _ R) as [s2 E2]. subst l2.
  unfold MatchRunner.spawnPlayers. cbn [MatchRunner.spawnPlayersLoop].
  replace (getSpawnPoint ArenaMode.generateSpawnPoints ["p1"; "p2"]%string "p1"%string)
    with (nth_error ArenaMode.generateSpawnPoints 0) by reflexivity.
  replace (getSpawnPoint ArenaMode.generateSpawnPoints ["p1"; "p2"]%string "p2"%string)
    with (nth_error ArenaMode.generateSpawnPoints 1) by reflexivity.
  cbn [nth_error ArenaMode.generateSpawnPoints].
  unfold ids. rewrite !map_app. cbn [map app]. rewrite He.
  intros C. inversion C as [| ? ? Hnotin _]; subst. apply Hnotin.
  rewrite !in_app_iff. cbn [In Entity.id createPlayer]. tauto.
Qed.

(** Whatever the host's collation, the two orders of the twins and the two
    sides of the rounding boundary hash differently. *)
Lemma checksum_counterexample_on_every_host :
  computeStateChecksum twinsA <> computeStateChecksum twinsB
  /\ computeStateChecksum noiseA <> computeStateChecksum noiseB.
Proof.
  split.
  - unfold computeStateChecksum, createQuantizedSnapshot, twinsA, twinsB.
    cbn [State.entities map Arr.sort Arr.insert].
    unfold compareById. cbn [Quantized.id quantizeEntity createPlayer Entity.id].
    destruct (localeCompare "p1" "p1"); vm_compute; discriminate.
  - vm_compute. discriminate.
Qed.

End OnEveryHost.

(** * Further properties of the code *)

(** ** Xorshift32 never reaches zero from a seed; FNV-1a *)

Lemma toInt32_range (z : Z) : - Js.two31 <= Js.toInt32 z < Js.two31.
Proof.
  unfold Js.toInt32, Js.two31, Js.two32.
  pose proof (Z.mod_pos_bound (z + 2147483648) 4294967296 ltac:(lia)). lia.
Qed.

Lemma toUint32_toInt32 (z : Z) : Js.toUint32 (Js.toInt32 z) = Js.toUint32 z.
Proof.
  unfold Js.toUint32, Js.toInt32, Js.two31, Js.two32.
  rewrite Zminus_mod, Zmod_mod, <- Zminus_mod. f_equal. lia.
Qed.

Lemma toInt32_zero_iff (z : Z) : Js.toInt32 z = 0 <-> Js.toUint32 z = 0.
Proof.
  unfold Js.toInt32, Js.toUint32, Js.two31, Js.two32. split; intros H.
  - rewrite (Z.div_mod z 4294967296) in H by lia.
    pose proof (Z.mod_pos_bound z 4294967296 ltac:(lia)) as Hb.
    replace (4294967296 * (z / 4294967296) + z mod 4294967296 + 2147483648)
      with ((z mod 4294967296 + 2147483648) + (z / 4294967296) * 4294967296) in H by lia.
    rewrite Z_mod_plus_full in H.
    destruct (Z_lt_ge_dec (z mod 4294967296) 2147483648) as [Hlt | Hge].
    + rewrite Z.mod_small in H by lia. lia.
    + replace (z mod 4294967296 + 2147483648)
        with ((z mod 4294967296 - 2147483648) + 1 * 4294967296) in H by lia.
      rewrite Z_mod_plus_full, Z.mod_small in H by lia. lia.
  - rewrite (Z.div_mod z 4294967296) by lia. rewrite H.
    replace (4294967296 * (z / 4294967296) + 0 + 2147483648)
      with (2147483648 + (z / 4294967296) * 4294967296) by lia.
    rewrite Z_mod_plus_full. reflexivity.
Qed.

Lemma toInt32_small (z : Z) : - Js.two31 <= z < Js.two31 -> Js.toInt32 z = z.
Proof.
  unfold Js.toInt32, Js.two31, Js.two32. intros H. rewrite Z.mod_small by lia. lia.
Qed.

Lemma lxor_mod_two32 (a b : Z) :
  Z.lxor a b mod Js.two32 = Z.lxor (a mod Js.two32) (b mod Js.two32).
Proof.
  change Js.two32 with (2 ^ 32). apply Z.bits_inj'. intros n Hn.
  destruct (Z_lt_ge_dec n 32) as [Hlt | Hge].
  - rewrite Z.mod_pow2_bits_low, !Z.lxor_spec, !Z.mod_pow2_bits_low by lia. reflexivity.
  - rewrite Z.mod_pow2_bits_high, Z.lxor_spec, !Z.mod_pow2_bits_high by lia. reflexivity.
Qed.

Lemma toUint32_xor (a b : Z) :
  Js.toUint32 (Js.xor a b) = Z.lxor (Js.toUint32 a) (Js.toUint32 b).
Proof.
  unfold Js.xor. rewrite toUint32_toInt32. unfold Js.toUint32 at 1.
  rewrite lxor_mod_two32. fold (Js.toUint32 (Js.toInt32 a)) (Js.toUint32 (Js.toInt32 b)).
  rewrite !toUint32_toInt32. reflexivity.
Qed.

Lemma xor_zero_iff (a b : Z) : Js.xor a b = 0 <-> Js.toUint32 a = Js.toUint32 b.
Proof.
  assert (E : Js.xor a b = Js.toInt32 (Js.xor a b)).
  { unfold Js.xor. symmetry. apply toInt32_small, toInt32_range. }
  rewrite E, toInt32_zero_iff, toUint32_xor. apply Z.lxor_eq_0_iff.
Qed.

Lemma toUint32_shl (a n : Z) : 0 <= n ->
  Js.toUint32 (Js.shl a n) = (Js.toUint32 a * 2 ^ n) mod Js.two32.
Proof.
  intros Hn. unfold Js.shl. rewrite toUint32_toInt32. unfold Js.toUint32 at 1.
  rewrite Z.shiftl_mul_pow2 by assumption.
  rewrite Zmult_mod. fold (Js.toUint32 (Js.toInt32 a)). rewrite toUint32_toInt32.
  unfold Js.toUint32. rewrite <- Zmult_mod. rewrite Zmult_mod_idemp_l. reflexivity.
Qed.

(** [u = (u * 2^n) mod 2^32] only for [u = 0], when [2^n - 1] is odd. *)
Lemma shl_fixpoint (u n : Z) :
  Z.gcd Js.two32 (2 ^ n - 1) = 1 -> 0 <= u < Js.two32 ->
  u = (u * 2 ^ n) mod Js.two32 -> u = 0.
Proof.
  unfold Js.two32. intros Hg Hu E.
  assert (D : (4294967296 | (2 ^ n - 1) * u)).
  { apply Z.mod_divide; [lia |].
    replace ((2 ^ n - 1) * u) with (u * 2 ^ n - u) by lia.
    rewrite Zminus_mod, <- E. rewrite (Z.mod_small u) by lia.
    rewrite Z.sub_diag. reflexivity. }
  apply Z.gauss in D; [| assumption].
  destruct D as [k Hk]. nia.
Qed.

Lemma xorshift_left_zero (s n : Z) :
  Z.gcd Js.two32 (2 ^ n - 1) = 1 -> 0 <= n ->
  Js.xor s (Js.shl s n) = 0 <-> Js.toUint32 s = 0.
Proof.
  intros Hg Hn. rewrite xor_zero_iff, toUint32_shl by assumption. split; intros H.
  - apply (shl_fixpoint _ n); [assumption | apply toUint32_range | assumption].
  - rewrite H. reflexivity.
Qed.

Lemma xorshift_right_zero (s n : Z) :
  0 < n -> Js.xor s (Js.ushr s n) = 0 <-> Js.toUint32 s = 0.
Proof.
  intros Hn. rewrite xor_zero_iff.
  pose proof (toUint32_range s) as Hr. unfold Js.two32 in Hr.
  assert (E : Js.ushr s n = Js.toUint32 s / 2 ^ n).
  { unfold Js.ushr. apply Z.shiftr_div_pow2. lia. }
  assert (Hp : 2 <= 2 ^ n).
  { change 2 with (2 ^ 1) at 1. apply Z.pow_le_mono_r; lia. }
  assert (Hq : 0 <= Js.toUint32 s / 2 ^ n <= Js.toUint32 s / 2).
  { split; [apply Z.div_pos; lia |].
    apply Z.div_le_compat_l; lia. }
  rewrite E. unfold Js.toUint32 at 2. unfold Js.two32.
  rewrite (Z.mod_small (Js.toUint32 s / 2 ^ n)).
  2:{ split; [lia |]. apply Z.le_lt_trans with (Js.toUint32 s); [| lia].
      apply Z.le_trans with (Js.toUint32 s / 2); [lia |].
      apply Z.div_le_upper_bound; lia. }
  split; intros H.
  - assert (Js.toUint32 s / 2 < Js.toUint32 s \/ Js.toUint32 s = 0).
    { destruct (Z.eq_dec (Js.toUint32 s) 0); [right; assumption | left].
      apply Z.div_lt; lia. }
    lia.
  - rewrite H. symmetry. apply Z.div_0_l. lia.
Qed.

Lemma toUint32_zero_int32 (z : Z) :
  - Js.two31 <= z < Js.two31 -> (Js.toUint32 z = 0 <-> z = 0).
Proof.
  intros H. rewrite <- toInt32_zero_iff, toInt32_small by assumption. reflexivity.
Qed.

Lemma next_zero_state (p : PRNG.t) :
  let p' := snd (PRNG.next p) in
  (- Js.two31 <= PRNG.state p' < Js.two31)
  /\ fst (PRNG.next p) = Js.toUint32 (PRNG.state p')
  /\ (PRNG.state p' = 0 <-> Js.toInt32 (PRNG.state p) = 0)
  /\ (fst (PRNG.next p) = 0 <-> Js.toInt32 (PRNG.state p) = 0).
Proof.
  unfold PRNG.next. cbn [fst snd PRNG.state].
  set (s0 := PRNG.state p).
  set (s1 := Js.xor s0 (Js.shl s0 13)).
  set (s2 := Js.xor s1 (Js.ushr s1 17)).
  set (s3 := Js.xor s2 (Js.shl s2 5)).
  assert (R1 : - Js.two31 <= s1 < Js.two31) by apply toInt32_range.
  assert (R2 : - Js.two31 <= s2 < Js.two31) by apply toInt32_range.
  assert (R3 : - Js.two31 <= s3 < Js.two31) by apply toInt32_range.
  assert (Z3 : s3 = 0 <-> Js.toInt32 s0 = 0).
  { unfold s3. rewrite xorshift_left_zero by (reflexivity || lia).
    rewrite (toUint32_zero_int32 s2 R2). unfold s2.
    rewrite xorshift_right_zero by lia.
    rewrite (toUint32_zero_int32 s1 R1). unfold s1.
    rewrite xorshift_left_zero by (reflexivity || lia).
    symmetry. apply toInt32_zero_iff. }
  assert (O : Js.ushr s3 0 = Js.toUint32 s3).
  { unfold Js.ushr. apply Z.shiftr_0_r. }
  repeat split; try tauto; try lia; try exact O.
  - rewrite O, (toUint32_zero_int32 s3 R3). tauto.
  - rewrite O, (toUint32_zero_int32 s3 R3). tauto.
Qed.

Lemma new_state_nonzero (seed : Z) :
  - Js.two31 <= seed < Js.two31 -> Js.toInt32 (PRNG.state (PRNG.new seed)) <> 0.
Proof.
  intros H. unfold PRNG.new. cbn [PRNG.state].
  destruct (Z.eqb_spec seed 0) as [-> | Hne].
  - vm_compute. discriminate.
  - rewrite toInt32_small by assumption. assumption.
Qed.

Lemma afterDraws_nonzero (n : nat) (p : PRNG.t) :
  Js.toInt32 (PRNG.state p) <> 0 -> Js.toInt32 (PRNG.state (afterDraws n p)) <> 0.
Proof.
  intros H. induction n as [| n IH]; [exact H |].
  cbn [afterDraws Nat.iter]. fold (afterDraws n p).
  destruct (next_zero_state (afterDraws n p)) as (R & _ & Z0 & _).
  cbv zeta in R, Z0. rewrite toInt32_small by exact R. tauto.
Qed.

Lemma seeded_draw_positive (seed : Z) (n : nat) :
  - Js.two31 <= seed < Js.two31 ->
  0 < fst (PRNG.next (afterDraws n (PRNG.new seed))) <= 4294967295
  /\ (0 < fst (PRNG.nextFloat (afterDraws n (PRNG.new seed))))%Q.
Proof.
  intros H.
  pose proof (afterDraws_nonzero n _ (new_state_nonzero seed H)) as Hn.
  set (q := afterDraws n (PRNG.new seed)) in *.
  destruct (next_zero_state q) as (_ & _ & _ & Z0).
  pose proof (next_value_range q) as R.
  assert (P : 0 < fst (PRNG.next q)) by (destruct (Z.eq_dec (fst (PRNG.next q)) 0); [tauto | lia]).
  split; [lia |].
  unfold PRNG.nextFloat. destruct (PRNG.next q) as [v q'] eqn:E. cbn [fst] in *.
  assert (U : Js.ushr v 0 = v).
  { unfold Js.ushr, Js.toUint32, Js.two32. rewrite Z.shiftr_0_r. apply Z.mod_small. lia. }
  rewrite U. apply Qlt_shift_div_l; [reflexivity |].
  rewrite Qmult_0_l. change 0%Q with (inject_Z 0). rewrite <- Zlt_Qlt. assumption.
Qed.

(** X1: a generator made by [new PRNG(seed)] from a seed in the signed
    32-bit range never draws zero: after any number of draws [next] returns
    an integer from 1 to 4294967295 and [nextFloat] a number above 0 and at
    most 1; so does [randomFloat(seed)]. *)
Theorem X1_seeded_draws_never_zero (seed : Z) :
  - Js.two31 <= seed < Js.two31 ->
  (forall n : nat,
      0 < fst (PRNG.next (afterDraws n (PRNG.new seed))) <= 4294967295
      /\ (0 < fst (PRNG.nextFloat (afterDraws n (PRNG.new seed))) <= 1)%Q)
  /\ (0 < randomFloat seed <= 1)%Q.
Proof.
  intros H. split.
  - intros n. destruct (seeded_draw_positive seed n H) as [A B].
    split; [exact A |]. split; [exact B |]. apply nextFloat_unit_interval.
  - unfold randomFloat. destruct (seeded_draw_positive seed 0 H) as [_ B].
    split; [exact B |]. apply nextFloat_unit_interval.
Qed.

Lemma charCodeAt_range (c : ascii) : 0 <= charCodeAt c < 256.
Proof.
  unfold charCodeAt. pose proof (N_ascii_bounded c) as H. lia.
Qed.

Lemma toUint32_cong (a b : Z) :
  Js.toUint32 a = b mod Js.two32 -> exists q, a = b + q * Js.two32.
Proof.
  unfold Js.toUint32, Js.two32. intros H.
  exists (a / 4294967296 - b / 4294967296).
  pose proof (Z.div_mod a 4294967296 ltac:(lia)).
  pose proof (Z.div_mod b 4294967296 ltac:(lia)). lia.
Qed.

Lemma fnv_step (h : Z) (c : ascii) :
  let x := Js.xor h (charCodeAt c) in
  Js.toUint32 (x + (Js.shl x 1 + Js.shl x 4 + Js.shl x 7 + Js.shl x 8 + Js.shl x 24))
  = (Z.lxor (Js.toUint32 h) (charCodeAt c) * 16777619) mod 2 ^ 32.
Proof.
  intros x.
  assert (Ex : Js.toUint32 x = Z.lxor (Js.toUint32 h) (charCodeAt c)).
  { unfold x. rewrite toUint32_xor. f_equal.
    unfold Js.toUint32, Js.two32. apply Z.mod_small.
    pose proof (charCodeAt_range c). lia. }
  rewrite <- Ex. set (u := Js.toUint32 x).
  destruct (toUint32_cong (Js.shl x 1) (u * 2 ^ 1)) as [q1 E1]; [apply toUint32_shl; lia |].
  destruct (toUint32_cong (Js.shl x 4) (u * 2 ^ 4)) as [q4 E4]; [apply toUint32_shl; lia |].
  destruct (toUint32_cong (Js.shl x 7) (u * 2 ^ 7)) as [q7 E7]; [apply toUint32_shl; lia |].
  destruct (toUint32_cong (Js.shl x 8) (u * 2 ^ 8)) as [q8 E8]; [apply toUint32_shl; lia |].
  destruct (toUint32_cong (Js.shl x 24) (u * 2 ^ 24)) as [q24 E24]; [apply toUint32_shl; lia |].
  destruct (toUint32_cong x u) as [q0 E0].
  { unfold u, Js.toUint32. symmetry. apply Zmod_mod. }
  rewrite E1, E4, E7, E8, E24. rewrite E0 at 1.
  unfold Js.toUint32, Js.two32. change (2 ^ 32) with 4294967296.
  replace (u + q0 * 4294967296 +
           (u * 2 ^ 1 + q1 * 4294967296 + (u * 2 ^ 4 + q4 * 4294967296)
            + (u * 2 ^ 7 + q7 * 4294967296) + (u * 2 ^ 8 + q8 * 4294967296)
            + (u * 2 ^ 24 + q24 * 4294967296)))
    with (u * 16777619 + (q0 + q1 + q4 + q7 + q8 + q24) * 4294967296) by lia.
  apply Z_mod_plus_full.
Qed.

Lemma fnv1aLoop_reference (str : string) (h : Z) :
  Js.toUint32 (fnv1aLoop str h) = fnv1aReference str (Js.toUint32 h).
Proof.
  revert h. induction str as [| c r IH]; intros h; [reflexivity |].
  cbn [fnv1aLoop fnv1aReference]. rewrite IH. f_equal. apply fnv_step.
Qed.

Lemma ushr_zero (z : Z) : Js.ushr z 0 = Js.toUint32 z.
Proof. unfold Js.ushr. apply Z.shiftr_0_r. Qed.

Lemma fnv1aHash_range (str : string) : 0 <= fnv1aHash str < 2 ^ 32.
Proof. unfold fnv1aHash. rewrite ushr_zero. apply toUint32_range. Qed.

(** X2: [fnv1aHash], which multiplies by shifting and adding, computes the
    32-bit FNV-1a hash of the character codes of the string (offset basis
    2166136261, prime 16777619, every product reduced modulo 2^32), and
    returns an unsigned 32-bit integer. Strings are lists of characters with
    codes below 256. *)
Theorem X2_fnv1aHash_is_reference (str : string) :
  fnv1aHash str = fnv1aReference str 2166136261
  /\ 0 <= fnv1aHash str < 2 ^ 32.
Proof.
  split; [| apply fnv1aHash_range].
  unfold fnv1aHash. rewrite ushr_zero, fnv1aLoop_reference. reflexivity.
Qed.

(** ** The range of nextInt *)

Lemma floor_scaled_range (f : Q) (range : Z) :
  (0 <= f <= 1)%Q -> 1 <= range ->
  0 <= Js.floor (f * inject_Z range) <= range
  /\ (Js.floor (f * inject_Z range) = range <-> ~ (f < 1)%Q).
Proof.
  intros [Hf0 Hf1] Hr. unfold Js.floor.
  assert (Hr0 : (0 < inject_Z range)%Q).
  { change 0%Q with (inject_Z 0). rewrite <- Zlt_Qlt. lia. }
  assert (Hlo : (inject_Z 0 <= f * inject_Z range)%Q).
  { change (inject_Z 0) with 0%Q. apply Qmult_le_0_compat; [assumption | apply Qlt_le_weak; assumption]. }
  assert (Hhi : (f * inject_Z range <= inject_Z range)%Q).
  { rewrite <- (Qmult_1_l (inject_Z range)) at 2.
    apply Qmult_le_compat_r; [assumption | apply Qlt_le_weak; assumption]. }
  apply Qfloor_resp_le in Hlo. apply Qfloor_resp_le in Hhi.
  rewrite Qfloor_Z in Hlo, Hhi.
  split; [lia |]. split.
  - intros E Hlt.
    assert (Hx : (f * inject_Z range < inject_Z range)%Q).
    { rewrite <- (Qmult_1_l (inject_Z range)) at 2.
      apply Qmult_lt_compat_r; assumption. }
    pose proof (Qfloor_le (f * inject_Z range)) as Hfl. rewrite E in Hfl.
    apply (Qlt_irrefl (inject_Z range)). eapply Qle_lt_trans; eassumption.
  - intros Hn.
    assert (E1 : (f == 1)%Q).
    { apply Qle_antisym; [assumption | apply Qnot_lt_le; assumption]. }
    rewrite E1, Qmult_1_l. apply Qfloor_Z.
Qed.

Lemma nextInt_bounds (min max : Z) (p : PRNG.t) :
  min <= max ->
  min <= fst (PRNG.nextInt min max p) <= max + 1
  /\ (fst (PRNG.nextInt min max p) = max + 1 <-> fst (PRNG.next p) = 4294967295).
Proof.
  intros Hle.
  pose proof (nextFloat_unit_interval p) as Hf.
  pose proof (nextFloat_lt_one_iff p) as Hone.
  unfold PRNG.nextInt. destruct (PRNG.nextFloat p) as [f p'] eqn:E.
  cbn [fst snd] in *.
  destruct (floor_scaled_range f (max - min + 1) Hf ltac:(lia)) as [Hr Hiff].
  split; [lia |].
  split.
  - intros H. assert (Hfl : Js.floor (f * inject_Z (max - min + 1)) = max - min + 1) by lia.
    apply Hiff in Hfl.
    destruct (Z.eq_dec (fst (PRNG.next p)) 4294967295) as [|Hne]; [assumption |].
    exfalso. apply Hfl, Hone, Hne.
  - intros H.
    assert (Hn : ~ (f < 1)%Q) by (intros Hlt; apply Hone in Hlt; congruence).
    apply Hiff in Hn. lia.
Qed.

(** X3: for [min <= max], [nextInt(min, max)] returns an integer from [min]
    to [max + 1], and [max + 1] exactly when the underlying [next] returns
    4294967295; [randomInt(seed, min, max)] lies in the same range. *)
Theorem X3_nextInt_range (min max : Z) :
  min <= max ->
  (forall p : PRNG.t,
      min <= fst (PRNG.nextInt min max p) <= max + 1
      /\ (fst (PRNG.nextInt min max p) = max + 1 <-> fst (PRNG.next p) = 4294967295))
  /\ (forall seed : Z, min <= randomInt seed min max <= max + 1).
Proof.
  intros H. split.
  - intros p. apply nextInt_bounds, H.
  - intros seed. unfold randomInt. apply nextInt_bounds, H.
Qed.

(** ** Snapshots of deserialized states; reconciliation in two parts *)

Lemma orElse_idem (v : option Q) : Js.orElse (Some (Js.orElse v 0)) 0 = Js.orElse v 0.
Proof.
  unfold Js.orElse. destruct v as [q |]; [| reflexivity].
  destruct (Js.eqb q 0) eqn:E; [reflexivity | rewrite E; reflexivity].
Qed.

Lemma orElseZ_idem (v : option Z) : Js.orElseZ (Some (Js.orElseZ v 0)) 0 = Js.orElseZ v 0.
Proof.
  unfold Js.orElseZ. destruct v as [z |]; [| reflexivity].
  destruct (z =? 0) eqn:E; [reflexivity | rewrite E; reflexivity].
Qed.

Lemma deserializeEntity_stable (s : Snapshot.entity) : roundTripStable (deserializeEntity s).
Proof.
  unfold roundTripStable. destruct s as [i t]. destruct t; cbn -[Js.orElse Js.orElseZ].
  - reflexivity.
  - reflexivity.
  - rewrite orElse_idem, orElseZ_idem. reflexivity.
  - reflexivity.
Qed.










Lemma stableState_round_trip (s : State.t) :
  stableState s -> deserializeSnapshot (serializeSnapshot s) = s.
Proof.
  destruct s as [t es r c]. unfold stableState. cbn. intros (-> & -> & H).
  unfold deserializeSnapshot, serializeSnapshot. cbn. f_equal.
  rewrite map_map. induction H as [| e l He Hl IH]; cbn; [reflexivity |].
  rewrite He, IH. reflexivity.
Qed.

Lemma deserializeSnapshot_stable (j : Snapshot.t) : stableState (deserializeSnapshot j).
Proof.
  unfold stableState, deserializeSnapshot. cbn. repeat split.
  apply Forall_map, Forall_forall. intros s _. apply deserializeEntity_stable.
Qed.




(** X4: a state read from a snapshot survives the round trip unchanged:
    deserializing, serializing and deserializing again gives the state of
    the first deserialization, for every snapshot. *)
Theorem X4_deserialized_state_round_trips (json : Snapshot.t) :
  deserializeSnapshot (serializeSnapshot (deserializeSnapshot json))
  = deserializeSnapshot json.
Proof. apply stableState_round_trip, deserializeSnapshot_stable. Qed.



(** ** applyInputsShallow: what it removes and what it ignores *)

Lemma update_first_Forall2 {A : Type} (R : A -> A -> Prop) (p : A -> bool) (f : A -> A)
    (l l' : list A) :
  (forall a b, R a b -> R a (f b)) -> Forall2 R l l' ->
  Forall2 R l (Arr.update_first p f l').
Proof.
  intros Hf H. induction H as [| a b l l' Hab Hl IH]; cbn; [constructor |].
  destruct (p b); constructor; auto.
Qed.

Lemma Forall2_refl {A : Type} (R : A -> A -> Prop) (l : list A) :
  (forall a, R a a) -> Forall2 R l l.
Proof. intros H. induction l; constructor; auto. Qed.

Lemma applyInput_sameTag (input : Input.t) (dt : Q) (a b : Entity.t) :
  sameTag a b -> sameTag a (applyInput input dt b).
Proof. unfold sameTag, applyInput. destruct b; cbn. tauto. Qed.

Lemma applyInputs_sameTag (dt : Q) (inputs : Obj.t Input.t) (l l' : list Entity.t) :
  Forall2 sameTag l l' ->
  Forall2 sameTag l
    (fold_left
       (fun ents (kv : string * Input.t) =>
          let '(clientId, input) := kv in
          Arr.update_first (isPlayerWithId clientId) (applyInput input dt) ents)
       inputs l').
Proof.
  revert l'. induction inputs as [| [cid inp] rest IH]; intros l' H; cbn [fold_left]; [assumption |].
  apply IH, update_first_Forall2; [apply applyInput_sameTag | assumption].
Qed.

Lemma advanceBullets_tags (dt : Q) (l l' : list Entity.t) :
  Forall2 sameTag l l' ->
  map tagOf (advanceBullets dt l') = map tagOf (filter outlivesStep l)
  /\ Forall (fun e => Entity.type e = bullet ->
                      forall lt, Entity.lifetime e = Some lt -> (0 < lt)%Q)
       (advanceBullets dt l').
Proof.
  intros H. induction H as [| a b l l' (Hi & Ht & Hl) Hrest [IH1 IH2]];
    cbn [advanceBullets filter map]; [split; [reflexivity | constructor] |].
  unfold outlivesStep at 1. rewrite <- Ht, <- Hl.
  destruct (EntityType_eqb (Entity.type b) bullet) eqn:Et.
  - assert (Tb : Entity.type b = bullet)
      by (destruct (Entity.type b); (discriminate || reflexivity)).
    replace (Entity.lifetime
               (Entity.set_y
                  (Entity.y (Entity.set_x (Entity.x b + Entity.vx b * dt) b)
                   + Entity.vy (Entity.set_x (Entity.x b + Entity.vx b * dt) b) * dt)
                  (Entity.set_x (Entity.x b + Entity.vx b * dt) b)))
      with (Entity.lifetime b) by (destruct b; reflexivity).
    destruct (Entity.lifetime b) as [lt |] eqn:El; cbn [andb negb].
    + destruct (Js.leb (lt - 1) 0) eqn:Ex; cbn [negb map].
      * split; assumption.
      * split.
        -- rewrite IH1. f_equal. unfold tagOf. rewrite <- Hi, <- Ht. destruct b; reflexivity.
        -- constructor; [| assumption]. intros _ lt' E.
           assert (lt' = (lt - 1)%Q) by (destruct b; cbn in E; congruence). subst lt'.
           unfold Js.leb in Ex. apply Qnot_le_lt. intros Hle.
           apply Qle_bool_iff in Hle. congruence.
    + cbn [map]. split.
      * rewrite IH1. f_equal. unfold tagOf. rewrite <- Hi, <- Ht. destruct b; reflexivity.
      * constructor; [| assumption]. intros _ lt' E. destruct b; cbn in *; congruence.
  - cbn [andb negb map]. split.
    + rewrite IH1. f_equal. unfold tagOf. congruence.
    + constructor; [| assumption]. intros Tb. rewrite Tb in Et. discriminate.
Qed.

(** X6: [applyInputsShallow] advances the tick by one and keeps, in their
    order and with their ids and types, exactly the entities other than the
    bullets whose lifetime less one is not positive; a bullet that it keeps
    and that has a lifetime has a positive one. *)
Theorem X6_applyInputsShallow_drops_spent_bullets (state : State.t)
    (inputs : Obj.t Input.t) (dt : Q) :
  let next := applyInputsShallow state inputs dt in
  State.tick next = State.tick state + 1
  /\ map tagOf (State.entities next)
     = map tagOf (filter outlivesStep (State.entities state))
  /\ Forall (fun e => Entity.type e = bullet ->
                      forall lt, Entity.lifetime e = Some lt -> (0 < lt)%Q)
       (State.entities next).
Proof.
  cbv zeta. split; [reflexivity |].
  unfold applyInputsShallow, cloneState. cbn [State.entities State.tick].
  rewrite map_id. apply advanceBullets_tags, applyInputs_sameTag, Forall2_refl.
  intros a. unfold sameTag. tauto.
Qed.

Lemma update_first_none {A : Type} (p : A -> bool) (f : A -> A) (l : list A) :
  (forall a, In a l -> p a = false) -> Arr.update_first p f l = l.
Proof.
  induction l as [| a l IH]; intros H; cbn; [reflexivity |].
  rewrite (H a (or_introl eq_refl)). f_equal. apply IH. intros b Hb. apply H. right. exact Hb.
Qed.

(** X7: inputs whose client ids match no player of the state change nothing:
    [applyInputsShallow] gives the state that it gives for the empty input
    map. *)
Theorem X7_applyInputsShallow_ignores_absent_clients (state : State.t)
    (inputs : Obj.t Input.t) (dt : Q) :
  (forall clientId input e, In (clientId, input) inputs ->
     In e (State.entities state) -> isPlayerWithId clientId e = false) ->
  applyInputsShallow state inputs dt = applyInputsShallow state [] dt.
Proof.
  intros H. unfold applyInputsShallow, cloneState. cbn [State.entities State.tick State.rng State.lastChecksum fold_left].
  f_equal. f_equal. rewrite map_id.
  induction inputs as [| [cid inp] rest IH]; cbn [fold_left]; [reflexivity |].
  rewrite update_first_none.
  - apply IH. intros c i e Hin He. apply (H c i e); [right; exact Hin | exact He].
  - intros a Ha. apply (H cid inp a); [left; reflexivity | exact Ha].
Qed.

(** ** Inventory: no exception, ammunition, reloading *)

Lemma indexZ_inside {A : Type} (l : list A) (i : Z) :
  0 <= i < Z.of_nat (List.length l) -> exists a, indexZ l i = Some a /\ In a l.
Proof.
  intros H. unfold indexZ. destruct (Z.ltb_spec i 0); [lia |].
  destruct (nth_error l (Z.to_nat i)) as [a |] eqn:E.
  - exists a. split; [reflexivity |]. eapply nth_error_In; eassumption.
  - apply nth_error_None in E. lia.
Qed.

Lemma indexZ_some {A : Type} (l : list A) (i : Z) (a : A) :
  indexZ l i = Some a -> 0 <= i < Z.of_nat (List.length l) /\ In a l.
Proof.
  unfold indexZ. destruct (Z.ltb_spec i 0); [discriminate |]. intros E. split.
  - assert (Hlt : (Z.to_nat i < List.length l)%nat)
      by (apply nth_error_Some; congruence). lia.
  - eapply nth_error_In; eassumption.
Qed.

Lemma nth_error_set {A : Type} (l : list A) (i : nat) (v : A) :
  (i < List.length l)%nat -> nth_error (Arr.set i v l) i = Some v.
Proof.
  revert i. induction l as [| a l IH]; intros i H; cbn in H; [lia |].
  destruct i; cbn; [reflexivity | apply IH; lia].
Qed.

Lemma indexZ_set {A : Type} (l : list A) (i : Z) (v : A) :
  0 <= i < Z.of_nat (List.length l) -> indexZ (Arr.set (Z.to_nat i) v l) i = Some v.
Proof.
  intros H. unfold indexZ. destruct (Z.ltb_spec i 0); [lia |].
  apply nth_error_set. lia.
Qed.

Lemma Forall_set {A : Type} (P : A -> Prop) (l : list A) (i : nat) (v : A) :
  P v -> Forall P l -> Forall P (Arr.set i v l).
Proof.
  intros Hv H. revert i. induction H as [| a l Ha Hl IH]; intros i;
    destruct i; cbn; constructor; auto.
Qed.

Lemma wellFormed_active (inv : Inventory.t) :
  wellFormedInventory inv ->
  exists w c, getActiveWeapon inv = Some w /\ getWeaponConfig (weaponId w) = Some c.
Proof.
  intros [Hs Hw]. destruct (indexZ_inside _ _ Hs) as (w & E & Hin).
  rewrite Forall_forall in Hw. destruct (Hw w Hin) as [c Hc].
  exists w, c. split; assumption.
Qed.

(** Replacing the active weapon by one with the same id. *)
Lemma wellFormed_setActive (inv : Inventory.t) (w v : WeaponState) (r : Obj.t Z) :
  wellFormedInventory inv -> getActiveWeapon inv = Some w -> weaponId v = weaponId w ->
  wellFormedInventory
    {| Inventory.weapons := setActiveWeapon v inv;
       Inventory.activeWeaponSlot := Inventory.activeWeaponSlot inv;
       Inventory.reserveAmmo := r |}.
Proof.
  intros [Hs Hw] E Hv. unfold wellFormedInventory, setActiveWeapon. cbn.
  rewrite set_length. split; [assumption |].
  apply Forall_set; [| assumption].
  rewrite Hv. apply indexZ_some in E. rewrite Forall_forall in Hw. apply Hw, E.
Qed.

Lemma getActive_setActive (inv : Inventory.t) (w v : WeaponState) (r : Obj.t Z) :
  getActiveWeapon inv = Some w ->
  getActiveWeapon
    {| Inventory.weapons := setActiveWeapon v inv;
       Inventory.activeWeaponSlot := Inventory.activeWeaponSlot inv;
       Inventory.reserveAmmo := r |} = Some v.
Proof.
  intros E. unfold getActiveWeapon, setActiveWeapon. cbn.
  apply indexZ_set. apply indexZ_some in E. apply E.
Qed.

Lemma canFireWeapon_spec (inv : Inventory.t) (w : WeaponState) (c : WeaponConfig) :
  getActiveWeapon inv = Some w -> getWeaponConfig (weaponId w) = Some c ->
  canFireWeapon inv = Some (canFire w c).
Proof.
  intros Ew Ec. unfold canFireWeapon, canFire. rewrite Ew. cbn [bind]. rewrite Ec. cbn [bind].
  destruct (isReloading w); [reflexivity |].
  destruct (ammoPerShot (stats c) =? 0); reflexivity.
Qed.

Lemma fireWeapon_total (inv : Inventory.t) :
  wellFormedInventory inv ->
  exists inv', fireWeapon inv = Some inv' /\ wellFormedInventory inv'.
Proof.
  intros H. destruct (wellFormed_active inv H) as (w & c & Ew & Ec).
  unfold fireWeapon. rewrite Ew. cbn [bind]. rewrite Ec. cbn [bind].
  rewrite (canFireWeapon_spec inv w c Ew Ec). cbn [bind].
  destruct (negb (canFire w c)).
  - exists inv. split; [reflexivity | assumption].
  - eexists. split; [reflexivity |].
    apply (wellFormed_setActive inv w); [assumption | assumption | reflexivity].
Qed.

Lemma updateReload_total (inv : Inventory.t) :
  wellFormedInventory inv ->
  exists inv', updateReload inv = Some inv' /\ wellFormedInventory inv'.
Proof.
  intros H. destruct (wellFormed_active inv H) as (w & c & Ew & Ec).
  unfold updateReload. rewrite Ew. cbn [bind].
  destruct (negb (isReloading w)).
  - exists inv. split; [reflexivity | assumption].
  - destruct (reloadTicksRemaining w - 1 <=? 0).
    + rewrite Ec. cbn [bind]. eexists. split; [reflexivity |].
      apply (wellFormed_setActive inv w); [assumption | assumption | reflexivity].
    + eexists. split; [reflexivity |].
      apply (wellFormed_setActive inv w); [assumption | assumption | reflexivity].
Qed.

Lemma startReload_total (inv : Inventory.t) :
  wellFormedInventory inv ->
  exists inv', startReload inv = Some inv' /\ wellFormedInventory inv'.
Proof.
  intros H. destruct (wellFormed_active inv H) as (w & c & Ew & Ec).
  unfold startReload. rewrite Ew. cbn [bind]. rewrite Ec. cbn [bind].
  destruct (isReloading w || (currentAmmo w =? magazineSize (stats c))).
  - exists inv. split; [reflexivity | assumption].
  - destruct (Js.orElseZ (Obj.get (weaponId w) (Inventory.reserveAmmo inv)) 0 <=? 0).
    + exists inv. split; [reflexivity | assumption].
    + eexists. split; [reflexivity |].
      apply (wellFormed_setActive inv w); [assumption | assumption | reflexivity].
Qed.

Lemma switchWeapon_wellFormed (inv : Inventory.t) (slot : Z) :
  wellFormedInventory inv -> wellFormedInventory (switchWeapon inv slot).
Proof.
  intros H. unfold switchWeapon.
  destruct (Z.ltb_spec slot 0); cbn [orb]; [assumption |].
  destruct (Z.geb_spec slot (Z.of_nat (List.length (Inventory.weapons inv))));
    [assumption |].
  destruct H as [_ Hw]. split; cbn; [lia | assumption].
Qed.

Lemma addWeapon_wellFormed (inv : Inventory.t) (id : string) :
  wellFormedInventory inv -> wellFormedInventory (addWeapon inv id).
Proof.
  intros H. unfold addWeapon.
  destruct (Obj.get id WEAPON_CONFIGS) as [c |] eqn:Ec; [| assumption].
  destruct (Arr.find _ _); [assumption |].
  destruct H as [Hs Hw]. split; cbn.
  - rewrite length_app. cbn. lia.
  - apply Forall_app. split; [assumption |]. constructor; [| constructor].
    exists c. exact Ec.
Qed.

(** X8: on an inventory whose active slot is inside the weapon array and
    whose weapons all have a configuration, [canFireWeapon], [fireWeapon],
    [startReload] and [updateReload] do not throw, and these, [switchWeapon]
    (to any slot), [addAmmo] and [addWeapon] give such an inventory again;
    for [addWeapon] the id is any string that does not name a member of
    [Object.prototype]. *)
Theorem X8_inventory_operations_never_throw (inv : Inventory.t) :
  wellFormedInventory inv ->
  (exists b, canFireWeapon inv = Some b)
  /\ (exists inv', fireWeapon inv = Some inv' /\ wellFormedInventory inv')
  /\ (exists inv', startReload inv = Some inv' /\ wellFormedInventory inv')
  /\ (exists inv', updateReload inv = Some inv' /\ wellFormedInventory inv')
  /\ (forall slot, wellFormedInventory (switchWeapon inv slot))
  /\ (forall id amount, wellFormedInventory (addAmmo inv id amount))
  /\ (forall id, Obj.inherited id = false -> wellFormedInventory (addWeapon inv id)).
Proof.
  intros H.
  split; [| split; [| split; [| split; [| split; [| split]]]]].
  - destruct (wellFormed_active inv H) as (w & c & Ew & Ec).
    exists (canFire w c). apply canFireWeapon_spec; assumption.
  - apply fireWeapon_total, H.
  - apply startReload_total, H.
  - apply updateReload_total, H.
  - intros slot. apply switchWeapon_wellFormed, H.
  - intros id amount. exact H.
  - intros id _. apply addWeapon_wellFormed, H.
Qed.

Lemma Obj_get_set_same {A : Type} (k : string) (v : A) (o : Obj.t A) :
  Obj.get k (Obj.set k v o) = Some v.
Proof.
  induction o as [| [k' v'] r IH]; cbn.
  - rewrite String.eqb_refl. reflexivity.
  - destruct (String.eqb k k') eqn:E; cbn.
    + rewrite String.eqb_refl. reflexivity.
    + rewrite E. exact IH.
Qed.

Lemma Obj_get_set_other {A : Type} (k k' : string) (v : A) (o : Obj.t A) :
  k <> k' -> Obj.get k (Obj.set k' v o) = Obj.get k o.
Proof.
  intros Hne. apply String.eqb_neq in Hne.
  induction o as [| [k0 v0] r IH]; cbn.
  - rewrite Hne. reflexivity.
  - destruct (String.eqb k' k0) eqn:E; cbn.
    + apply String.eqb_eq in E. subst k0. rewrite Hne. reflexivity.
    + destruct (String.eqb k k0); [reflexivity | exact IH].
Qed.

Lemma orElseZ_some (z : Z) : Js.orElseZ (Some z) 0 = z.
Proof. unfold Js.orElseZ. destruct (Z.eqb_spec z 0); congruence. Qed.

(** X9: [updateReload] moves rounds from the reserve to the magazine of the
    active weapon without making or losing any: the magazine plus the
    reserve of that weapon is the same before and after; when the magazine
    was not above its size and the reserve not negative, the magazine does
    not shrink, stays within its size, and the reserve stays non-negative.
    *)
Theorem X9_updateReload_conserves_ammo (inv : Inventory.t) (w : WeaponState)
    (c : WeaponConfig) :
  getActiveWeapon inv = Some w ->
  getWeaponConfig (weaponId w) = Some c ->
  exists inv' w',
    updateReload inv = Some inv'
    /\ getActiveWeapon inv' = Some w'
    /\ weaponId w' = weaponId w
    /\ currentAmmo w' + reserveOf inv' (weaponId w)
       = currentAmmo w + reserveOf inv (weaponId w)
    /\ (currentAmmo w <= magazineSize (stats c) -> 0 <= reserveOf inv (weaponId w) ->
        currentAmmo w <= currentAmmo w' <= magazineSize (stats c)
        /\ 0 <= reserveOf inv' (weaponId w)).
Proof.
  intros Ew Ec. unfold updateReload. rewrite Ew. cbn [bind].
  destruct (negb (isReloading w)).
  - exists inv, w. repeat split; try assumption; try reflexivity; lia.
  - destruct (reloadTicksRemaining w - 1 <=? 0).
    + rewrite Ec. cbn [bind]. eexists. eexists.
      split; [reflexivity |]. split; [apply (getActive_setActive inv w); assumption |].
      cbn [weaponId currentAmmo]. fold (reserveOf inv (weaponId w)).
      set (res := reserveOf inv (weaponId w)).
      unfold reserveOf. cbn [Inventory.reserveAmmo].
      rewrite !Obj_get_set_same, !orElseZ_some.
      repeat split; lia.
    + eexists. eexists.
      split; [reflexivity |]. split; [apply (getActive_setActive inv w); assumption |].
      cbn [weaponId currentAmmo]. unfold reserveOf. cbn [Inventory.reserveAmmo].
      repeat split; lia.
Qed.

Lemma set_set {A : Type} (l : list A) (i : nat) (u v : A) :
  Arr.set i v (Arr.set i u l) = Arr.set i v l.
Proof.
  revert i. induction l as [| a l IH]; intros i; destruct i; cbn; try reflexivity.
  f_equal. apply IH.
Qed.

Lemma whileReloading_active (inv : Inventory.t) (w : WeaponState) (r : Z) :
  getActiveWeapon inv = Some w ->
  getActiveWeapon (whileReloading inv w r)
  = Some {| weaponId := weaponId w; currentAmmo := currentAmmo w;
            isReloading := true; reloadTicksRemaining := r |}.
Proof. intros E. apply (getActive_setActive inv w), E. Qed.

Lemma updateReload_whileReloading (inv : Inventory.t) (w : WeaponState) (r : Z) :
  getActiveWeapon inv = Some w -> 1 < r ->
  updateReload (whileReloading inv w r) = Some (whileReloading inv w (r - 1)).
Proof.
  intros E Hr. unfold updateReload. rewrite (whileReloading_active inv w r E).
  cbn [bind isReloading negb reloadTicksRemaining].
  destruct (Z.leb_spec (r - 1) 0); [lia |].
  unfold whileReloading, setActiveWeapon. cbn. rewrite set_set. reflexivity.
Qed.

Lemma updateReloadTimes_whileReloading (k : nat) (inv : Inventory.t) (w : WeaponState)
    (r : Z) :
  getActiveWeapon inv = Some w -> Z.of_nat k < r ->
  updateReloadTimes k (whileReloading inv w r)
  = Some (whileReloading inv w (r - Z.of_nat k)).
Proof.
  intros E. revert r. induction k as [| k IH]; intros r Hr.
  - cbn. f_equal. f_equal. lia.
  - cbn [updateReloadTimes]. rewrite updateReload_whileReloading by (assumption || lia).
    cbn [bind]. rewrite IH by lia. f_equal. f_equal. lia.
Qed.

Lemma updateReloadTimes_snoc (k : nat) (inv : Inventory.t) :
  updateReloadTimes (S k) inv = (inv' <- updateReloadTimes k inv ;; updateReload inv').
Proof.
  revert inv. induction k as [| k IH]; intros inv.
  - cbn [updateReloadTimes bind]. destruct (updateReload inv); reflexivity.
  - specialize (IH).
    cbn [updateReloadTimes]. destruct (updateReload inv) as [inv1 |]; cbn [bind];
      [| reflexivity].
    specialize (IH inv1). cbn [updateReloadTimes] in IH. exact IH.
Qed.

(** X10: a reload started by [startReload] on an active weapon that is not
    reloading, not full and has rounds in reserve, with a reload time of [n
    + 1] ticks, ends with call [n + 1] of [updateReload]: up to call [n] the
    weapon is reloading, holds the rounds it had, and [canFireWeapon] is
    false; after call [n + 1] it is no longer reloading and holds
    min(magazineSize - currentAmmo, reserve) more rounds. *)
Theorem X10_reload_takes_reloadTime_ticks (inv : Inventory.t) (w : WeaponState)
    (c : WeaponConfig) (n : nat) :
  getActiveWeapon inv = Some w ->
  getWeaponConfig (weaponId w) = Some c ->
  isReloading w = false ->
  currentAmmo w <> magazineSize (stats c) ->
  0 < reserveOf inv (weaponId w) ->
  reloadTime (stats c) = Z.of_nat (S n) ->
  exists started,
    startReload inv = Some started
    /\ (forall k, (k <= n)%nat ->
          exists during wk,
            updateReloadTimes k started = Some during
            /\ getActiveWeapon during = Some wk
            /\ isReloading wk = true
            /\ currentAmmo wk = currentAmmo w
            /\ canFireWeapon during = Some false)
    /\ exists finished w',
         updateReloadTimes (S n) started = Some finished
         /\ getActiveWeapon finished = Some w'
         /\ isReloading w' = false
         /\ currentAmmo w'
            = currentAmmo w
              + Z.min (magazineSize (stats c) - currentAmmo w) (reserveOf inv (weaponId w)).
Proof.
  intros Ew Ec Hr Hfull Hres Ht.
  exists (whileReloading inv w (Z.of_nat (S n))). split; [| split].
  - unfold startReload. rewrite Ew. cbn [bind]. rewrite Ec. cbn [bind]. rewrite Hr.
    destruct (Z.eqb_spec (currentAmmo w) (magazineSize (stats c))); [contradiction |].
    cbn [orb]. fold (reserveOf inv (weaponId w)).
    destruct (Z.leb_spec (reserveOf inv (weaponId w)) 0); [lia |].
    rewrite Ht. reflexivity.
  - intros k Hk. eexists. eexists.
    split; [apply updateReloadTimes_whileReloading; [assumption | lia] |].
    split; [apply whileReloading_active; assumption |].
    split; [reflexivity |]. split; [reflexivity |].
    unfold canFireWeapon. rewrite (whileReloading_active inv w _ Ew).
    cbn [bind weaponId]. rewrite Ec. reflexivity.
  - rewrite updateReloadTimes_snoc.
    rewrite updateReloadTimes_whileReloading by (assumption || lia). cbn [bind].
    unfold updateReload. rewrite (whileReloading_active inv w _ Ew).
    cbn [bind isReloading negb reloadTicksRemaining weaponId currentAmmo].
    destruct (Z.leb_spec (Z.of_nat (S n) - Z.of_nat n - 1) 0); [| lia].
    rewrite Ec. cbn [bind]. eexists. eexists.
    split; [reflexivity |].
    split; [apply (getActive_setActive (whileReloading inv w _)
                     {| weaponId := weaponId w; currentAmmo := currentAmmo w;
                        isReloading := true;
                        reloadTicksRemaining := Z.of_nat (S n) - Z.of_nat n |});
            apply whileReloading_active; assumption |].
    split; reflexivity.
Qed.

Lemma find_none {A : Type} (p : A -> bool) (l : list A) :
  Arr.find p l = None <-> forall a, In a l -> p a = false.
Proof.
  induction l as [| a l IH]; cbn.
  - split; [intros _ b [] | reflexivity].
  - destruct (p a) eqn:E.
    + split; [discriminate |]. intros H. rewrite (H a (or_introl eq_refl)) in E. discriminate.
    + rewrite IH. split.
      * intros H b [<- | Hb]; [exact E | apply H, Hb].
      * intros H b Hb. apply H. right. exact Hb.
Qed.

Lemma find_some {A : Type} (p : A -> bool) (l : list A) (a : A) :
  Arr.find p l = Some a -> In a l /\ p a = true.
Proof.
  induction l as [| b l IH]; cbn; [discriminate |].
  destruct (p b) eqn:E.
  - intros [= <-]. split; [left; reflexivity | exact E].
  - intros H. destruct (IH H). split; [right |]; assumption.
Qed.

(** X11: for a known weapon id, [addWeapon] gives an inventory that holds
    the weapon; adding it a second time changes nothing; distinct weapon ids
    stay distinct; an inventory that already holds the weapon is returned as
    it is; otherwise the weapon is appended with a full magazine and two
    magazines are added to its reserve. *)
Theorem X11_addWeapon_adds_once (inv : Inventory.t) (id : string) (c : WeaponConfig) :
  getWeaponConfig id = Some c ->
  In id (map weaponId (Inventory.weapons (addWeapon inv id)))
  /\ addWeapon (addWeapon inv id) id = addWeapon inv id
  /\ (NoDup (map weaponId (Inventory.weapons inv)) ->
      NoDup (map weaponId (Inventory.weapons (addWeapon inv id))))
  /\ (In id (map weaponId (Inventory.weapons inv)) -> addWeapon inv id = inv)
  /\ (~ In id (map weaponId (Inventory.weapons inv)) ->
      Inventory.weapons (addWeapon inv id)
      = Inventory.weapons inv
        ++ [ {| weaponId := id; currentAmmo := magazineSize (stats c);
                isReloading := false; reloadTicksRemaining := 0 |} ]
      /\ reserveOf (addWeapon inv id) id = reserveOf inv id + magazineSize (stats c) * 2).
Proof.
  intros Ec. unfold getWeaponConfig in Ec.
  assert (Had : forall i, In id (map weaponId (Inventory.weapons i)) -> addWeapon i id = i).
  { intros i Hin. unfold addWeapon. rewrite Ec.
    destruct (Arr.find _ _) eqn:Ef; [reflexivity |].
    exfalso. rewrite find_none in Ef. apply in_map_iff in Hin.
    destruct Hin as (w & Hw & Hin). specialize (Ef w Hin). cbn in Ef.
    rewrite Hw, String.eqb_refl in Ef. discriminate. }
  assert (Hnew : ~ In id (map weaponId (Inventory.weapons inv)) ->
                 addWeapon inv id
                 = {| Inventory.weapons :=
                        Inventory.weapons inv
                        ++ [ {| weaponId := id; currentAmmo := magazineSize (stats c);
                                isReloading := false; reloadTicksRemaining := 0 |} ];
                      Inventory.activeWeaponSlot := Inventory.activeWeaponSlot inv;
                      Inventory.reserveAmmo :=
                        Obj.set id
                          (Js.orElseZ (Obj.get id (Inventory.reserveAmmo inv)) 0
                           + magazineSize (stats c) * 2)
                          (Inventory.reserveAmmo inv) |}).
  { intros Hn. unfold addWeapon. rewrite Ec.
    destruct (Arr.find _ _) as [w |] eqn:Ef; [| reflexivity].
    exfalso. apply find_some in Ef. destruct Ef as [Hin Hp]. apply Hn.
    apply in_map_iff. exists w. split; [| exact Hin].
    apply String.eqb_eq. exact Hp. }
  assert (Hdec : In id (map weaponId (Inventory.weapons inv))
                 \/ ~ In id (map weaponId (Inventory.weapons inv))).
  { destruct (in_dec string_dec id (map weaponId (Inventory.weapons inv))); tauto. }
  assert (Hin : In id (map weaponId (Inventory.weapons (addWeapon inv id)))).
  { destruct Hdec as [Hy | Hn].
    - rewrite (Had inv Hy). exact Hy.
    - rewrite (Hnew Hn). cbn [Inventory.weapons]. rewrite map_app. apply in_or_app.
      right. left. reflexivity. }
  split; [exact Hin |]. split; [apply Had, Hin |]. split; [| split].
  - intros Hnd. destruct Hdec as [Hy | Hn].
    + rewrite (Had inv Hy). exact Hnd.
    + rewrite (Hnew Hn). cbn [Inventory.weapons]. rewrite map_app. cbn [map weaponId].
      apply NoDup_snoc; assumption.
  - apply Had.
  - intros Hn. rewrite (Hnew Hn). cbn [Inventory.weapons]. split; [reflexivity |].
    unfold reserveOf. cbn [Inventory.reserveAmmo].
    rewrite Obj_get_set_same, orElseZ_some. reflexivity.
Qed.

Section ShotFacts.

Context {host : Host}.

Lemma fire_success (w : WeaponState) (c : WeaponConfig) (ownerId : string)
    (position aimDirection : Q * Q) (prng : PRNG.t) :
  success (fst (fire w c ownerId position aimDirection prng)) = canFire w c
  /\ ammoConsumed (fst (fire w c ownerId position aimDirection prng))
     = (if canFire w c then ammoPerShot (stats c) else 0).
Proof.
  unfold fire. destruct (canFire w c); cbn [negb].
  - destruct (WeaponType_eqb (wc_type c) Shotgun).
    + destruct (firePellets _ _ _ _ _ _ _). split; reflexivity.
    + destruct (fireOne _ _ _ _ _ _). split; reflexivity.
  - split; reflexivity.
Qed.

(** X12: when [canFireWeapon] allows the shot, [fire] on the active weapon
    succeeds and [fireWeapon] takes from the magazine exactly the
    [ammoConsumed] that [fire] reports; a magazine that was not negative
    stays so, the weapon is not reloading and the reserve is untouched. *)
Theorem X12_shot_consumes_reported_ammo (inv : Inventory.t) (w : WeaponState)
    (c : WeaponConfig) (ownerId : string) (position aimDirection : Q * Q)
    (prng : PRNG.t) :
  getActiveWeapon inv = Some w ->
  getWeaponConfig (weaponId w) = Some c ->
  canFireWeapon inv = Some true ->
  let fireResult := fst (fire w c ownerId position aimDirection prng) in
  success fireResult = true
  /\ exists inv' w',
       fireWeapon inv = Some inv'
       /\ getActiveWeapon inv' = Some w'
       /\ currentAmmo w' = currentAmmo w - ammoConsumed fireResult
       /\ (0 <= currentAmmo w -> 0 <= currentAmmo w')
       /\ isReloading w' = false
       /\ Inventory.reserveAmmo inv' = Inventory.reserveAmmo inv.
Proof.
  intros Ew Ec Hcan. cbv zeta.
  pose proof (canFireWeapon_spec inv w c Ew Ec) as Hspec.
  rewrite Hcan in Hspec. injection Hspec as Hc. symmetry in Hc.
  destruct (fire_success w c ownerId position aimDirection prng) as [Hs Ha].
  rewrite Hs, Ha, Hc. split; [reflexivity |].
  unfold fireWeapon. rewrite Ew. cbn [bind]. rewrite Ec. cbn [bind].
  rewrite Hcan. cbn [bind negb].
  eexists. eexists. split; [reflexivity |].
  split; [apply (getActive_setActive inv w); assumption |].
  cbn [currentAmmo isReloading Inventory.reserveAmmo].
  unfold canFire in Hc. destruct (isReloading w) eqn:Er; [discriminate |].
  repeat split; try reflexivity.
  intros H0. destruct (Z.eqb_spec (ammoPerShot (stats c)) 0); [lia |].
  apply Z.geb_le in Hc. lia.
Qed.

End ShotFacts.

(** ** Shots and projectiles *)

Lemma snd_nextFloat (p : PRNG.t) : snd (PRNG.nextFloat p) = snd (PRNG.next p).
Proof. unfold PRNG.nextFloat. destruct (PRNG.next p). reflexivity. Qed.

Lemma snd_nextInt (a b : Z) (p : PRNG.t) : snd (PRNG.nextInt a b p) = snd (PRNG.next p).
Proof.
  unfold PRNG.nextInt. rewrite <- snd_nextFloat. destruct (PRNG.nextFloat p). reflexivity.
Qed.

Lemma afterDraws_add (a b : nat) (p : PRNG.t) :
  afterDraws (a + b) p = afterDraws b (afterDraws a p).
Proof.
  unfold afterDraws. rewrite Nat.add_comm. apply Nat.iter_add.
Qed.

Section FireCount.

Context {host : Host}.

Lemma fireOne_draws (c : WeaponConfig) (ownerId : string) (position aim : Q * Q)
    (shotgun : bool) (prng : PRNG.t) :
  snd (fireOne c ownerId position aim shotgun prng) = afterDraws 2 prng
  /\ firedBy c ownerId position (fst (fireOne c ownerId position aim shotgun prng)).
Proof.
  unfold fireOne.
  pose proof (snd_nextFloat prng) as H1.
  destruct (PRNG.nextFloat prng) as [f p1]. cbn [snd] in H1.
  pose proof (snd_nextInt 0 1000000 p1) as H2.
  destruct (PRNG.nextInt 0 1000000 p1) as [n p2]. cbn [snd fst] in *.
  split.
  - rewrite H2, H1. reflexivity.
  - unfold firedBy. cbn. repeat split; reflexivity.
Qed.

Lemma firePellets_draws (n : nat) (c : WeaponConfig) (ownerId : string)
    (position aim : Q * Q) (acc : list ProjectileData.t) (prng : PRNG.t) :
  Forall (firedBy c ownerId position) acc ->
  let r := firePellets n c ownerId position aim acc prng in
  List.length (fst r) = (List.length acc + n)%nat
  /\ snd r = afterDraws (2 * n) prng
  /\ Forall (firedBy c ownerId position) (fst r).
Proof.
  revert acc prng. induction n as [| n IH]; intros acc prng Hacc; cbn [firePellets].
  - cbv zeta. cbn [fst snd]. split; [lia | split; [reflexivity | assumption]].
  - destruct (fireOne_draws c ownerId position aim true prng) as [Hd Hf].
    destruct (fireOne c ownerId position aim true prng) as [p prng1]. cbn [fst snd] in *.
    specialize (IH (acc ++ [p]) prng1).
    cbv zeta in *. destruct IH as (Hl & Hs & Hall).
    { apply Forall_app. split; [assumption | constructor; [assumption | constructor]]. }
    split; [| split; [| assumption]].
    + rewrite Hl, length_app. cbn [List.length]. lia.
    + rewrite Hs, Hd, <- afterDraws_add. f_equal. lia.
Qed.

(** X13: [fire] returns as many projectiles as the pellet count for a
    shotgun, one for any other weapon and none when [canFire] refuses; it
    draws exactly two numbers from the PRNG for each projectile; and every
    projectile carries the owner, the weapon id, the position, and the
    damage, speed and range of the weapon, with a pellet count of 1. *)
Theorem X13_fire_projectiles_and_draws (w : WeaponState) (c : WeaponConfig)
    (ownerId : string) (position aimDirection : Q * Q) (prng : PRNG.t) :
  let r := fire w c ownerId position aimDirection prng in
  List.length (projectiles (fst r))
  = (if canFire w c
     then if WeaponType_eqb (wc_type c) Shotgun
          then Z.to_nat (pellets (stats c)) else 1%nat
     else 0%nat)
  /\ snd r = afterDraws (2 * List.length (projectiles (fst r))) prng
  /\ Forall (firedBy c ownerId position) (projectiles (fst r)).
Proof.
  unfold fire. destruct (canFire w c); cbn [negb].
  - destruct (WeaponType_eqb (wc_type c) Shotgun).
    + destruct (firePellets_draws (Z.to_nat (pellets (stats c))) c ownerId position
                  aimDirection [] prng (Forall_nil _)) as (Hl & Hs & Hall).
      destruct (firePellets _ _ _ _ _ _ _) as [ps prng']. cbn [fst snd projectiles] in *.
      rewrite Hl. split; [reflexivity | split; assumption].
    + destruct (fireOne_draws c ownerId position aimDirection false prng) as [Hd Hf].
      destruct (fireOne _ _ _ _ _ _) as [p prng']. cbn [fst snd projectiles List.length] in *.
      split; [reflexivity | split; [assumption | constructor; [assumption | constructor]]].
  - cbn. split; [reflexivity | split; [reflexivity | constructor]].
Qed.

End FireCount.

(** ** Projectiles *)

Lemma detectHitscanLoop_hit (projectile : Projectile.t) (entities : list Entity.t)
    (closest : option HitResult) (d : Ext.t) (h : HitResult) :
  detectHitscanLoop projectile entities closest d = Some h ->
  closest = Some h
  \/ (hit h = true
      /\ exists e, In e entities /\ entityId h = Some (Entity.id e)
                   /\ Entity.id e <> Projectile.ownerId projectile).
Proof.
  revert closest d. induction entities as [| e rest IH]; intros closest d H;
    cbn [detectHitscanLoop] in H.
  - left. exact H.
  - assert (Hrest : forall cl dd,
               detectHitscanLoop projectile rest cl dd = Some h ->
               cl = Some h
               \/ (hit h = true
                   /\ exists e0, In e0 (e :: rest) /\ entityId h = Some (Entity.id e0)
                                 /\ Entity.id e0 <> Projectile.ownerId projectile)).
    { intros cl dd Hd. destruct (IH cl dd Hd) as [? | (Hh & e0 & Hin & Hid & Hne)];
        [left; assumption | right]. split; [assumption |].
      exists e0. split; [right |]; tauto. }
    destruct (String.eqb (Entity.id e) (Projectile.ownerId projectile)) eqn:Eo;
      [apply Hrest in H; exact H |].
    apply String.eqb_neq in Eo.
    set (hr := raycastVsEntity (Projectile.position projectile)
                 (Projectile.direction projectile) e (Projectile.range projectile)) in *.
    destruct (distance hr) as [dd |] eqn:Ed; [| apply Hrest in H; exact H].
    destruct (hit hr && Ext.ltb dd d) eqn:Eh; [| apply Hrest in H; exact H].
    apply Hrest in H. destruct H as [H | H]; [| right; exact H].
    injection H as <-. right. apply andb_prop in Eh. split; [apply Eh |].
    exists e. split; [left; reflexivity |]. split; [| exact Eo].
    unfold hr, raycastVsEntity in *.
    destruct (_ || _ || _); cbn in *; [discriminate | reflexivity].
Qed.

Lemma detectProjectileHit_hit (projectile : Projectile.t) (entities : list Entity.t)
    (prng prng' : PRNG.t) (h : HitResult) :
  detectProjectileHit projectile entities prng = (Some h, prng') ->
  hit h = true
  /\ exists e, In e entities /\ entityId h = Some (Entity.id e)
               /\ Entity.id e <> Projectile.ownerId projectile.
Proof.
  induction entities as [| e rest IH]; cbn [detectProjectileHit]; [discriminate |].
  destruct (String.eqb (Entity.id e) (Projectile.ownerId projectile)) eqn:Eo.
  - intros H. destruct (IH H) as (Hh & e0 & Hin & Hid & Hne). split; [assumption |].
    exists e0. split; [right |]; tauto.
  - apply String.eqb_neq in Eo.
    destruct (AABB.intersects _ _).
    + destruct (calculateDamage projectile e prng) as [dmg p1].
      intros [= <- <-]. split; [reflexivity |].
      exists e. split; [left; reflexivity |]. split; [reflexivity | exact Eo].
    + intros H. destruct (IH H) as (Hh & e0 & Hin & Hid & Hne). split; [assumption |].
      exists e0. split; [right |]; tauto.
Qed.

Section ProjectileFacts.

Context {host : Host}.

(** X14: a hit that [simulateProjectile] reports is flagged as a hit and
    names an entity of the array whose id is not the owner id of the
    projectile. *)
Theorem X14_projectile_never_hits_its_owner (projectile : Projectile.t)
    (entities : list Entity.t) (dt : Q) (prng prng' : PRNG.t)
    (projectile' : Projectile.t) (h : HitResult) :
  simulateProjectile projectile entities dt prng = ((projectile', Some h), prng') ->
  hit h = true
  /\ exists e, In e entities /\ entityId h = Some (Entity.id e)
               /\ Entity.id e <> Projectile.ownerId projectile.
Proof.
  unfold simulateProjectile. destruct (Projectile.isHitscan projectile).
  - unfold simulateHitscan, detectHitscanHit. intros [= _ H _].
    apply detectHitscanLoop_hit in H. destruct H as [H | H]; [discriminate | exact H].
  - unfold simulateProjectileMovement.
    destruct (detectProjectileHit _ entities prng) as [o p1] eqn:E.
    intros [= _ -> ->]. apply detectProjectileHit_hit in E.
    destruct E as (Hh & e & Hin & Hid & Hne). split; [assumption |].
    exists e. repeat split; assumption.
Qed.

Lemma simulateProjectile_flown (p : Projectile.t) (entities : list Entity.t) (dt : Q)
    (prng : PRNG.t) :
  fst (fst (simulateProjectile p entities dt prng)) = flown dt p.
Proof.
  unfold flown, simulateProjectile. destruct (Projectile.isHitscan p).
  - reflexivity.
  - unfold simulateProjectileMovement.
    destruct (detectProjectileHit _ entities prng).
    destruct (detectProjectileHit _ [] (PRNG.new 0)). reflexivity.
Qed.

Lemma flown_lifetime (dt : Q) (p : Projectile.t) :
  Projectile.isHitscan (flown dt p) = Projectile.isHitscan p
  /\ Projectile.ownerId (flown dt p) = Projectile.ownerId p
  /\ Projectile.lifetime (flown dt p)
     = (if Projectile.isHitscan p then 0 else Projectile.lifetime p - 1).
Proof.
  unfold flown, simulateProjectile. destruct (Projectile.isHitscan p) eqn:E.
  - cbn. rewrite E. repeat split.
  - cbn. rewrite E. repeat split.
Qed.

Lemma simulateLoop_survivors (projectiles : list Projectile.t) (entities : list Entity.t)
    (dt : Q) (results : ProjectileSimulationResult) (prng : PRNG.t) :
  let r := fst (simulateLoop projectiles entities dt results prng) in
  sim_projectiles r
  = sim_projectiles results ++ filter isLive (map (flown dt) (filter isLive projectiles))
  /\ (List.length (sim_hits r)
      <= List.length (sim_hits results) + List.length (filter isLive projectiles))%nat.
Proof.
  revert results prng. induction projectiles as [| p rest IH]; intros results prng;
    cbn [simulateLoop filter map].
  - cbv zeta. cbn [fst]. rewrite app_nil_r. split; [reflexivity | lia].
  - destruct (isLive p) eqn:El; cbn [negb].
    + pose proof (simulateProjectile_flown p entities dt prng) as Hf.
      destruct (simulateProjectile p entities dt prng) as [[p' hr] prng1].
      cbn [fst] in Hf. subst p'. cbn [map filter].
      match goal with
      | |- context [simulateLoop rest entities dt ?res prng1] =>
          specialize (IH res prng1)
      end.
      cbv zeta in *. destruct IH as [IH1 IH2]. rewrite IH1. cbn [sim_projectiles sim_hits] in *.
      split.
      * destruct (isLive (flown dt p)); [rewrite <- app_assoc |]; reflexivity.
      * cbn [List.length]. destruct hr; [rewrite length_app in IH2; cbn in IH2 |]; lia.
    + apply IH.
Qed.

Lemma simulateProjectiles_list (projectiles : list Projectile.t)
    (entities : list Entity.t) (dt : Q) (prng : PRNG.t) :
  sim_projectiles (fst (simulateProjectiles projectiles entities dt prng))
  = filter isLive (map (flown dt) (filter isLive projectiles))
  /\ (List.length (sim_hits (fst (simulateProjectiles projectiles entities dt prng)))
      <= List.length (filter isLive projectiles))%nat.
Proof.
  unfold simulateProjectiles.
  destruct (simulateLoop_survivors projectiles entities dt
              {| sim_projectiles := []; sim_hits := [] |} prng) as [Hs Hh].
  cbv zeta in Hs, Hh. cbn [sim_projectiles sim_hits app List.length] in Hs, Hh.
  split; [exact Hs | exact Hh].
Qed.

Lemma flown_survivors (dt : Q) (projectiles : list Projectile.t) :
  Forall (fun p => isLive p = true /\ Projectile.isHitscan p = false)
    (filter isLive (map (flown dt) (filter isLive projectiles)))
  /\ (forall n, Forall (fun p => Projectile.lifetime p <= n) projectiles ->
                Forall (fun p => Projectile.lifetime p <= n - 1)
                  (filter isLive (map (flown dt) (filter isLive projectiles)))).
Proof.
  split.
  - apply Forall_forall. intros q Hq. apply filter_In in Hq. destruct Hq as [Hq Hl].
    split; [exact Hl |]. apply in_map_iff in Hq. destruct Hq as (p & <- & _).
    destruct (flown_lifetime dt p) as (Hh1 & _ & Hl1).
    rewrite Hh1. destruct (Projectile.isHitscan p); [| reflexivity].
    unfold isLive in Hl. rewrite Hl1 in Hl. cbn in Hl. discriminate.
  - intros n Hn. apply Forall_forall. intros q Hq. apply filter_In in Hq.
    destruct Hq as [Hq Hl]. apply in_map_iff in Hq. destruct Hq as (p & <- & Hp).
    apply filter_In in Hp. destruct Hp as [Hp _].
    rewrite Forall_forall in Hn. specialize (Hn p Hp).
    destruct (flown_lifetime dt p) as (_ & _ & Hl1). rewrite Hl1.
    destruct (Projectile.isHitscan p) eqn:Eh; [| lia].
    unfold isLive in Hl. rewrite Hl1 in Hl. cbn in Hl. discriminate.
Qed.

(** X15: the projectiles that [simulateProjectiles] keeps depend neither on
    the entities nor on the PRNG: they are the live ones (lifetime above 0,
    distance below the range) moved by one step that are live after it, so a
    projectile that hits is not removed. None of them is hitscan, there is
    at most one hit for every live projectile of the input, and lifetimes of
    at most [n] become lifetimes of at most [n - 1]. *)
Theorem X15_simulateProjectiles_survivors (projectiles : list Projectile.t)
    (entities : list Entity.t) (dt : Q) (prng : PRNG.t) :
  let r := fst (simulateProjectiles projectiles entities dt prng) in
  sim_projectiles r = filter isLive (map (flown dt) (filter isLive projectiles))
  /\ Forall (fun p => isLive p = true /\ Projectile.isHitscan p = false) (sim_projectiles r)
  /\ (List.length (sim_hits r) <= List.length (filter isLive projectiles))%nat
  /\ (forall n, Forall (fun p => Projectile.lifetime p <= n) projectiles ->
                Forall (fun p => Projectile.lifetime p <= n - 1) (sim_projectiles r)).
Proof.
  cbv zeta. destruct (simulateProjectiles_list projectiles entities dt prng) as [Hs Hh].
  destruct (flown_survivors dt projectiles) as [Hl Hn].
  rewrite Hs. split; [reflexivity |]. split; [exact Hl |]. split; [exact Hh | exact Hn].
Qed.

End ProjectileFacts.

(** ** Gravity and stance *)

Lemma landingOn_top (selfId : string) (box : AABB.t) (prevY : Q)
    (grounds : list Entity.t) (top : Q) :
  landingOn selfId box prevY grounds = Some top ->
  exists g, In g grounds /\ top = Js.fl (Entity.y g + Entity.h g).
Proof.
  induction grounds as [| g rest IH]; cbn [landingOn]; [discriminate |].
  destruct (String.eqb (Entity.id g) selfId).
  - intros H. destruct (IH H) as (g0 & Hin & E). exists g0. split; [right |]; assumption.
  - destruct (_ && _).
    + intros [= <-]. exists g. split; [left |]; reflexivity.
    + intros H. destruct (IH H) as (g0 & Hin & E). exists g0. split; [right |]; assumption.
Qed.

Lemma leb_false_lt (a b : Q) : Js.leb a b = false -> (b < a)%Q.
Proof.
  unfold Js.leb. intros H. apply Qnot_le_lt. intros C.
  apply Qle_bool_iff in C. congruence.
Qed.

(** X16: [applyGravity] never leaves an airborne entity below [y = 0] when
    the ground entities have a non-negative [y + h]; when the integrated
    height, computed as the engine does with every operation giving a
    double, is at or below 0 the entity lands; a landed entity has no
    vertical velocity and a cleared jump state; an entity that does not land
    has the integrated height and velocity. *)
Theorem X16_applyGravity_stops_at_the_floor (e : Entity.t) (dt : Q)
    (groundEntities : list Entity.t) :
  Js.truthy (Entity.onGround e) = false ->
  (forall g, In g groundEntities -> (0 <= Entity.y g + Entity.h g)%Q) ->
  let e' := applyGravity e dt groundEntities in
  let vy1 := Js.fl (Entity.vy e - Js.fl (GRAVITY * dt)) in
  let y1 := Js.fl (Entity.y e + Js.fl (vy1 * dt)) in
  (0 <= Entity.y e')%Q
  /\ ((y1 <= 0)%Q -> Entity.onGround e' = Some true)
  /\ (Entity.onGround e' = Some true ->
      Entity.vy e' = 0%Q
      /\ Entity.jumpState e' = Some {| jumpStartTick := None; jumpVel := None |})
  /\ (Entity.onGround e' <> Some true ->
      Entity.y e' = y1 /\ Entity.vy e' = vy1 /\ Entity.onGround e' = Entity.onGround e).
Proof.
  intros Hair Hg. cbv zeta. unfold applyGravity. rewrite Hair.
  destruct e as [i t x y w h vx vy hp lt ow inv mat bt rot es it rt tm cr sp og js fs mm mw wa ac cm sm].
  cbn -[GRAVITY Js.leb Js.fl landingOn Qplus Qmult Qminus Qle] in *.
  set (vy1 := Js.fl (vy - Js.fl (GRAVITY * dt))).
  set (y1 := Js.fl (y + Js.fl (vy1 * dt))).
  destruct (Js.leb y1 0) eqn:Ef;
    cbn -[GRAVITY Js.leb Js.fl landingOn Qplus Qmult Qminus Qle];
    match goal with
    | |- context [landingOn ?a ?b ?c ?d] => destruct (landingOn a b c d) as [top |] eqn:El
    end;
    cbn -[GRAVITY Js.leb Js.fl landingOn Qplus Qmult Qminus Qle];
    rewrite ?Hair; cbn -[GRAVITY Js.leb Js.fl landingOn Qplus Qmult Qminus Qle];
    try (apply landingOn_top in El; destruct El as (g & Hin & ->)).
  - split; [apply fl_nonneg, Hg, Hin |]. split; [reflexivity |].
    split; [split; reflexivity |].
    intros C. contradiction C. reflexivity.
  - split; [apply Qle_refl |]. split; [reflexivity |]. split; [split; reflexivity |].
    intros C. contradiction C. reflexivity.
  - split; [apply fl_nonneg, Hg, Hin |]. split; [reflexivity |].
    split; [split; reflexivity |].
    intros C. contradiction C. reflexivity.
  - apply leb_false_lt in Ef.
    split; [apply Qlt_le_weak, Ef |]. split.
    + intros C. exfalso. apply (Qlt_irrefl 0). eapply Qlt_le_trans; eassumption.
    + split.
      * intros C. exfalso. rewrite C in Hair. discriminate.
      * intros _. repeat split.
Qed.

(** The doubles decide the landing too.  From the height 0.07 with the
    velocity -0.4 and a tick of 0.05, the reals integrate to the height 0;
    the doubles integrate to a height above 0, and the entity stays in the
    air. *)
Lemma applyGravity_misses_the_floor :
  let e := Entity.set_vy (- Js.fl (4 # 10))%Q (Entity.set_y (Js.fl (7 # 100)) faller) in
  let e' := applyGravity e (Js.fl (5 # 100)) [] in
  ((7 # 100) + (- (4 # 10) - GRAVITY * (5 # 100)) * (5 # 100) == 0)%Q
  /\ (0 < Entity.y e')%Q
  /\ Entity.onGround e' = None.
Proof. vm_compute. repeat split. Qed.


Section StanceFacts.

Context {host : Host}.

Lemma applyFriction_isSprinting (f : Q) (e : Entity.t) :
  Entity.isSprinting (applyFriction f e) = Entity.isSprinting e.
Proof. unfold applyFriction. repeat break_if; reflexivity. Qed.

Lemma applyGroundMovement_isSprinting (e : Entity.t) (input : Input.t) (dt : Q) :
  Entity.isSprinting (applyGroundMovement e input dt) = Entity.isSprinting e.
Proof.
  unfold applyGroundMovement.
  destruct (negb (Js.truthy (Entity.onGround e))); [reflexivity |].
  match goal with
  | |- context [let '(a, b) := ?c in _] => destruct c as [dx dy]
  end.
  break_if; cbn [Entity.isSprinting Entity.set_movementMomentum];
    rewrite ?applyFriction_isSprinting; reflexivity.
Qed.

Lemma applyAirMovement_isSprinting (e : Entity.t) (input : Input.t) (dt : Q) :
  Entity.isSprinting (applyAirMovement e input dt) = Entity.isSprinting e.
Proof.
  unfold applyAirMovement.
  destruct (Js.truthy (Entity.onGround e)); [reflexivity |].
  match goal with
  | |- context [let '(a, b) := ?c in _] => destruct c as [dx dy]
  end.
  reflexivity.
Qed.

Lemma applyGravity_isSprinting (e : Entity.t) (dt : Q) (grounds : list Entity.t) :
  Entity.isSprinting (applyGravity e dt grounds) = Entity.isSprinting e.
Proof.
  unfold applyGravity.
  destruct (Js.truthy (Entity.onGround e)); [reflexivity |].
  break_if;
    match goal with
    | |- context [landingOn ?a ?b ?c ?d] => destruct (landingOn a b c d)
    end; cbn; repeat break_if; reflexivity.
Qed.

Lemma jump_isSprinting (e : Entity.t) (input : Input.t) (worldTick : Z) :
  Entity.isSprinting (jump e input worldTick) = Entity.isSprinting e.
Proof. unfold jump. repeat break_if; reflexivity. Qed.

Lemma computeFallDamage_isSprinting (e : Entity.t) :
  Entity.isSprinting (snd (computeFallDamage e)) = Entity.isSprinting e.
Proof. unfold computeFallDamage. repeat break_match; reflexivity. Qed.

Lemma applyCrouchSlide_stance (e : Entity.t) (input : Input.t) (dt : Q) :
  Js.truthy (Entity.isCrouching (applyCrouchSlide e input dt))
  = Js.truthy (Input.crouch input)
  /\ Entity.isSprinting (applyCrouchSlide e input dt)
     = Some (Js.truthy (Input.sprint input) && negb (Js.truthy (Input.crouch input))).
Proof.
  unfold applyCrouchSlide.
  destruct (Js.truthy (Input.crouch input)) eqn:Ec; cbn [negb].
  - destruct (Js.truthy (Entity.isCrouching e)) eqn:Ee; cbn [negb].
    + rewrite Ee. cbn [negb]. rewrite !andb_false_r. cbn. rewrite Ee. split; reflexivity.
    + set (inner := if Js.truthy (Entity.isSprinting _) && _ && _ then _ else _).
      assert (Hi : Entity.isCrouching inner = Some true)
        by (unfold inner; repeat break_if; reflexivity).
      rewrite Hi. cbn [Js.truthy negb]. rewrite !andb_false_r.
      cbn [Entity.isCrouching Entity.isSprinting Entity.set_isSprinting].
      rewrite Hi. split; reflexivity.
  - cbn [Entity.isCrouching Entity.set_isCrouching Js.truthy negb].
    rewrite !andb_true_r.
    destruct (Js.truthy (Input.sprint input)); cbn; split; reflexivity.
Qed.

(** X17: after [processEntityMovement] a player crouches exactly when the
    input asks for it, and sprints exactly when the input asks for a sprint
    and not for a crouch; so it never crouches and sprints at once. *)
Theorem X17_stance_follows_the_input (e : Entity.t) (input : Input.t) (dt : Q)
    (worldTick : Z) (groundEntities : list Entity.t) :
  Entity.type e = player ->
  let e' := processEntityMovement e input dt worldTick groundEntities in
  Js.truthy (Entity.isCrouching e') = Js.truthy (Input.crouch input)
  /\ Entity.isSprinting e'
     = Some (Js.truthy (Input.sprint input) && negb (Js.truthy (Input.crouch input)))
  /\ (Js.truthy (Entity.isCrouching e') && Js.truthy (Entity.isSprinting e') = false).
Proof.
  intros Ht. cbv zeta. unfold processEntityMovement. rewrite Ht. cbn [EntityType_eqb negb].
  destruct (applyCrouchSlide_stance e input dt) as [A1 A2].
  set (e1 := applyCrouchSlide e input dt) in *.
  pose proof (jump_sameKit e1 input worldTick) as (_ & _ & B1).
  pose proof (jump_isSprinting e1 input worldTick) as B2.
  set (e2 := jump e1 input worldTick) in *.
  assert (C : Entity.isCrouching
                (if Js.truthy (Entity.onGround e2)
                 then applyGroundMovement e2 input dt
                 else applyAirMovement e2 input dt) = Entity.isCrouching e2
              /\ Entity.isSprinting
                   (if Js.truthy (Entity.onGround e2)
                    then applyGroundMovement e2 input dt
                    else applyAirMovement e2 input dt) = Entity.isSprinting e2).
  { destruct (Js.truthy (Entity.onGround e2)).
    - split; [apply applyGroundMovement_sameKit | apply applyGroundMovement_isSprinting].
    - split; [apply applyAirMovement_sameKit | apply applyAirMovement_isSprinting]. }
  destruct C as [C1 C2].
  set (e3 := if Js.truthy (Entity.onGround e2) then _ else _) in *.
  pose proof (applyGravity_sameKit e3 dt groundEntities) as (_ & _ & D1).
  pose proof (applyGravity_isSprinting e3 dt groundEntities) as D2.
  set (e4 := applyGravity e3 dt groundEntities) in *.
  pose proof (computeFallDamage_sameKit e4) as (_ & _ & E1).
  pose proof (computeFallDamage_isSprinting e4) as E2.
  rewrite E1, E2, D1, D2, C1, C2, B1, B2, A1, A2.
  split; [reflexivity |]. split; [reflexivity |].
  destruct (Js.truthy (Input.crouch input)), (Js.truthy (Input.sprint input)); reflexivity.
Qed.

End StanceFacts.

(** ** Comparisons of numbers *)

Lemma leb_cases (a b : Q) :
  (Js.leb a b = true /\ (a <= b)%Q) \/ (Js.leb a b = false /\ (b < a)%Q).
Proof.
  unfold Js.leb. destruct (Qle_bool a b) eqn:E.
  - left. split; [reflexivity | apply Qle_bool_iff, E].
  - right. split; [reflexivity |]. apply Qnot_le_lt. intros C.
    apply Qle_bool_iff in C. congruence.
Qed.

Lemma ltb_cases (a b : Q) :
  (Js.ltb a b = true /\ (a < b)%Q) \/ (Js.ltb a b = false /\ (b <= a)%Q).
Proof.
  unfold Js.ltb. destruct (leb_cases b a) as [[E H] | [E H]]; unfold Js.leb in E; rewrite E.
  - right. split; [reflexivity | exact H].
  - left. split; [reflexivity | exact H].
Qed.

(** ** Boxes in doubles *)

Section ResolveFacts.

Local Open Scope Q_scope.

Lemma gtb_cases (a : Q) :
  (Js.gtb a 0 = true /\ 0 < a) \/ (Js.gtb a 0 = false /\ a <= 0).
Proof. unfold Js.gtb. apply ltb_cases. Qed.

Lemma push_sign (ca cb p : Q) :
  0 < p ->
  let r := push (Js.fl (Js.fl ca - Js.fl cb)) p in
  (0 < r -> Js.fl cb < Js.fl ca) /\ (r < 0 -> Js.fl ca <= Js.fl cb).
Proof.
  intros Hp r. subst r. unfold push.
  assert (He : 0 <= Js.fl (1 # 1000000)) by (apply fl_nonneg; discriminate).
  destruct (gtb_cases (Js.fl (Js.fl ca - Js.fl cb))) as [[E H] | [E H]]; rewrite E.
  - destruct (gtb_cases p) as [[E2 H2] | [E2 H2]]; rewrite E2; [| lra].
    split.
    + intros _. apply Qnot_le_lt. intros C.
      assert (Js.fl (Js.fl ca - Js.fl cb) <= 0) by (apply fl_nonpos; lra). lra.
    + intros C. exfalso.
      assert (0 <= Js.fl (p + Js.fl (1 # 1000000))) by (apply fl_nonneg; lra). lra.
  - destruct (gtb_cases (- p)) as [[E2 H2] | [E2 H2]]; rewrite E2; [lra |].
    split.
    + intros C. exfalso.
      assert (Js.fl (- p + - Js.fl (1 # 1000000)) <= 0) by (apply fl_nonpos; lra). lra.
    + intros _. apply Qnot_lt_le. intros C. apply fl_sub_pos in C. lra.
Qed.

Lemma push_opp (ca cb p : Q) :
  0 < p -> ~ Js.fl ca == Js.fl cb ->
  push (Js.fl (Js.fl cb - Js.fl ca)) p == - push (Js.fl (Js.fl ca - Js.fl cb)) p.
Proof.
  intros Hp Hne.
  assert (Ed : Js.fl (Js.fl cb - Js.fl ca) = - Js.fl (Js.fl ca - Js.fl cb)).
  { rewrite <- fl_opp. apply fl_comp. ring. }
  rewrite Ed. set (d := Js.fl (Js.fl ca - Js.fl cb)) in *.
  assert (Hd : ~ d == 0).
  { intros C. destruct (Q_dec (Js.fl ca) (Js.fl cb)) as [[L | L] | L]; [| | contradiction].
    - apply fl_sub_pos in L. rewrite Ed in L. fold d in L. lra.
    - apply fl_sub_pos in L. fold d in L. lra. }
  unfold push.
  destruct (gtb_cases d) as [[E H] | [E H]]; rewrite E;
    destruct (gtb_cases (- d)) as [[E' H'] | [E' H']]; rewrite E'; try lra.
  - destruct (gtb_cases p) as [[E2 H2] | [E2 H2]]; rewrite E2; [| lra].
    destruct (gtb_cases (- p)) as [[E3 H3] | [E3 H3]]; rewrite E3; [lra |].
    rewrite (fl_comp (- p + - Js.fl (1 # 1000000)) (- (p + Js.fl (1 # 1000000))))
      by ring.
    rewrite fl_opp. reflexivity.
  - destruct (gtb_cases p) as [[E2 H2] | [E2 H2]]; rewrite E2; [| lra].
    destruct (gtb_cases (- p)) as [[E3 H3] | [E3 H3]]; rewrite E3; [lra |].
    rewrite (fl_comp (- p + - Js.fl (1 # 1000000)) (- (p + Js.fl (1 # 1000000))))
      by ring.
    rewrite fl_opp. ring.
Qed.

Lemma resolve_push (a b : AABB.t) :
  let dx := Js.fl (fst (centre a) - fst (centre b)) in
  let dy := Js.fl (snd (centre a) - snd (centre b)) in
  let px := Js.fl (Js.fl (Js.fl (AABB.w a + AABB.w b) / 2) - Js.abs dx) in
  let py := Js.fl (Js.fl (Js.fl (AABB.h a + AABB.h b) / 2) - Js.abs dy) in
  AABB.resolve a b
  = if Js.leb px 0 || Js.leb py 0 then (0, 0)
    else if Js.ltb px py then (push dx px, 0) else (0, push dy py).
Proof. unfold AABB.resolve, push, centre. cbv zeta. cbn [fst snd]. reflexivity. Qed.

(** X18: [resolve] moves along one axis: one component of its vector is 0.
    A positive component means that the centre of [a], as the engine
    computes it in doubles, lies beyond the centre of [b] on that axis, and
    a negative component that it does not: [a] is pushed away from [b], and
    down or left when the centres agree.  When the centres differ on both
    axes, [resolve(b, a)] is the opposite vector. *)
Theorem X18_resolve_pushes_apart (a b : AABB.t) :
  let r := AABB.resolve a b in
  (fst r = 0 \/ snd r = 0)
  /\ (0 < fst r -> fst (centre b) < fst (centre a))
  /\ (fst r < 0 -> fst (centre a) <= fst (centre b))
  /\ (0 < snd r -> snd (centre b) < snd (centre a))
  /\ (snd r < 0 -> snd (centre a) <= snd (centre b))
  /\ (~ fst (centre a) == fst (centre b) -> ~ snd (centre a) == snd (centre b) ->
      fst (AABB.resolve b a) == - fst r /\ snd (AABB.resolve b a) == - snd r).
Proof.
  cbv zeta. rewrite (resolve_push a b), (resolve_push b a). cbv zeta.
  unfold centre. cbn [fst snd].
  set (ax := AABB.x a + Js.fl (AABB.w a / 2)).
  set (ay := AABB.y a + Js.fl (AABB.h a / 2)).
  set (bx := AABB.x b + Js.fl (AABB.w b / 2)).
  set (byy := AABB.y b + Js.fl (AABB.h b / 2)).
  assert (Edx : Js.fl (Js.fl bx - Js.fl ax) = - Js.fl (Js.fl ax - Js.fl bx)).
  { rewrite <- fl_opp. apply fl_comp. ring. }
  assert (Edy : Js.fl (Js.fl byy - Js.fl ay) = - Js.fl (Js.fl ay - Js.fl byy)).
  { rewrite <- fl_opp. apply fl_comp. ring. }
  set (dx := Js.fl (Js.fl ax - Js.fl bx)) in *.
  set (dy := Js.fl (Js.fl ay - Js.fl byy)) in *.
  assert (Epx : Js.fl (Js.fl (Js.fl (AABB.w b + AABB.w a) / 2) - Js.abs (Js.fl (Js.fl bx - Js.fl ax)))
                = Js.fl (Js.fl (Js.fl (AABB.w a + AABB.w b) / 2) - Js.abs dx)).
  { rewrite Edx. rewrite (fl_comp (AABB.w b + AABB.w a) (AABB.w a + AABB.w b)) by ring.
    apply fl_comp. unfold Js.abs. rewrite Qabs_opp. reflexivity. }
  assert (Epy : Js.fl (Js.fl (Js.fl (AABB.h b + AABB.h a) / 2) - Js.abs (Js.fl (Js.fl byy - Js.fl ay)))
                = Js.fl (Js.fl (Js.fl (AABB.h a + AABB.h b) / 2) - Js.abs dy)).
  { rewrite Edy. rewrite (fl_comp (AABB.h b + AABB.h a) (AABB.h a + AABB.h b)) by ring.
    apply fl_comp. unfold Js.abs. rewrite Qabs_opp. reflexivity. }
  rewrite Epx, Epy.
  set (px := Js.fl (Js.fl (Js.fl (AABB.w a + AABB.w b) / 2) - Js.abs dx)).
  set (py := Js.fl (Js.fl (Js.fl (AABB.h a + AABB.h b) / 2) - Js.abs dy)).
  destruct (leb_cases px 0) as [[E1 H1] | [E1 H1]]; rewrite E1; cbn [orb fst snd].
  { split; [left; reflexivity |]. repeat split; intros; lra. }
  destruct (leb_cases py 0) as [[E2 H2] | [E2 H2]]; rewrite E2; cbn [orb fst snd].
  { split; [left; reflexivity |]. repeat split; intros; lra. }
  destruct (Js.ltb px py); cbn [fst snd].
  - pose proof (push_sign ax bx px H1) as [S1 S2]. fold dx in S1, S2.
    split; [right; reflexivity |]. split; [exact S1 |]. split; [exact S2 |].
    split; [intros; lra |]. split; [intros; lra |].
    intros Nx _. split; [| lra].
    unfold dx. apply push_opp; assumption.
  - pose proof (push_sign ay byy py H2) as [S1 S2]. fold dy in S1, S2.
    split; [left; reflexivity |]. split; [intros; lra |]. split; [intros; lra |].
    split; [exact S1 |]. split; [exact S2 |].
    intros _ Ny. split; [lra |].
    unfold dy. apply push_opp; assumption.
Qed.

End ResolveFacts.

(** [intersects] and [resolve] round differently, and at the edges they
    disagree.  The boxes from 0.1 and from 0.3, each 0.2 wide, touch in the
    reals; in doubles the first ends beyond 0.3, so they intersect, while
    [resolve] finds no penetration and moves nothing.  The box from 0 of
    width 0.1 ends where the box from 0.1 begins, so they do not intersect,
    while [resolve] finds a penetration of a few 1e-17 and moves by more
    than [eps]. *)
Lemma intersects_and_resolve_at_the_edges :
  let a := AABB.mk (Js.fl (1 # 10)) 0 (Js.fl (2 # 10)) 1 in
  let b := AABB.mk (Js.fl (3 # 10)) 0 (Js.fl (2 # 10)) 1 in
  let c := AABB.mk 0 0 (Js.fl (1 # 10)) 1 in
  let d := AABB.mk (Js.fl (1 # 10)) 0 1 1 in
  AABB.intersects a b = true
  /\ AABB.resolve a b = (0, 0)%Q
  /\ AABB.intersects c d = false
  /\ (fst (AABB.resolve c d) < - (1 # 1000000))%Q
  /\ (snd (AABB.resolve c d) == 0)%Q.
Proof. vm_compute. repeat split. Qed.

(** ** World.tick: entities, health, exceptions, projectiles *)

Lemma tickRel_refl (e : Entity.t) : tickRel e e.
Proof.
  unfold tickRel.
  split; [reflexivity | split; [reflexivity | split; [| tauto]]].
  intros H. split; [exact H | apply Qle_refl].
Qed.

Lemma tickRel_trans (a b c : Entity.t) : tickRel a b -> tickRel b c -> tickRel a c.
Proof.
  unfold tickRel. intros (A1 & A2 & A3 & A4) (B1 & B2 & B3 & B4).
  split; [congruence |]. split; [congruence |]. split; [| tauto].
  intros H. destruct (A3 H) as [H1 H2]. destruct (B3 H1) as [H3 H4].
  split; [assumption |]. eapply Qle_trans; eassumption.
Qed.

(** A step that leaves id, type, health and inventory alone. *)
Lemma tickRel_same (e e' : Entity.t) :
  Entity.id e' = Entity.id e -> Entity.type e' = Entity.type e ->
  Entity.hp e' = Entity.hp e -> Entity.inventory e' = Entity.inventory e ->
  tickRel e e'.
Proof.
  intros Hi Ht Hh Hv. unfold tickRel, soundLoadout, isPlayer.
  rewrite Hi, Ht, Hh, Hv.
  split; [reflexivity | split; [reflexivity | split; [| tauto]]].
  intros H. split; [exact H | apply Qle_refl].
Qed.

Lemma Forall2_trans {A : Type} (R : A -> A -> Prop) (l1 l2 l3 : list A) :
  (forall a b c, R a b -> R b c -> R a c) ->
  Forall2 R l1 l2 -> Forall2 R l2 l3 -> Forall2 R l1 l3.
Proof.
  intros Ht H. revert l3. induction H as [| a b l1 l2 Hab H12 IH]; intros l3 H23;
    inversion H23; subst; constructor; eauto.
Qed.

Lemma Forall2_set {A : Type} (R : A -> A -> Prop) (l : list A) (i : nat) (a v : A) :
  (forall x, R x x) -> Arr.get i l = Some a -> R a v -> Forall2 R l (Arr.set i v l).
Proof.
  intros Hr. revert i. induction l as [| b l IH]; intros i Hg Hv; destruct i; cbn in *;
    try discriminate.
  - injection Hg as ->. constructor; [assumption | apply Forall2_refl, Hr].
  - constructor; [apply Hr | apply IH; assumption].
Qed.

Lemma Forall2_update_first {A : Type} (R : A -> A -> Prop) (p : A -> bool) (f : A -> A)
    (l : list A) :
  (forall x, R x x) -> (forall x, R x (f x)) -> Forall2 R l (Arr.update_first p f l).
Proof.
  intros Hr Hf. induction l as [| a l IH]; cbn; [constructor |].
  destruct (p a); constructor; auto. apply Forall2_refl, Hr.
Qed.

Lemma Forall2_soundLoadout (l l' : list Entity.t) :
  Forall2 tickRel l l' -> Forall soundLoadout l -> Forall soundLoadout l'.
Proof.
  intros H. induction H as [| a b l l' Hab Hl IH]; intros Hs; [constructor |].
  inversion Hs; subst. constructor; [apply Hab; assumption | apply IH; assumption].
Qed.

(** *** applyInputsShallow *)

Lemma applyInput_tickRel (input : Input.t) (dt : Q) (e : Entity.t) :
  tickRel e (applyInput input dt e).
Proof. apply tickRel_same; reflexivity. Qed.

Lemma applyInputs_rel (R : Entity.t -> Entity.t -> Prop) (dt : Q)
    (inputs : Obj.t Input.t) (l l' : list Entity.t) :
  (forall a b input, R a b -> R a (applyInput input dt b)) ->
  Forall2 R l l' ->
  Forall2 R l
    (fold_left
       (fun ents (kv : string * Input.t) =>
          let '(clientId, input) := kv in
          Arr.update_first (isPlayerWithId clientId) (applyInput input dt) ents)
       inputs l').
Proof.
  intros Hf. revert l'. induction inputs as [| [cid inp] rest IH]; intros l' H;
    cbn [fold_left]; [assumption |].
  apply IH, update_first_Forall2; [intros a b; apply Hf | assumption].
Qed.

Lemma advanceBullets_tickRel (dt : Q) (l l' : list Entity.t) :
  Forall2 (fun a b => sameTag a b /\ tickRel a b) l l' ->
  Forall2 tickRel (filter outlivesStep l) (advanceBullets dt l').
Proof.
  intros H. induction H as [| a b l l' [(Hi & Ht & Hl) Hab] Hrest IH];
    cbn [advanceBullets filter]; [constructor |].
  unfold outlivesStep at 1. rewrite <- Ht, <- Hl.
  destruct (EntityType_eqb (Entity.type b) bullet) eqn:Et.
  - replace (Entity.lifetime
               (Entity.set_y
                  (Entity.y (Entity.set_x (Entity.x b + Entity.vx b * dt) b)
                   + Entity.vy (Entity.set_x (Entity.x b + Entity.vx b * dt) b) * dt)
                  (Entity.set_x (Entity.x b + Entity.vx b * dt) b)))
      with (Entity.lifetime b) by (destruct b; reflexivity).
    destruct (Entity.lifetime b) as [lt |] eqn:El; cbn [andb negb].
    + destruct (Js.leb (lt - 1) 0) eqn:Ex; cbn [negb]; [exact IH |].
      constructor; [| exact IH].
      eapply tickRel_trans; [exact Hab |]. apply tickRel_same; reflexivity.
    + constructor; [| exact IH].
      eapply tickRel_trans; [exact Hab |]. apply tickRel_same; reflexivity.
  - cbn [andb negb]. constructor; assumption.
Qed.

Lemma applyInputsShallow_tickRel (state : State.t) (inputs : Obj.t Input.t) (dt : Q) :
  Forall2 tickRel (filter outlivesStep (State.entities state))
    (State.entities (applyInputsShallow state inputs dt)).
Proof.
  unfold applyInputsShallow, cloneState. cbn [State.entities]. rewrite map_id.
  apply advanceBullets_tickRel, applyInputs_rel.
  - intros a b input [Hs Hr]. split; [apply applyInput_sameTag, Hs |].
    eapply tickRel_trans; [exact Hr | apply applyInput_tickRel].
  - apply Forall2_refl. intros a. split; [unfold sameTag; tauto | apply tickRel_refl].
Qed.

(** *** processMovement *)

Section StageFacts.

Context {host : Host}.

Lemma applyCrouchSlide_inventory (e : Entity.t) (input : Input.t) (dt : Q) :
  Entity.inventory (applyCrouchSlide e input dt) = Entity.inventory e.
Proof. unfold applyCrouchSlide. repeat break_if; reflexivity. Qed.

Lemma floor_nonneg (q : Q) : (0 <= q)%Q -> 0 <= Js.floor q.
Proof.
  intros H. unfold Js.floor. change 0 with (Qfloor (inject_Z 0)) at 1.
  apply Qfloor_resp_le. exact H.
Qed.

Lemma max0_bounds (hp d : Q) :
  (0 <= hp)%Q -> (0 <= d)%Q -> (0 <= Js.max 0 (hp - d) <= hp)%Q.
Proof.
  intros Hh Hd. unfold Js.max. destruct (ltb_cases 0 (hp - d)) as [[E H] | [E H]]; rewrite E.
  - split; lra.
  - split; lra.
Qed.

Lemma computeFallDamage_hp (e : Entity.t) :
  (0 <= Entity.hp e)%Q ->
  (0 <= Entity.hp (snd (computeFallDamage e)) <= Entity.hp e)%Q.
Proof.
  intros H. unfold computeFallDamage.
  destruct (Entity.fallStartY e) as [fs |]; [| cbn; split; [assumption | apply Qle_refl]].
  destruct (negb (Js.truthy (Entity.onGround e))); [cbn; split; [assumption | apply Qle_refl] |].
  destruct (leb_cases (Js.fl (fs - Entity.y e)) FALL_DAMAGE_THRESHOLD)
    as [[E Hle] | [E Hlt]];
    rewrite E; cbn [snd Entity.hp Entity.set_fallStartY Entity.set_hp].
  - split; [assumption | apply Qle_refl].
  - apply max0_bounds; [assumption |].
    change 0%Q with (inject_Z 0). rewrite <- Zle_Qle. apply floor_nonneg.
    unfold FALL_DAMAGE_RATE, FALL_DAMAGE_THRESHOLD in *.
    apply fl_nonneg. apply Qmult_le_0_compat; [| discriminate].
    apply fl_nonneg. lra.
Qed.

Lemma processEntityMovement_tickRel (e : Entity.t) (input : Input.t) (dt : Q)
    (worldTick : Z) (grounds : list Entity.t) :
  tickRel e (processEntityMovement e input dt worldTick grounds).
Proof.
  unfold processEntityMovement.
  destruct (negb (EntityType_eqb (Entity.type e) player)); [apply tickRel_refl |].
  pose proof (applyCrouchSlide_sameBody e input dt) as (A1 & A2 & A3 & _).
  pose proof (applyCrouchSlide_inventory e input dt) as A4.
  set (e1 := applyCrouchSlide e input dt) in *.
  pose proof (jump_identity e1 input worldTick) as (B1 & B2 & B3).
  pose proof (jump_sameKit e1 input worldTick) as (_ & B4 & _).
  set (e2 := jump e1 input worldTick) in *.
  assert (C : sameBody e2 (if Js.truthy (Entity.onGround e2)
                           then applyGroundMovement e2 input dt
                           else applyAirMovement e2 input dt)
              /\ sameKit e2 (if Js.truthy (Entity.onGround e2)
                             then applyGroundMovement e2 input dt
                             else applyAirMovement e2 input dt)).
  { destruct (Js.truthy (Entity.onGround e2)); split;
      first [ apply applyGroundMovement_sameBody | apply applyAirMovement_sameBody
            | apply applyGroundMovement_sameKit | apply applyAirMovement_sameKit ]. }
  destruct C as [(C1 & C2 & C3 & _) (_ & C4 & _)].
  set (e3 := if Js.truthy (Entity.onGround e2) then _ else _) in *.
  pose proof (applyGravity_sameBody e3 dt grounds) as (D1 & D2 & D3 & _).
  pose proof (applyGravity_sameKit e3 dt grounds) as (_ & D4 & _).
  set (e4 := applyGravity e3 dt grounds) in *.
  pose proof (computeFallDamage_identity e4) as (E1 & E2).
  pose proof (computeFallDamage_sameKit e4) as (_ & E4 & _).
  pose proof (computeFallDamage_hp e4) as E3.
  assert (Hhp : Entity.hp e4 = Entity.hp e) by congruence.
  unfold tickRel. split; [congruence |]. split; [congruence |]. split.
  - intros H. rewrite <- Hhp. apply E3. rewrite Hhp. exact H.
  - unfold soundLoadout, isPlayer. intros Hs Hp inv Hinv.
    apply Hs; [| congruence]. rewrite <- Hp. f_equal. congruence.
Qed.

Lemma stepPlayer_tickRel (e : Entity.t) (input : Input.t) (dt : Q) (worldTick : Z)
    (grounds : list Entity.t) :
  tickRel e (stepPlayer e input dt worldTick grounds).
Proof.
  unfold stepPlayer. eapply tickRel_trans; [apply processEntityMovement_tickRel |].
  apply tickRel_same; reflexivity.
Qed.

Lemma movePlayer_tickRel (inputs : Obj.t Input.t) (dt : Q) (worldTick : Z)
    (l : list Entity.t) (i : nat) :
  Forall2 tickRel l (movePlayer inputs dt worldTick l i).
Proof.
  unfold movePlayer. destruct (Arr.get i l) as [p |] eqn:E.
  - apply (Forall2_set tickRel l i p); [apply tickRel_refl | exact E | apply stepPlayer_tickRel].
  - apply Forall2_refl, tickRel_refl.
Qed.

Lemma fold_tickRel {B : Type} (f : list Entity.t -> B -> list Entity.t) (bs : list B)
    (l : list Entity.t) :
  (forall l b, Forall2 tickRel l (f l b)) -> Forall2 tickRel l (fold_left f bs l).
Proof.
  intros Hf. revert l. induction bs as [| b bs IH]; intros l; cbn [fold_left].
  - apply Forall2_refl, tickRel_refl.
  - eapply Forall2_trans; [apply tickRel_trans | apply Hf | apply IH].
Qed.

Lemma processMovement_tickRel (l : list Entity.t) (inputs : Obj.t Input.t) (dt : Q)
    (worldTick : Z) :
  Forall2 tickRel l (processMovement l inputs dt worldTick).
Proof. unfold processMovement. apply fold_tickRel. intros. apply movePlayer_tickRel. Qed.

(** *** handleWeaponCombat *)

Lemma set_inventory_tickRel (e : Entity.t) (inv inv' : Inventory.t) :
  Entity.inventory e = Some inv ->
  (wellFormedInventory inv -> wellFormedInventory inv') ->
  tickRel e (Entity.set_inventory (Some inv') e).
Proof.
  intros Hinv Hwf. unfold tickRel.
  split; [reflexivity | split; [reflexivity | split]].
  - intros H. split; [exact H | apply Qle_refl].
  - unfold soundLoadout, isPlayer. cbn [Entity.type Entity.inventory Entity.set_inventory].
    intros Hs Hp i [= <-]. apply Hwf, (Hs Hp inv Hinv).
Qed.

Lemma updateReload_keeps_wellFormed (inv inv' : Inventory.t) :
  updateReload inv = Some inv' -> wellFormedInventory inv -> wellFormedInventory inv'.
Proof.
  intros E H. destruct (updateReload_total inv H) as (i & Ei & Hi). congruence.
Qed.

Lemma fireWeapon_keeps_wellFormed (inv inv' : Inventory.t) :
  fireWeapon inv = Some inv' -> wellFormedInventory inv -> wellFormedInventory inv'.
Proof.
  intros E H. destruct (fireWeapon_total inv H) as (i & Ei & Hi). congruence.
Qed.

Lemma updateReloads_tickRel (l l' : list Entity.t) :
  World.updateReloads l = Some l' -> Forall2 tickRel l l'.
Proof.
  revert l'. induction l as [| e l IH]; intros l'; cbn [World.updateReloads].
  - intros [= <-]. constructor.
  - destruct (isPlayer e) eqn:Ep.
    + destruct (Entity.inventory e) as [inv |] eqn:Ei.
      * destruct (updateReload inv) as [inv' |] eqn:Eu; cbn [bind]; [| discriminate].
        destruct (World.updateReloads l) as [r |]; cbn [bind]; [| discriminate].
        intros [= <-]. constructor; [| apply IH; reflexivity].
        apply (set_inventory_tickRel e inv); [exact Ei |].
        apply updateReload_keeps_wellFormed, Eu.
      * cbn [bind]. destruct (World.updateReloads l) as [r |]; cbn [bind]; [| discriminate].
        intros [= <-]. constructor; [apply tickRel_refl | apply IH; reflexivity].
    + cbn [bind]. destruct (World.updateReloads l) as [r |]; cbn [bind]; [| discriminate].
      intros [= <-]. constructor; [apply tickRel_refl | apply IH; reflexivity].
Qed.

Lemma updateReloads_total (l : list Entity.t) :
  Forall soundLoadout l -> exists l', World.updateReloads l = Some l'.
Proof.
  intros H. induction H as [| e l He Hl [r IH]]; cbn [World.updateReloads].
  - exists []. reflexivity.
  - rewrite IH. destruct (isPlayer e) eqn:Ep.
    + destruct (Entity.inventory e) as [inv |] eqn:Ei.
      * destruct (updateReload_total inv (He Ep inv Ei)) as (inv' & Eu & _).
        rewrite Eu. cbn [bind]. eexists. reflexivity.
      * cbn [bind]. eexists. reflexivity.
    + cbn [bind]. eexists. reflexivity.
Qed.

Lemma createProjectile_inFlight (d : ProjectileData.t) :
  ProjectileData.isHitscan d = false -> inFlight (createProjectile d).
Proof.
  intros H. unfold inFlight, createProjectile. cbn. rewrite H. split; [reflexivity | lia].
Qed.

Lemma getWeaponConfigForSlot_known (inv : Inventory.t) (slot : Z) (c : WeaponConfig) :
  getWeaponConfigForSlot inv slot = Some c -> exists id, getWeaponConfig id = Some c.
Proof.
  unfold getWeaponConfigForSlot. destruct (indexZ _ _) as [w |]; cbn [bind]; [| discriminate].
  intros H. exists (weaponId w). exact H.
Qed.

Lemma handlePlayerShooting_facts (shooter shooter' : Entity.t) (input : Input.t)
    (prng prng' : PRNG.t) (active active' : list Projectile.t) :
  World.handlePlayerShooting shooter input prng active = Some (shooter', prng', active') ->
  tickRel shooter shooter'
  /\ (Forall inFlight active -> Forall inFlight active').
Proof.
  unfold World.handlePlayerShooting.
  destruct (Entity.inventory shooter) as [inv |] eqn:Ei.
  2:{ intros [= <- <- <-]. split; [apply tickRel_refl | tauto]. }
  destruct (getActiveWeapon inv) as [w |]; cbn [bind]; [| discriminate].
  destruct (getWeaponConfigForSlot inv (Inventory.activeWeaponSlot inv)) as [c |] eqn:Ec;
    cbn [bind]; [| discriminate].
  destruct (canFireWeapon inv) as [can |]; cbn [bind]; [| discriminate].
  destruct can; [| intros [= <- <- <-]; split; [apply tickRel_refl | tauto]].
  match goal with
  | |- context [fire ?a ?b ?c ?d ?e ?f] =>
      pose proof (fun id H => fire_never_hitscan id b a c d e f H) as Hh;
      destruct (fire a b c d e f) as [fr p1]
  end.
  cbn [fst] in Hh.
  destruct (success fr); [| intros [= <- <- <-]; split; [apply tickRel_refl | tauto]].
  destruct (fireWeapon inv) as [inv' |] eqn:Ef; cbn [bind]; [| discriminate].
  intros [= <- <- <-]. split.
  - apply (set_inventory_tickRel shooter inv); [exact Ei |].
    apply fireWeapon_keeps_wellFormed, Ef.
  - intros Ha. apply Forall_app. split; [exact Ha |].
    destruct (getWeaponConfigForSlot_known _ _ _ Ec) as [id Hid].
    specialize (Hh id Hid). apply Forall_map.
    eapply Forall_impl; [| exact Hh]. intros d Hd. apply createProjectile_inFlight, Hd.
Qed.

Lemma handlePlayerShooting_total (shooter : Entity.t) (input : Input.t)
    (prng : PRNG.t) (active : list Projectile.t) :
  isPlayer shooter = true -> soundLoadout shooter ->
  exists r, World.handlePlayerShooting shooter input prng active = Some r.
Proof.
  intros Hp Hs. unfold World.handlePlayerShooting.
  destruct (Entity.inventory shooter) as [inv |] eqn:Ei; [| eexists; reflexivity].
  specialize (Hs Hp inv Ei).
  destruct (wellFormed_active inv Hs) as (w & c & Ew & Ec).
  rewrite Ew. cbn [bind].
  unfold getWeaponConfigForSlot. fold (getActiveWeapon inv). rewrite Ew. cbn [bind].
  rewrite Ec. cbn [bind]. rewrite (canFireWeapon_spec inv w c Ew Ec). cbn [bind].
  destruct (canFire w c); [| eexists; reflexivity].
  destruct (fire _ _ _ _ _ _) as [fr p1].
  destruct (success fr); [| eexists; reflexivity].
  destruct (fireWeapon_total inv Hs) as (inv' & Ef & _). rewrite Ef. cbn [bind].
  eexists. reflexivity.
Qed.

Lemma findIndex_get {A : Type} (p : A -> bool) (l : list A) (i : nat) :
  World.findIndex p l = Some i -> exists a, Arr.get i l = Some a /\ p a = true.
Proof.
  revert i. induction l as [| a l IH]; intros i; cbn [World.findIndex]; [discriminate |].
  destruct (p a) eqn:E.
  - intros [= <-]. exists a. split; [reflexivity | exact E].
  - destruct (World.findIndex p l) as [j |]; cbn [option_map]; [| discriminate].
    intros [= <-]. destruct (IH j eq_refl) as (b & Hb & Hp). exists b. split; assumption.
Qed.

Lemma shootAll_facts (inputs : Obj.t Input.t) (l l' : list Entity.t)
    (prng prng' : PRNG.t) (active active' : list Projectile.t) :
  World.shootAll inputs l prng active = Some (l', prng', active') ->
  Forall2 tickRel l l' /\ (Forall inFlight active -> Forall inFlight active').
Proof.
  revert l prng active. induction inputs as [| [cid inp] rest IH]; intros l prng active;
    cbn [World.shootAll].
  - intros [= <- <- <-]. split; [apply Forall2_refl, tickRel_refl | tauto].
  - destruct (Js.truthy (Input.shoot inp)); [| apply IH].
    destruct (World.findIndex (isPlayerWithId cid) l) as [i |]; [| apply IH].
    destruct (Arr.get i l) as [shooter |] eqn:Eg; [| apply IH].
    destruct (Entity.inventory shooter); [| apply IH].
    destruct (World.handlePlayerShooting shooter inp prng active) as [[[s' p1] a1] |] eqn:Eh;
      cbn [bind]; [| discriminate].
    intros H. apply IH in H. destruct H as [H1 H2].
    apply handlePlayerShooting_facts in Eh. destruct Eh as [Hs Ha].
    split; [| tauto].
    eapply Forall2_trans; [apply tickRel_trans | | exact H1].
    apply (Forall2_set tickRel l i shooter); [apply tickRel_refl | exact Eg | exact Hs].
Qed.

Lemma Forall_get {A : Type} (P : A -> Prop) (l : list A) (i : nat) (a : A) :
  Forall P l -> Arr.get i l = Some a -> P a.
Proof.
  intros H E. rewrite Forall_forall in H. apply H. eapply nth_error_In. exact E.
Qed.

Lemma shootAll_total (inputs : Obj.t Input.t) (l : list Entity.t) (prng : PRNG.t)
    (active : list Projectile.t) :
  Forall soundLoadout l -> exists r, World.shootAll inputs l prng active = Some r.
Proof.
  revert l prng active. induction inputs as [| [cid inp] rest IH]; intros l prng active Hl;
    cbn [World.shootAll].
  - eexists. reflexivity.
  - destruct (Js.truthy (Input.shoot inp)); [| apply IH, Hl].
    destruct (World.findIndex (isPlayerWithId cid) l) as [i |] eqn:Ef; [| apply IH, Hl].
    destruct (findIndex_get _ _ _ Ef) as (a & Ea & Hp). rewrite Ea.
    destruct (Entity.inventory a) eqn:Ei; [| apply IH, Hl].
    assert (Hpl : isPlayer a = true).
    { unfold isPlayerWithId in Hp. apply andb_prop in Hp. apply Hp. }
    destruct (handlePlayerShooting_total a inp prng active Hpl (Forall_get _ _ _ _ Hl Ea))
      as [[[s' p1] a1] Eh].
    rewrite Eh. cbn [bind]. apply IH.
    apply handlePlayerShooting_facts in Eh. destruct Eh as [Hs _].
    eapply Forall2_soundLoadout; [| exact Hl].
    apply (Forall2_set tickRel l i a); [apply tickRel_refl | exact Ea | exact Hs].
Qed.

(** *** handleProjectiles *)

Lemma calculateDamage_positive (projectile : Projectile.t) (entity : Entity.t)
    (prng : PRNG.t) :
  1 <= fst (calculateDamage projectile entity prng).
Proof.
  unfold calculateDamage. destruct (PRNG.nextFloat prng) as [f p1]. cbn [fst]. lia.
Qed.

Lemma detectProjectileHit_hurts (projectile : Projectile.t) (entities : list Entity.t)
    (prng prng' : PRNG.t) (h : HitResult) :
  detectProjectileHit projectile entities prng = (Some h, prng') -> hurts h.
Proof.
  intros H. apply detectProjectileHit_reports_damage in H.
  destruct H as (e & _ & _ & Hd & _). unfold hurts. rewrite Hd.
  apply calculateDamage_positive.
Qed.

Lemma detectHitscanLoop_hurts (projectile : Projectile.t) (entities : list Entity.t)
    (closest : option HitResult) (d : Ext.t) (h : HitResult) :
  (forall c, closest = Some c -> hurts c) ->
  detectHitscanLoop projectile entities closest d = Some h -> hurts h.
Proof.
  revert closest d. induction entities as [| e rest IH]; intros closest d Hc;
    cbn [detectHitscanLoop].
  - intros H. apply Hc, H.
  - destruct (String.eqb _ _); [apply IH, Hc |].
    set (hr := raycastVsEntity _ _ _ _).
    destruct (distance hr) eqn:Ed; [| apply IH, Hc].
    destruct (hit hr && _); [| apply IH, Hc].
    apply IH. intros c [= <-]. unfold hurts, hr, raycastVsEntity.
    destruct (_ || _ || _); exact I.
Qed.

Lemma simulateProjectile_hurts (p p' : Projectile.t) (entities : list Entity.t) (dt : Q)
    (prng prng' : PRNG.t) (h : HitResult) :
  simulateProjectile p entities dt prng = ((p', Some h), prng') -> hurts h.
Proof.
  unfold simulateProjectile. destruct (Projectile.isHitscan p).
  - unfold simulateHitscan, detectHitscanHit. intros [= _ H _].
    apply detectHitscanLoop_hurts in H; [exact H | discriminate].
  - unfold simulateProjectileMovement.
    destruct (detectProjectileHit _ entities prng) as [o p1] eqn:E.
    intros [= _ -> ->]. apply detectProjectileHit_hurts in E. exact E.
Qed.

Lemma simulateLoop_hurts (projectiles : list Projectile.t) (entities : list Entity.t)
    (dt : Q) (results : ProjectileSimulationResult) (prng : PRNG.t) :
  Forall hurts (sim_hits results) ->
  Forall hurts (sim_hits (fst (simulateLoop projectiles entities dt results prng))).
Proof.
  revert results prng. induction projectiles as [| p rest IH]; intros results prng Hr;
    cbn [simulateLoop]; [exact Hr |].
  destruct (negb (isLive p)); [apply IH, Hr |].
  destruct (simulateProjectile p entities dt prng) as [[p' hr] prng1] eqn:E.
  apply IH. cbn [sim_hits]. destruct hr as [h |]; [| exact Hr].
  apply Forall_app. split; [exact Hr |]. constructor; [| constructor].
  eapply simulateProjectile_hurts. exact E.
Qed.

Lemma applyHit_tickRel (l : list Entity.t) (h : HitResult) :
  hurts h -> Forall2 tickRel l (World.applyHit l h).
Proof.
  intros Hh. unfold World.applyHit, hurts in *.
  destruct (entityId h) as [eid |]; [| apply Forall2_refl, tickRel_refl].
  destruct (hitDamage h) as [dmg |]; [| apply Forall2_refl, tickRel_refl].
  destruct (_ && _); [| apply Forall2_refl, tickRel_refl].
  apply Forall2_update_first; [apply tickRel_refl |].
  intros x. unfold tickRel. split; [reflexivity | split; [reflexivity | split]].
  - intros H. cbn [Entity.hp Entity.set_hp]. apply max0_bounds; [exact H |].
    change 0%Q with (inject_Z 0). rewrite <- Zle_Qle. lia.
  - unfold soundLoadout, isPlayer. tauto.
Qed.

Lemma applyHits_tickRel (hits : list HitResult) (l : list Entity.t) :
  Forall hurts hits -> Forall2 tickRel l (fold_left World.applyHit hits l).
Proof.
  intros H. revert l. induction H as [| h hits Hh Hrest IH]; intros l; cbn [fold_left].
  - apply Forall2_refl, tickRel_refl.
  - eapply Forall2_trans; [apply tickRel_trans | apply applyHit_tickRel, Hh | apply IH].
Qed.

Lemma handleProjectiles_facts (l : list Entity.t) (dt : Q) (prng : PRNG.t)
    (active : list Projectile.t) :
  let r := World.handleProjectiles l dt prng active in
  Forall2 tickRel l (fst (fst r))
  /\ (forall n, Forall (fun p => Projectile.lifetime p <= n) active ->
        Forall (fun p => isLive p = true /\ Projectile.isHitscan p = false
                         /\ 0 < Projectile.lifetime p <= n - 1) (snd r)).
Proof.
  cbv zeta. unfold World.handleProjectiles.
  pose proof (simulateLoop_hurts active l dt {| sim_projectiles := []; sim_hits := [] |}
                prng (Forall_nil _)) as Hh.
  destruct (simulateProjectiles_list active l dt prng) as [Hs _].
  destruct (flown_survivors dt active) as [Hlive Hlt]. rewrite <- Hs in Hlive, Hlt.
  unfold simulateProjectiles in *.
  destruct (simulateLoop active l dt _ prng) as [res p1]. cbn [fst snd] in *.
  split.
  - apply applyHits_tickRel, Hh.
  - intros n Hn. specialize (Hlt n Hn).
    apply Forall_forall. intros p Hp. apply filter_In in Hp. destruct Hp as [Hp Hl].
    rewrite Forall_forall in Hlive, Hlt. destruct (Hlive p Hp) as [_ Hhs].
    specialize (Hlt p Hp). cbv beta in Hlt.
    split; [exact Hl |]. split; [exact Hhs |]. split; [| exact Hlt].
    unfold isLive in Hl. apply andb_prop in Hl. destruct Hl as [Hl _].
    apply Z.ltb_lt in Hl. exact Hl.
Qed.

(** *** Collision resolution *)

Lemma sameCore_refl (e : Entity.t) : sameCore e e.
Proof. unfold sameCore. tauto. Qed.

Lemma sameCore_trans (a b c : Entity.t) : sameCore a b -> sameCore b c -> sameCore a c.
Proof. unfold sameCore. intros (? & ? & ? & ?) (? & ? & ? & ?). repeat split; congruence. Qed.

Lemma sameCore_tickRel (l l' : list Entity.t) :
  Forall2 sameCore l l' -> Forall2 tickRel l l'.
Proof.
  intros H. induction H as [| a b l l' (H1 & H2 & H3 & H4) Hl IH]; constructor;
    [apply tickRel_same; assumption | exact IH].
Qed.

Lemma Forall2_get {A : Type} (R : A -> A -> Prop) (l l' : list A) (i : nat) (a c : A) :
  Forall2 R l l' -> Arr.get i l = Some a -> Arr.get i l' = Some c -> R a c.
Proof.
  intros H. revert i. induction H as [| x y l l' Hxy Hl IH]; intros i; destruct i; cbn;
    try discriminate.
  - intros [= <-] [= <-]. exact Hxy.
  - apply IH.
Qed.

Lemma separate_sameCore (l : list Entity.t) (ij : nat * nat) :
  Forall2 sameCore l (World.separate l ij).
Proof.
  unfold World.separate.
  destruct (Arr.get (fst ij) l) as [p1 |] eqn:E1; [| apply Forall2_refl, sameCore_refl].
  destruct (Arr.get (snd ij) l) as [p2 |] eqn:E2; [| apply Forall2_refl, sameCore_refl].
  destruct (AABB.intersects _ _); [| apply Forall2_refl, sameCore_refl].
  set (q1 := Entity.set_y _ (Entity.set_x _ p1)).
  set (q2 := Entity.set_y _ (Entity.set_x _ p2)).
  assert (H1 : Forall2 sameCore l (Arr.set (fst ij) q1 l)).
  { apply (Forall2_set sameCore l _ p1); [apply sameCore_refl | exact E1 |].
    unfold sameCore. repeat split. }
  eapply Forall2_trans; [apply sameCore_trans | exact H1 |].
  destruct (Arr.get (snd ij) (Arr.set (fst ij) q1 l)) as [c |] eqn:E3.
  - apply (Forall2_set sameCore _ _ c); [apply sameCore_refl | exact E3 |].
    pose proof (Forall2_get sameCore _ _ _ _ _ H1 E2 E3) as (C1 & C2 & C3 & C4).
    unfold sameCore, q2. cbn. repeat split; congruence.
  - exfalso. unfold Arr.get in *. apply nth_error_None in E3. rewrite set_length in E3.
    assert (nth_error l (snd ij) <> None) by congruence.
    apply nth_error_Some in H. lia.
Qed.

Lemma resolveCollisions_tickRel (l : list Entity.t) :
  Forall2 tickRel l (World.resolveCollisions l).
Proof.
  unfold World.resolveCollisions. apply fold_tickRel.
  intros l0 b. apply sameCore_tickRel, separate_sameCore.
Qed.

End StageFacts.

Section TickTheorems.

Context {host : Host}.

(** The stages of [tick], named. *)
Lemma tick_stages (w w' : World.t) (old : State.t) (inputs : list (Obj.t Input.t)) :
  World.tick w inputs = Some (old, w') ->
  exists l1 l2 l3 l4 prng3 prng4 active3,
    l1 = State.entities
           (applyInputsShallow (World.state w) (World.mergeInputs inputs) (World.dt w))
    /\ l2 = processMovement l1 (World.mergeInputs inputs) (World.dt w)
              (State.tick (World.state w) + 1)
    /\ World.handleWeaponCombat l2 (World.mergeInputs inputs) (World.prng w)
         (World.activeProjectiles w) = Some (l3, prng3, active3)
    /\ World.handleProjectiles l3 (World.dt w) prng3 active3
       = (l4, prng4, World.activeProjectiles w')
    /\ State.entities (World.state w') = World.resolveCollisions l4
    /\ State.tick (World.state w') = State.tick (World.state w) + 1
    /\ State.lastChecksum (World.state w')
       = Some (computeStateChecksum (World.state w'))
    /\ World.dt w' = World.dt w /\ World.tickRate w' = World.tickRate w.
Proof.
  unfold World.tick.
  destruct (World.handleWeaponCombat _ _ _ _) as [[[l3 prng3] active3] |] eqn:Ec;
    cbn [bind]; [| discriminate].
  destruct (World.handleProjectiles l3 (World.dt w) prng3 active3) as [[l4 prng4] active4]
    eqn:Ep.
  intros [= <- <-]. cbn [World.state World.activeProjectiles World.dt World.tickRate
                         State.entities State.tick State.lastChecksum].
  exists (State.entities
            (applyInputsShallow (World.state w) (World.mergeInputs inputs) (World.dt w))).
  eexists. exists l3, l4, prng3, prng4, active3.
  split; [reflexivity |]. split; [reflexivity |].
  split; [exact Ec |]. split; [exact Ep |]. split; [reflexivity |].
  split; [reflexivity |]. split; [reflexivity |]. split; reflexivity.
Qed.

Lemma handleWeaponCombat_facts (l l' : list Entity.t) (inputs : Obj.t Input.t)
    (prng prng' : PRNG.t) (active active' : list Projectile.t) :
  World.handleWeaponCombat l inputs prng active = Some (l', prng', active') ->
  Forall2 tickRel l l' /\ (Forall inFlight active -> Forall inFlight active').
Proof.
  unfold World.handleWeaponCombat.
  destruct (World.updateReloads l) as [l1 |] eqn:E1; cbn [bind]; [| discriminate].
  intros H. apply shootAll_facts in H. destruct H as [H1 H2]. split; [| exact H2].
  eapply Forall2_trans; [apply tickRel_trans | apply updateReloads_tickRel, E1 | exact H1].
Qed.

Lemma tick_tickRel (w w' : World.t) (old : State.t) (inputs : list (Obj.t Input.t)) :
  World.tick w inputs = Some (old, w') ->
  Forall2 tickRel (filter outlivesStep (State.entities (World.state w)))
    (State.entities (World.state w')).
Proof.
  intros H. apply tick_stages in H.
  destruct H as (l1 & l2 & l3 & l4 & prng3 & prng4 & active3
                 & -> & -> & Hc & Hp & -> & _).
  apply handleWeaponCombat_facts in Hc. destruct Hc as [Hc _].
  pose proof (handleProjectiles_facts l3 (World.dt w) prng3 active3) as Hh.
  cbv zeta in Hh. rewrite Hp in Hh. cbn [fst snd] in Hh. destruct Hh as [Hh _].
  eapply Forall2_trans; [apply tickRel_trans | apply applyInputsShallow_tickRel |].
  eapply Forall2_trans; [apply tickRel_trans | apply processMovement_tickRel |].
  eapply Forall2_trans; [apply tickRel_trans | exact Hc |].
  eapply Forall2_trans; [apply tickRel_trans | exact Hh |].
  apply resolveCollisions_tickRel.
Qed.

(** X19: [World.tick] adds no entity and removes only the bullets that the
    shallow pass removes: the committed entities are, in order, the others,
    each with its id and type and, when its health was not negative, with a
    health between 0 and the old one. *)
Theorem X19_tick_keeps_entities_and_never_heals (w w' : World.t) (superseded : State.t)
    (inputs : list (Obj.t Input.t)) :
  World.tick w inputs = Some (superseded, w') ->
  Forall2 afterTick (filter outlivesStep (State.entities (World.state w)))
    (State.entities (World.state w')).
Proof.
  intros H. apply tick_tickRel in H.
  induction H as [| a b l l' (H1 & H2 & H3 & _) Hl IH]; [constructor |].
  constructor; [| exact IH].
  unfold afterTick. split; [exact H1 | split; [exact H2 | exact H3]].
Qed.

Lemma Forall_filter_incl {A : Type} (P : A -> Prop) (f : A -> bool) (l : list A) :
  Forall P l -> Forall P (filter f l).
Proof.
  intros H. apply Forall_forall. intros a Ha. apply filter_In in Ha.
  rewrite Forall_forall in H. apply H, Ha.
Qed.

Lemma tick_total (w : World.t) (inputs : list (Obj.t Input.t)) :
  Forall soundLoadout (State.entities (World.state w)) ->
  exists superseded w',
    World.tick w inputs = Some (superseded, w')
    /\ Forall soundLoadout (State.entities (World.state w')).
Proof.
  intros Hs.
  assert (H2 : Forall soundLoadout
                 (processMovement
                    (State.entities
                       (applyInputsShallow (World.state w) (World.mergeInputs inputs)
                          (World.dt w)))
                    (World.mergeInputs inputs) (World.dt w)
                    (State.tick
                       (applyInputsShallow (World.state w) (World.mergeInputs inputs)
                          (World.dt w))))).
  { eapply Forall2_soundLoadout; [apply processMovement_tickRel |].
    eapply Forall2_soundLoadout; [apply applyInputsShallow_tickRel |].
    apply Forall_filter_incl, Hs. }
  assert (Hex : exists r, World.tick w inputs = Some r).
  { unfold World.tick, World.handleWeaponCombat.
    destruct (updateReloads_total _ H2) as [l3 E3]. rewrite E3. cbn [bind].
    assert (H3 : Forall soundLoadout l3).
    { eapply Forall2_soundLoadout; [apply updateReloads_tickRel, E3 | exact H2]. }
    destruct (shootAll_total (World.mergeInputs inputs) l3 (World.prng w)
                (World.activeProjectiles w) H3) as [[[l4 p4] a4] E4].
    rewrite E4. cbn [bind].
    destruct (World.handleProjectiles l4 (World.dt w) p4 a4) as [[l5 p5] a5].
    eexists. reflexivity. }
  destruct Hex as [[old w'] E]. exists old, w'. split; [exact E |].
  eapply Forall2_soundLoadout; [apply (tick_tickRel w w' old inputs E) |].
  apply Forall_filter_incl, Hs.
Qed.

Lemma run_total (w : World.t) (inputs : list (list (Obj.t Input.t))) :
  Forall soundLoadout (State.entities (World.state w)) ->
  ~ In None (run w inputs) /\ List.length (run w inputs) = List.length inputs.
Proof.
  revert w. induction inputs as [| i rest IH]; intros w Hs; cbn [run].
  - split; [intros [] | reflexivity].
  - destruct (tick_total w i Hs) as (old & w' & E & Hs'). rewrite E.
    destruct (IH w' Hs') as [IH1 IH2]. split.
    + intros [C | C]; [discriminate | contradiction].
    + cbn [List.length]. rewrite IH2. reflexivity.
Qed.

(** X20: when the inventory of every player that has one has its active slot
    inside the weapon array and only weapons with a configuration,
    [World.tick] does not throw, whatever the inputs, and the committed
    state has that property again; so no tick of a run throws, however long
    the run. *)
Theorem X20_tick_never_throws (w : World.t) :
  Forall soundLoadout (State.entities (World.state w)) ->
  (forall inputs, exists superseded w',
      World.tick w inputs = Some (superseded, w')
      /\ Forall soundLoadout (State.entities (World.state w')))
  /\ (forall inputs : list (list (Obj.t Input.t)),
        Forall (fun o => o <> None) (run w inputs)
        /\ List.length (run w inputs) = List.length inputs).
Proof.
  intros Hs. split.
  - intros inputs. apply tick_total, Hs.
  - intros inputs. destruct (run_total w inputs Hs) as [H1 H2]. split; [| exact H2].
    apply Forall_forall. intros o Ho ->. contradiction.
Qed.

(** X21: if no active projectile of the world is hitscan and none has a
    lifetime above 120, then after [World.tick] every active projectile is
    live, is not hitscan and has a lifetime from 1 to 119. *)
Theorem X21_tick_projectiles_in_flight (w w' : World.t) (superseded : State.t)
    (inputs : list (Obj.t Input.t)) :
  World.tick w inputs = Some (superseded, w') ->
  Forall inFlight (World.activeProjectiles w) ->
  Forall (fun p => isLive p = true /\ Projectile.isHitscan p = false
                   /\ 0 < Projectile.lifetime p <= 119)
    (World.activeProjectiles w').
Proof.
  intros H Ha. apply tick_stages in H.
  destruct H as (l1 & l2 & l3 & l4 & prng3 & prng4 & active3
                 & -> & -> & Hc & Hp & _).
  apply handleWeaponCombat_facts in Hc. destruct Hc as [_ Hc]. specialize (Hc Ha).
  pose proof (handleProjectiles_facts l3 (World.dt w) prng3 active3) as Hh.
  cbv zeta in Hh. rewrite Hp in Hh. cbn [fst snd] in Hh. destruct Hh as [_ Hh].
  apply (Hh 120). eapply Forall_impl; [| exact Hc]. intros p [_ Hl]. exact Hl.
Qed.

End TickTheorems.

(** ** Determinism across runs

    The two worlds of the claim live in one store.  A tick of one world
    writes into the object that this world holds and makes a new object;
    it leaves the object of the other world alone, as long as the two
    worlds hold different objects. *)

Section RunFacts.

Context {host : Host}.

Lemma read_alloc_new (s : State.t) (h : Store.t) :
  Store.read (fst (Store.alloc s h)) (snd (Store.alloc s h)) = Some s.
Proof.
  unfold Store.read, Store.alloc. cbn [fst snd].
  rewrite nth_error_app2 by lia. rewrite Nat.sub_diag. reflexivity.
Qed.

Lemma read_alloc_old (s : State.t) (h : Store.t) (r : Store.ref) (v : State.t) :
  Store.read r h = Some v -> Store.read r (snd (Store.alloc s h)) = Some v.
Proof.
  unfold Store.read, Store.alloc. cbn [snd]. intros H.
  rewrite nth_error_app1; [exact H |]. apply nth_error_Some. congruence.
Qed.

Lemma read_lt (r : Store.ref) (h : Store.t) (v : State.t) :
  Store.read r h = Some v -> (r < List.length h)%nat.
Proof. unfold Store.read. intros H. apply nth_error_Some. congruence. Qed.

Lemma read_write_same (r : Store.ref) (s v : State.t) (h : Store.t) :
  Store.read r h = Some v -> Store.read r (Store.write r s h) = Some s.
Proof. intros H. apply nth_error_set. eapply read_lt, H. Qed.

Lemma read_write_other (r r' : Store.ref) (s : State.t) (h : Store.t) :
  r <> r' -> Store.read r (Store.write r' s h) = Store.read r h.
Proof.
  unfold Store.read, Store.write. revert r r'.
  induction h as [| a h IH]; intros r r' Hne; [destruct r'; reflexivity |].
  destruct r' as [| r']; destruct r as [| r]; cbn; try reflexivity; [contradiction |].
  apply IH. congruence.
Qed.

Lemma length_write (r : Store.ref) (s : State.t) (h : Store.t) :
  List.length (Store.write r s h) = List.length h.
Proof.
  unfold Store.write. revert r. induction h as [| a h IH]; intros r;
    [destruct r; reflexivity |].
  destruct r; cbn; [reflexivity | rewrite IH; reflexivity].
Qed.

Lemma over_holding (r : Store.ref) (w : World.t) :
  WorldRef.over (WorldRef.holding r w) (World.state w) = w.
Proof. destruct w. reflexivity. Qed.

Lemma tick_refines (a b : WorldRef.t) (w wb w' : World.t) (h : Store.t)
    (i : list (Obj.t Input.t)) (previous : State.t) :
  holds a w h -> holds b wb h -> WorldRef.state a <> WorldRef.state b ->
  World.tick w i = Some (previous, w') ->
  exists a' h',
    WorldRef.tick a i h = Some (a', h')
    /\ holds a' w' h' /\ holds b wb h'
    /\ WorldRef.state a' <> WorldRef.state b
    /\ observeHeld a' h' = Some (observe w').
Proof.
  intros [Ha1 Ha2] [Hb1 Hb2] Hne E.
  unfold WorldRef.tick. rewrite Ha1. cbn [bind]. rewrite Ha2, E. cbn [bind].
  set (h1 := Store.write (WorldRef.state a) previous h).
  pose proof (read_alloc_new (World.state w') h1) as Hnew.
  destruct (Store.alloc (World.state w') h1) as [next h2] eqn:Eal.
  cbn [fst snd] in Hnew.
  assert (Hb : Store.read (WorldRef.state b) h2 = Some (World.state wb)).
  { replace h2 with (snd (Store.alloc (World.state w') h1)) by (rewrite Eal; reflexivity).
    apply read_alloc_old. unfold h1. rewrite read_write_other by congruence. exact Hb1. }
  assert (Hnext : next = List.length h).
  { unfold Store.alloc in Eal. inversion Eal. unfold h1. apply length_write. }
  exists (WorldRef.holding next w'), h2. split; [reflexivity |].
  split; [split; [exact Hnew | apply over_holding] |].
  split; [split; [exact Hb | exact Hb2] |].
  split.
  - cbn [WorldRef.holding WorldRef.state]. apply read_lt in Hb1. lia.
  - unfold observeHeld. cbn [WorldRef.holding WorldRef.state].
    rewrite Hnew. cbn [option_map]. fold (WorldRef.holding next w').
    rewrite over_holding. reflexivity.
Qed.


Lemma new_holds (r : Store.ref) (s : State.t) (tickRate : Q) (seed : option Z)
    (h : Store.t) :
  Store.read r h = Some s ->
  exists a h',
    WorldRef.new (Some r) tickRate seed h = Some (a, h')
    /\ holds a (World.new (Some s) tickRate seed) h'
    /\ WorldRef.state a = r
    /\ List.length h' = List.length h
    /\ (forall b wb, WorldRef.state b <> r -> holds b wb h -> holds b wb h').
Proof.
  intros Hr. unfold WorldRef.new. rewrite Hr. cbn [bind].
  eexists. eexists. split; [reflexivity |].
  split; [split; [eapply read_write_same, Hr | apply over_holding] |].
  split; [reflexivity |]. split; [apply length_write |].
  intros b wb Hne [H1 H2]. split; [| exact H2].
  rewrite read_write_other by exact Hne. exact H1.
Qed.

Lemma alloc_holds (s : State.t) (h : Store.t) (b : WorldRef.t) (wb : World.t) :
  holds b wb h ->
  holds b wb (snd (Store.alloc s h)) /\ WorldRef.state b <> fst (Store.alloc s h).
Proof.
  intros [H1 H2]. split; [split; [apply read_alloc_old, H1 | exact H2] |].
  apply read_lt in H1. cbn. lia.
Qed.

Lemma firstn_nth_error {A : Type} (k n : nat) (l : list A) (x : A) :
  nth_error (firstn k l) n = Some x -> nth_error l n = Some x.
Proof.
  revert k l. induction n as [| n IH]; intros [| k] [| a l]; cbn; try discriminate.
  - intros H. exact H.
  - apply IH.
Qed.

(** The observation after the tick of index [n] of a run. *)
Lemma run_nth (w : World.t) (inputs : list (list (Obj.t Input.t))) (n : nat)
    (o : observation) :
  nth_error (run w inputs) n = Some (Some o) ->
  Snapshot.tick (snd o) = State.tick (World.state w) + Z.of_nat n + 1
  /\ fst (fst o) <> None.
Proof.
  revert w n. induction inputs as [| i rest IH]; intros w n; cbn [run].
  - destruct n; discriminate.
  - destruct (World.tick w i) as [[old w'] |] eqn:E.
    + apply tick_stages in E.
      destruct E as (l1 & l2 & l3 & l4 & p3 & p4 & a3 & _ & _ & _ & _ & _ & Ht & Hc & _).
      destruct n as [| n]; cbn [nth_error].
      * intros [= <-]. unfold observe, World.serialize. cbn [fst snd].
        unfold serializeSnapshot. cbn [Snapshot.tick]. rewrite Ht, Hc.
        split; [lia | discriminate].
      * intros H. apply IH in H. rewrite Ht in H. destruct H as [H1 H2].
        split; [lia | exact H2].
    + destruct n as [| [| n]]; discriminate.
Qed.

Lemma runBoth_refines (schedule : list bool) :
  forall (a b : WorldRef.t) (wa wb : World.t) (ia ib : list (list (Obj.t Input.t)))
         (h : Store.t),
    holds a wa h -> holds b wb h -> WorldRef.state a <> WorldRef.state b ->
    Forall soundLoadout (State.entities (World.state wa)) ->
    Forall soundLoadout (State.entities (World.state wb)) ->
    exists oa ob,
      runBoth schedule a b ia ib h = Some (oa, ob)
      /\ map Some oa = firstn (steps true schedule) (run wa ia)
      /\ map Some ob = firstn (steps false schedule) (run wb ib).
Proof.
  induction schedule as [| turn rest IH]; intros a b wa wb ia ib h Ha Hb Hne Sa Sb.
  - exists [], []. repeat split; reflexivity.
  - destruct turn; cbn [runBoth].
    + change (steps true (true :: rest)) with (S (steps true rest)).
      change (steps false (true :: rest)) with (steps false rest).
      destruct ia as [| i ia].
      * destruct (IH a b wa wb [] ib h Ha Hb Hne Sa Sb) as (oa & ob & E & H1 & H2).
        exists oa, ob. split; [exact E |]. split; [| exact H2].
        rewrite H1. cbn [run]. rewrite !firstn_nil. reflexivity.
      * destruct (tick_total wa i Sa) as (old & wa' & Et & Sa').
        destruct (tick_refines a b wa wb wa' h i old Ha Hb Hne Et)
          as (a' & h' & E1 & Ha' & Hb' & Hne' & Eo).
        rewrite E1. cbn [bind]. rewrite Eo. cbn [bind].
        destruct (IH a' b wa' wb ia ib h' Ha' Hb' Hne' Sa' Sb) as (oa & ob & E & H1 & H2).
        rewrite E. cbn [bind fst snd].
        exists (observe wa' :: oa), ob. split; [reflexivity |]. split; [| exact H2].
        cbn [run]. rewrite Et. cbn [firstn map]. rewrite H1. reflexivity.
    + change (steps false (false :: rest)) with (S (steps false rest)).
      change (steps true (false :: rest)) with (steps true rest).
      destruct ib as [| i ib].
      * destruct (IH a b wa wb ia [] h Ha Hb Hne Sa Sb) as (oa & ob & E & H1 & H2).
        exists oa, ob. split; [exact E |]. split; [exact H1 |].
        rewrite H2. cbn [run]. rewrite !firstn_nil. reflexivity.
      * destruct (tick_total wb i Sb) as (old & wb' & Et & Sb').
        destruct (tick_refines b a wb wa wb' h i old Hb Ha (not_eq_sym Hne) Et)
          as (b' & h' & E1 & Hb' & Ha' & Hne' & Eo).
        rewrite E1. cbn [bind]. rewrite Eo. cbn [bind].
        destruct (IH a b' wa wb' ia ib h' Ha' Hb' (not_eq_sym Hne') Sa Sb')
          as (oa & ob & E & H1 & H2).
        rewrite E. cbn [bind fst snd].
        exists oa, (observe wb' :: ob). split; [reflexivity |]. split; [exact H1 |].
        cbn [run]. rewrite Et. cbn [firstn map]. rewrite H2. reflexivity.
Qed.

Lemma runBoth_determined (schedule : list bool) (a b : WorldRef.t) (w : World.t)
    (inputs : list (list (Obj.t Input.t))) (h : Store.t) :
  holds a w h -> holds b w h -> WorldRef.state a <> WorldRef.state b ->
  Forall soundLoadout (State.entities (World.state w)) ->
  determined w inputs schedule (runBoth schedule a b inputs inputs h).
Proof.
  intros Ha Hb Hne Hs.
  destruct (runBoth_refines schedule a b w w inputs inputs h Ha Hb Hne Hs Hs)
    as (oa & ob & E & H1 & H2).
  destruct (run_total w inputs Hs) as [_ Hlen].
  exists oa, ob. split; [exact E |].
  assert (La : List.length oa = Nat.min (steps true schedule) (List.length inputs)).
  { rewrite <- (length_map Some oa), H1, length_firstn, Hlen. reflexivity. }
  assert (Lb : List.length ob = Nat.min (steps false schedule) (List.length inputs)).
  { rewrite <- (length_map Some ob), H2, length_firstn, Hlen. reflexivity. }
  assert (Na : forall n o, nth_error oa n = Some o ->
                           nth_error (run w inputs) n = Some (Some o)).
  { intros n o H. apply (firstn_nth_error (steps true schedule)). rewrite <- H1.
    rewrite nth_error_map, H. reflexivity. }
  assert (Nb : forall n o, nth_error ob n = Some o ->
                           nth_error (run w inputs) n = Some (Some o)).
  { intros n o H. apply (firstn_nth_error (steps false schedule)). rewrite <- H2.
    rewrite nth_error_map, H. reflexivity. }
  split; [exact La |]. split; [exact Lb |]. split; [| split; assumption].
  split.
  - intros n o1 o2 A B. apply Na in A. apply Nb in B. congruence.
  - intros n o [A | B]; [apply Na in A | apply Nb in B]; eapply run_nth; eassumption.
Qed.

Lemma independentRuns_determined (start : State.t) (tickRate : Q) (seed : option Z)
    (inputs : list (list (Obj.t Input.t))) (schedule : list bool) (h : Store.t) :
  Forall soundLoadout (State.entities start) ->
  determined (World.new (Some start) tickRate seed) inputs schedule
    (independentRuns start tickRate seed inputs schedule h).
Proof.
  intros Hs. unfold independentRuns.
  pose proof (read_alloc_new start h) as R1.
  destruct (Store.alloc start h) as [ra h1] eqn:A1. cbn [fst snd] in R1.
  destruct (new_holds ra start tickRate seed h1 R1) as (a & h2 & E1 & Ha & Ea & L2 & _).
  rewrite E1. cbn [bind].
  pose proof (read_alloc_new start h2) as R2.
  pose proof (alloc_holds start h2 a _ Ha) as [Ha3 Hne].
  destruct (Store.alloc start h2) as [rb h3] eqn:A2. cbn [fst snd] in R2, Ha3, Hne.
  destruct (new_holds rb start tickRate seed h3 R2) as (b & h4 & E2 & Hb & Eb & L4 & Hframe).
  rewrite E2. cbn [bind].
  apply runBoth_determined.
  - apply Hframe; [exact Hne | exact Ha3].
  - exact Hb.
  - rewrite Eb. exact Hne.
  - unfold World.new. cbn [State.rng]. destruct (State.rng start); exact Hs.
Qed.

Lemma createWorldRuns_independent (seed : option Z) (tickRate : option Q)
    (inputs : list (list (Obj.t Input.t))) (schedule : list bool) (h : Store.t) :
  createWorldRuns seed tickRate inputs schedule h
  = independentRuns (createState 0 seed)
      (match tickRate with Some r => r | None => 20%Q end) seed inputs schedule h.
Proof.
  unfold createWorldRuns, independentRuns, WorldRef.createWorld.
  destruct (Store.alloc (createState 0 seed) h) as [ra h1].
  destruct (WorldRef.new (Some ra) _ seed h1) as [[a h2] |]; [| reflexivity].
  cbn [bind]. reflexivity.
Qed.

(** C1.  Two worlds constructed independently with the same seed (and tick
    rate) and stepped through the same sequence of input-map arrays, in
    any order of turns and in one store with whatever else it holds, show
    after every tick the same checksum, the same [state.rng] and the same
    serialized state.  That is so for the worlds of [createWorld(seed)],
    and for worlds constructed on state objects of their own with the same
    content, provided the inventories of its players are sound, so that no
    tick throws.  Each world is observed after each of its ticks, the
    observation after the tick of index [n] has the tick number of the
    start plus [n + 1] and a checksum, and the observations are those of
    the world stepped alone. *)
Theorem C1_cross_run_determinism :
  (forall (seed : option Z) (tickRate : option Q)
          (inputs : list (list (Obj.t Input.t))) (schedule : list bool) (h : Store.t),
      determined (World.createWorld seed tickRate) inputs schedule
        (createWorldRuns seed tickRate inputs schedule h))
  /\ (forall (start : State.t) (tickRate : Q) (seed : option Z)
             (inputs : list (list (Obj.t Input.t))) (schedule : list bool) (h : Store.t),
         Forall soundLoadout (State.entities start) ->
         determined (World.new (Some start) tickRate seed) inputs schedule
           (independentRuns start tickRate seed inputs schedule h)).
Proof.
  split.
  - intros seed tickRate inputs schedule h. rewrite createWorldRuns_independent.
    apply (independentRuns_determined (createState 0 seed)). constructor.
  - intros start tickRate seed inputs schedule h. apply independentRuns_determined.
Qed.


End RunFacts.

(** ** World.mergeInputs *)

Lemma Obj_set_keys_in {A : Type} (k k' : string) (v : A) (o : Obj.t A) :
  In k' (Obj.keys (Obj.set k v o)) <-> k' = k \/ In k' (Obj.keys o).
Proof.
  unfold Obj.keys. induction o as [| [k0 v0] r IH]; cbn.
  - intuition congruence.
  - destruct (String.eqb k k0) eqn:E; cbn.
    + apply String.eqb_eq in E. subst k0. intuition congruence.
    + rewrite IH. intuition congruence.
Qed.

Lemma Obj_set_NoDup {A : Type} (k : string) (v : A) (o : Obj.t A) :
  NoDup (Obj.keys o) -> NoDup (Obj.keys (Obj.set k v o)).
Proof.
  unfold Obj.keys. induction o as [| [k0 v0] r IH]; cbn; intros H.
  - constructor; [intros [] | constructor].
  - inversion H as [| ? ? Hn Hr]; subst.
    destruct (String.eqb k k0) eqn:E; cbn.
    + apply String.eqb_eq in E. subst k0. constructor; assumption.
    + constructor; [| apply IH, Hr].
      intros C. apply (Obj_set_keys_in k k0 v r) in C. destruct C as [C | C].
      * subst. rewrite String.eqb_refl in E. discriminate.
      * apply Hn, C.
Qed.

Lemma Obj_get_none {A : Type} (k : string) (o : Obj.t A) :
  ~ In k (Obj.keys o) -> Obj.get k o = None.
Proof.
  unfold Obj.keys. induction o as [| [k0 v0] r IH]; cbn; intros H; [reflexivity |].
  destruct (String.eqb_spec k k0) as [-> | Hne]; [exfalso; apply H; left; reflexivity |].
  apply IH. intros C. apply H. right. exact C.
Qed.

(** The inner loop of [mergeInputs]: [for (const k of Object.keys(map)) out[k] = map[k]]. *)
Lemma merge_one_get (map out : Obj.t Input.t) (k : string) :
  NoDup (Obj.keys map) ->
  Obj.get k (fold_left (fun out kv => Obj.set (fst kv) (snd kv) out) map out)
  = match Obj.get k map with
    | Some v => Some v
    | None => Obj.get k out
    end.
Proof.
  revert out. induction map as [| [k0 v0] r IH]; intros out H; cbn [fold_left Obj.get fst snd].
  - reflexivity.
  - unfold Obj.keys in H. cbn in H. inversion H as [| ? ? Hn Hr]; subst.
    rewrite (IH _ Hr).
    destruct (String.eqb_spec k k0) as [-> | Hne].
    + rewrite (Obj_get_none k0 r Hn). apply Obj_get_set_same.
    + destruct (Obj.get k r); [reflexivity |]. apply Obj_get_set_other, Hne.
Qed.

Lemma merge_one_NoDup (map out : Obj.t Input.t) :
  NoDup (Obj.keys out) ->
  NoDup (Obj.keys (fold_left (fun out kv => Obj.set (fst kv) (snd kv) out) map out)).
Proof.
  revert out. induction map as [| [k0 v0] r IH]; intros out H; cbn [fold_left]; [exact H |].
  apply IH, Obj_set_NoDup, H.
Qed.

Lemma mergeInputs_snoc (inputs : list (Obj.t Input.t)) (map : Obj.t Input.t) :
  World.mergeInputs (inputs ++ [map])
  = fold_left (fun out kv => Obj.set (fst kv) (snd kv) out) map (World.mergeInputs inputs).
Proof. unfold World.mergeInputs. rewrite fold_left_app. reflexivity. Qed.

Lemma mergeInputs_NoDup (inputs : list (Obj.t Input.t)) :
  NoDup (Obj.keys (World.mergeInputs inputs)).
Proof.
  induction inputs as [| m rest IH] using rev_ind.
  - constructor.
  - rewrite mergeInputs_snoc. apply merge_one_NoDup, IH.
Qed.

(** X22: [mergeInputs] looks a client id up in the last input map (whose
    keys are distinct) and, when it is absent there, in the merge of the
    earlier maps: the later map wins. The merged map has distinct keys, and
    merging no map gives the empty map. *)
Theorem X22_mergeInputs_later_map_wins (inputs : list (Obj.t Input.t))
    (map : Obj.t Input.t) (clientId : string) :
  NoDup (Obj.keys map) ->
  Obj.get clientId (World.mergeInputs (inputs ++ [map]))
  = match Obj.get clientId map with
    | Some input => Some input
    | None => Obj.get clientId (World.mergeInputs inputs)
    end
  /\ NoDup (Obj.keys (World.mergeInputs (inputs ++ [map])))
  /\ World.mergeInputs [] = [].
Proof.
  intros H. split; [| split; [apply mergeInputs_NoDup | reflexivity]].
  rewrite mergeInputs_snoc. apply merge_one_get, H.
Qed.

(** ** processMovement and the other entities *)

Lemma indexed_from_nth {A : Type} (l : list A) (start i : nat) (a : A) :
  In (i, a) (combine (seq start (List.length l)) l) ->
  (start <= i)%nat /\ nth_error l (i - start) = Some a.
Proof.
  revert start. induction l as [| b l IH]; intros start; cbn; [intros [] |].
  intros [[= <- <-] | H].
  - split; [lia |]. rewrite Nat.sub_diag. reflexivity.
  - apply IH in H. destruct H as [Hle Hn]. split; [lia |].
    replace (i - start)%nat with (S (i - S start)) by lia. exact Hn.
Qed.

Lemma indexed_nth {A : Type} (l : list A) (i : nat) (a : A) :
  In (i, a) (indexed l) -> nth_error l i = Some a.
Proof.
  unfold indexed. intros H. apply indexed_from_nth in H. destruct H as [_ H].
  rewrite Nat.sub_0_r in H. exact H.
Qed.

Section MovementFrame.

Context {host : Host}.

Lemma sortedPlayers_are_players (l : list Entity.t) (i : nat) :
  In i (sortedPlayers l) -> exists p, nth_error l i = Some p /\ isPlayer p = true.
Proof.
  unfold sortedPlayers. intros H. apply in_map_iff in H. destruct H as ([j p] & <- & H).
  cbn [fst]. eapply Permutation_in in H; [| apply Permutation_sym, sort_perm].
  apply filter_In in H. destruct H as [H Hp]. cbn [snd] in Hp.
  exists p. split; [apply indexed_nth, H | exact Hp].
Qed.

Lemma onlyPlayersMoved_refl (e : Entity.t) : onlyPlayersMoved e e.
Proof. unfold onlyPlayersMoved. tauto. Qed.

Lemma movePlayer_frame (inputs : Obj.t Input.t) (dt : Q) (worldTick : Z)
    (l lk : list Entity.t) (i : nat) :
  (exists p, nth_error l i = Some p /\ isPlayer p = true) ->
  Forall2 onlyPlayersMoved l lk ->
  Forall2 onlyPlayersMoved l (movePlayer inputs dt worldTick lk i).
Proof.
  intros (p & Hp & Hpl) H. unfold movePlayer.
  destruct (Arr.get i lk) as [q |] eqn:Eq; [| exact H].
  set (q' := stepPlayer q _ dt worldTick _). 
  assert (Hq : Entity.type q' = Entity.type q).
  { destruct (stepPlayer_tickRel q
                match Obj.get (Entity.id q) inputs with
                | Some input => input
                | None => defaultInput (Entity.id q)
                end dt worldTick (filter isGroundEntity lk)) as (_ & Ht & _).
    exact Ht. }
  clearbody q'. revert i Hp Eq.
  induction H as [| a b l lk Hab Hl IH]; intros i Hp Eq; destruct i; cbn in *;
    try discriminate.
  - injection Hp as ->. injection Eq as ->. constructor; [| exact Hl].
    destruct Hab as [Ht _]. split; [congruence |].
    intros C. congruence.
  - constructor; [exact Hab | apply IH; assumption].
Qed.

Lemma processMovement_frame (l : list Entity.t) (inputs : Obj.t Input.t) (dt : Q)
    (worldTick : Z) :
  Forall2 onlyPlayersMoved l (processMovement l inputs dt worldTick).
Proof.
  unfold processMovement.
  assert (G : forall (todo : list nat) (lk : list Entity.t),
             (forall i, In i todo -> exists p, nth_error l i = Some p /\ isPlayer p = true) ->
             Forall2 onlyPlayersMoved l lk ->
             Forall2 onlyPlayersMoved l (fold_left (movePlayer inputs dt worldTick) todo lk)).
  { induction todo as [| i todo IH]; intros lk Hin H; cbn [fold_left]; [exact H |].
    apply IH; [intros j Hj; apply Hin; right; exact Hj |].
    apply movePlayer_frame; [apply Hin; left; reflexivity | exact H]. }
  apply G; [apply sortedPlayers_are_players | apply Forall2_refl, onlyPlayersMoved_refl].
Qed.

(** X23: [processMovement] keeps the length of the entity array and the type
    at every index, and leaves every entity that is not a player unchanged
    at its index. *)
Theorem X23_processMovement_moves_only_players (entities : list Entity.t)
    (inputs : Obj.t Input.t) (dt : Q) (worldTick : Z) :
  List.length (processMovement entities inputs dt worldTick) = List.length entities
  /\ map Entity.type (processMovement entities inputs dt worldTick)
     = map Entity.type entities
  /\ (forall i e, nth_error entities i = Some e -> isPlayer e = false ->
        nth_error (processMovement entities inputs dt worldTick) i = Some e).
Proof.
  pose proof (processMovement_frame entities inputs dt worldTick) as H.
  split; [symmetry; eapply Forall2_length; exact H |]. split.
  - induction H as [| a b l l' [Ht _] Hl IH]; cbn; [reflexivity |]. rewrite Ht, IH. reflexivity.
  - intros i e. revert i. induction H as [| a b l l' [_ Hab] Hl IH]; intros i; destruct i;
      cbn; try discriminate.
    + intros [= ->] Hp. rewrite (Hab Hp). reflexivity.
    + apply IH.
Qed.

End MovementFrame.

(** ** A zero seed, spawning, the score sheets, the match tick *)

Lemma afterDraws_zero (n : nat) (p : PRNG.t) :
  Js.toInt32 (PRNG.state p) = 0 -> PRNG.state (afterDraws n p) = 0 \/ (n = O).
Proof.
  intros H. destruct n as [| n]; [right; reflexivity | left].
  induction n as [| n IH].
  - cbn [afterDraws Nat.iter]. destruct (next_zero_state p) as (_ & _ & Z0 & _).
    cbv zeta in Z0. apply Z0, H.
  - change (afterDraws (S (S n)) p) with (snd (PRNG.next (afterDraws (S n) p))).
    destruct (next_zero_state (afterDraws (S n) p)) as (_ & _ & Z0 & _).
    cbv zeta in Z0. apply Z0. rewrite IH. reflexivity.
Qed.

(** X24: the PRNG of a world made by [createWorld(seed)] with a seed that is
    0 modulo 2^32, 0 itself included, is stuck at zero: after any number of
    draws [next] returns 0, [nextFloat] returns 0 and [nextInt(min, max)]
    returns [min]. *)
Theorem X24_zero_seed_world_draws_only_zero (seed : Z) (tickRate : option Q) (n : nat) :
  Js.toInt32 seed = 0 ->
  let prng := afterDraws n (World.prng (World.createWorld (Some seed) tickRate)) in
  fst (PRNG.next prng) = 0
  /\ fst (PRNG.nextFloat prng) = (0 # 4294967295)%Q
  /\ forall min max, fst (PRNG.nextInt min max prng) = min.
Proof.
  intros H. cbv zeta.
  assert (Hp : World.prng (World.createWorld (Some seed) tickRate) = PRNG.mk seed).
  { unfold World.createWorld, World.new, createState. cbn. reflexivity. }
  rewrite Hp.
  assert (Hz : Js.toInt32 (PRNG.state (afterDraws n (PRNG.mk seed))) = 0).
  { destruct (afterDraws_zero n (PRNG.mk seed) H) as [E | ->]; [rewrite E; reflexivity |].
    exact H. }
  set (q := afterDraws n (PRNG.mk seed)) in *.
  destruct (next_zero_state q) as (_ & _ & _ & Z1). apply Z1 in Hz.
  assert (Hf : fst (PRNG.nextFloat q) = (0 # 4294967295)%Q).
  { unfold PRNG.nextFloat. destruct (PRNG.next q) as [v q']. cbn [fst] in *. subst v.
    reflexivity. }
  split; [exact Hz |]. split; [exact Hf |].
  intros min max. unfold PRNG.nextInt. destruct (PRNG.nextFloat q) as [f q'].
  cbn [fst] in *. subst f. unfold Js.floor.
  assert (E : ((0 # 4294967295) * inject_Z (max - min + 1) == inject_Z 0)%Q).
  { unfold Qeq. cbn. lia. }
  rewrite (Qfloor_comp _ _ E), Qfloor_Z. lia.
Qed.

Section SpawnRefusal.

Context {host : Host}.

Local Open Scope Q_scope.

Lemma canSpawnAt_app (l1 l2 : list Entity.t) (x y radius : Q) :
  SpawnSystem.canSpawnAt (l1 ++ l2) x y radius
  = SpawnSystem.canSpawnAt l1 x y radius && SpawnSystem.canSpawnAt l2 x y radius.
Proof.
  induction l1 as [| e l1 IH]; cbn [SpawnSystem.canSpawnAt app]; [reflexivity |].
  destruct (_ || _); [| exact IH].
  destruct (Js.ltb _ radius); [reflexivity | exact IH].
Qed.

(** X25: on a host whose square root of 0 is below 1, the spawn point is
    occupied after [spawnPlayer], whether the spawn succeeded or was
    refused: [canSpawnAt] with radius 1 is false there, and a further
    [spawnPlayer] at the point is refused and leaves the entities as they
    are. A refused spawn changes nothing. *)
Theorem X25_spawnPlayer_occupies_its_point (entities : list Entity.t)
    (playerId other : string) (spawnPoint : SpawnPoint) :
  (forall q, q == 0 -> Js.ltb (Math_sqrt q) 1 = true) ->
  let entities' := snd (SpawnSystem.spawnPlayer entities playerId spawnPoint) in
  SpawnSystem.canSpawnAt entities' (sp_x spawnPoint) (sp_y spawnPoint) 1 = false
  /\ SpawnSystem.spawnPlayer entities' other spawnPoint = (false, entities')
  /\ (fst (SpawnSystem.spawnPlayer entities playerId spawnPoint) = false ->
      entities' = entities).
Proof.
  intros Hsqrt. cbv zeta.
  assert (Hocc : SpawnSystem.canSpawnAt
                   (snd (SpawnSystem.spawnPlayer entities playerId spawnPoint))
                   (sp_x spawnPoint) (sp_y spawnPoint) 1 = false).
  { unfold SpawnSystem.spawnPlayer.
    destruct (SpawnSystem.canSpawnAt entities (sp_x spawnPoint) (sp_y spawnPoint) 1) eqn:E;
      cbn [negb snd]; [| exact E].
    rewrite canSpawnAt_app, E. cbn [andb SpawnSystem.canSpawnAt Entity.type EntityType_eqb
                                    orb Entity.x Entity.y].
    rewrite Hsqrt; [reflexivity |]. ring. }
  split; [exact Hocc |]. split.
  - unfold SpawnSystem.spawnPlayer at 1. rewrite Hocc. reflexivity.
  - unfold SpawnSystem.spawnPlayer.
    destruct (negb (SpawnSystem.canSpawnAt entities _ _ 1)); [reflexivity | discriminate].
Qed.

End SpawnRefusal.

Lemma total_cons (f : PlayerMatchState.t -> Z) (k : string) (v : PlayerMatchState.t)
    (r : Obj.t PlayerMatchState.t) :
  columnTotal f ((k, v) :: r) = f v + columnTotal f r.
Proof. reflexivity. Qed.

Lemma total_set (f : PlayerMatchState.t -> Z) (k : string) (a b : PlayerMatchState.t)
    (o : Obj.t PlayerMatchState.t) :
  Obj.get k o = Some a ->
  columnTotal f (Obj.set k b o) = columnTotal f o - f a + f b
  /\ Obj.keys (Obj.set k b o) = Obj.keys o.
Proof.
  unfold Obj.keys. induction o as [| [k0 v0] r IH]; cbn [Obj.get Obj.set]; [discriminate |].
  destruct (String.eqb k k0) eqn:E.
  - intros [= ->]. apply String.eqb_eq in E. subst k0.
    rewrite !total_cons. cbn [map fst]. split; [lia | reflexivity].
  - intros H. destruct (IH H) as [IH1 IH2].
    rewrite !total_cons, IH1. cbn [map fst]. rewrite IH2. split; [lia | reflexivity].
Qed.

Lemma Obj_get_keys {A : Type} (k : string) (o o' : Obj.t A) :
  Obj.keys o' = Obj.keys o ->
  Obj.get k o = None -> Obj.get k o' = None.
Proof.
  unfold Obj.keys. revert o'.
  induction o as [| [k0 v0] r IH]; intros [| [k1 v1] r']; cbn [map fst Obj.get];
    try discriminate; [reflexivity |].
  intros [= -> Hr]. destruct (String.eqb k k0); [discriminate |]. apply IH, Hr.
Qed.

Lemma updateSheet_total (f : PlayerMatchState.t -> Z) (id : string)
    (g : PlayerMatchState.t -> PlayerMatchState.t) (o o' : Obj.t PlayerMatchState.t) :
  MatchRunner.updateSheet id g o = Some o' ->
  columnTotal f o'
  = columnTotal f o
    + match Obj.get id o with Some a => f (g a) - f a | None => 0 end
  /\ Obj.keys o' = Obj.keys o.
Proof.
  unfold MatchRunner.updateSheet.
  destruct (Obj.get id o) as [a |] eqn:E.
  - intros [= <-]. destruct (total_set f id a (g a) o E) as [H1 H2].
    rewrite H1. split; [lia | exact H2].
  - destruct (Obj.inherited id); [| discriminate].
    intros [= <-]. split; [lia | reflexivity].
Qed.

(** X26: when [handlePlayerKill] does not throw, the kills summed over the
    score sheets go up by 1 if the killer has a score sheet and stay
    otherwise, the deaths summed over them go up by 1 if the victim has
    one, and the summed score changes by 100 for a killer with a sheet less
    50 for a victim with one: by 1, 1 and 50 when both have a sheet, also
    when the killer is the victim.  The players of the score sheets are
    the same. *)
Theorem X26_handlePlayerKill_totals (playerStates playerStates' : Obj.t PlayerMatchState.t)
    (killerId victimId : string) :
  MatchRunner.handlePlayerKill playerStates killerId victimId = Some playerStates' ->
  let killer := sheetCount killerId playerStates in
  let victim := sheetCount victimId playerStates in
  columnTotal PlayerMatchState.kills playerStates'
  = columnTotal PlayerMatchState.kills playerStates + killer
  /\ columnTotal PlayerMatchState.deaths playerStates'
     = columnTotal PlayerMatchState.deaths playerStates + victim
  /\ columnTotal PlayerMatchState.score playerStates'
     = columnTotal PlayerMatchState.score playerStates + 100 * killer - 50 * victim
  /\ Obj.keys playerStates' = Obj.keys playerStates.
Proof.
  intros E killer victim. revert E. unfold MatchRunner.handlePlayerKill.
  destruct (MatchRunner.updateSheet killerId _ playerStates) as [m1 |] eqn:E1;
    cbn [bind]; [| discriminate].
  intros E2.
  destruct (updateSheet_total PlayerMatchState.kills _ _ _ _ E1) as [K1 K0].
  destruct (updateSheet_total PlayerMatchState.deaths _ _ _ _ E1) as [D1 _].
  destruct (updateSheet_total PlayerMatchState.score _ _ _ _ E1) as [S1 _].
  destruct (updateSheet_total PlayerMatchState.kills _ _ _ _ E2) as [K2 K3].
  destruct (updateSheet_total PlayerMatchState.deaths _ _ _ _ E2) as [D2 _].
  destruct (updateSheet_total PlayerMatchState.score _ _ _ _ E2) as [S2 _].
  assert (Hv : sheetCount victimId m1 = victim).
  { unfold victim, sheetCount.
    destruct (Obj.get victimId playerStates) eqn:Ea;
      destruct (Obj.get victimId m1) eqn:Eb; try reflexivity.
    - rewrite (Obj_get_keys victimId m1 playerStates (eq_sym K0) Eb) in Ea. discriminate.
    - rewrite (Obj_get_keys victimId playerStates m1 K0 Ea) in Eb. discriminate. }
  rewrite K2, D2, S2, K3, K1, D1, S1, K0.
  subst killer victim. unfold sheetCount in *.
  destruct (Obj.get killerId playerStates) as [ks |];
    destruct (Obj.get victimId m1) as [vs |];
    destruct (Obj.get victimId playerStates) as [vs0 |];
    try discriminate Hv; cbn; repeat split; lia.
Qed.

Lemma updatePlayerStates_keys (players : list string) (entities : list Entity.t)
    (m m' : Obj.t PlayerMatchState.t) :
  MatchRunner.updatePlayerStates players entities m = Some m' ->
  Obj.keys m' = Obj.keys m.
Proof.
  revert m. induction players as [| p rest IH]; intros m;
    cbn [MatchRunner.updatePlayerStates].
  - intros [= <-]. reflexivity.
  - destruct (Arr.find _ entities) as [e |]; [| apply IH].
    destruct (Js.gtb (Entity.hp e) 0); [| apply IH].
    destruct (MatchRunner.updateSheet p _ m) as [m1 |] eqn:Eg; cbn [bind];
      [| discriminate].
    intros H. apply IH in H. rewrite H.
    apply (updateSheet_total PlayerMatchState.kills _ _ _ _ Eg).
Qed.

Section ProcessTickFacts.

Context {host : Host}.

(** X27: [MatchRunner.processTick] advances the world by one tick, writes
    the state that the PRNG of the match has before it is advanced into the
    [rng] of the world state, and advances that PRNG once. The stored
    [lastChecksum] is the checksum of the state with the [rng] that it had
    before the tick, not the one that it holds afterwards. The score sheets
    keep their players. *)
Theorem X27_processTick_overwrites_rng (r r' : MatchRunner.t)
    (inputs : list (Obj.t Input.t)) :
  MatchRunner.processTick r inputs = Some r' ->
  let s := World.state (MatchRunner.world r) in
  let s' := World.state (MatchRunner.world r') in
  State.rng s' = Some (PRNG.getState (MatchRunner.prng r))
  /\ MatchRunner.prng r' = snd (PRNG.next (MatchRunner.prng r))
  /\ State.tick s' = State.tick s + 1
  /\ State.lastChecksum s'
     = Some (computeStateChecksum (World.set_rng (State.rng s) s'))
  /\ Obj.keys (MatchRunner.playerStates r') = Obj.keys (MatchRunner.playerStates r).
Proof.
  unfold MatchRunner.processTick.
  destruct (World.tick (MatchRunner.world r) inputs) as [[old w] |] eqn:Et; cbn [bind];
    [| discriminate].
  destruct (MatchRunner.updatePlayerStates _ _ _) as [ps |] eqn:Eu; cbn [bind];
    [| discriminate].
  intros [= <-]. cbv zeta. cbn [MatchRunner.world MatchRunner.prng MatchRunner.playerStates
                                World.state snd].
  pose proof (tick_rng _ _ _ _ Et) as [Hrng _].
  apply tick_stages in Et.
  destruct Et as (l1 & l2 & l3 & l4 & prng3 & prng4 & active3
                  & _ & _ & _ & _ & _ & Ht & Hc & _).
  split; [reflexivity |]. split; [reflexivity |]. split; [exact Ht |]. split.
  - cbn [State.lastChecksum World.set_rng]. rewrite Hc.
    unfold computeStateChecksum. cbn [State.tick State.entities State.rng World.set_rng].
    rewrite Hrng. reflexivity.
  - apply updatePlayerStates_keys in Eu. exact Eu.
Qed.

End ProcessTickFacts.

(** ** Weapon helpers; the shape of the checksum *)

Lemma known_config_ammoPerShot (id : string) (c : WeaponConfig) :
  getWeaponConfig id = Some c -> 0 <= ammoPerShot (stats c) <= 1.
Proof.
  unfold getWeaponConfig, WEAPON_CONFIGS. cbn [Obj.get].
  repeat (destruct (String.eqb id _); [intros [= <-]; cbn; lia |]).
  discriminate.
Qed.

(** X28: [updateWeaponState] counts a reload down as [updateReload] does for
    the active weapon, with the same reloading flag and ticks remaining
    afterwards, but never refills the magazine; and whenever
    [shouldAutoReload] holds of the active weapon, [canFire] and
    [canFireWeapon] are false. *)
Theorem X28_weapon_helpers_agree_with_inventory (inv : Inventory.t) (w : WeaponState)
    (c : WeaponConfig) :
  getActiveWeapon inv = Some w ->
  getWeaponConfig (weaponId w) = Some c ->
  (exists inv' w',
      updateReload inv = Some inv'
      /\ getActiveWeapon inv' = Some w'
      /\ isReloading (updateWeaponState w) = isReloading w'
      /\ reloadTicksRemaining (updateWeaponState w) = reloadTicksRemaining w'
      /\ currentAmmo (updateWeaponState w) = currentAmmo w)
  /\ (shouldAutoReload w c = true ->
      canFire w c = false /\ canFireWeapon inv = Some false).
Proof.
  intros Ew Ec. split.
  - unfold updateReload, updateWeaponState. rewrite Ew. cbn [bind].
    destruct (isReloading w) eqn:Er; cbn [negb].
    + destruct (reloadTicksRemaining w - 1 <=? 0).
      * rewrite Ec. cbn [bind]. eexists. eexists.
        split; [reflexivity |].
        split; [apply (getActive_setActive inv w); assumption |].
        cbn. repeat split.
      * eexists. eexists. split; [reflexivity |].
        split; [apply (getActive_setActive inv w); assumption |].
        cbn. repeat split.
    + exists inv, w. repeat split; assumption.
  - intros H. pose proof (known_config_ammoPerShot _ _ Ec) as Ha.
    rewrite (canFireWeapon_spec inv w c Ew Ec).
    unfold shouldAutoReload, canFire in *.
    destruct (isReloading w); [discriminate |].
    destruct (Z.eqb_spec (ammoPerShot (stats c)) 0); [discriminate |].
    apply Z.eqb_eq in H. rewrite H.
    destruct (Z.geb_spec 0 (ammoPerShot (stats c))); [lia |]. split; reflexivity.
Qed.

Lemma hexDigit_isHex (d : Z) : 0 <= d < 16 -> isHexDigit (Json.hexDigit d) = true.
Proof.
  intros H.
  assert (C : d = 0 \/ d = 1 \/ d = 2 \/ d = 3 \/ d = 4 \/ d = 5 \/ d = 6 \/ d = 7
              \/ d = 8 \/ d = 9 \/ d = 10 \/ d = 11 \/ d = 12 \/ d = 13 \/ d = 14
              \/ d = 15) by lia.
  repeat (destruct C as [-> | C]; [reflexivity |]). subst. reflexivity.
Qed.

Lemma hexLoop_shape (fuel : nat) (n k : Z) (acc : string) :
  (0 < fuel)%nat -> 0 <= n < 16 ^ k -> 1 <= k -> allHex acc = true ->
  let s := hexLoop fuel n acc in
  allHex s = true
  /\ (String.length acc + 1 <= String.length s)%nat
  /\ Z.of_nat (String.length s) <= Z.of_nat (String.length acc) + k.
Proof.
  revert n k acc. induction fuel as [| fuel IH]; intros n k acc Hf Hn Hk Hacc; [lia |].
  cbn [hexLoop].
  assert (Hd : isHexDigit (Json.hexDigit (n mod 16)) = true).
  { apply hexDigit_isHex. apply Z.mod_pos_bound. lia. }
  set (acc' := String (Json.hexDigit (n mod 16)) acc).
  assert (Hacc' : allHex acc' = true) by (cbn; rewrite Hd, Hacc; reflexivity).
  destruct (Z.eqb_spec (n / 16) 0) as [Hz | Hnz].
  - cbv zeta. split; [exact Hacc' |]. cbn [String.length acc']. split; lia.
  - destruct fuel as [| fuel'].
    + cbn [hexLoop]. cbv zeta. split; [exact Hacc' |]. cbn [String.length acc']. split; lia.
    + assert (Hk2 : 2 <= k).
      { destruct (Z.eq_dec k 1) as [-> | ?]; [| lia].
        exfalso. apply Hnz. apply Z.div_small. lia. }
      assert (Hq : 0 <= n / 16 < 16 ^ (k - 1)).
      { split; [apply Z.div_pos; lia |].
        apply Z.div_lt_upper_bound; [lia |].
        replace (16 * 16 ^ (k - 1)) with (16 ^ k); [lia |].
        replace k with (Z.succ (k - 1)) at 1 by lia. rewrite Z.pow_succ_r by lia. reflexivity. }
      destruct (IH (n / 16) (k - 1) acc' ltac:(lia) Hq ltac:(lia) Hacc') as (A & B & C).
      cbv zeta in *. split; [exact A |]. cbn [String.length acc'] in B, C. split; lia.
Qed.

Section ChecksumShape.

Context {host : Host}.

(** X29: [computeStateChecksum] returns one to eight lowercase hexadecimal
    digits, without padding, for every state. *)
Theorem X29_checksum_is_short_hex (state : State.t) :
  let s := computeStateChecksum state in
  allHex s = true /\ (1 <= String.length s <= 8)%nat.
Proof.
  cbv zeta. unfold computeStateChecksum, hashState, toString16.
  set (json := Json.stringify _).
  pose proof (fnv1aHash_range json) as Hr.
  destruct (hexLoop_shape (S (Z.to_nat (Z.log2 (fnv1aHash json)))) (fnv1aHash json) 8
              EmptyString ltac:(lia) Hr ltac:(lia) eq_refl) as (A & B & C).
  cbv zeta in *. cbn [String.length] in B, C. split; [exact A |]. lia.
Qed.

End ChecksumShape.

(** ** The properties above on the examples *)

Lemma X3_nextInt_range_witness :
  1 <= 6 /\ 1 <= randomInt 12345 1 6 <= 6 + 1.
Proof.
  assert (H : 1 <= 6) by lia.
  exact (conj H (proj2 (X3_nextInt_range 1 6 H) 12345)).
Defined.

Lemma X1_seeded_draws_never_zero_witness :
  - Js.two31 <= 12345 < Js.two31 /\ (0 < randomFloat 12345 <= 1)%Q.
Proof.
  assert (H : - Js.two31 <= 12345 < Js.two31) by (unfold Js.two31; lia).
  exact (conj H (proj2 (X1_seeded_draws_never_zero 12345 H))).
Defined.

Lemma X7_applyInputsShallow_ignores_absent_clients_witness :
  applyInputsShallow lootState ghostInputs (1 # 20)
  = applyInputsShallow lootState [] (1 # 20).
Proof.
  apply X7_applyInputsShallow_ignores_absent_clients.
  intros clientId input e [E | []] He. inversion E; subst.
  destruct He as [<- | [<- | []]]; reflexivity.
Defined.

Lemma wellFormed_createDefaultInventory : wellFormedInventory createDefaultInventory.
Proof.
  split; [cbn; lia |].
  repeat constructor; eexists; reflexivity.
Qed.

Lemma wellFormed_rifleInHand : wellFormedInventory rifleInHand.
Proof.
  split; [cbn; lia |].
  repeat constructor; eexists; reflexivity.
Qed.

Lemma X8_inventory_operations_never_throw_witness :
  wellFormedInventory rifleInHand
  /\ exists inv', fireWeapon rifleInHand = Some inv' /\ wellFormedInventory inv'.
Proof.
  split; [exact wellFormed_rifleInHand |].
  exact (proj1 (proj2 (X8_inventory_operations_never_throw rifleInHand
                         wellFormed_rifleInHand))).
Defined.

Lemma X9_updateReload_conserves_ammo_witness :
  exists inv' w',
    updateReload (whileReloading rifleInHand rifle10 1) = Some inv'
    /\ getActiveWeapon inv' = Some w'
    /\ currentAmmo w' + reserveOf inv' "ar_standard" = 10 + 90.
Proof.
  destruct (X9_updateReload_conserves_ammo (whileReloading rifleInHand rifle10 1)
              {| weaponId := "ar_standard"; currentAmmo := 10;
                 isReloading := true; reloadTicksRemaining := 1 |}
              rifleConfig eq_refl eq_refl)
    as (inv' & w' & E1 & E2 & _ & E3 & _).
  exists inv', w'. split; [exact E1 |]. split; [exact E2 | exact E3].
Defined.

Lemma X10_reload_takes_reloadTime_ticks_witness :
  exists started finished w',
    startReload rifleInHand = Some started
    /\ updateReloadTimes 60 started = Some finished
    /\ getActiveWeapon finished = Some w'
    /\ isReloading w' = false
    /\ currentAmmo w' = 10 + Z.min (30 - 10) 90.
Proof.
  assert (Hn : currentAmmo rifle10 <> magazineSize (stats rifleConfig))
    by (cbn; lia).
  assert (Hr : 0 < reserveOf rifleInHand (weaponId rifle10)) by (cbn; lia).
  destruct (X10_reload_takes_reloadTime_ticks rifleInHand rifle10 rifleConfig 59
              eq_refl eq_refl eq_refl Hn Hr eq_refl)
    as (started & E1 & _ & finished & w' & E2 & E3 & E4 & E5).
  exists started, finished, w'.
  split; [exact E1 |]. split; [exact E2 |]. split; [exact E3 |].
  split; [exact E4 | exact E5].
Defined.

Lemma X11_addWeapon_adds_once_witness :
  getWeaponConfig "sniper_bolt" = Some
    {| wc_id := "sniper_bolt"; wc_type := Sniper;
       stats := {| damage := 100; rpm := 40; spread := 1 # 100;
                   projectileSpeed := 80; pellets := 1; range := 200;
                   headshotMultiplier := 2; ammoPerShot := 1;
                   magazineSize := 5; reloadTime := 100 |} |}
  /\ addWeapon (addWeapon createDefaultInventory "sniper_bolt") "sniper_bolt"
     = addWeapon createDefaultInventory "sniper_bolt".
Proof.
  split; [reflexivity |].
  exact (proj1 (proj2 (X11_addWeapon_adds_once createDefaultInventory "sniper_bolt" _
                         eq_refl))).
Defined.

Lemma X12_shot_consumes_reported_ammo_witness :
  canFireWeapon rifleInHand = Some true
  /\ success (fst (fire (host := referenceHost) rifle10 rifleConfig "p1" (0, 0)%Q (1, 0)%Q
                     (PRNG.new 12345))) = true.
Proof.
  split; [reflexivity |].
  exact (proj1 (X12_shot_consumes_reported_ammo (host := referenceHost) rifleInHand rifle10
                  rifleConfig "p1" (0, 0)%Q (1, 0)%Q (PRNG.new 12345)
                  eq_refl eq_refl eq_refl)).
Defined.

Lemma X14_projectile_never_hits_its_owner_witness :
  match simulateProjectile (host := referenceHost) nearMiss
          [createPlayer "p1" 0 0; createPlayer "p2" (5 # 2) 0] (1 # 20) (PRNG.new 12345)
  with
  | (_, Some h, _) => entityId h = Some "p2"%string
  | _ => False
  end.
Proof.
  destruct (simulateProjectile (host := referenceHost) nearMiss
              [createPlayer "p1" 0 0; createPlayer "p2" (5 # 2) 0] (1 # 20)
              (PRNG.new 12345)) as [[p' [h |]] prng'] eqn:E;
    [| vm_compute in E; discriminate].
  destruct (X14_projectile_never_hits_its_owner (host := referenceHost) _ _ _ _ _ _ _ E)
    as (_ & e & He & Hid & Hne).
  rewrite Hid. f_equal.
  destruct He as [<- | [<- | []]]; [| reflexivity].
  exfalso. apply Hne. reflexivity.
Defined.

Lemma X16_applyGravity_stops_at_the_floor_witness :
  Js.truthy (Entity.onGround faller) = false
  /\ (0 <= Entity.y (applyGravity faller (1 # 20) []))%Q.
Proof.
  split; [reflexivity |].
  assert (Hg : forall g : Entity.t, In g [] -> (0 <= Entity.y g + Entity.h g)%Q)
    by (intros g []).
  exact (proj1 (X16_applyGravity_stops_at_the_floor faller (1 # 20) [] eq_refl Hg)).
Defined.

Lemma X17_stance_follows_the_input_witness :
  Entity.type (createPlayer "p1" 0 0) = player
  /\ Js.truthy
       (Entity.isCrouching
          (processEntityMovement (host := referenceHost) (createPlayer "p1" 0 0)
             crouchRightInput (1 # 20) 1 []))
     = Js.truthy (Input.crouch crouchRightInput).
Proof.
  split; [reflexivity |].
  exact (proj1 (X17_stance_follows_the_input (host := referenceHost) (createPlayer "p1" 0 0)
                  crouchRightInput (1 # 20) 1 [] eq_refl)).
Defined.

Lemma soundLoadout_createPlayer (id : string) (x y : Q) :
  soundLoadout (createPlayer id x y).
Proof.
  intros _ inv E. cbn in E. inversion E; subst. exact wellFormed_createDefaultInventory.
Qed.

Lemma armedWorld_sound : Forall soundLoadout (State.entities (World.state armedWorld)).
Proof.
  cbn. constructor; [apply soundLoadout_createPlayer |].
  constructor; [apply soundLoadout_createPlayer | constructor].
Qed.

Lemma armedStart_sound : Forall soundLoadout (State.entities armedStart).
Proof.
  cbn. constructor; [apply soundLoadout_createPlayer |].
  constructor; [apply soundLoadout_createPlayer | constructor].
Qed.

Lemma C1_cross_run_determinism_witness :
  Forall soundLoadout (State.entities armedStart)
  /\ determined (host := referenceHost) (World.new (Some armedStart) 20%Q (Some 12345))
       [[shootRight]; []] [true; false; false; true]
       (independentRuns (host := referenceHost) armedStart 20%Q (Some 12345)
          [[shootRight]; []] [true; false; false; true] []).
Proof.
  split; [exact armedStart_sound |].
  exact (proj2 (C1_cross_run_determinism (host := referenceHost)) armedStart 20%Q
           (Some 12345) [[shootRight]; []] [true; false; false; true] []
           armedStart_sound).
Defined.

(** Independence is needed.  Two worlds constructed on one state object,
    whose player shoots in the first tick: the first world writes the state
    of its PRNG after the shot into the shared object, the second world
    copies it into the state it commits, and the two observations after
    the first tick differ. *)
Lemma shared_state_object_diverges :
  match sharedRuns (host := referenceHost) armedStart 20%Q (Some 12345) [[shootRight]]
          [true; false] [] with
  | Some ([oa], [ob]) => snd (fst oa) = Some 12345 /\ snd (fst ob) <> Some 12345
  | _ => False
  end.
Proof. vm_compute. split; [reflexivity | discriminate]. Qed.

Lemma X20_tick_never_throws_witness :
  Forall soundLoadout (State.entities (World.state armedWorld))
  /\ exists superseded w',
       World.tick (host := referenceHost) armedWorld [shootRight] = Some (superseded, w')
       /\ Forall soundLoadout (State.entities (World.state w')).
Proof.
  split; [exact armedWorld_sound |].
  exact (proj1 (X20_tick_never_throws (host := referenceHost) armedWorld armedWorld_sound)
           [shootRight]).
Defined.

Lemma X19_tick_keeps_entities_and_never_heals_witness :
  exists superseded w',
    World.tick (host := referenceHost) armedWorld [shootRight] = Some (superseded, w')
    /\ Forall2 afterTick (filter outlivesStep (State.entities (World.state armedWorld)))
         (State.entities (World.state w')).
Proof.
  destruct (tick_total (host := referenceHost) armedWorld [shootRight] armedWorld_sound)
    as (superseded & w' & E & _).
  exists superseded, w'. split; [exact E |].
  exact (X19_tick_keeps_entities_and_never_heals (host := referenceHost) armedWorld w'
           superseded [shootRight] E).
Defined.

Lemma X21_tick_projectiles_in_flight_witness :
  Forall inFlight (World.activeProjectiles armedWorld)
  /\ exists superseded w',
       World.tick (host := referenceHost) armedWorld [shootRight] = Some (superseded, w')
       /\ Forall (fun p => isLive p = true /\ Projectile.isHitscan p = false
                           /\ 0 < Projectile.lifetime p <= 119)
            (World.activeProjectiles w').
Proof.
  assert (H0 : Forall inFlight (World.activeProjectiles armedWorld)) by constructor.
  split; [exact H0 |].
  destruct (tick_total (host := referenceHost) armedWorld [shootRight] armedWorld_sound)
    as (superseded & w' & E & _).
  exists superseded, w'. split; [exact E |].
  exact (X21_tick_projectiles_in_flight (host := referenceHost) armedWorld w' superseded
           [shootRight] E H0).
Defined.

Lemma X22_mergeInputs_later_map_wins_witness :
  NoDup (Obj.keys crouchRight)
  /\ Obj.get "p1" (World.mergeInputs ([moveRight] ++ [crouchRight]))
     = Some crouchRightInput.
Proof.
  assert (H : NoDup (Obj.keys crouchRight)).
  { constructor; [intros [] | constructor]. }
  split; [exact H |].
  exact (proj1 (X22_mergeInputs_later_map_wins [moveRight] crouchRight "p1" H)).
Defined.

Lemma X24_zero_seed_world_draws_only_zero_witness :
  Js.toInt32 0 = 0
  /\ fst (PRNG.next (afterDraws 5 (World.prng (World.createWorld (Some 0) None)))) = 0.
Proof.
  split; [reflexivity |].
  exact (proj1 (X24_zero_seed_world_draws_only_zero 0 None 5 eq_refl)).
Defined.

Lemma referenceHost_sqrt_zero (q : Q) :
  q == 0 -> Js.ltb (Math_sqrt (Host := referenceHost) q) 1 = true.
Proof.
  intros H. cbn [Math_sqrt referenceHost]. unfold sqrtApprox.
  assert (E : Qle_bool q 0 = true) by (apply Qle_bool_iff; rewrite H; apply Qle_refl).
  rewrite E. reflexivity.
Qed.

Lemma X25_spawnPlayer_occupies_its_point_witness :
  SpawnSystem.canSpawnAt (host := referenceHost)
    (snd (SpawnSystem.spawnPlayer (host := referenceHost) [] "p1" homePoint))
    (sp_x homePoint) (sp_y homePoint) 1 = false.
Proof.
  exact (proj1 (X25_spawnPlayer_occupies_its_point (host := referenceHost) [] "p1" "p2"
                  homePoint referenceHost_sqrt_zero)).
Defined.


Lemma X26_handlePlayerKill_totals_witness :
  match MatchRunner.handlePlayerKill
          (MatchRunner.initializePlayerStates ["p1"; "p2"]%string) "p1" "p2" with
  | Some playerStates' => columnTotal PlayerMatchState.score playerStates' = 50
  | None => False
  end
  /\ match MatchRunner.handlePlayerKill
            (MatchRunner.initializePlayerStates ["p1"; "p2"]%string) "toString" "p1" with
     | Some playerStates' => columnTotal PlayerMatchState.score playerStates' = -50
     | None => False
     end.
Proof.
  split.
  - destruct (MatchRunner.handlePlayerKill
                (MatchRunner.initializePlayerStates ["p1"; "p2"]%string) "p1" "p2")
      as [playerStates' |] eqn:E; [| vm_compute in E; discriminate].
    destruct (X26_handlePlayerKill_totals _ _ _ _ E) as (_ & _ & H & _).
    rewrite H. reflexivity.
  - destruct (MatchRunner.handlePlayerKill
                (MatchRunner.initializePlayerStates ["p1"; "p2"]%string) "toString" "p1")
      as [playerStates' |] eqn:E; [| vm_compute in E; discriminate].
    destruct (X26_handlePlayerKill_totals _ _ _ _ E) as (_ & _ & H & _).
    rewrite H. reflexivity.
Defined.

Lemma X27_processTick_overwrites_rng_witness :
  match MatchRunner.processTick (host := referenceHost)
          (MatchRunner.new 12345 ["p1"; "p2"]%string) [] with
  | Some r' => State.rng (World.state (MatchRunner.world r')) = Some 12345
  | None => False
  end.
Proof.
  destruct (MatchRunner.processTick (host := referenceHost)
              (MatchRunner.new 12345 ["p1"; "p2"]%string) [])
    as [r' |] eqn:E; [| vm_compute in E; discriminate].
  destruct (X27_processTick_overwrites_rng (host := referenceHost) _ _ _ E) as (H & _).
  cbv zeta in H. rewrite H. reflexivity.
Defined.

Lemma X28_weapon_helpers_agree_with_inventory_witness :
  getActiveWeapon rifleInHand = Some rifle10
  /\ (shouldAutoReload rifle10 rifleConfig = true ->
      canFire rifle10 rifleConfig = false /\ canFireWeapon rifleInHand = Some false).
Proof.
  split; [reflexivity |].
  exact (proj2 (X28_weapon_helpers_agree_with_inventory rifleInHand rifle10 rifleConfig
                  eq_refl eq_refl)).
Defined.
